(* ===== verification/_CoqProject ===== *)
-Q . S2P
Prelude.v
BTree.v
Float64.v
Values.v
Types.v
TypeCodec.v
Ast.v
Intrinsics.v
Catalog.v
Eval.v
Workflows.v
Parameters.v
Validation.v
Comm.v
Broker.v
