(* ===== verification/Prelude.v ===== *)
(** * Runinator: a verification library for the workflow runtime

    Runinator runs workflows: graphs of nodes whose parameters, conditions and
    transitions are JSON-like values with embedded expressions.  A web service keeps
    the runs and decides the next node (the reducer), workers execute actions, and a
    broker carries commands, results and wake-ups between them.  This library models
    the parts that decide what a workflow means, and the broker that connects the
    services, and proves what they promise.

    ** Parts and how they interact

    Everything is built on the dynamic values of [runinator-models/src/value.rs].  The
    type model ([types.rs]) classifies values; expressions, conditions and compute
    blocks ([workflow_ast.rs]) are parsed from values; the evaluator
    ([runinator-workflows]: [expressions.rs], [functions.rs], [conditions.rs],
    [compute.rs]) resolves them against the context of a run and calls the intrinsic
    library; workflow nodes ([workflows.rs]) carry conditions whose evaluation selects
    the next node; actions of a node become commands ([runinator-comm]) that the broker
    ([runinator-broker]) hands to workers and takes results back from.

    - [Prelude.v]: results, machine integers, Rust strings (byte strings; characters
      are found by their UTF-8 structure) and the generic lemmas and tactics.
    - [BTree.v]: [BTreeMap<String, V>] as sorted association lists.
    - [Float64.v]: IEEE binary64 on the standard library's [SpecFloat].
    - [Values.v]: [value.rs].  Numbers are [PosInt], [NegInt] or [Float]; [Externals]
      is the class of what the sources call and do not define.
    - [Types.v]: [types.rs]: validation, assignability, unification, inference.
    - [TypeCodec.v]: the native and the JSON-Schema encodings of types.
    - [Ast.v]: [workflow_ast.rs]: parsing and serialization of expressions, conditions
      and programs, and the error type of [errors.rs].
    - [Intrinsics.v]: the pure intrinsics of [compute.rs] and their dispatch.
    - [Catalog.v]: their names, modules, arities, signatures and inferred result types.
    - [Eval.v]: the evaluator as one recursion over an abstract evaluator, closed by
      fuel; conditions, compute blocks, closures, user functions, input defaults.
    - [Workflows.v]: [workflows.rs], [run_state.rs], [refs.rs] and [next_transition].
    - [Parameters.v]: [parameters.rs]: the parameters of each kind of node, the nodes and
      values they refer to, and the routing of switch, toggle and percentage nodes.
    - [Validation.v]: [validation.rs]: the checks of a workflow before it may run.
    - [Comm.v]: the messages, targets and dedupe keys of [runinator-comm].
    - [Broker.v]: [in_memory.rs] and [types.rs] of [runinator-broker].

    State is explicit: the evaluator threads a context value, the broker operations map
    a channel (queue, leases, dedupe keys) and the number of ids drawn to the next.  A
    Rust [Result] is [result]; a Rust panic does not occur in a modelled function unless
    the model says so.  Integers are [Z] with their range tested or wrapped as the
    source does it.

    ** What the theorems show

    - Types: [validate_value] accepts exactly the denotation of a type; assignability is
      sound on closed source types (and unsound otherwise); unification is an upper
      bound; inference is sound; the native encoding round-trips.
    - Syntax: parsing, serializing and parsing again is stable; the quoting form
      [$literal] is lost.
    - Intrinsics: names, arities, modules, signatures and dispatch agree in both
      directions; results have their declared types ([reverse] excepted); [sort] is
      stable and sorted on homogeneous lists; the argument-dependent typing is sound for
      the transforms, and for the accessors and reshaping intrinsics up to missing
      elements and the corners that [element_access_typed] and [reshape_exact] name, where
      it is refuted ([intrinsic_result_type_unsound]).
    - Evaluation: call-free expressions terminate within the size of their wire form;
      first-order programs over any table of user functions, recursive or not, terminate
      within the sizes of the bodies and the depth limit ([function_recursion_bounded]),
      while closures recurse without bound; the typed and untyped condition evaluators agree except on
      null sub-conditions; filling input defaults terminates and overwrites nothing.
    - Workflows: reference expansion terminates, detects cycles and is complete on bare
      references; the next node is that of the first true branch in priority order, else
      of the status; joins and races agree; status names are a bijection.
    - Routing: a percentage node routes every key to the bucket whose range of slots
      holds its hash ([percentage_routes]).
    - Validation: it answers on every workflow; an accepted workflow has distinct ids,
      its start and end, and references that lead where they may; a passed cycle check
      means that no reachable transition cycle avoids every node that bounds its re-entry,
      a failed one that a simple path from the start returns to a node that does not (what
      lies between depends on where the walk enters a cycle);
      releases of a lock come after acquires on every path; the bodies of concurrent maps
      are isolated; routing from a node of an accepted workflow stays inside it.
    - Broker: a channel neither loses nor duplicates messages ([at_least_once]);
      publication is rejected exactly while the key is undelivered; a live lease is
      exclusive, and an ended lease is unknown for ever; targeted receives take the first
      match and strand none; stale controls are dropped; every reachable broker state is
      a run of each channel, so the channel theorems hold of the broker.

    ** Fuel

    [eval_fuel] bounds the nesting of evaluations and reports [OutOfFuel], which is not
    one of the program's errors; an answer does not change with more fuel
    ([eval_fuel_irrelevant]), and [call_free_terminates] and [function_recursion_bounded]
    say how much is enough.  [validate_assignable_to] runs with the sum of the sizes of the
    two types; running out is an answer of its own ([Exhausted]), which
    [assignable_fuel_enough] proves never to occur.  [expr_parse] and
    [condition_parse] run with the size of the value.  [expand_refs_in_value] counts
    nested definitions; [expand_refs_terminates] bounds them by the references of the
    document.  The depth-first walk of the cycle check has one unit of fuel for each
    transition target and the start, the worklists of the other checks one for each edge;
    [validate_workflow_sound] shows that no workflow exhausts them.

    ** Not modelled

    Serde derives and JSON text, regular expressions, [chrono], base64 and Unicode case
    tables are parameters ([Externals]); UUID generation and text, and the hash of an
    action command, are parameters ([IdSource], [CommExternals]).  The parser of the
    workflow language and its lowering, the typing of whole workflows,
    the reducer's node handlers, the web service, the database, the workers and the
    remote broker backends are not modelled; nor are the wake-ups of blocked receivers
    and the fan-out of UI events. *)

From Stdlib Require Export Ascii String OrderedTypeEx Sorted SpecFloat.
From stdpp Require Export base tactics list strings pretty numbers.

Declare Scope run_scope.
Delimit Scope run_scope with run.
Open Scope run_scope.

#[global] Set Default Goal Selector "!".

(** ** Results

    Rust's [Result<A, E>]: the error type comes first so that [result E] is a
    monad and stdpp's [x ← e; k] notation and [mapM] apply.  [mapM] stops at the
    first error in list order, as [collect::<Result<Vec<_>, _>>()] does. *)

Inductive result (E A : Type) : Type :=
| Ok (a : A)
| Err (e : E).
Arguments Ok {E A} a.
Arguments Err {E A} e.

#[export] Instance result_ret E : MRet (result E) := fun A a => Ok a.
#[export] Instance result_bind E : MBind (result E) :=
  fun A B f r => match r with Ok a => f a | Err e => Err e end.
#[export] Instance result_fmap E : FMap (result E) :=
  fun A B f r => match r with Ok a => Ok (f a) | Err e => Err e end.

Definition is_ok {E A} (r : result E A) : bool :=
  match r with Ok _ => true | Err _ => false end.

(** [Option::ok_or_else]. *)
Definition ok_or {E A} (o : option A) (e : E) : result E A :=
  match o with Some a => Ok a | None => Err e end.

(** ["r ⇓ a"]: the computation returns [a]. *)
Notation "r ⇓ a" := (r = Ok a) (at level 70) : run_scope.

#[export] Instance result_eq_dec E A `{EqDecision E, EqDecision A} :
  EqDecision (result E A).
Proof. solve_decision. Defined.

Lemma bind_ok {E A B} (r : result E A) (f : A -> result E B) b :
  r ≫= f = Ok b -> exists a, r = Ok a /\ f a = Ok b.
Proof. destruct r; cbn; [eauto | discriminate]. Qed.

Lemma mapM_ok_Forall2 {E A B} (f : A -> result E B) l k :
  mapM f l = Ok k <-> Forall2 (fun x y => f x = Ok y) l k.
Proof.
  split.
  - revert k. induction l as [|x l IH]; intros k; cbn.
    + intros [= <-]. constructor.
    + destruct (f x) as [y|e] eqn:Hf; cbn; [|discriminate].
      destruct (mapM f l) as [k'|e] eqn:Hm; cbn; [|discriminate].
      intros [= <-]. constructor; [done|]. by apply IH.
  - induction 1 as [|x y l k Hf _ IH]; cbn; [done|].
    by rewrite Hf; cbn; rewrite IH.
Qed.

Lemma mapM_ok_map {E A B} (f : A -> result E B) (g : A -> B) l :
  Forall (fun x => f x = Ok (g x)) l -> mapM f l = Ok (map g l).
Proof.
  induction 1 as [|x l Hf _ IH]; cbn; [done|]. by rewrite Hf; cbn; rewrite IH.
Qed.

Lemma mapM_map_id {E A B} (f : B -> result E A) (g : A -> B) l :
  Forall (fun x => f (g x) = Ok x) l -> mapM f (map g l) = Ok l.
Proof. induction 1 as [|x l Hx _ IH]; cbn; [done|]. by rewrite Hx; cbn; rewrite IH. Qed.

Lemma mapM_ext_In {E A B} (f g : A -> result E B) l :
  (forall x, In x l -> f x = g x) -> mapM f l = mapM g l.
Proof.
  induction l as [|x l IH]; intros H; cbn; [done|].
  rewrite (H x) by by left. destruct (g x); cbn; [|done]. rewrite IH; [done|]. intros y Hy. apply H. by right.
Qed.

Lemma mapM_map {E A B C} (f : B -> result E C) (g : A -> B) l : mapM f (map g l) = mapM (fun x => f (g x)) l.
Proof. induction l as [|x l IH]; cbn; [done|]. destruct (f (g x)); cbn; [|done]. by rewrite IH. Qed.

Lemma find_first {A} (f : A -> bool) l x : List.find f l = Some x ->
  exists before after, l = before ++ x :: after /\ f x = true /\ forall y, In y before -> f y = false.
Proof.
  induction l as [|z l IH]; cbn; [done|]. destruct (f z) eqn:Hz.
  - intros [= ->]. by exists [], l.
  - intros (before & after & -> & Hx & Hb)%IH. exists (z :: before), after. split; [done|]. split; [done|].
    intros y [<-|Hy]; [done|by apply Hb].
Qed.

(** Split a hypothesis about a successful sequence of binds into its steps. *)
Ltac res_inv :=
  repeat match goal with
  | H : mbind _ _ = Ok _ |- _ =>
      let a := fresh "a" in let H1 := fresh "Hr" in
      apply bind_ok in H as (a & H1 & H)
  | H : Ok _ = Ok _ |- _ => injection H as H; subst
  | H : Err _ = Ok _ |- _ => discriminate H
  | H : mret _ = Ok _ |- _ => injection H as H; subst
  end.

(** Destruct the scrutinee of the first match of the goal, keeping its equation. *)
Ltac case_goal :=
  match goal with
  | |- context [match ?x with _ => _ end] => destruct x eqn:?
  end.

(** Destruct the scrutinee of the first match of a hypothesis. *)
Ltac case_hyp H :=
  match type of H with
  | context [match ?x with _ => _ end] => destruct x eqn:?
  end.

(** ** Machine integers

    A Rust integer is a [Z] in the range of its type; the wrapping operations
    write the wrap-around out. *)

Definition i64_min : Z := -9223372036854775808.
Definition i64_max : Z := 9223372036854775807.
Definition u64_max : Z := 18446744073709551615.

Definition in_i64 (z : Z) : bool := (i64_min <=? z)%Z && (z <=? i64_max)%Z.
Definition in_u64 (z : Z) : bool := (0 <=? z)%Z && (z <=? u64_max)%Z.

Definition wrap_i64 (z : Z) : Z := ((z + 9223372036854775808) mod 18446744073709551616 - 9223372036854775808)%Z.
Definition wrap_u64 (z : Z) : Z := (z mod 18446744073709551616)%Z.

(** [saturating] conversions and arithmetic of [i64]. *)
Definition sat_i64 (z : Z) : Z := Z.max i64_min (Z.min i64_max z).

(** [i64::checked_div] and [i64::checked_rem]: [None] on a zero divisor and on
    [i64::MIN / -1]; division truncates towards zero. *)
Definition checked_div_i64 (a b : Z) : option Z :=
  if (b =? 0)%Z || ((a =? i64_min)%Z && (b =? -1)%Z) then None else Some (Z.quot a b).
Definition checked_rem_i64 (a b : Z) : option Z :=
  if (b =? 0)%Z || ((a =? i64_min)%Z && (b =? -1)%Z) then None else Some (Z.rem a b).

Lemma wrap_i64_range z : in_i64 (wrap_i64 z) = true.
Proof.
  unfold in_i64, wrap_i64, i64_min, i64_max.
  pose proof (Z.mod_pos_bound (z + 9223372036854775808) 18446744073709551616 eq_refl).
  apply andb_true_intro; split; apply Z.leb_le; lia.
Qed.

Lemma wrap_i64_id z : in_i64 z = true -> wrap_i64 z = z.
Proof.
  unfold in_i64, wrap_i64, i64_min, i64_max. intros [H1 H2]%andb_prop.
  apply Z.leb_le in H1, H2. rewrite Z.mod_small; lia.
Qed.

Lemma sat_i64_range z : in_i64 (sat_i64 z) = true.
Proof.
  unfold in_i64, sat_i64, i64_min, i64_max.
  apply andb_true_intro; split; apply Z.leb_le; lia.
Qed.

Lemma in_i64_spec z : in_i64 z = true <-> (i64_min <= z <= i64_max)%Z.
Proof. unfold in_i64. rewrite andb_true_iff, !Z.leb_le. lia. Qed.

Lemma in_u64_spec z : in_u64 z = true <-> (0 <= z <= u64_max)%Z.
Proof. unfold in_u64. rewrite andb_true_iff, !Z.leb_le. lia. Qed.

(** The checked quotient is in range. *)
Lemma checked_div_range a b : in_i64 a = true -> in_i64 b = true ->
  (b =? 0)%Z || ((a =? i64_min)%Z && (b =? -1)%Z) = false -> in_i64 (Z.quot a b) = true.
Proof.
  rewrite !in_i64_spec, orb_false_iff, andb_false_iff, !Z.eqb_neq. unfold i64_min, i64_max. intros Ha Hb [Hz Hm].
  destruct (Z.eq_dec (Z.abs b) 1%Z) as [E|E].
  - assert (b = 1 \/ b = -1)%Z as [-> | ->] by lia; [rewrite Z.quot_1_r; lia|].
    change (-1)%Z with (Z.opp 1%Z). rewrite (Z.quot_opp_r a 1%Z) by lia. rewrite Z.quot_1_r. lia.
  - assert (Hq : (2 * Z.abs (Z.quot a b) <= Z.abs a)%Z); [|lia].
    rewrite <- Z.quot_abs, Z.quot_div_nonneg by lia.
    pose proof (Z.mul_div_le (Z.abs a) (Z.abs b)). pose proof (Z.div_pos (Z.abs a) (Z.abs b)). nia.
Qed.

(** ** Strings

    A Rust [String] is its sequence of UTF-8 bytes, one [ascii] per byte;
    [str]'s equality, ordering, prefix, suffix and substring tests are those of
    the bytes. *)

Definition str_lt (a b : string) : Prop := String.compare a b = Lt.

Fixpoint str_ends_with (s suffix : string) : bool :=
  if String.eqb s suffix then true
  else match s with
       | EmptyString => false
       | String _ s' => str_ends_with s' suffix
       end.

Fixpoint str_contains (s needle : string) : bool :=
  if String.prefix needle s then true
  else match s with
       | EmptyString => false
       | String _ s' => str_contains s' needle
       end.

(** [strip_prefix]. *)
Fixpoint str_strip_prefix (prefix s : string) : option string :=
  match prefix, s with
  | EmptyString, _ => Some s
  | String a p, String b s' => if Ascii.eqb a b then str_strip_prefix p s' else None
  | String _ _, EmptyString => None
  end.

(** [s.split(c)] for a one-byte separator: always at least one piece. *)
Fixpoint str_split_byte (c : ascii) (s : string) : list string :=
  match s with
  | EmptyString => [EmptyString]
  | String a s' =>
      if Ascii.eqb a c then EmptyString :: str_split_byte c s'
      else match str_split_byte c s' with
           | piece :: rest => String a piece :: rest
           | [] => [String a EmptyString]
           end
  end.

(** [s.replace(from, to)] for a two-byte [from] and a one-byte [to]. *)
Fixpoint str_replace2 (a b to : ascii) (s : string) : string :=
  match s with
  | String x (String y s' as rest) =>
      if Ascii.eqb x a && Ascii.eqb y b then String to (str_replace2 a b to s')
      else String x (str_replace2 a b to rest)
  | _ => s
  end.

(** Continuation bytes of UTF-8 are [10xxxxxx]. *)
Definition is_continuation (c : ascii) : bool :=
  (N_of_ascii c / 64 =? 2)%N.

(** [s.chars()], each [char] kept as the bytes that encode it: a new character
    starts at every byte that is not a continuation byte. *)
Fixpoint str_chars (s : string) : list string :=
  match s with
  | EmptyString => []
  | String c s' =>
      match s' with
      | String d _ =>
          if is_continuation d then
            match str_chars s' with
            | ch :: rest => String c ch :: rest
            | [] => [String c EmptyString]
            end
          else String c EmptyString :: str_chars s'
      | EmptyString => [String c EmptyString]
      end
  end.

Fixpoint str_concat (l : list string) : string :=
  match l with
  | [] => EmptyString
  | s :: l' => String.append s (str_concat l')
  end.

(** Decimal digits, most significant first; [None] on an empty or non-digit string. *)
Definition digit_value (c : ascii) : option Z :=
  let n := Z.of_N (N_of_ascii c) in
  if (48 <=? n)%Z && (n <=? 57)%Z then Some (n - 48)%Z else None.

Fixpoint parse_digits_acc (s : string) (acc : Z) : option Z :=
  match s with
  | EmptyString => Some acc
  | String c s' =>
      match digit_value c with
      | Some d => parse_digits_acc s' (acc * 10 + d)%Z
      | None => None
      end
  end.

Definition parse_digits (s : string) : option Z :=
  match s with EmptyString => None | _ => parse_digits_acc s 0%Z end.

(** [str::parse::<u64>] (and [usize], 64 bits wide): an optional [+], then at
    least one digit, within range. *)
Definition parse_u64 (s : string) : option Z :=
  let digits := match s with String "+"%char rest => rest | _ => s end in
  match parse_digits digits with
  | Some z => if in_u64 z then Some z else None
  | None => None
  end.

(** [str::parse::<i64>]: an optional sign, then at least one digit, within range. *)
Definition parse_i64 (s : string) : option Z :=
  let parsed :=
    match s with
    | String "+"%char rest => parse_digits rest
    | String "-"%char rest => option_map Z.opp (parse_digits rest)
    | _ => parse_digits s
    end in
  match parsed with
  | Some z => if in_i64 z then Some z else None
  | None => None
  end.

#[local] Open Scope string_scope.

(** [str::parse::<i64>] with the [Display] of its [ParseIntError]. *)
Fixpoint parse_i64_digits (negative : bool) (s : string) (acc : Z) : result string Z :=
  match s with
  | EmptyString => Ok acc
  | String c s' =>
      match digit_value c with
      | None => Err "invalid digit found in string"
      | Some d =>
          let next := if negative then (acc * 10 - d)%Z else (acc * 10 + d)%Z in
          if in_i64 next then parse_i64_digits negative s' next
          else Err (if negative then "number too small to fit in target type"
                    else "number too large to fit in target type")
      end
  end.

Definition parse_i64_result (s : string) : result string Z :=
  match s with
  | EmptyString => Err "cannot parse integer from empty string"
  | String "+" EmptyString | String "-" EmptyString => Err "invalid digit found in string"
  | String "+" rest => parse_i64_digits false rest 0
  | String "-" rest => parse_i64_digits true rest 0
  | _ => parse_i64_digits false s 0
  end.

(** A [char] (as its bytes) with Unicode property [White_Space]. *)
Definition bytes_string (l : list nat) : string := fold_right (fun n s => String (ascii_of_nat n) s) EmptyString l.

Definition WHITESPACE : list string :=
  map bytes_string
    ([[9]; [10]; [11]; [12]; [13]; [32]; [194; 133]; [194; 160]; [225; 154; 128];
      [226; 128; 168]; [226; 128; 169]; [226; 128; 175]; [226; 129; 159]; [227; 128; 128]]
     ++ map (fun n => [226; 128; 128 + n]) (seq 0 11)).

Definition is_whitespace (ch : string) : bool := existsb (String.eqb ch) WHITESPACE.

Fixpoint drop_while {A} (f : A -> bool) (l : list A) : list A :=
  match l with
  | [] => []
  | x :: l' => if f x then drop_while f l' else l
  end.

(** [str::trim]. *)
Definition str_trim (s : string) : string :=
  str_concat (rev (drop_while is_whitespace (rev (drop_while is_whitespace (str_chars s))))).

(** [s.split(sep)] for a non-empty [sep]: leftmost, non-overlapping matches. *)
Fixpoint str_split_go (sep s : string) (skip : nat) : list string :=
  match s with
  | EmptyString => [EmptyString]
  | String c s' =>
      match skip with
      | S skip' => str_split_go sep s' skip'
      | O =>
          if String.prefix sep s then EmptyString :: str_split_go sep s' (String.length sep - 1)
          else match str_split_go sep s' 0 with
               | piece :: rest => String c piece :: rest
               | [] => [String c EmptyString]
               end
      end
  end.

Definition str_split (sep s : string) : list string := str_split_go sep s 0.

Fixpoint str_join (sep : string) (l : list string) : string :=
  match l with
  | [] => EmptyString
  | [s] => s
  | s :: l' => s ++ sep ++ str_join sep l'
  end.

(** [s.replace(from, to)]: an empty pattern matches around every [char]. *)
Definition str_replace (from to s : string) : string :=
  if String.eqb from "" then to ++ str_concat (map (fun ch => ch ++ to) (str_chars s))
  else str_join to (str_split from s).
