(* ===== verification/BTree.v ===== *)
(** * Ordered string-keyed maps

    [std::collections::BTreeMap<String, V>], the map of every JSON object and
    of every struct type: an association list whose keys are strictly
    increasing in byte order.  Iteration is list order.  [sorted] is the
    representation invariant; every operation preserves it, and two sorted maps
    with the same lookups are equal. *)

From S2P Require Import Prelude.

Abbreviation btree V := (list (string * V)).

Section btree.
Context {V : Type}.
Implicit Types (m : btree V) (k : string) (v : V).

Fixpoint bt_get k m : option V :=
  match m with
  | [] => None
  | (k', v') :: m' => if String.eqb k k' then Some v' else bt_get k m'
  end.

Definition bt_contains k m : bool :=
  match bt_get k m with Some _ => true | None => false end.

(** [BTreeMap::insert]: replace the value of an existing key. *)
Fixpoint bt_insert k v m : btree V :=
  match m with
  | [] => [(k, v)]
  | (k', v') :: m' =>
      match String.compare k k' with
      | Lt => (k, v) :: m
      | Eq => (k, v) :: m'
      | Gt => (k', v') :: bt_insert k v m'
      end
  end.

Fixpoint bt_remove k m : btree V :=
  match m with
  | [] => []
  | (k', v') :: m' => if String.eqb k k' then m' else (k', v') :: bt_remove k m'
  end.

(** [map.entry(k).or_insert(v)] as a statement: insert only when absent. *)
Definition bt_or_insert k v m : btree V :=
  match bt_get k m with Some _ => m | None => bt_insert k v m end.

(** [Extend]: insert every pair of the iterator in order. *)
Definition bt_extend m (l : list (string * V)) : btree V :=
  foldl (fun acc kv => bt_insert kv.1 kv.2 acc) m l.

(** [FromIterator]: later duplicates win. *)
Definition bt_from_list (l : list (string * V)) : btree V := bt_extend [] l.

Definition bt_keys m : list string := map fst m.
Definition bt_values m : list V := map snd m.

(** The representation invariant. *)
Definition sorted m : Prop := StronglySorted str_lt (bt_keys m).

End btree.

(** ** The order on keys *)

Lemma str_compare_refl s : String.compare s s = Eq.
Proof.
  induction s as [|c s IH]; cbn; [done|].
  unfold Ascii.compare. by rewrite N.compare_refl.
Qed.

Lemma str_compare_eq a b : String.compare a b = Eq <-> a = b.
Proof.
  split; [apply String.compare_eq_iff | intros ->; apply str_compare_refl].
Qed.

Lemma str_lt_cmp a b : str_lt a b <-> String_as_OT.cmp a b = Lt.
Proof.
  done.
Qed.

Lemma str_lt_trans a b c : str_lt a b -> str_lt b c -> str_lt a c.
Proof.
  rewrite !str_lt_cmp. intros H1 H2. rewrite !String_as_OT.cmp_lt in *.
  by eapply String_as_OT.lt_trans.
Qed.

Lemma str_lt_irrefl a : ~ str_lt a a.
Proof. unfold str_lt. by rewrite str_compare_refl. Qed.

Lemma str_compare_gt a b : String.compare a b = Gt <-> str_lt b a.
Proof.
  unfold str_lt. rewrite (String.compare_antisym b a).
  destruct (String.compare a b); cbn; split; done.
Qed.

Lemma str_lt_neq a b : str_lt a b -> a <> b.
Proof. intros H ->. by apply str_lt_irrefl in H. Qed.

#[export] Instance str_lt_transitive : Transitive str_lt.
Proof. intros a b c. apply str_lt_trans. Qed.

Create HintDb btree.
#[export] Hint Resolve str_lt_trans str_lt_irrefl str_lt_neq : btree.

(** ** Lookup, insertion, removal *)

Section lemmas.
Context {V : Type}.
Implicit Types (m : btree V) (k : string) (v : V).

Lemma bt_get_insert k k' v m :
  bt_get k' (bt_insert k v m) = if String.eqb k' k then Some v else bt_get k' m.
Proof.
  induction m as [|[j w] m IH]; cbn.
  - by destruct (String.eqb k' k).
  - destruct (String.compare k j) eqn:Hc; cbn.
    + apply str_compare_eq in Hc as ->. by destruct (String.eqb_spec k' j).
    + by destruct (String.eqb k' k).
    + rewrite IH. destruct (String.eqb_spec k' j), (String.eqb_spec k' k); subst; try done.
      by rewrite str_compare_refl in Hc.
Qed.

Lemma bt_get_insert_eq k v m : bt_get k (bt_insert k v m) = Some v.
Proof. by rewrite bt_get_insert, String.eqb_refl. Qed.

Lemma bt_get_insert_ne k k' v m : k' <> k -> bt_get k' (bt_insert k v m) = bt_get k' m.
Proof. intros Hne. rewrite bt_get_insert. by destruct (String.eqb_spec k' k). Qed.

Lemma bt_contains_get k m : bt_contains k m = true <-> exists v, bt_get k m = Some v.
Proof. unfold bt_contains. destruct (bt_get k m); naive_solver. Qed.

Lemma bt_get_In k v m : bt_get k m = Some v -> In (k, v) m.
Proof.
  induction m as [|[j w] m IH]; cbn; [done|].
  destruct (String.eqb_spec k j); [|by auto]. intros [= ->]. subst. by left.
Qed.

Lemma bt_get_None k m : bt_get k m = None <-> ~ In k (bt_keys m).
Proof.
  induction m as [|[j w] m IH]; cbn; [naive_solver|].
  destruct (String.eqb_spec k j); naive_solver.
Qed.

Lemma bt_insert_keys k v m j : In j (bt_keys (bt_insert k v m)) <-> j = k \/ In j (bt_keys m).
Proof.
  induction m as [|[i w] m IH]; cbn; [naive_solver|].
  destruct (String.compare k i) eqn:Hc; cbn.
  - apply str_compare_eq in Hc. naive_solver.
  - naive_solver.
  - rewrite IH. naive_solver.
Qed.

Lemma sorted_nil : sorted (@nil (string * V)).
Proof. constructor. Qed.

Lemma sorted_cons k v m :
  sorted ((k, v) :: m) <-> sorted m /\ Forall (str_lt k) (bt_keys m).
Proof.
  unfold sorted. cbn. split; [intros H; inversion H; subst; by split|intros []; by constructor].
Qed.

Lemma sorted_insert k v m : sorted m -> sorted (bt_insert k v m).
Proof.
  induction m as [|[j w] m IH]; cbn.
  - intros _. apply sorted_cons. split; [apply sorted_nil | constructor].
  - intros Hs. apply sorted_cons in Hs as [Hs Hlt].
    destruct (String.compare k j) eqn:Hc.
    + apply str_compare_eq in Hc as ->. by apply sorted_cons.
    + apply sorted_cons. split; [by apply sorted_cons|].
      constructor; [done|]. eapply List.Forall_impl; [|done].
      intros i Hi. by eapply str_lt_trans.
    + apply sorted_cons. split; [by apply IH|].
      apply List.Forall_forall. intros i [->|Hi]%bt_insert_keys.
      * by apply str_compare_gt.
      * by eapply List.Forall_forall in Hlt.
Qed.

Lemma bt_remove_subset k m j : In j (bt_keys (bt_remove k m)) -> In j (bt_keys m).
Proof.
  induction m as [|[i w] m IH]; cbn; [done|].
  destruct (String.eqb k i); cbn; naive_solver.
Qed.

Lemma sorted_remove k m : sorted m -> sorted (bt_remove k m).
Proof.
  induction m as [|[j w] m IH]; cbn; [done|].
  intros [Hs Hlt]%sorted_cons. destruct (String.eqb k j); [done|].
  apply sorted_cons. split; [by apply IH|].
  apply List.Forall_forall. intros i Hi%bt_remove_subset.
  by eapply List.Forall_forall in Hlt.
Qed.

Lemma sorted_extend m l : sorted m -> sorted (bt_extend m l).
Proof.
  unfold bt_extend. revert m. induction l as [|[k v] l IH]; intros m Hm; cbn; [done|].
  apply IH. by apply sorted_insert.
Qed.

Lemma sorted_from_list (l : list (string * V)) : sorted (bt_from_list l).
Proof. apply sorted_extend, sorted_nil. Qed.

Lemma sorted_head_get k v m j : sorted ((k, v) :: m) -> str_lt j k -> bt_get j ((k, v) :: m) = None.
Proof.
  intros [_ Hlt]%sorted_cons Hj. apply bt_get_None. cbn. intros [->|Hin].
  - by apply str_lt_irrefl in Hj.
  - eapply List.Forall_forall in Hlt; [|done].
    eapply str_lt_irrefl, str_lt_trans; done.
Qed.

Lemma sorted_NoDup m : sorted m -> List.NoDup (bt_keys m).
Proof.
  induction m as [|[k v] m IH]; cbn; [constructor|].
  intros [Hs Hlt]%sorted_cons. constructor; [|by apply IH].
  intros Hin. eapply List.Forall_forall in Hlt; [|done]. by apply str_lt_irrefl in Hlt.
Qed.

Lemma sorted_In_get k v m : sorted m -> In (k, v) m -> bt_get k m = Some v.
Proof.
  induction m as [|[j w] m IH]; cbn; [done|].
  intros [Hs Hlt]%sorted_cons [[= -> ->]|Hin]; [by rewrite String.eqb_refl|].
  destruct (String.eqb_spec k j) as [->|]; [|by apply IH].
  exfalso. eapply List.Forall_forall in Hlt; [|exact (in_map fst _ _ Hin)].
  by apply str_lt_irrefl in Hlt.
Qed.

(** Extensionality of sorted maps. *)
Lemma bt_ext m1 m2 : sorted m1 -> sorted m2 ->
  (forall k, bt_get k m1 = bt_get k m2) -> m1 = m2.
Proof.
  revert m2. induction m1 as [|[k v] m1 IH]; intros [|[k' v'] m2] H1 H2 Heq.
  - done.
  - specialize (Heq k'). cbn in Heq. by rewrite String.eqb_refl in Heq.
  - specialize (Heq k). cbn in Heq. by rewrite String.eqb_refl in Heq.
  - assert (k = k') as <-.
    { destruct (String.compare k k') eqn:Hc.
      - by apply str_compare_eq.
      - pose proof (sorted_head_get _ _ _ _ H2 Hc) as Hn. rewrite <- Heq in Hn.
        cbn in Hn. by rewrite String.eqb_refl in Hn.
      - apply str_compare_gt in Hc. pose proof (sorted_head_get _ _ _ _ H1 Hc) as Hn.
        rewrite Heq in Hn. cbn in Hn. by rewrite String.eqb_refl in Hn. }
    pose proof (Heq k) as Hk. cbn in Hk. rewrite String.eqb_refl in Hk. injection Hk as <-.
    f_equal. apply sorted_cons in H1 as [H1 L1], H2 as [H2 L2]. apply IH; [done..|].
    intros j. pose proof (Heq j) as Hj. cbn in Hj. destruct (String.eqb_spec j k) as [e|]; [|done].
    rewrite e.
    transitivity (@None V); [|symmetry]; apply bt_get_None; intros Hin.
    + eapply List.Forall_forall in L1; [|done]. by apply str_lt_irrefl in L1.
    + eapply List.Forall_forall in L2; [|done]. by apply str_lt_irrefl in L2.
Qed.

(** A sorted list is its own canonical form. *)
Lemma bt_insert_head k v m : sorted ((k, v) :: m) -> bt_insert k v m = (k, v) :: m.
Proof.
  destruct m as [|[j w] m]; cbn; [done|].
  intros [_ Hlt]%sorted_cons. cbn in Hlt. inversion Hlt as [|? ? Hj]; subst.
  unfold str_lt in Hj. by rewrite Hj.
Qed.

Lemma bt_get_extend_not_in (l : list (string * V)) m k :
  ~ In k (bt_keys l) -> bt_get k (bt_extend m l) = bt_get k m.
Proof.
  revert m. induction l as [|[j w] l IH]; intros m Hn; cbn in *; [done|].
  unfold bt_extend in *. cbn. rewrite IH by naive_solver.
  apply bt_get_insert_ne. naive_solver.
Qed.

Lemma bt_get_from_sorted (l m : btree V) k : sorted l ->
  bt_get k (bt_extend m l) = match bt_get k l with Some v => Some v | None => bt_get k m end.
Proof.
  revert m. induction l as [|[j w] l IH]; intros m Hs; [done|].
  apply sorted_cons in Hs as [Hs Hlt].
  change (bt_extend m ((j, w) :: l)) with (bt_extend (bt_insert j w m) l).
  rewrite IH by done. cbn. rewrite bt_get_insert.
  destruct (bt_get k l) as [u|] eqn:Hk, (String.eqb_spec k j) as [e|]; [|done..].
  rewrite <- e in Hlt.
  apply bt_get_In in Hk. eapply List.Forall_forall in Hlt; [|exact (in_map fst _ _ Hk)].
  by apply str_lt_irrefl in Hlt.
Qed.

Lemma bt_from_list_sorted (l : btree V) : sorted l -> bt_from_list l = l.
Proof.
  intros Hs. apply bt_ext; [apply sorted_from_list | done |].
  intros k. unfold bt_from_list. rewrite bt_get_from_sorted by done.
  cbn. by destruct (bt_get k l).
Qed.

Lemma bt_insert_In k v m p : In p (bt_insert k v m) -> p = (k, v) \/ In p m.
Proof.
  induction m as [|[j w] m IH]; cbn; [naive_solver|].
  destruct (String.compare k j); cbn; naive_solver.
Qed.

Lemma bt_extend_In (l : list (string * V)) m p : In p (bt_extend m l) -> In p l \/ In p m.
Proof.
  revert m. induction l as [|[j w] l IH]; intros m H; cbn in *; [by right|].
  apply IH in H as [H|H]; [by left; right|]. apply bt_insert_In in H as [->|H]; [by left; left|by right].
Qed.

Lemma bt_from_list_In (l : list (string * V)) p : In p (bt_from_list l) -> In p l.
Proof. intros [H|[]]%bt_extend_In. done. Qed.

Lemma bt_extend_keys (l : list (string * V)) m k :
  In k (bt_keys (bt_extend m l)) <-> In k (bt_keys l) \/ In k (bt_keys m).
Proof.
  revert m. induction l as [|[j w] l IH]; intros m; [cbn; naive_solver|].
  change (bt_extend m ((j, w) :: l)) with (bt_extend (bt_insert j w m) l).
  rewrite IH, bt_insert_keys. cbn. naive_solver.
Qed.

Lemma bt_contains_keys k m : bt_contains k m = existsb (String.eqb k) (bt_keys m).
Proof.
  unfold bt_contains. induction m as [|[j w] m IH]; cbn; [done|]. by destruct (String.eqb k j).
Qed.

Lemma bt_contains_In k m : bt_contains k m = true <-> In k (bt_keys m).
Proof.
  rewrite bt_contains_keys, existsb_exists. split.
  - by intros (j & Hj & ->%String.eqb_eq).
  - intros H. exists k. by rewrite String.eqb_refl.
Qed.

Lemma bt_contains_from_list (l : list (string * V)) k : bt_contains k (bt_from_list l) = bt_contains k l.
Proof.
  apply eq_true_iff_eq. rewrite !bt_contains_In. unfold bt_from_list. rewrite bt_extend_keys. naive_solver.
Qed.

(** The entries whose keys satisfy [P]. *)
Lemma bt_get_filter (P : string -> bool) k m :
  bt_get k (List.filter (fun kv => P kv.1) m) = if P k then bt_get k m else None.
Proof.
  induction m as [|[j w] m IH]; cbn; [by destruct (P k)|].
  destruct (P j) eqn:Hj; cbn; rewrite IH; destruct (String.eqb_spec k j) as [->|]; [|done| |done]; by rewrite Hj.
Qed.

Lemma sorted_filter (P : string -> bool) m : sorted m -> sorted (List.filter (fun kv => P kv.1) m).
Proof.
  induction m as [|[j w] m IH]; [done|]. intros [Hs Hlt]%sorted_cons. cbn. destruct (P j); [|by apply IH].
  apply sorted_cons. split; [by apply IH|]. rewrite List.Forall_forall in *.
  intros k ((i & x) & <- & [Hin _]%filter_In)%in_map_iff. by apply Hlt, (in_map fst m (i, x)).
Qed.

End lemmas.

(** Maps over the values keep the keys. *)
Lemma bt_get_fmap {V W} (f : V -> W) (m : btree V) k :
  bt_get k (map (fun kv => (kv.1, f kv.2)) m) = option_map f (bt_get k m).
Proof.
  induction m as [|[j v] m IH]; cbn; [done|]. by destruct (String.eqb k j).
Qed.

Lemma bt_keys_fmap {V W} (f : V -> W) (m : btree V) :
  bt_keys (map (fun kv => (kv.1, f kv.2)) m) = bt_keys m.
Proof. unfold bt_keys. rewrite map_map. done. Qed.

Lemma sorted_fmap {V W} (f : V -> W) (m : btree V) :
  sorted m -> sorted (map (fun kv => (kv.1, f kv.2)) m).
Proof. unfold sorted. by rewrite bt_keys_fmap. Qed.

#[export] Hint Resolve sorted_nil sorted_insert sorted_remove sorted_extend
  sorted_from_list sorted_fmap : btree.
#[export] Hint Rewrite @bt_get_insert_eq @bt_get_fmap @bt_keys_fmap : btree.

(** Evaluate the comparisons of literal keys that [cbn] leaves. *)
Ltac key_cmp_step a b :=
  let c := eval vm_compute in (Ascii.compare a b) in
  lazymatch c with Lt => idtac | Eq => idtac | Gt => idtac end;
  change (Ascii.compare a b) with c in *.
Ltac key_cmp :=
  repeat match goal with
  | |- context [Ascii.compare ?a ?b] => key_cmp_step a b; cbn
  | H : context [Ascii.compare ?a ?b] |- _ => key_cmp_step a b; cbn in H
  end.
