(* ===== verification/Float64.v ===== *)
(** * IEEE 754 binary64

    Rust's [f64], executable and without axioms: the Standard Library's
    [spec_float] at precision 53 and maximal exponent 1024, with the handful of
    [f64] methods the sources use on top of it ([%], [floor], [ceil], [round],
    [min], [max], the casts from and to [i64]).  The order lemmas at the end are
    what range checks and sorting rely on: comparison is a total preorder on the
    floats that are not NaN. *)

From S2P Require Import Prelude.

Abbreviation f64 := spec_float.

Definition f_zero : f64 := S754_zero false.
Definition f_one : f64 := S754_finite false 4503599627370496 (-52).

Definition f_add : f64 -> f64 -> f64 := SFadd 53 1024.
Definition f_sub : f64 -> f64 -> f64 := SFsub 53 1024.
Definition f_mul : f64 -> f64 -> f64 := SFmul 53 1024.
Definition f_div : f64 -> f64 -> f64 := SFdiv 53 1024.
Definition f_neg : f64 -> f64 := SFopp.

(** [partial_cmp], [==] and [<]. *)
Definition f_cmp : f64 -> f64 -> option comparison := SFcompare.
Definition f_eqb : f64 -> f64 -> bool := SFeqb.
Definition f_ltb : f64 -> f64 -> bool := SFltb.

Definition f_is_nan (x : f64) : bool := match x with S754_nan => true | _ => false end.
Definition f_is_finite (x : f64) : bool :=
  match x with S754_zero _ | S754_finite _ _ _ => true | _ => false end.

(** [z as f64] for an integer: round to nearest, ties to even. *)
Definition f_of_Z (z : Z) : f64 := binary_normalize 53 1024 z 0 false.

(** The remainder [x % y] of truncating division, which is exact; the result
    has the sign of [x]. *)
Definition f_rem (x y : f64) : f64 :=
  match x, y with
  | S754_nan, _ | _, S754_nan | S754_infinity _, _ | _, S754_zero _ => S754_nan
  | S754_zero _, _ | _, S754_infinity _ => x
  | S754_finite sx mx ex, S754_finite _ my ey =>
      let e := Z.min ex ey in
      let r := Z.modulo (Z.shiftl (Zpos mx) (ex - e)) (Z.shiftl (Zpos my) (ey - e)) in
      if (r =? 0)%Z then S754_zero sx
      else binary_normalize 53 1024 (cond_Zopp sx r) e sx
  end.

(** The integer [m * 2^e] rounded towards minus infinity; exact for [0 <= e]. *)
Definition scaled_floor (m e : Z) : Z :=
  if (0 <=? e)%Z then Z.shiftl m e else Z.shiftr m (- e).

(** An integral [f64] result keeps the sign of its argument when it is zero. *)
Definition f_integral (sign : bool) (z : Z) : f64 :=
  if (z =? 0)%Z then S754_zero sign else f_of_Z z.

Definition f_floor (x : f64) : f64 :=
  match x with
  | S754_finite s m e => f_integral s (scaled_floor (cond_Zopp s (Zpos m)) e)
  | _ => x
  end.

Definition f_ceil (x : f64) : f64 :=
  match x with
  | S754_finite s m e => f_integral s (- scaled_floor (- cond_Zopp s (Zpos m)) e)
  | _ => x
  end.

(** [f64::round]: half-way cases away from zero. *)
Definition f_round (x : f64) : f64 :=
  match x with
  | S754_finite s m e =>
      f_integral s (cond_Zopp s (scaled_floor (2 * Zpos m + Z.shiftl 1 (- e)) (e - 1)))
  | _ => x
  end.

(** [x as i64]: truncate towards zero, saturate, NaN becomes 0. *)
Definition f_to_i64 (x : f64) : Z :=
  match x with
  | S754_nan | S754_zero _ => 0
  | S754_infinity s => if s then i64_min else i64_max
  | S754_finite s m e => sat_i64 (cond_Zopp s (scaled_floor (Zpos m) e))
  end%Z.

(** [f64::min] and [f64::max]: the other operand when one is NaN. *)
Definition f_min (x y : f64) : f64 :=
  if f_is_nan x then y else if f_is_nan y then x else if f_ltb y x then y else x.
Definition f_max (x y : f64) : f64 :=
  if f_is_nan x then y else if f_is_nan y then x else if f_ltb x y then y else x.

(** ** Evaluation checks *)

Example f_of_Z_one : f_of_Z 1 = f_one.
Proof. vm_compute. reflexivity. Qed.

Example f_add_example : f_add (f_of_Z 2) (f_of_Z 3) = f_of_Z 5.
Proof. vm_compute. reflexivity. Qed.

Example f_rem_example : f_rem (f_of_Z (-7)) (f_of_Z 4) = f_of_Z (-3).
Proof. vm_compute. reflexivity. Qed.

Example f_rounding_examples :
  let half := f_div (f_of_Z 5) (f_of_Z 2) in
  (f_floor half, f_ceil half, f_round half, f_round (f_neg half), f_floor (f_neg half))
  = (f_of_Z 2, f_of_Z 3, f_of_Z 3, f_of_Z (-3), f_of_Z (-3)).
Proof. vm_compute. reflexivity. Qed.

Example f_to_i64_examples :
  (f_to_i64 (f_div (f_of_Z (-5)) (f_of_Z 2)), f_to_i64 (f_of_Z (10 ^ 30)), f_to_i64 S754_nan)
  = (-2, i64_max, 0)%Z.
Proof. vm_compute. reflexivity. Qed.

Example u64_above_2_53_collapses : f_of_Z 9007199254740993 = f_of_Z 9007199254740992.
Proof. vm_compute. reflexivity. Qed.

(** ** The order of the floats

    Every float but NaN has a rank in the lexicographic order of triples, and
    comparison is the comparison of ranks. *)

Definition f_rank (x : f64) : Z * Z * Z :=
  match x with
  | S754_infinity true => (-2, 0, 0)
  | S754_finite true m e => (-1, - e, - Zpos m)
  | S754_zero _ | S754_nan => (0, 0, 0)
  | S754_finite false m e => (1, e, Zpos m)
  | S754_infinity false => (2, 0, 0)
  end%Z.

Definition lex3 (a b : Z * Z * Z) : comparison :=
  match (a.1.1 ?= b.1.1)%Z with
  | Eq => match (a.1.2 ?= b.1.2)%Z with
          | Eq => (a.2 ?= b.2)%Z
          | c => c
          end
  | c => c
  end.

Lemma Z_compare_opp a b : (- a ?= - b)%Z = CompOpp (a ?= b)%Z.
Proof. rewrite Z.compare_opp. apply Z.compare_antisym. Qed.

Lemma f_cmp_rank x y :
  f_is_nan x = false -> f_is_nan y = false -> f_cmp x y = Some (lex3 (f_rank x) (f_rank y)).
Proof.
  destruct x as [s|s| |s m e], y as [s'|s'| |s' m' e']; try done; intros _ _;
    destruct s; try destruct s'; try done; cbn;
    unfold lex3; cbn; rewrite ?Z_compare_opp; by destruct (e ?= e')%Z eqn:?; cbn.
Qed.

Lemma f_cmp_nan_l y : f_cmp S754_nan y = None.
Proof. done. Qed.

Lemma f_cmp_nan_r x : f_cmp x S754_nan = None.
Proof. by destruct x. Qed.

Lemma lex3_Lt a b : lex3 a b = Lt <->
  (a.1.1 < b.1.1 \/ (a.1.1 = b.1.1 /\ (a.1.2 < b.1.2 \/ (a.1.2 = b.1.2 /\ a.2 < b.2))))%Z.
Proof.
  unfold lex3. destruct (Z.compare_spec a.1.1 b.1.1), (Z.compare_spec a.1.2 b.1.2),
    (Z.compare_spec a.2 b.2); split; intros; solve [done|lia|exfalso; lia|discriminate].
Qed.

Lemma lex3_Gt a b : lex3 a b = Gt <-> lex3 b a = Lt.
Proof.
  rewrite lex3_Lt. unfold lex3.
  destruct (Z.compare_spec a.1.1 b.1.1), (Z.compare_spec a.1.2 b.1.2),
    (Z.compare_spec a.2 b.2); split; intros; try lia; done.
Qed.

Lemma lex3_Eq a b : lex3 a b = Eq <-> a = b.
Proof.
  unfold lex3. destruct a as [[a1 a2] a3], b as [[b1 b2] b3]; cbn.
  destruct (Z.compare_spec a1 b1), (Z.compare_spec a2 b2),
    (Z.compare_spec a3 b3); split; intros Hx; subst; try done; injection Hx; lia.
Qed.

(** [f_not_lt a b]: [b <= a] or the two are incomparable. *)
Definition f_not_lt (a b : f64) : Prop := f_cmp a b <> Some Lt.

Lemma f_not_lt_trans a b c :
  f_is_nan b = false -> f_not_lt a b -> f_not_lt b c -> f_not_lt a c.
Proof.
  unfold f_not_lt. intros Hb.
  destruct (f_is_nan a) eqn:Ha; [destruct a; try done; intros _ _; by rewrite f_cmp_nan_l|].
  destruct (f_is_nan c) eqn:Hc; [destruct c; try done; intros _ _; by rewrite f_cmp_nan_r|].
  rewrite !f_cmp_rank by done. intros H1 H2 [= H3].
  assert (lex3 (f_rank a) (f_rank b) <> Lt) as H1' by congruence.
  assert (lex3 (f_rank b) (f_rank c) <> Lt) as H2' by congruence.
  rewrite lex3_Lt in H1', H2', H3. lia.
Qed.

Lemma f_cmp_swap a b : f_cmp b a = option_map CompOpp (f_cmp a b).
Proof.
  destruct (f_is_nan a) eqn:Ha; [destruct a; try done; by destruct b|].
  destruct (f_is_nan b) eqn:Hb; [destruct b; try done; by destruct a|].
  rewrite !f_cmp_rank by done. cbn. f_equal.
  destruct (lex3 (f_rank a) (f_rank b)) eqn:H; cbn.
  - apply lex3_Eq in H as ->. by apply lex3_Eq.
  - by apply lex3_Gt.
  - by apply lex3_Gt in H.
Qed.

Lemma f_eqb_cmp_l a b c : f_eqb a b = true -> f_cmp a c = f_cmp b c.
Proof.
  unfold f_eqb, SFeqb. fold (f_cmp a b).
  destruct (f_is_nan a) eqn:Ha; [by destruct a|].
  destruct (f_is_nan b) eqn:Hb; [destruct b; try done; by rewrite f_cmp_nan_r|].
  rewrite f_cmp_rank by done. intros H.
  destruct (lex3 (f_rank a) (f_rank b)) eqn:He; try done. apply lex3_Eq in He.
  destruct (f_is_nan c) eqn:Hc; [destruct c; try done; by rewrite !f_cmp_nan_r|].
  rewrite !f_cmp_rank by done. by rewrite He.
Qed.

Lemma f_eqb_sym a b : f_eqb a b = f_eqb b a.
Proof.
  unfold f_eqb, SFeqb. fold (f_cmp a b) (f_cmp b a). rewrite (f_cmp_swap b a).
  by destruct (f_cmp b a) as [[]|].
Qed.

Lemma f_eqb_trans a b c : f_eqb a b = true -> f_eqb b c = true -> f_eqb a c = true.
Proof.
  intros Hab Hbc. unfold f_eqb, SFeqb in *. fold (f_cmp a c). fold (f_cmp b c) in Hbc.
  rewrite (f_eqb_cmp_l _ _ c Hab). done.
Qed.

Lemma f_eqb_refl a : f_is_nan a = false -> f_eqb a a = true.
Proof.
  intros Ha. unfold f_eqb, SFeqb. fold (f_cmp a a). rewrite f_cmp_rank by done.
  assert (lex3 (f_rank a) (f_rank a) = Eq) as -> by by apply lex3_Eq. done.
Qed.

Lemma f_to_i64_range x : in_i64 (f_to_i64 x) = true.
Proof. destruct x as [| [] | |]; try done. apply sat_i64_range. Qed.

Create HintDb float.
#[export] Hint Resolve f_eqb_refl f_eqb_trans f_to_i64_range : float.
