(* ===== verification/Values.v ===== *)
(** * Dynamic values ([runinator-models/src/value.rs])

    The JSON-like currency of the runtime: run state, node parameters and
    outputs, expression operands, broker payloads.  Objects are sorted maps,
    numbers keep the integer/float distinction of [serde_json].

    [wf_value] is the type's invariant: keys sorted, [PosInt] in [u64], [NegInt]
    a negative [i64], floats finite.  [value_eqb] is the derived [PartialEq]. *)

From S2P Require Import Prelude BTree Float64.

(** ** Data *)

(** [enum N] behind [struct Number]. *)
Inductive Number : Type :=
| PosInt (u : Z)
| NegInt (i : Z)
| Float (f : f64).

Inductive Value : Type :=
| VNull
| VBool (b : bool)
| VNumber (n : Number)
| VString (s : string)
| VArray (items : list Value)
| VObject (fields : btree Value).

Abbreviation Map := (btree Value).

(** ** Numbers *)

Definition number_is_u64 (n : Number) : bool :=
  match n with PosInt _ => true | _ => false end.

Definition number_is_i64 (n : Number) : bool :=
  match n with
  | NegInt _ => true
  | PosInt u => (u <=? i64_max)%Z
  | Float _ => false
  end.

Definition number_is_f64 (n : Number) : bool :=
  match n with Float _ => true | _ => false end.

Definition number_as_i64 (n : Number) : option Z :=
  match n with
  | PosInt u => if (u <=? i64_max)%Z then Some u else None
  | NegInt i => Some i
  | Float _ => None
  end.

Definition number_as_u64 (n : Number) : option Z :=
  match n with
  | PosInt u => Some u
  | NegInt i => if (0 <=? i)%Z then Some i else None
  | Float _ => None
  end.

Definition number_as_f64 (n : Number) : option f64 :=
  match n with
  | PosInt u => Some (f_of_Z u)
  | NegInt i => Some (f_of_Z i)
  | Float f => Some f
  end.

(** Non-finite floats are rejected. *)
Definition number_from_f64 (f : f64) : option Number :=
  if f_is_finite f then Some (Float f) else None.

(** Non-negative integers are stored as [PosInt]. *)
Definition number_from_i64 (i : Z) : Number :=
  if (0 <=? i)%Z then PosInt i else NegInt i.

Definition number_eqb (a b : Number) : bool :=
  match a, b with
  | PosInt x, PosInt y => (x =? y)%Z
  | NegInt x, NegInt y => (x =? y)%Z
  | Float x, Float y => f_eqb x y
  | _, _ => false
  end.

(** ** Inspection *)

Definition is_null (v : Value) : bool := match v with VNull => true | _ => false end.
Definition is_boolean (v : Value) : bool := match v with VBool _ => true | _ => false end.
Definition is_string (v : Value) : bool := match v with VString _ => true | _ => false end.
Definition is_number (v : Value) : bool := match v with VNumber _ => true | _ => false end.
Definition is_array (v : Value) : bool := match v with VArray _ => true | _ => false end.
Definition is_object (v : Value) : bool := match v with VObject _ => true | _ => false end.

Definition as_bool (v : Value) : option bool :=
  match v with VBool b => Some b | _ => None end.
Definition as_str (v : Value) : option string :=
  match v with VString s => Some s | _ => None end.
Definition as_i64 (v : Value) : option Z :=
  match v with VNumber n => number_as_i64 n | _ => None end.
Definition as_u64 (v : Value) : option Z :=
  match v with VNumber n => number_as_u64 n | _ => None end.
Definition as_f64 (v : Value) : option f64 :=
  match v with VNumber n => number_as_f64 n | _ => None end.
Definition as_array (v : Value) : option (list Value) :=
  match v with VArray l => Some l | _ => None end.
Definition as_object (v : Value) : option Map :=
  match v with VObject m => Some m | _ => None end.

(** [list.get(i)] for an unsigned index. *)
Definition list_get {A} (l : list A) (i : Z) : option A :=
  if (i <? Z.of_nat (length l))%Z then nth_error l (Z.to_nat i) else None.

(** [impl Index for str] and [impl Index for usize]. *)
Definition get_key (k : string) (v : Value) : option Value :=
  match v with VObject m => bt_get k m | _ => None end.
Definition get_index (i : Z) (v : Value) : option Value :=
  match v with VArray l => list_get l i | _ => None end.

(** [value["key"]]: [Null] when missing, never a panic. *)
Definition index_key (k : string) (v : Value) : Value :=
  match get_key k v with Some x => x | None => VNull end.

(** ** JSON pointers *)

Definition unescape_token (token : string) : string :=
  str_replace2 "~"%char "0"%char "~"%char (str_replace2 "~"%char "1"%char "/"%char token).

(** One step of [Value::pointer]: a key of an object or an index of an array. *)
Definition pointer_step (target : Value) (token : string) : option Value :=
  match target with
  | VObject m => bt_get token m
  | VArray l => match parse_u64 token with Some i => list_get l i | None => None end
  | _ => None
  end.

Fixpoint pointer_walk (target : Value) (tokens : list string) : option Value :=
  match tokens with
  | [] => Some target
  | t :: rest =>
      match pointer_step target t with
      | Some next => pointer_walk next rest
      | None => None
      end
  end.

(** [pointer.split('/').skip(1)], unescaped. *)
Definition pointer_tokens (p : string) : list string :=
  map unescape_token (tl (str_split_byte "/"%char p)).

Definition pointer (v : Value) (p : string) : option Value :=
  match p with
  | EmptyString => Some v
  | String c _ =>
      if Ascii.eqb c "/"%char then pointer_walk v (pointer_tokens p) else None
  end.

(** [Value::pointer_mut] used as a place: the value with the pointed-to slot
    replaced by [f] of its content, [None] when there is no such slot. *)
Fixpoint list_update {A} (l : list A) (n : nat) (f : A -> option A) : option (list A) :=
  match l, n with
  | [], _ => None
  | x :: l', O => option_map (fun y => y :: l') (f x)
  | x :: l', S n' => option_map (cons x) (list_update l' n' f)
  end.

Fixpoint pointer_update_walk (target : Value) (tokens : list string) (f : Value -> Value) : option Value :=
  match tokens with
  | [] => Some (f target)
  | t :: rest =>
      match target with
      | VObject m =>
          match bt_get t m with
          | Some next =>
              option_map (fun next' => VObject (bt_insert t next' m)) (pointer_update_walk next rest f)
          | None => None
          end
      | VArray l =>
          match parse_u64 t with
          | Some i =>
              if (i <? Z.of_nat (length l))%Z
              then option_map VArray (list_update l (Z.to_nat i) (fun next => pointer_update_walk next rest f))
              else None
          | None => None
          end
      | _ => None
      end
  end.

Definition pointer_update (v : Value) (p : string) (f : Value -> Value) : option Value :=
  match p with
  | EmptyString => Some (f v)
  | String c _ =>
      if Ascii.eqb c "/"%char then pointer_update_walk v (pointer_tokens p) f else None
  end.

(** ** Conversions *)

Definition value_from_i64 (z : Z) : Value := VNumber (number_from_i64 z).
Definition value_from_u64 (z : Z) : Value := VNumber (PosInt z).
Definition value_from_f64 (f : f64) : Value :=
  match number_from_f64 f with Some n => VNumber n | None => VNull end.

(** A value whose object is replaced through [as_object_mut]. *)
Definition update_object (v : Value) (f : Map -> Map) : Value :=
  match v with VObject m => VObject (f m) | _ => v end.

(** ** Equality: the derived [PartialEq] *)

Fixpoint value_eqb (a b : Value) {struct a} : bool :=
  match a, b with
  | VNull, VNull => true
  | VBool x, VBool y => Bool.eqb x y
  | VNumber x, VNumber y => number_eqb x y
  | VString x, VString y => String.eqb x y
  | VArray l, VArray k =>
      (fix go (l k : list Value) : bool :=
         match l, k with
         | [], [] => true
         | x :: l', y :: k' => value_eqb x y && go l' k'
         | _, _ => false
         end) l k
  | VObject l, VObject k =>
      (fix go (l k : btree Value) : bool :=
         match l, k with
         | [], [] => true
         | (i, x) :: l', (j, y) :: k' => String.eqb i j && value_eqb x y && go l' k'
         | _, _ => false
         end) l k
  | _, _ => false
  end.

(** [items.contains(&v)]. *)
Definition values_contain (l : list Value) (v : Value) : bool := existsb (fun x => value_eqb x v) l.

(** ** The invariant of the type *)

Definition wf_number (n : Number) : Prop :=
  match n with
  | PosInt u => in_u64 u = true
  | NegInt i => (i64_min <= i < 0)%Z
  | Float f => f_is_finite f = true
  end.

Fixpoint wf_value (v : Value) : Prop :=
  match v with
  | VNumber n => wf_number n
  | VArray l => foldr (fun x acc => wf_value x /\ acc) True l
  | VObject m => sorted m /\ foldr (fun kv acc => wf_value kv.2 /\ acc) True m
  | _ => True
  end.

(** Number of nodes: the measure of recursions over values. *)
Fixpoint value_size (v : Value) : nat :=
  match v with
  | VArray l => S (foldr (fun x acc => value_size x + acc) 0 l)
  | VObject m => S (foldr (fun kv acc => S (value_size kv.2) + acc) 0 m)
  | _ => 1
  end.

(** ** Code outside the sources

    What the sources call and do not define: [serde_json]'s writer and reader,
    [base64], [regex], [chrono], and the Unicode case tables and decimal float
    reader of Rust's own library.  The development is parametric in them. *)

Class Externals := {
  (** [serde_json::to_string], the [Display] of a value *)
  json_string : Value -> string;
  (** the [Display] of [serde_json::Number] *)
  number_string : Number -> string;
  (** [serde_json::from_str], with its error message *)
  json_parse : string -> result string Value;
  (** [str::parse::<f64>] *)
  f64_parse : string -> option f64;
  to_lowercase : string -> string;
  to_uppercase : string -> string;
  base64_encode : string -> string;
  (** decoding, then [String::from_utf8] *)
  base64_decode : string -> result string string;
  (** [regex::Regex]: [new], [is_match], [replace_all], [find_iter] *)
  regex : Type;
  regex_new : string -> result string regex;
  regex_is_match : regex -> string -> bool;
  regex_replace_all : regex -> string -> string -> string;
  regex_find_all : regex -> string -> list string;
  (** [chrono::DateTime<Utc>] *)
  datetime : Type;
  datetime_from_rfc3339 : string -> result string datetime;
  datetime_from_timestamp : Z -> option datetime;
  datetime_format : datetime -> string -> string;
  datetime_to_rfc3339 : datetime -> string;
  (** [NaiveDateTime::parse_from_str] and [NaiveDate::parse_from_str] at midnight, as UTC *)
  naive_datetime_parse : string -> string -> option datetime;
  naive_date_parse : string -> string -> result string datetime;
  (** [datetime + Duration::seconds(n)]; [None] where chrono panics *)
  datetime_add_seconds : datetime -> Z -> option datetime;
  datetime_diff_seconds : datetime -> datetime -> Z
}.

(** A concrete instance, for evaluation. *)
Definition externals_stub : Externals := {|
  json_string _ := EmptyString;
  number_string n :=
    match n with
    | PosInt u => pretty u
    | NegInt i => pretty i
    | Float _ => EmptyString
    end;
  json_parse _ := Err "unsupported";
  f64_parse _ := None;
  to_lowercase s := s;
  to_uppercase s := s;
  base64_encode s := s;
  base64_decode s := Ok s;
  regex := string;
  regex_new p := Ok p;
  regex_is_match p s := str_contains s p;
  regex_replace_all _ s _ := s;
  regex_find_all _ _ := [];
  datetime := Z;
  datetime_from_rfc3339 _ := Err "unsupported";
  datetime_from_timestamp z := Some z;
  datetime_format z _ := pretty z;
  datetime_to_rfc3339 z := pretty z;
  naive_datetime_parse _ _ := None;
  naive_date_parse _ _ := Err "unsupported";
  datetime_add_seconds z n := Some (z + n)%Z;
  datetime_diff_seconds a b := (a - b)%Z
|}.

(** ** Induction over values *)

Lemma Value_ind' (P : Value -> Prop)
  (Hnull : P VNull)
  (Hbool : forall b, P (VBool b))
  (Hnum : forall n, P (VNumber n))
  (Hstr : forall s, P (VString s))
  (Harr : forall l, Forall P l -> P (VArray l))
  (Hobj : forall m, Forall (fun kv => P kv.2) m -> P (VObject m)) :
  forall v, P v.
Proof.
  fix IH 1. intros [| b | n | s | l | m].
  - exact Hnull.
  - apply Hbool.
  - apply Hnum.
  - apply Hstr.
  - apply Harr. induction l as [|x l IHl]; constructor; [apply IH | exact IHl].
  - apply Hobj. induction m as [|[k x] m IHm]; constructor; [apply IH | exact IHm].
Qed.

Lemma foldr_and_Forall {A} (P : A -> Prop) (l : list A) :
  foldr (fun x acc => P x /\ acc) True l <-> Forall P l.
Proof.
  induction l as [|x l IH]; cbn; [by split; [constructor|]|].
  rewrite IH, List.Forall_cons_iff. done.
Qed.

Lemma wf_array l : wf_value (VArray l) <-> Forall wf_value l.
Proof. apply foldr_and_Forall. Qed.

Lemma wf_object m : wf_value (VObject m) <-> sorted m /\ Forall (fun kv => wf_value kv.2) m.
Proof. cbn. by rewrite (foldr_and_Forall (fun kv => wf_value kv.2)). Qed.

Lemma wf_get_key k v x : wf_value v -> get_key k v = Some x -> wf_value x.
Proof.
  destruct v as [| | | | |m]; try done. intros [_ Hf]%wf_object Hg%bt_get_In.
  eapply List.Forall_forall in Hf; [|done]. done.
Qed.

Lemma wf_insert k x m : wf_value (VObject m) -> wf_value x -> wf_value (VObject (bt_insert k x m)).
Proof.
  rewrite !wf_object. intros [Hs Hf] Hx. split; [by apply sorted_insert|].
  clear Hs. induction Hf as [|[j y] m Hy Hm IH]; cbn; [by repeat constructor|].
  destruct (String.compare k j); by repeat constructor.
Qed.

Lemma list_get_In {A} (l : list A) i x : list_get l i = Some x -> In x l.
Proof. unfold list_get. destruct (_ <? _)%Z; [|done]. apply nth_error_In. Qed.

Lemma list_get_lt {A} (l : list A) i x : list_get l i = Some x -> (i < Z.of_nat (length l))%Z.
Proof. unfold list_get. destruct (Z.ltb_spec i (Z.of_nat (length l))); done. Qed.

(** ** Sizes: the components of a value are smaller than it *)

Lemma value_size_pos v : 1 <= value_size v.
Proof. destruct v; cbn; lia. Qed.

Lemma In_value_size x l : In x l -> value_size x <= foldr (fun x acc => value_size x + acc) 0 l.
Proof. induction l as [|y l IH]; cbn; [done|]. intros [->|Hin]; [lia|]. specialize (IH Hin). lia. Qed.

Lemma In_value_size_map {A} (g : A -> Value) x l :
  In x l -> value_size (g x) <= foldr (fun x acc => value_size x + acc) 0 (map g l).
Proof. intros Hin. apply In_value_size. by apply in_map. Qed.

Lemma In_value_size_obj k x (m : Map) :
  In (k, x) m -> S (value_size x) <= foldr (fun kv acc => S (value_size kv.2) + acc) 0 m.
Proof.
  induction m as [|[j y] m IH]; [done|]. intros [[= -> ->]|Hin]; cbn [foldr snd]; [lia|].
  specialize (IH Hin). lia.
Qed.

Lemma size_array l : value_size (VArray l) = S (foldr (fun x acc => value_size x + acc) 0 l).
Proof. done. Qed.
Lemma size_object m : value_size (VObject m) = S (foldr (fun kv acc => S (value_size kv.2) + acc) 0 m).
Proof. done. Qed.


Lemma get_key_size k v x : get_key k v = Some x -> value_size x < value_size v.
Proof.
  destruct v as [| | | | |m]; try done. intros Hin%bt_get_In%In_value_size_obj. rewrite size_object. lia.
Qed.

Lemma get_key_items_size k v l x : get_key k v = Some (VArray l) -> In x l -> value_size x < value_size v.
Proof. intros Hk%get_key_size Hin%In_value_size. rewrite size_array in Hk. lia. Qed.

(** ** Equality is an equivalence on well-formed values *)

Lemma number_eqb_refl n : wf_number n -> number_eqb n n = true.
Proof.
  destruct n as [u|i|f]; cbn; intros Hwf; rewrite ?Z.eqb_refl; try done.
  apply f_eqb_refl. by destruct f.
Qed.

Lemma number_eqb_trans a b c : number_eqb a b = true -> number_eqb b c = true -> number_eqb a c = true.
Proof.
  destruct a, b, c; cbn; try done; rewrite ?Z.eqb_eq; try congruence. apply f_eqb_trans.
Qed.

Lemma number_eqb_sym a b : number_eqb a b = number_eqb b a.
Proof. destruct a, b; cbn; try done; [apply Z.eqb_sym..|apply f_eqb_sym]. Qed.

(** Equality of arrays and of objects, element by element. *)
Lemma value_eqb_array l k :
  value_eqb (VArray l) (VArray k) = true <-> Forall2 (fun x y => value_eqb x y = true) l k.
Proof.
  cbn. revert k. induction l as [|x l IH]; intros [|y k]; cbn.
  - split; [constructor|done].
  - split; [done|intros H; inversion H].
  - split; [done|intros H; inversion H].
  - rewrite andb_true_iff, IH, List.Forall2_cons_iff. done.
Qed.

Definition field_eqb (a b : string * Value) : Prop := a.1 = b.1 /\ value_eqb a.2 b.2 = true.

Lemma value_eqb_object l k :
  value_eqb (VObject l) (VObject k) = true <-> Forall2 field_eqb l k.
Proof.
  cbn. revert k. induction l as [|[i x] l IH]; intros [|[j y] k]; cbn.
  - split; [constructor|done].
  - split; [done|intros H; inversion H].
  - split; [done|intros H; inversion H].
  - rewrite !andb_true_iff, String.eqb_eq, IH, List.Forall2_cons_iff. unfold field_eqb. cbn. naive_solver.
Qed.

Lemma value_eqb_refl v : wf_value v -> value_eqb v v = true.
Proof.
  induction v as [| b | n | s | l IH | m IH] using Value_ind'; intros Hwf.
  - done.
  - by destruct b.
  - by apply number_eqb_refl.
  - apply String.eqb_refl.
  - apply value_eqb_array. apply wf_array in Hwf.
    induction IH as [|x l Hx _ IHl]; inversion Hwf; subst; constructor; eauto.
  - apply value_eqb_object. apply wf_object in Hwf as [_ Hwf].
    induction IH as [|x l Hx _ IHl]; inversion Hwf; subst; constructor; [split|]; eauto.
Qed.

Lemma value_eqb_sym a b : value_eqb a b = true -> value_eqb b a = true.
Proof.
  revert b. induction a as [| x | x | x | l IH | m IH] using Value_ind';
    intros [| y | y | y | k | k] H; try discriminate H.
  - done.
  - cbn in *. by destruct x, y.
  - cbn in *. by rewrite number_eqb_sym.
  - cbn in *. by rewrite String.eqb_sym.
  - apply value_eqb_array in H. apply value_eqb_array. revert IH.
    induction H as [|u v l k Hu _ IHl]; intros Hf; [constructor|].
    inversion Hf; subst. constructor; eauto.
  - apply value_eqb_object in H. apply value_eqb_object. revert IH.
    induction H as [|u v l k [Hk Hu] _ IHl]; intros Hf; [constructor|].
    inversion Hf; subst. constructor; [split|]; eauto.
Qed.

Lemma value_eqb_trans a b c : value_eqb a b = true -> value_eqb b c = true -> value_eqb a c = true.
Proof.
  revert b c. induction a as [| x | x | x | l IH | m IH] using Value_ind';
    intros [| y | y | y | k | k] [| z | z | z | j | j] H1 H2; try discriminate H1; try discriminate H2.
  - done.
  - cbn in *. by destruct x, y, z.
  - cbn in *. by eapply number_eqb_trans.
  - cbn in *. apply String.eqb_eq in H1 as ->. done.
  - apply value_eqb_array in H1, H2. apply value_eqb_array. revert j H2 IH.
    induction H1 as [|u v l k Hu _ IHl]; intros j H2 Hf; inversion H2; subst; [constructor|].
    inversion Hf; subst. constructor; eauto.
  - apply value_eqb_object in H1, H2. apply value_eqb_object. revert j H2 IH.
    induction H1 as [|u v l k [Hk Hu] _ IHl]; intros j H2 Hf; inversion H2 as [|? w ? ? [Hk' Hw]]; subst;
      [constructor|].
    inversion Hf; subst. constructor; [split|]; [congruence|eauto|eauto].
Qed.

(** What equality cannot distinguish. *)
Lemma value_eqb_as_f64_cmp a b c : value_eqb a b = true ->
  match as_f64 a, as_f64 b with
  | Some x, Some y => f_cmp x c = f_cmp y c
  | None, None => True
  | _, _ => False
  end.
Proof.
  destruct a as [| | x | | |], b as [| | y | | |]; try done. cbn.
  destruct x, y; cbn; try done; rewrite ?Z.eqb_eq.
  - by intros ->.
  - by intros ->.
  - apply f_eqb_cmp_l.
Qed.

Lemma value_eqb_as_str a b : value_eqb a b = true -> as_str a = as_str b.
Proof.
  destruct a, b; try done; cbn; [by intros ->%String.eqb_eq].
Qed.

Lemma value_eqb_get_key k a b : value_eqb a b = true ->
  match get_key k a, get_key k b with
  | Some x, Some y => value_eqb x y = true
  | None, None => True
  | _, _ => False
  end.
Proof.
  destruct a as [| | | | |m], b as [| | | | |m']; try done.
  intros H%value_eqb_object. cbn.
  induction H as [|[i x] [j y] m m' [Hij Hxy] _ IH]; cbn in *; [done|].
  subst. by destruct (String.eqb k j).
Qed.

Create HintDb values.
#[export] Hint Resolve value_eqb_refl value_eqb_sym value_eqb_trans wf_insert wf_get_key : values.

(** ** Properties *)

Lemma list_update_nth {A} (l : list A) n (f : A -> option A) :
  list_update l n f =
  match nth_error l n with Some x => option_map (fun y => <[n := y]> l) (f x) | None => None end.
Proof.
  revert n. induction l as [|x l IH]; intros [|n]; cbn; try done.
  rewrite IH. destruct (nth_error l n) as [z|]; [|done]. by destruct (f z).
Qed.

Lemma list_get_insert {A} (l : list A) i x y : list_get l i = Some x ->
  list_get (<[Z.to_nat i := y]> l) i = Some y.
Proof.
  unfold list_get. rewrite length_insert. destruct (_ <? _)%Z; [|done].
  generalize (Z.to_nat i) as n. induction l as [|z l IH]; intros [|n]; cbn; try done. apply IH.
Qed.

Lemma pointer_walk_update v tokens f :
  match pointer_update_walk v tokens f, pointer_walk v tokens with
  | Some v', Some x => pointer_walk v' tokens = Some (f x)
  | None, None => True
  | _, _ => False
  end.
Proof.
  revert v. induction tokens as [|t tokens IH]; intros v; cbn; [done|].
  destruct v as [| | | |l|m]; cbn; try done.
  - destruct (parse_u64 t) as [i|] eqn:Hi; [|done].
    replace (list_get l i) with (if (i <? Z.of_nat (length l))%Z then nth_error l (Z.to_nat i) else None) by done.
    destruct (i <? Z.of_nat (length l))%Z eqn:Hlt; [|done].
    rewrite list_update_nth. destruct (nth_error l (Z.to_nat i)) as [x|] eqn:Hx; [|done].
    specialize (IH x). destruct (pointer_update_walk x tokens f), (pointer_walk x tokens); cbn; try done.
    rewrite Hi. erewrite list_get_insert; [done|]. unfold list_get. by rewrite Hlt.
  - destruct (bt_get t m) as [x|]; [|done].
    specialize (IH x). destruct (pointer_update_walk x tokens f), (pointer_walk x tokens); cbn; try done.
    by rewrite bt_get_insert_eq.
Qed.

Lemma list_get_Forall {A} (P : A -> Prop) l n x y : Forall P l -> nth_error l n = Some x -> P y ->
  Forall P (<[n := y]> l).
Proof. intros Hl _ Hy. by apply Forall_insert. Qed.

Lemma wf_pointer_update_walk v tokens f v' :
  wf_value v -> (forall x, wf_value x -> wf_value (f x)) ->
  pointer_update_walk v tokens f = Some v' -> wf_value v'.
Proof.
  intros Hv Hf. revert v v' Hv. induction tokens as [|t tokens IH]; intros v v' Hv; cbn; [naive_solver|].
  destruct v as [| | | |l|m]; try done.
  - destruct (parse_u64 t) as [i|]; [|done]. destruct (_ <? _)%Z; [|done].
    rewrite list_update_nth. destruct (nth_error l (Z.to_nat i)) as [x|] eqn:Hx; [|done].
    destruct (pointer_update_walk x tokens f) as [y|] eqn:Hy; [|done]. intros [= <-].
    apply wf_array. apply wf_array in Hv. eapply list_get_Forall; [done..|]. eapply IH; [|exact Hy].
    by eapply List.Forall_forall in Hv; [|eapply nth_error_In].
  - destruct (bt_get t m) as [x|] eqn:Hx; [|done].
    destruct (pointer_update_walk x tokens f) as [y|] eqn:Hy; [|done]. intros [= <-].
    apply wf_insert; [done|]. eapply IH; [|exact Hy]. by eapply (wf_get_key t (VObject m)).
Qed.

(** C22: Writing through [pointer_mut] is a lens on [pointer]: the write reaches a slot
    exactly when the read finds one, and reading the written value back gives the
    new content. *)
Theorem pointer_update_lens v p f :
  match pointer_update v p f, pointer v p with
  | Some v', Some x => pointer v' p = Some (f x)
  | None, None => True
  | _, _ => False
  end.
Proof.
  unfold pointer, pointer_update. destruct p as [|c p]; [done|].
  destruct (Ascii.eqb c "/"); [apply pointer_walk_update|done].
Qed.

Lemma as_i64_from_i64 z : in_i64 z = true -> as_i64 (value_from_i64 z) = Some z /\ wf_value (value_from_i64 z).
Proof.
  rewrite in_i64_spec. intros H.
  unfold value_from_i64, number_from_i64. destruct (Z.leb_spec 0 z) as [Hz|Hz]; cbn.
  - unfold i64_max, i64_min, u64_max in *. destruct (Z.leb_spec z 9223372036854775807); [|lia].
    split; [done|]. apply in_u64_spec. unfold u64_max. lia.
  - split; [done|]. lia.
Qed.

(** An integer stored in a value is read back: every [i64] by [as_i64], every
    [u64] by [as_u64], and the stored number is well formed. *)
Theorem integer_roundtrip z :
  (in_i64 z = true -> as_i64 (value_from_i64 z) = Some z /\ wf_value (value_from_i64 z)) /\
  (in_u64 z = true -> as_u64 (value_from_u64 z) = Some z /\ wf_value (value_from_u64 z)).
Proof.
  split; [apply as_i64_from_i64|done].
Qed.

Lemma integer_roundtrip_witness :
  as_i64 (value_from_i64 (-7)) = Some (-7)%Z /\ as_u64 (value_from_u64 u64_max) = Some u64_max.
Proof.
  split.
  - apply (proj1 (integer_roundtrip (-7)) eq_refl).
  - apply (proj2 (integer_roundtrip u64_max) eq_refl).
Defined.

(** The derived equality is an equivalence relation on well-formed values (a value
    holding a NaN would not equal itself), and equal values have equal fields. *)
Theorem value_eqb_equivalence a b c :
  wf_value a ->
  value_eqb a a = true /\
  value_eqb a b = value_eqb b a /\
  (value_eqb a b = true -> value_eqb b c = value_eqb a c) /\
  (value_eqb a b = true -> forall k, is_ok (ok_or (get_key k a) tt) = is_ok (ok_or (get_key k b) tt)).
Proof.
  intros Ha. repeat split.
  - by apply value_eqb_refl.
  - apply eq_true_iff_eq. split; apply value_eqb_sym.
  - intros Hab. apply eq_true_iff_eq. split; intros H; [by eapply value_eqb_trans|].
    eapply value_eqb_trans; [|done]. by apply value_eqb_sym.
  - intros Hab k. pose proof (value_eqb_get_key k a b Hab).
    by destruct (get_key k a), (get_key k b).
Qed.

Lemma value_eqb_equivalence_witness :
  value_eqb (VArray [VNull; VBool true]) (VArray [VNull; VBool true]) = true.
Proof. apply (value_eqb_equivalence (VArray [VNull; VBool true]) VNull VNull). cbn. done. Defined.
