(* ===== verification/Types.v ===== *)
(** * The type system ([runinator-models/src/types.rs])

    Structural types of workflow inputs, configuration slots and expressions:
    validation of a value against a type, assignability of one type to another,
    least upper bounds and unions, and inference of a type from a value.

    Both judgements return the source's [TypeViolation] with the rendered path of
    the offending component.  [path: &mut Vec<String>] is passed by value: the
    source pops what it pushed on every path that goes on, and clones it where a
    failed attempt is not final.

    Assignability recurses with its arguments swapped under function parameters,
    so it is defined with fuel.  Running out of it is an outcome of its own, [Exhausted],
    that no branch turns into an answer; [assignable_fuel_enough] shows the fuel it is
    started with, the sum of the two type sizes, never runs out. *)

From S2P Require Import Prelude BTree Float64 Values.

(** ** Data *)

Record FieldOf (T : Type) : Type := mk_field {
  ty : T;
  required : bool;
  default : option Value
}.
Arguments mk_field {T} ty required default.
Arguments ty {T} f : rename.
Arguments required {T} f : rename.
Arguments default {T} f : rename.

Inductive RuninatorType : Type :=
| TNull
| TBoolean
| TInteger
| TNumber
| TDuration
| TString
| TEnum (values : list Value)
| TRange (base : RuninatorType) (min max : option Value)
| TArray (items : RuninatorType)
| TMap (values : RuninatorType)
| TStruct (fields : btree (FieldOf RuninatorType)) (additional : option RuninatorType)
| TUnion (variants : list RuninatorType)
| TFunction (params : list RuninatorType) (ret : RuninatorType)
| TAny.

Abbreviation RuninatorField := (FieldOf RuninatorType).

Definition field_required (t : RuninatorType) : RuninatorField := mk_field t true None.
Definition field_optional (t : RuninatorType) : RuninatorField := mk_field t false None.
Definition field_with_default (f : RuninatorField) (d : Value) : RuninatorField :=
  mk_field (ty f) false (Some d).

Record TypeViolation : Type := mk_violation {
  vpath : string;
  vexpected : string;
  vactual : string
}.

(** ** Derived [PartialEq] *)

Definition option_value_eqb (a b : option Value) : bool :=
  match a, b with
  | Some x, Some y => value_eqb x y
  | None, None => true
  | _, _ => false
  end.

Fixpoint type_eqb (a b : RuninatorType) {struct a} : bool :=
  match a, b with
  | TNull, TNull | TBoolean, TBoolean | TInteger, TInteger | TNumber, TNumber
  | TDuration, TDuration | TString, TString | TAny, TAny => true
  | TEnum l, TEnum k => value_eqb (VArray l) (VArray k)
  | TRange t mn mx, TRange u mn' mx' =>
      type_eqb t u && option_value_eqb mn mn' && option_value_eqb mx mx'
  | TArray t, TArray u => type_eqb t u
  | TMap t, TMap u => type_eqb t u
  | TStruct f o, TStruct g p =>
      (fix go (l k : btree RuninatorField) : bool :=
         match l, k with
         | [], [] => true
         | (i, mk_field t r d) :: l', (j, mk_field u s e) :: k' =>
             String.eqb i j && type_eqb t u && Bool.eqb r s && option_value_eqb d e && go l' k'
         | _, _ => false
         end) f g &&
      match o, p with
      | Some t, Some u => type_eqb t u
      | None, None => true
      | _, _ => false
      end
  | TUnion l, TUnion k =>
      (fix go (l k : list RuninatorType) : bool :=
         match l, k with
         | [], [] => true
         | t :: l', u :: k' => type_eqb t u && go l' k'
         | _, _ => false
         end) l k
  | TFunction l t, TFunction k u =>
      (fix go (l k : list RuninatorType) : bool :=
         match l, k with
         | [], [] => true
         | t :: l', u :: k' => type_eqb t u && go l' k'
         | _, _ => false
         end) l k && type_eqb t u
  | _, _ => false
  end.

Definition types_contain (l : list RuninatorType) (t : RuninatorType) : bool :=
  existsb (fun u => type_eqb u t) l.

(** Number of constructors: the measure of the recursions on types. *)
Fixpoint type_size (t : RuninatorType) : nat :=
  match t with
  | TRange t _ _ | TArray t | TMap t => S (type_size t)
  | TStruct f o =>
      S (foldr (fun kf acc => type_size (ty kf.2) + acc) 0 f +
         match o with Some t => type_size t | None => 0 end)
  | TUnion l => S (foldr (fun t acc => type_size t + acc) 0 l)
  | TFunction l t => S (foldr (fun t acc => type_size t + acc) 0 l + type_size t)
  | _ => 1
  end.

(** ** Descriptions and paths *)

Definition describe (t : RuninatorType) : string :=
  match t with
  | TNull => "null"
  | TBoolean => "boolean"
  | TInteger => "integer"
  | TNumber => "number"
  | TDuration => "duration"
  | TString => "string"
  | TEnum _ => "enum"
  | TRange _ _ _ => "range"
  | TArray _ => "array"
  | TMap _ => "map"
  | TStruct _ _ => "struct"
  | TUnion _ => "union"
  | TFunction _ _ => "function"
  | TAny => "any"
  end.

Definition is_integer_number (n : Number) : bool :=
  match number_as_i64 n, number_as_u64 n with None, None => false | _, _ => true end.

Definition actual_type (v : Value) : string :=
  match v with
  | VNull => "null"
  | VBool _ => "boolean"
  | VNumber n => if is_integer_number n then "integer" else "number"
  | VString _ => "string"
  | VArray _ => "array"
  | VObject _ => "object"
  end.

Definition starts_with_bracket (s : string) : bool := String.prefix "[" s.

Definition format_path (path : list string) : string :=
  match path with
  | [] => "$"
  | _ =>
      foldl (fun rendered segment =>
        if starts_with_bracket segment then String.append rendered segment
        else String.append rendered (String.append "." segment)) "$" path
  end.

Definition violation (path : list string) (expected actual : string) : TypeViolation :=
  mk_violation (format_path path) expected actual.

(** [path.matches('.').count() + path.matches('[').count()]. *)
Fixpoint path_specificity (path : string) : nat :=
  match path with
  | EmptyString => 0
  | String c rest =>
      (if Ascii.eqb c "."%char || Ascii.eqb c "["%char then 1 else 0) + path_specificity rest
  end.

Definition best_type_violation (current : option TypeViolation) (candidate : TypeViolation) : TypeViolation :=
  match current with
  | None => candidate
  | Some current =>
      if path_specificity (vpath current) <? path_specificity (vpath candidate)
      then candidate else current
  end.

(** ** Bounds *)

Definition compare_values (left right : Value) : option comparison :=
  match left, right with
  | VNumber l, VNumber r =>
      match number_as_f64 l, number_as_f64 r with
      | Some x, Some y => f_cmp x y
      | _, _ => None
      end
  | VString l, VString r => Some (String.compare l r)
  | _, _ => None
  end.

Definition compares_lt (a b : Value) : bool :=
  match compare_values a b with Some Lt => true | _ => false end.
Definition compares_gt (a b : Value) : bool :=
  match compare_values a b with Some Gt => true | _ => false end.

Definition range_bounds_within (actual_min actual_max expected_min expected_max : option Value) : bool :=
  let min_ok :=
    match actual_min, expected_min with
    | Some a, Some e => negb (compares_lt a e)
    | None, Some _ => false
    | _, None => true
    end in
  let max_ok :=
    match actual_max, expected_max with
    | Some a, Some e => negb (compares_gt a e)
    | None, Some _ => false
    | _, None => true
    end in
  min_ok && max_ok.

(** ** Loops that stop at the first error *)

Definition for_each {E A} (f : A -> result E unit) : list A -> result E unit :=
  fix go l :=
    match l with
    | [] => Ok tt
    | x :: l' => _ ← f x; go l'
    end.

Definition for_eachi {E A} (f : nat -> A -> result E unit) : nat -> list A -> result E unit :=
  fix go i l :=
    match l with
    | [] => Ok tt
    | x :: l' => _ ← f i x; go (S i) l'
    end.

Definition CLOSURE_TAG : string := "$closure".

(** ** Validation of values *)

Fixpoint validate_value_at (self : RuninatorType) (value : Value) (path : list string)
  {struct self} : result TypeViolation unit :=
  let mismatch := Err (violation path (describe self) (actual_type value)) in
  match self with
  | TAny => Ok tt
  | TNull => if is_null value then Ok tt else mismatch
  | TBoolean => if is_boolean value then Ok tt else mismatch
  | TInteger | TDuration =>
      match as_i64 value, as_u64 value with None, None => mismatch | _, _ => Ok tt end
  | TNumber => if is_number value then Ok tt else mismatch
  | TString => if is_string value then Ok tt else mismatch
  | TEnum values => if values_contain values value then Ok tt else mismatch
  | TRange base min max =>
      _ ← validate_value_at base value path;
      if match min with Some m => compares_lt value m | None => false end then mismatch
      else if match max with Some m => compares_gt value m | None => false end then mismatch
      else Ok tt
  | TArray item_type =>
      match as_array value with
      | None => mismatch
      | Some items =>
          for_eachi (fun index item =>
            validate_value_at item_type item
              (path ++ [String.append "[" (String.append (pretty index) "]")])) 0 items
      end
  | TMap value_type =>
      match as_object value with
      | None => mismatch
      | Some object =>
          for_each (fun '(key, nested) => validate_value_at value_type nested (path ++ [key])) object
      end
  | TStruct fields additional =>
      match as_object value with
      | None => mismatch
      | Some object =>
          _ ← for_each (fun '(key, field) =>
                match bt_get key object with
                | None =>
                    if required field
                    then Err (violation (path ++ [key]) (describe (ty field)) "missing")
                    else Ok tt
                | Some nested => validate_value_at (ty field) nested (path ++ [key])
                end) fields;
          for_each (fun '(key, nested) =>
            if bt_contains key fields then Ok tt
            else match additional with
                 | Some value_type => validate_value_at value_type nested (path ++ [key])
                 | None => Err (violation (path ++ [key]) "no additional fields" "unexpected")
                 end) object
      end
  | TUnion variants =>
      (fix go (l : list RuninatorType) (best : option TypeViolation) : result TypeViolation unit :=
         match l with
         | [] => match best with Some b => Err b | None => mismatch end
         | t :: l' =>
             match validate_value_at t value path with
             | Ok _ => Ok tt
             | Err v => go l' (Some (best_type_violation best v))
             end
         end) variants None
  | TFunction _ _ =>
      match as_object value with
      | Some object => if bt_contains CLOSURE_TAG object then Ok tt else mismatch
      | None => mismatch
      end
  end.

Definition validate_value (self : RuninatorType) (value : Value) : result TypeViolation unit :=
  validate_value_at self value [].

(** ** Assignability *)

Definition is_any (t : RuninatorType) : bool := match t with TAny => true | _ => false end.

(** The widenings accepted without structure. *)
Definition widens (self expected : RuninatorType) : bool :=
  match self, expected with
  | TInteger, TNumber | TDuration, TInteger | TDuration, TNumber | TInteger, TDuration => true
  | _, _ => false
  end.

(** The outcomes of the recursion that are not a success: a violation, or no fuel left,
    which stops everything. *)
Inductive AssignError : Type :=
| Exhausted
| Violates (v : TypeViolation).

Definition as_attempt {A} (r : result TypeViolation A) : result AssignError A :=
  match r with Ok a => Ok a | Err v => Err (Violates v) end.

(** [best] after the violation of another variant. *)
Definition best_error (best : option AssignError) (e : AssignError) : AssignError :=
  match best, e with
  | Some Exhausted, _ | _, Exhausted => Exhausted
  | Some (Violates b), Violates v => Violates (best_type_violation (Some b) v)
  | None, Violates v => Violates (best_type_violation None v)
  end.

(** A required field of [expected] missing from, or optional in, [self]. *)
Definition field_gap (actual_field : option RuninatorField) (expected_field : RuninatorField) : bool :=
  match actual_field with
  | None => required expected_field
  | Some f => required expected_field && negb (required f)
  end.

Fixpoint validate_assignable_to_at (fuel : nat) (self expected : RuninatorType) (path : list string)
  {struct fuel} : result AssignError unit :=
  match fuel with
  | O => Err Exhausted
  | S fuel' =>
    let assign := validate_assignable_to_at fuel' in
    let mismatch := Err (Violates (violation path (describe expected) (describe self))) in
    if type_eqb self expected || is_any expected then Ok tt
    else if widens self expected then Ok tt
    else
    match self, expected with
    | TEnum actual, TEnum expected_values =>
        if forallb (fun value => values_contain expected_values value) actual then Ok tt else mismatch
    | TEnum actual, _ => as_attempt (for_each (fun value => validate_value_at expected value path) actual)
    | _, TRange base min max =>
        _ ← assign self base path;
        match self with
        | TRange _ actual_min actual_max =>
            if range_bounds_within actual_min actual_max min max then Ok tt else mismatch
        | TEnum values => as_attempt (for_each (fun value => validate_value_at (TRange base min max) value path) values)
        | _ => mismatch
        end
    | TRange base _ _, _ => assign base expected path
    | TArray actual, TArray expected => assign actual expected (path ++ ["[*]"])
    | TMap actual, TMap expected => assign actual expected (path ++ ["*"])
    | TStruct actual_fields actual_additional, TStruct expected_fields expected_additional =>
        _ ← for_each (fun '(key, expected_field) =>
              let actual_field := bt_get key actual_fields in
              if field_gap actual_field expected_field
              then Err (Violates (violation (path ++ [key]) (describe (ty expected_field)) "missing"))
              else match actual_field with
                   | None => Ok tt
                   | Some f => assign (ty f) (ty expected_field) (path ++ [key])
                   end) expected_fields;
        _ ← for_each (fun '(key, actual_field) =>
              if bt_contains key expected_fields then Ok tt
              else match expected_additional with
                   | Some expected => assign (ty actual_field) expected (path ++ [key])
                   | None => Err (Violates (violation (path ++ [key]) "no additional fields" "unexpected"))
                   end) actual_fields;
        match actual_additional with
        | None => Ok tt
        | Some actual_additional =>
            match expected_additional with
            | None => Err (Violates (violation (path ++ ["*"]) "no additional fields" "unexpected"))
            | Some expected_additional => assign actual_additional expected_additional (path ++ ["*"])
            end
        end
    | TStruct fields additional, TMap expected =>
        _ ← for_each (fun '(key, actual_field) => assign (ty actual_field) expected (path ++ [key])) fields;
        match additional with
        | Some additional => assign additional expected (path ++ ["*"])
        | None => Ok tt
        end
    | TMap actual, TStruct fields _ =>
        for_each (fun '(key, expected_field) =>
          if required expected_field
          then Err (Violates (violation (path ++ [key]) (describe (ty expected_field)) "missing"))
          else assign actual (ty expected_field) (path ++ [key])) fields
    | TUnion variants, _ =>
        match foldl (fun best variant =>
                match assign variant expected path with
                | Ok _ => best
                | Err e => Some (best_error best e)
                end) None variants with
        | Some e => Err e
        | None => Ok tt
        end
    | _, TUnion variants =>
        (fix go (l : list RuninatorType) (best : option AssignError) : result AssignError unit :=
           match l with
           | [] => match best with Some b => Err b | None => mismatch end
           | variant :: l' =>
               match assign self variant path with
               | Ok _ => Ok tt
               | Err Exhausted => Err Exhausted
               | Err e => go l' (Some (best_error best e))
               end
           end) variants None
    | TFunction actual_params actual_ret, TFunction expected_params expected_ret =>
        if negb (length actual_params =? length expected_params)%nat then mismatch
        else
          _ ← for_each (fun '(actual_param, expected_param) => assign expected_param actual_param path)
                (combine actual_params expected_params);
          assign actual_ret expected_ret path
    | _, _ => mismatch
    end
  end.

(** The last case does not occur: [assignable_fuel_enough]. *)
Definition validate_assignable_to (self expected : RuninatorType) : result TypeViolation unit :=
  match validate_assignable_to_at (type_size self + type_size expected) self expected [] with
  | Ok _ => Ok tt
  | Err (Violates v) => Err v
  | Err Exhausted => Err (mk_violation "" "" "")
  end.

(** ** Unions and least upper bounds *)

Definition is_numeric (t : RuninatorType) : bool :=
  match t with TInteger | TNumber | TDuration => true | _ => false end.

Definition is_primitive (t : RuninatorType) : bool :=
  match t with TBoolean | TInteger | TNumber | TDuration | TString => true | _ => false end.

(** [dedupe_union]'s loop: [None] when [Any] absorbs the union. *)
Fixpoint dedupe_variants (types variants : list RuninatorType) : option (list RuninatorType) :=
  match types with
  | [] => Some variants
  | t :: rest =>
      if type_eqb t TAny then None
      else if types_contain variants t then dedupe_variants rest variants
      else dedupe_variants rest (variants ++ [t])
  end.

Definition dedupe_union (types : list RuninatorType) : RuninatorType :=
  match dedupe_variants types [] with
  | None => TAny
  | Some [] => TAny
  | Some [t] => t
  | Some variants => TUnion variants
  end.

Definition element_type (t : RuninatorType) : option RuninatorType :=
  match t with
  | TArray element => Some element
  | TAny => Some TAny
  | _ => None
  end.

Definition union_element_type (t : RuninatorType) : option RuninatorType :=
  match t with
  | TUnion variants => option_map dedupe_union (mapM element_type variants)
  | _ => None
  end.

Fixpoint common_type (self : RuninatorType) : RuninatorType -> option RuninatorType :=
  fix inner (other : RuninatorType) : option RuninatorType :=
    if type_eqb self other then Some self
    else match self with
         | TRange base _ _ => common_type base other
         | _ =>
             match other with
             | TRange base _ _ => inner base
             | _ =>
                 if is_any self || is_any other then Some TAny
                 else if is_numeric self && is_numeric other then Some TNumber
                 else None
             end
         end.

Definition union_variants (t : RuninatorType) : list RuninatorType :=
  match t with TUnion inner => inner | _ => [t] end.

Definition unify (self other : RuninatorType) : RuninatorType :=
  match common_type self other with
  | Some common => common
  | None => dedupe_union (union_variants self ++ union_variants other)
  end.

Definition type_field (t : RuninatorType) (key : string) : option RuninatorType :=
  match t with
  | TStruct fields additional =>
      match bt_get key fields with
      | Some field => Some (ty field)
      | None => additional
      end
  | TMap values => Some values
  | _ => None
  end.

(** ** Inference *)

Fixpoint infer_from_value (v : Value) : RuninatorType :=
  match v with
  | VNull => TNull
  | VBool _ => TBoolean
  | VNumber n => if is_integer_number n then TInteger else TNumber
  | VString _ => TString
  | VArray items => TArray (dedupe_union (map infer_from_value items))
  | VObject object =>
      TStruct (map (fun '(key, x) => (key, field_optional (infer_from_value x))) object) (Some TAny)
  end.

Fixpoint from_json_value (v : Value) : RuninatorType :=
  match v with
  | VNull => TNull
  | VBool _ => TBoolean
  | VNumber n => if is_integer_number n then TInteger else TNumber
  | VString _ => TString
  | VArray items => TArray (dedupe_union (map from_json_value items))
  | VObject _ => TMap TAny
  end.

(** ** Specification of validation

    The set of values a type denotes, without paths or error values. *)

Definition below_min (min : option Value) (v : Value) : bool :=
  match min with Some m => compares_lt v m | None => false end.
Definition above_max (max : option Value) (v : Value) : bool :=
  match max with Some m => compares_gt v m | None => false end.

Fixpoint accepts (t : RuninatorType) (v : Value) {struct t} : bool :=
  match t with
  | TAny => true
  | TNull => is_null v
  | TBoolean => is_boolean v
  | TInteger | TDuration => match as_i64 v, as_u64 v with None, None => false | _, _ => true end
  | TNumber => is_number v
  | TString => is_string v
  | TEnum values => values_contain values v
  | TRange base min max => accepts base v && negb (below_min min v) && negb (above_max max v)
  | TArray t => match v with VArray l => forallb (accepts t) l | _ => false end
  | TMap t => match v with VObject m => forallb (fun kv => accepts t kv.2) m | _ => false end
  | TStruct fields additional =>
      match v with
      | VObject m =>
          forallb (fun kf => match bt_get kf.1 m with
                             | None => negb (required kf.2)
                             | Some x => accepts (ty kf.2) x
                             end) fields &&
          forallb (fun kv => bt_contains kv.1 fields ||
                             match additional with Some t => accepts t kv.2 | None => false end) m
      | _ => false
      end
  | TUnion variants => existsb (fun t => accepts t v) variants
  | TFunction _ _ => match v with VObject m => bt_contains CLOSURE_TAG m | _ => false end
  end.

(** Types for which assignability is a sound subtyping (see [assignable_sound]):
    no maps and no open structs outside function types, ... *)
Fixpoint closed_type (t : RuninatorType) : bool :=
  match t with
  | TRange base _ _ => closed_type base
  | TArray t => closed_type t
  | TMap _ => false
  | TStruct fields additional =>
      forallb (fun kf => closed_type (ty kf.2)) fields &&
      match additional with None => true | Some _ => false end
  | TUnion variants => forallb closed_type variants
  | _ => true
  end.

(** ... or no structs at all. *)
Fixpoint struct_free (t : RuninatorType) : bool :=
  match t with
  | TRange base _ _ => struct_free base
  | TArray t | TMap t => struct_free t
  | TStruct _ _ => false
  | TUnion variants => forallb struct_free variants
  | _ => true
  end.

(** Range bounds are numbers other than NaN. *)
Definition numeric_bound (o : option Value) : bool :=
  match o with
  | None => true
  | Some b => match as_f64 b with Some f => negb (f_is_nan f) | None => false end
  end.

Fixpoint numeric_bounds (t : RuninatorType) : bool :=
  match t with
  | TRange base min max => numeric_bounds base && numeric_bound min && numeric_bound max
  | TArray t | TMap t => numeric_bounds t
  | TStruct fields additional =>
      forallb (fun kf => numeric_bounds (ty kf.2)) fields &&
      match additional with None => true | Some t => numeric_bounds t end
  | TUnion variants => forallb numeric_bounds variants
  | _ => true
  end.

(** ** Induction over types *)

Lemma RuninatorType_ind' (P : RuninatorType -> Prop)
  (Hnull : P TNull) (Hbool : P TBoolean) (Hint : P TInteger) (Hnum : P TNumber)
  (Hdur : P TDuration) (Hstr : P TString) (Hany : P TAny)
  (Henum : forall l, P (TEnum l))
  (Hrange : forall t mn mx, P t -> P (TRange t mn mx))
  (Harr : forall t, P t -> P (TArray t))
  (Hmap : forall t, P t -> P (TMap t))
  (Hstruct : forall f o, Forall (fun kf => P (ty kf.2)) f ->
     (forall t, o = Some t -> P t) -> P (TStruct f o))
  (Hunion : forall l, Forall P l -> P (TUnion l))
  (Hfun : forall l t, Forall P l -> P t -> P (TFunction l t)) :
  forall t, P t.
Proof.
  fix IH 1. intros [| | | | | | l | t mn mx | t | t | f o | l | l t |];
    [assumption..| | | | | | | |exact Hany].
  - apply Henum.
  - apply Hrange, IH.
  - apply Harr, IH.
  - apply Hmap, IH.
  - apply Hstruct.
    + induction f as [|[k [t r d]] f IHf]; constructor; [apply IH|exact IHf].
    + intros t Ht. destruct o as [u|]; [|discriminate Ht]. injection Ht as <-. apply IH.
  - apply Hunion. induction l as [|t l IHl]; constructor; [apply IH|exact IHl].
  - apply Hfun; [|apply IH]. induction l as [|u l IHl]; constructor; [apply IH|exact IHl].
Qed.

(** ** Loops *)

Lemma for_each_ok {E A} (f : A -> result E unit) l :
  is_ok (for_each f l) = forallb (fun x => is_ok (f x)) l.
Proof. induction l as [|x l IH]; cbn; [done|]. destruct (f x); cbn; [apply IH|done]. Qed.

Lemma for_eachi_ok {E A} (f : nat -> A -> result E unit) (g : A -> bool) i l :
  Forall (fun x => forall j, is_ok (f j x) = g x) l -> is_ok (for_eachi f i l) = forallb g l.
Proof.
  intros H. revert i. induction H as [|x l Hx _ IH]; intros i; cbn; [done|].
  rewrite <- (Hx i). destruct (f i x); cbn; [apply IH|done].
Qed.

Lemma for_each_ext {E A} (f g : A -> result E unit) l :
  (forall x, In x l -> f x = g x) -> for_each f l = for_each g l.
Proof.
  induction l as [|x l IH]; cbn; intros H; [done|].
  rewrite H by auto. destruct (g x); cbn; [apply IH; auto|done].
Qed.

Lemma for_each_Ok_In {E A} (f : A -> result E unit) l x :
  for_each f l = Ok tt -> In x l -> f x = Ok tt.
Proof.
  induction l as [|y l IH]; cbn; [done|].
  destruct (f y) as [[]|] eqn:Hy; cbn; [|done]. intros H [->|Hin]; auto.
Qed.

Lemma is_ok_true {E} (r : result E unit) : is_ok r = true <-> r = Ok tt.
Proof. destruct r as [[]|]; cbn; naive_solver. Qed.

Lemma is_ok_bind_unit {E} (r s : result E unit) :
  is_ok (_ ← r; s) = is_ok r && is_ok s.
Proof. by destruct r. Qed.

Lemma forallb_ext_Forall {A} (f g : A -> bool) l :
  Forall (fun x => f x = g x) l -> forallb f l = forallb g l.
Proof. induction 1 as [|x l Hx _ IH]; cbn; [done|]. by rewrite Hx, IH. Qed.

(** ** Validation implements its specification *)

Lemma validate_value_at_spec t v path : is_ok (validate_value_at t v path) = accepts t v.
Proof.
  revert v path. induction t as [| | | | | | |l|t mn mx IH|t IH|t IH|f o IHf IHo|l IH|l t _ _]
    using RuninatorType_ind'; intros v path; cbn.
  - by destruct (is_null v).
  - by destruct (is_boolean v).
  - by destruct (as_i64 v), (as_u64 v).
  - by destruct (is_number v).
  - by destruct (as_i64 v), (as_u64 v).
  - by destruct (is_string v).
  - done.
  - by destruct (values_contain l v).
  - rewrite <- (IH v path), is_ok_bind_unit, <- andb_assoc. f_equal. unfold below_min, above_max.
    by repeat case_goal.
  - destruct v; cbn; try done. apply for_eachi_ok, List.Forall_forall. intros; apply IH.
  - destruct v; cbn; try done. rewrite for_each_ok. apply forallb_ext_Forall, List.Forall_forall.
    intros [k x] _. apply IH.
  - destruct v as [| | | | |m]; cbn; try done. rewrite is_ok_bind_unit, !for_each_ok. f_equal.
    + apply forallb_ext_Forall. eapply List.Forall_impl; [|exact IHf].
      intros [k fld] Hk. cbn in *. destruct (bt_get k m); [apply Hk|by destruct (required fld)].
    + apply forallb_ext_Forall, List.Forall_forall. intros [k x] _. cbn.
      destruct (bt_contains k f); [done|]. destruct o as [u|]; [|done]. by apply IHo.
  - generalize (@None TypeViolation) as best.
    induction IH as [|t l Ht _ IHl]; intros best; cbn.
    + by destruct best.
    + rewrite <- (Ht v path). destruct (validate_value_at t v path); cbn; [done|apply IHl].
  - destruct v as [| | | | |m]; cbn; try done. by destruct (bt_contains CLOSURE_TAG m).
Qed.

Lemma validate_value_ok t v : validate_value t v = Ok tt <-> accepts t v = true.
Proof. unfold validate_value. by rewrite <- is_ok_true, validate_value_at_spec. Qed.

Lemma validate_value_at_ok t v path : validate_value_at t v path = Ok tt <-> accepts t v = true.
Proof. by rewrite <- is_ok_true, validate_value_at_spec. Qed.

(** ** Equal values and equal types are interchangeable *)

Lemma number_as_f64_some n : exists f, number_as_f64 n = Some f.
Proof. destruct n; cbn; eauto. Qed.

Lemma compare_values_eqb a b c : value_eqb a b = true -> compare_values a c = compare_values b c.
Proof.
  intros Hab. destruct a as [| | x | s | |], b as [| | y | s' | |]; try done.
  - pose proof (fun c => value_eqb_as_f64_cmp _ _ c Hab) as H. cbn in H.
    destruct c as [| | z | | |]; try done. cbn.
    destruct (number_as_f64_some x) as [fx Hx], (number_as_f64_some y) as [fy Hy],
      (number_as_f64_some z) as [fz Hz].
    rewrite Hx, Hy in *. rewrite Hz. apply H.
  - cbn in Hab. by apply String.eqb_eq in Hab as ->.
Qed.

Lemma compares_lt_eqb a b c : value_eqb a b = true -> compares_lt a c = compares_lt b c.
Proof. intros H. unfold compares_lt. by rewrite (compare_values_eqb _ _ _ H). Qed.

Lemma compares_gt_eqb a b c : value_eqb a b = true -> compares_gt a c = compares_gt b c.
Proof. intros H. unfold compares_gt. by rewrite (compare_values_eqb _ _ _ H). Qed.

Lemma values_contain_In l v : values_contain l v = true <-> exists x, In x l /\ value_eqb x v = true.
Proof. unfold values_contain. apply existsb_exists. Qed.

Lemma bt_contains_eqb k m m' : value_eqb (VObject m) (VObject m') = true ->
  bt_contains k m = bt_contains k m'.
Proof.
  intros H. apply (value_eqb_get_key k) in H. unfold get_key in H. unfold bt_contains.
  by destruct (bt_get k m), (bt_get k m').
Qed.

Lemma accepts_value_eqb t a b : value_eqb a b = true -> accepts t a = accepts t b.
Proof.
  revert a b. induction t as [| | | | | | |l|t mn mx IH|t IH|t IH|f o IHf IHo|l IH|l t _ _]
    using RuninatorType_ind'; intros a b Hab; cbn.
  1-2, 4, 6: by destruct a, b.
  - destruct a as [| | x | | |], b as [| | y | | |]; try done. cbn.
    destruct x, y; try done; cbn in *; by apply Z.eqb_eq in Hab as ->.
  - destruct a as [| | x | | |], b as [| | y | | |]; try done. cbn.
    destruct x, y; try done; cbn in *; by apply Z.eqb_eq in Hab as ->.
  - done.
  - apply eq_true_iff_eq. rewrite !values_contain_In.
    split; intros (x & Hin & Hx); exists x; eauto with values.
  - rewrite (IH _ _ Hab). unfold below_min, above_max.
    destruct mn, mx; by rewrite ?(compares_lt_eqb _ _ _ Hab), ?(compares_gt_eqb _ _ _ Hab).
  - destruct a as [| | | |l|], b as [| | | |k|]; try done.
    apply value_eqb_array in Hab. induction Hab as [|x y l k Hxy _ IHl]; cbn; [done|].
    by rewrite (IH _ _ Hxy), IHl.
  - destruct a as [| | | | |m], b as [| | | | |m']; try done.
    apply value_eqb_object in Hab. induction Hab as [|[i x] [j y] m m' [_ Hxy] _ IHl]; cbn in *; [done|].
    by rewrite (IH _ _ Hxy), IHl.
  - destruct a as [| | | | |m], b as [| | | | |m']; try done. f_equal.
    + apply forallb_ext_Forall. eapply List.Forall_impl; [|exact IHf].
      intros [k fld] Hk. cbn in Hk |- *. apply (value_eqb_get_key k) in Hab. cbn in Hab.
      destruct (bt_get k m), (bt_get k m'); try done. by apply Hk.
    + apply value_eqb_object in Hab.
      induction Hab as [|[i x] [j y] m m' [Hij Hxy] _ IHl]; cbn in *; [done|]. subst j.
      rewrite IHl. do 2 f_equal. destruct o as [u|]; [by apply (IHo u eq_refl)|done].
  - induction IH as [|t l Ht _ IHl]; cbn; [done|]. by rewrite (Ht _ _ Hab), IHl.
  - destruct a as [| | | | |m], b as [| | | | |m']; try done. by apply bt_contains_eqb.
Qed.

Definition type_field_eqb (a b : string * RuninatorField) : Prop :=
  a.1 = b.1 /\ type_eqb (ty a.2) (ty b.2) = true /\ required a.2 = required b.2 /\
  option_value_eqb (default a.2) (default b.2) = true.

Lemma type_eqb_struct f o g p : type_eqb (TStruct f o) (TStruct g p) = true <->
  Forall2 type_field_eqb f g /\
  match o, p with Some t, Some u => type_eqb t u = true | None, None => True | _, _ => False end.
Proof.
  cbn [type_eqb]. rewrite andb_true_iff. apply Morphisms_Prop.and_iff_morphism.
  - revert g. induction f as [|[i [t r d]] f IH]; intros [|[j [u s e]] g];
      [split; [constructor|done]|split; [done|intros H; inversion H]..|].
    rewrite !andb_true_iff, IH, List.Forall2_cons_iff, String.eqb_eq, Bool.eqb_true_iff.
    unfold type_field_eqb. cbn. naive_solver.
  - by destruct o, p.
Qed.

Lemma type_eqb_list (l k : list RuninatorType) :
  (fix go (l k : list RuninatorType) : bool :=
     match l, k with
     | [], [] => true
     | t :: l', u :: k' => type_eqb t u && go l' k'
     | _, _ => false
     end) l k = true <-> Forall2 (fun t u => type_eqb t u = true) l k.
Proof.
  revert k. induction l as [|t l IH]; intros [|u k];
    [split; [constructor|done]|split; [done|intros H; inversion H]..|].
  by rewrite andb_true_iff, IH, List.Forall2_cons_iff.
Qed.

Lemma option_bound_eqb (mn mn' : option Value) v : option_value_eqb mn mn' = true ->
  below_min mn v = below_min mn' v /\ above_max mn v = above_max mn' v.
Proof.
  destruct mn as [x|], mn' as [y|]; try done. cbn. intros H.
  unfold compares_lt, compares_gt.
  destruct x as [| | x | s | |], y as [| | y | s' | |]; try done; destruct v as [| | z | r | |]; try done; cbn in *.
  - pose proof (fun c => value_eqb_as_f64_cmp (VNumber x) (VNumber y) c H) as Hc. cbn in Hc.
    destruct (number_as_f64_some x) as [fx Hx], (number_as_f64_some y) as [fy Hy],
      (number_as_f64_some z) as [fz Hz].
    rewrite Hx, Hy, Hz in *. rewrite (f_cmp_swap fx fz), (f_cmp_swap fy fz), Hc. done.
  - by apply String.eqb_eq in H as ->.
Qed.

Lemma Forall2_bt_get k (f g : btree RuninatorField) : Forall2 type_field_eqb f g ->
  bt_contains k f = bt_contains k g.
Proof.
  unfold bt_contains.
  induction 1 as [|[i t] [j u] f g [Hij _] _ IH]; cbn in *; [done|]. subst. by destruct (String.eqb k j).
Qed.

Lemma accepts_type_eqb t u v : type_eqb t u = true -> accepts t v = accepts u v.
Proof.
  revert u v. induction t as [| | | | | | |l|t mn mx IH|t IH|t IH|f o IHf IHo|l IH|l t _ _]
    using RuninatorType_ind'; intros u v Htu; destruct u as [| | | | | |k|u mn' mx'|u|u|g p|k|k u|]; try done.
  - cbn [type_eqb] in Htu. apply value_eqb_array in Htu. cbn. unfold values_contain.
    induction Htu as [|x y l k Hxy _ IHl]; cbn; [done|]. rewrite IHl. f_equal.
    apply eq_true_iff_eq; split; eauto with values.
  - cbn in *. apply andb_prop in Htu as [[Ht Hmn]%andb_prop Hmx].
    apply (option_bound_eqb _ _ v) in Hmn as [Hmn _], Hmx as [_ Hmx].
    by rewrite (IH _ _ Ht), Hmn, Hmx.
  - cbn in *. destruct v; try done. apply forallb_ext_Forall, List.Forall_forall. intros; by apply IH.
  - cbn in *. destruct v; try done. apply forallb_ext_Forall, List.Forall_forall. intros; by apply IH.
  - apply type_eqb_struct in Htu as [Hf Ho]. cbn. destruct v as [| | | | |m]; try done. f_equal.
    + clear Ho IHo. revert IHf.
      induction Hf as [|[i [t r d]] [j [u s e]] f g (Hi & Ht & Hr & _) _ IHl]; intros Hall; cbn in *; [done|].
      inversion Hall as [|? ? Hh Hall']; subst; cbn in *. rewrite (IHl Hall'). f_equal.
      by destruct (bt_get j m); [apply Hh|].
    + apply forallb_ext_Forall, List.Forall_forall. intros [k x] _. cbn.
      rewrite (Forall2_bt_get k _ _ Hf). f_equal.
      destruct o as [t|], p as [u|]; try done. by apply IHo.
  - cbn in *. apply type_eqb_list in Htu. revert IH.
    induction Htu as [|t u l k Ht _ IHl]; intros Hall; cbn; [done|].
    inversion Hall as [|? ? Hh Hall']; subst. by rewrite (Hh _ _ Ht), (IHl Hall').
Qed.

#[export] Hint Rewrite validate_value_at_ok validate_value_ok : types.

(** ** Assignability is sound *)

Lemma compares_lt_trans v a e : numeric_bound (Some a) = true -> numeric_bound (Some e) = true ->
  compares_lt v a = false -> compares_lt a e = false -> compares_lt v e = false.
Proof.
  cbn. destruct (as_f64 a) as [fa|] eqn:Ha; [|done]. destruct (as_f64 e) as [fe|] eqn:He; [|done].
  intros Hna%negb_true_iff _. unfold compares_lt.
  destruct v as [| | x | | |], a as [| | y | | |], e as [| | z | | |]; try done.
  cbn in *. destruct (number_as_f64_some x) as [fx Hx]. rewrite Hx, Ha, He.
  intros H1 H2. pose proof (f_not_lt_trans fx fa fe Hna) as Ht. unfold f_not_lt in Ht.
  destruct (f_cmp fx fa) as [[]|], (f_cmp fa fe) as [[]|], (f_cmp fx fe) as [[]|];
    try done; exfalso; apply Ht; congruence.
Qed.

Lemma compares_gt_lt a b : compares_gt a b = compares_lt b a.
Proof.
  unfold compares_gt, compares_lt, compare_values.
  destruct a as [| | x | s | |], b as [| | y | s' | |]; try done.
  - destruct (number_as_f64_some x) as [fx ->], (number_as_f64_some y) as [fy ->].
    rewrite (f_cmp_swap fy fx). by destruct (f_cmp fy fx) as [[]|].
  - rewrite (String.compare_antisym s' s). by destruct (String.compare s s').
Qed.

Lemma numeric_bound_not_nan b : numeric_bound (Some b) = true ->
  exists f, as_f64 b = Some f /\ f_is_nan f = false.
Proof. cbn. destruct (as_f64 b) as [f|]; [|done]. intros ?%negb_true_iff. eauto. Qed.

Lemma compares_gt_trans v a e : numeric_bound (Some a) = true -> numeric_bound (Some e) = true ->
  compares_gt v a = false -> compares_gt a e = false -> compares_gt v e = false.
Proof.
  rewrite !compares_gt_lt. intros Ha He.
  apply numeric_bound_not_nan in Ha as (fa & Ha & Hna).
  apply numeric_bound_not_nan in He as (fe & He & _).
  unfold compares_lt.
  destruct v as [| | x | | |], a as [| | y | | |], e as [| | z | | |]; try done.
  cbn in *. destruct (number_as_f64_some x) as [fx Hx], (number_as_f64_some z) as [fz Hz].
  rewrite Hx, Ha, Hz. intros H1 H2.
  pose proof (f_not_lt_trans fz fa fx Hna) as Ht. unfold f_not_lt in Ht.
  destruct (f_cmp fz fa) as [[]|], (f_cmp fa fx) as [[]|], (f_cmp fz fx) as [[]|];
    try done; exfalso; apply Ht; congruence.
Qed.

Lemma range_bounds_within_sound amn amx emn emx v :
  range_bounds_within amn amx emn emx = true ->
  numeric_bound amn = true -> numeric_bound amx = true ->
  numeric_bound emn = true -> numeric_bound emx = true ->
  below_min amn v = false -> above_max amx v = false ->
  below_min emn v = false /\ above_max emx v = false.
Proof.
  unfold range_bounds_within. intros [Hmin Hmax]%andb_prop Hamn Hamx Hemn Hemx Hlo Hhi.
  split.
  - destruct amn as [a|], emn as [e|]; try done.
    apply negb_true_iff in Hmin. exact (compares_lt_trans v a e Hamn Hemn Hlo Hmin).
  - destruct amx as [a|], emx as [e|]; try done.
    apply negb_true_iff in Hmax. exact (compares_gt_trans v a e Hamx Hemx Hhi Hmax).
Qed.

(** The side condition of the soundness theorem, closed under the recursion. *)
Definition sound_pair (a e : RuninatorType) : Prop :=
  (closed_type a = true \/ struct_free e = true) /\ numeric_bounds a = true /\ numeric_bounds e = true.

Lemma forallb_In {A} (f : A -> bool) l x : forallb f l = true -> In x l -> f x = true.
Proof. intros H Hin. rewrite forallb_forall in H. by apply H. Qed.

Lemma wf_object_In m k x : wf_value (VObject m) -> In (k, x) m -> wf_value x /\ bt_get k m = Some x.
Proof.
  intros [Hs Hf]%wf_object Hin. split; [|by apply sorted_In_get].
  eapply List.Forall_forall in Hf; [|done]. done.
Qed.

Lemma fold_violations_ok (f : RuninatorType -> result AssignError unit) l best :
  foldl (fun best variant =>
    match f variant with Ok _ => best | Err e => Some (best_error best e) end) best l = None ->
  best = None /\ forall t, In t l -> f t = Ok tt.
Proof.
  revert best. induction l as [|t l IH]; intros best; cbn; [naive_solver|].
  intros [Hb Hl]%IH. destruct (f t) as [[]|] eqn:Ht; [|done].
  split; [done|]. intros u [->|Hin]; auto.
Qed.

Lemma try_variants_ok (f : RuninatorType -> result AssignError unit) mismatch l best :
  (fix go (l : list RuninatorType) (best : option AssignError) : result AssignError unit :=
     match l with
     | [] => match best with Some b => Err b | None => Err mismatch end
     | variant :: l' =>
         match f variant with
         | Ok _ => Ok tt
         | Err Exhausted => Err Exhausted
         | Err e => go l' (Some (best_error best e))
         end
     end) l best = Ok tt -> exists t, In t l /\ f t = Ok tt.
Proof.
  revert best. induction l as [|t l IH]; intros best; cbn; [by destruct best|].
  destruct (f t) as [[]|[|v]] eqn:Ht; [by eauto|done|]. intros (u & Hin & Hu)%IH. eauto.
Qed.

Lemma as_attempt_ok {A} (r : result TypeViolation A) a : as_attempt r = Ok a -> r = Ok a.
Proof. destruct r; [by intros [= ->]|done]. Qed.

Section soundness.
Variable n : nat.
Variable assign_sound : forall a e path v,
  validate_assignable_to_at n a e path = Ok tt -> sound_pair a e -> wf_value v ->
  accepts a v = true -> accepts e v = true.

Lemma enum_into_sound actual e path v :
  as_attempt (for_each (fun value => validate_value_at e value path) actual) = Ok tt ->
  values_contain actual v = true -> accepts e v = true.
Proof.
  intros H%as_attempt_ok (x & Hin & Hx)%values_contain_In.
  pose proof (for_each_Ok_In _ _ x H Hin) as Hok. cbn in Hok. apply validate_value_at_ok in Hok.
  by rewrite <- (accepts_value_eqb e _ _ Hx).
Qed.

Lemma struct_into_map_sound f o e path m :
  for_each (fun '(key, fld) => validate_assignable_to_at n (ty fld) e (path ++ [key])) f = Ok tt ->
  (forall t, o = Some t -> validate_assignable_to_at n t e (path ++ ["*"]) = Ok tt) ->
  (forall k fld, In (k, fld) f -> sound_pair (ty fld) e) ->
  (forall t, o = Some t -> sound_pair t e) ->
  wf_value (VObject m) -> accepts (TStruct f o) (VObject m) = true ->
  accepts (TMap e) (VObject m) = true.
Proof.
  intros Hf Ho Hsf Hso Hwf Hacc. cbn in Hacc. apply andb_prop in Hacc as [Hfields Hrest].
  cbn. apply forallb_forall. intros [k x] Hin. cbn.
  destruct (wf_object_In _ _ _ Hwf Hin) as [Hx Hget].
  pose proof (forallb_In _ _ _ Hrest Hin) as Hk. cbn in Hk.
  unfold bt_contains in Hk. destruct (bt_get k f) as [fld|] eqn:Hkf.
  - pose proof (bt_get_In _ _ _ Hkf) as Hinf.
    pose proof (for_each_Ok_In _ _ _ Hf Hinf) as Hassign.
    pose proof (forallb_In _ _ _ Hfields Hinf) as Hval. cbn in *. rewrite Hget in Hval.
    eapply assign_sound; eauto.
  - destruct o as [t|]; [|done]. cbn in Hk. eapply assign_sound; eauto.
Qed.

Lemma struct_into_struct_sound f o g p path m :
  o = None ->
  for_each (fun '(key, expected_field) =>
    if field_gap (bt_get key f) expected_field
    then Err (Violates (violation (path ++ [key]) (describe (ty expected_field)) "missing"))
    else match bt_get key f with
         | None => Ok tt
         | Some fld => validate_assignable_to_at n (ty fld) (ty expected_field) (path ++ [key])
         end) g = Ok tt ->
  for_each (fun '(key, fld) =>
    if bt_contains key g then Ok tt
    else match p with
         | Some e => validate_assignable_to_at n (ty fld) e (path ++ [key])
         | None => Err (Violates (violation (path ++ [key]) "no additional fields" "unexpected"))
         end) f = Ok tt ->
  (forall k fld l ex, In (k, fld) f -> In (l, ex) g -> sound_pair (ty fld) (ty ex)) ->
  (forall k fld t, In (k, fld) f -> p = Some t -> sound_pair (ty fld) t) ->
  wf_value (VObject m) -> accepts (TStruct f o) (VObject m) = true ->
  accepts (TStruct g p) (VObject m) = true.
Proof.
  intros -> Hg Hf Hsg Hsp Hwf Hacc. cbn in Hacc. apply andb_prop in Hacc as [Hfields Hrest].
  cbn. apply andb_true_intro. split; apply forallb_forall.
  - intros [k ex] Hin. cbn. pose proof (for_each_Ok_In _ _ _ Hg Hin) as Hk. cbn in Hk.
    unfold field_gap in Hk. destruct (bt_get k f) as [fld|] eqn:Hkf.
    + pose proof (bt_get_In _ _ _ Hkf) as Hinf.
      pose proof (forallb_In _ _ _ Hfields Hinf) as Hval. cbn in Hval.
      destruct (bt_get k m) as [x|] eqn:Hkm.
      * destruct (required ex && negb (required fld)); [done|].
        eapply assign_sound; eauto. by eapply (wf_get_key k (VObject m)).
      * by destruct (required ex), (required fld).
    + destruct (required ex); [done|]. destruct (bt_get k m) as [x|] eqn:Hkm; [|done].
      pose proof (forallb_In _ _ _ Hrest (bt_get_In _ _ _ Hkm)) as Hc. cbn in Hc.
      unfold bt_contains in Hc. by rewrite Hkf in Hc.
  - intros [k x] Hin. cbn. destruct (wf_object_In _ _ _ Hwf Hin) as [Hx Hget].
    pose proof (forallb_In _ _ _ Hrest Hin) as Hc. cbn in Hc.
    rewrite orb_false_r in Hc. apply bt_contains_get in Hc as [fld Hkf].
    pose proof (bt_get_In _ _ _ Hkf) as Hinf.
    pose proof (for_each_Ok_In _ _ _ Hf Hinf) as Hassign. cbn in Hassign.
    destruct (bt_contains k g); [done|]. cbn. destruct p as [t|]; [|done].
    pose proof (forallb_In _ _ _ Hfields Hinf) as Hval. cbn in Hval. rewrite Hget in Hval.
    eapply assign_sound; eauto.
Qed.

End soundness.

(** The side condition passes to components. *)
Lemma sound_pair_struct f o g p k fld l ex :
  sound_pair (TStruct f o) (TStruct g p) -> In (k, fld) f -> In (l, ex) g -> sound_pair (ty fld) (ty ex).
Proof.
  intros ([Hc|Hc] & Ha & He) Hf Hg; [|discriminate Hc]. cbn in Hc, Ha, He.
  apply andb_prop in Hc as [Hc _], Ha as [Ha _], He as [He _].
  apply (forallb_In _ _ _ Hc) in Hf as Hcf. apply (forallb_In _ _ _ Ha) in Hf as Haf.
  apply (forallb_In _ _ _ He) in Hg as Hgf. split; [by left|done].
Qed.

Lemma sound_pair_struct_additional f o g t k fld :
  sound_pair (TStruct f o) (TStruct g (Some t)) -> In (k, fld) f -> sound_pair (ty fld) t.
Proof.
  intros ([Hc|Hc] & Ha & He) Hf; [|discriminate Hc]. cbn in Hc, Ha, He.
  apply andb_prop in Hc as [Hc _], Ha as [Ha _], He as [_ He].
  apply (forallb_In _ _ _ Hc) in Hf as Hcf. apply (forallb_In _ _ _ Ha) in Hf as Haf.
  split; [by left|done].
Qed.

Lemma sound_pair_struct_map f o e k fld :
  sound_pair (TStruct f o) (TMap e) -> In (k, fld) f -> sound_pair (ty fld) e.
Proof.
  intros (Hor & Ha & He) Hf. cbn in Hor, Ha, He. apply andb_prop in Ha as [Ha _].
  apply (forallb_In _ _ _ Ha) in Hf as Haf. split; [|done].
  destruct Hor as [[Hc _]%andb_prop|Hc]; [left|by right].
  by apply (forallb_In _ _ _ Hc) in Hf as Hcf.
Qed.

Lemma sound_pair_union_l l e t : sound_pair (TUnion l) e -> In t l -> sound_pair t e.
Proof.
  intros (Hor & Ha & He) Hin. cbn in Ha. apply (forallb_In _ _ _ Ha) in Hin as Hat.
  split; [|done]. destruct Hor as [Hc|Hc]; [left|by right]. cbn in Hc.
  by apply (forallb_In _ _ _ Hc) in Hin.
Qed.

Lemma sound_pair_union_r a l t : sound_pair a (TUnion l) -> In t l -> sound_pair a t.
Proof.
  intros (Hor & Ha & He) Hin. cbn in He. apply (forallb_In _ _ _ He) in Hin as Het.
  split; [|done]. destruct Hor as [Hc|Hc]; [by left|right]. cbn in Hc.
  by apply (forallb_In _ _ _ Hc) in Hin.
Qed.

Lemma sound_pair_range_l t mn mx e : sound_pair (TRange t mn mx) e ->
  sound_pair t e /\ numeric_bound mn = true /\ numeric_bound mx = true.
Proof.
  intros (Hor & Ha & He). cbn in Hor, Ha. apply andb_prop in Ha as [[Ha ?]%andb_prop ?].
  by repeat split.
Qed.

Lemma sound_pair_range_r a t mn mx : sound_pair a (TRange t mn mx) ->
  sound_pair a t /\ numeric_bound mn = true /\ numeric_bound mx = true.
Proof.
  intros (Hor & Ha & He). cbn in Hor, He. apply andb_prop in He as [[He ?]%andb_prop ?].
  by repeat split.
Qed.

Lemma accepts_range base mn mx v : accepts (TRange base mn mx) v = true <->
  accepts base v = true /\ below_min mn v = false /\ above_max mx v = false.
Proof. cbn. rewrite !andb_true_iff, !negb_true_iff. tauto. Qed.

Lemma widens_sound a e v : widens a e = true -> accepts a v = true -> accepts e v = true.
Proof.
  destruct a, e; try done; intros _; cbn; destruct v as [| | n | | |]; try done.
Qed.

(** One step of assignability, below the two shortcuts. *)
Lemma assign_step_sound n
  (IH : forall a e path v,
     validate_assignable_to_at n a e path = Ok tt -> sound_pair a e -> wf_value v ->
     accepts a v = true -> accepts e v = true) a e path v :
  type_eqb a e || is_any e = false -> widens a e = false ->
  validate_assignable_to_at (S n) a e path = Ok tt -> sound_pair a e -> wf_value v ->
  accepts a v = true -> accepts e v = true.
Proof.
  intros Heq Hw H Hsp Hwf Hacc.
  cbn [validate_assignable_to_at] in H. rewrite Heq, Hw in H. clear Heq Hw.
  destruct a as [| | | | | |l|t mn mx|t|t|f o|l|l t|], e as [| | | | | |k|u mn' mx'|u|u|g p|k|k u|];
    try discriminate H; try reflexivity;
    (* an enum into anything *)
    try (by eapply enum_into_sound);
    (* a range into anything but a range *)
    try (apply accepts_range in Hacc as [Hacc _]; apply sound_pair_range_l in Hsp as [Hsp _];
         by eapply IH);
    (* a union into anything but a range *)
    try (destruct (foldl _ _ _) eqn:Hfold in H; [discriminate H|];
         apply fold_violations_ok in Hfold as [_ Hall];
         cbn [accepts] in Hacc; apply existsb_exists in Hacc as (t & Hin & Ht);
         eapply (IH t); eauto using sound_pair_union_l);
    (* anything else into a union *)
    try (apply (try_variants_ok (fun t => validate_assignable_to_at n _ t path)) in H as (t' & Hin & Ht);
         cbn [accepts]; apply existsb_exists; exists t'; split; [done|];
         eapply IH; eauto using sound_pair_union_r);
    (* only ranges go into ranges *)
    try (res_inv; discriminate).
  - destruct (forallb _ l) eqn:Hall; [|discriminate H]. cbn in Hacc |- *.
    apply values_contain_In in Hacc as (x & Hin & Hx).
    pose proof (forallb_In _ _ _ Hall Hin) as Hy. cbn in Hy.
    apply values_contain_In in Hy as (y & Hy & Hyx). apply values_contain_In. eauto with values.
  - apply bind_ok in H as ([] & Hbase & H).
    destruct (range_bounds_within _ _ _ _) eqn:Hb; [|discriminate H].
    apply sound_pair_range_r in Hsp as Hr. destruct Hr as (Hspr & Hmn' & Hmx').
    apply sound_pair_range_l in Hsp as (_ & Hmn & Hmx).
    apply accepts_range. split; [by eapply IH|].
    apply accepts_range in Hacc as (_ & Hlo & Hhi). by eapply range_bounds_within_sound.
  - cbn in *. destruct v as [| | | |items|]; try done. apply forallb_forall. intros x Hin.
    apply wf_array in Hwf. eapply List.Forall_forall in Hwf; [|done].
    eapply IH; [exact H|exact Hsp|done|]. by eapply forallb_In.
  - cbn in *. destruct v as [| | | | |m]; try done. apply forallb_forall. intros [j x] Hin.
    destruct (wf_object_In _ _ _ Hwf Hin) as [Hx _].
    pose proof (forallb_In _ _ _ Hacc Hin) as Hj. cbn in Hj |- *.
    eapply IH; [exact H| |done|exact Hj].
    destruct Hsp as ([Hc|Hc] & Ha & He); [discriminate Hc|]. split; [by right|done].
  - destruct Hsp as ([Hc|Hc] & _); discriminate Hc.
  - destruct v as [| | | | |m]; try discriminate Hacc.
    apply bind_ok in H as ([] & Hf & H). eapply struct_into_map_sound; eauto using sound_pair_struct_map.
    + intros t ->. exact H.
    + intros t ->. destruct Hsp as ([Hc|Hc] & Ha & He); cbn in *.
      * by rewrite andb_false_r in Hc.
      * apply andb_prop in Ha as [_ Ha]. split; [by right|done].
  - destruct v as [| | | | |m]; try discriminate Hacc.
    apply bind_ok in H as ([] & Hg & H). apply bind_ok in H as ([] & Hf & H).
    apply (struct_into_struct_sound n IH f o g p path m); [ |done|done| | |done|done].
    + destruct Hsp as ([Hc|Hc] & _); [|discriminate Hc]. cbn in Hc.
      destruct o; [by rewrite andb_false_r in Hc|done].
    + intros k fld l ex. by apply (sound_pair_struct _ _ _ _ _ _ _ _ Hsp).
    + intros k fld t Hin ->. by eapply sound_pair_struct_additional.
  - exact Hacc.
Qed.

Lemma assignable_at_sound n a e path v :
  validate_assignable_to_at n a e path = Ok tt -> sound_pair a e -> wf_value v ->
  accepts a v = true -> accepts e v = true.
Proof.
  revert a e path v. induction n as [|n IH]; intros a e path v H Hsp Hwf Hacc; [discriminate H|].
  destruct (type_eqb a e || is_any e) eqn:Heq.
  { apply orb_prop in Heq as [Heq|Heq]; [by rewrite <- (accepts_type_eqb _ _ v Heq)|by destruct e]. }
  destruct (widens a e) eqn:Hw; [by eapply widens_sound|].
  by eapply assign_step_sound.
Qed.

Lemma assignable_ok a e : validate_assignable_to a e = Ok tt ->
  validate_assignable_to_at (type_size a + type_size e) a e [] = Ok tt.
Proof. unfold validate_assignable_to. by destruct (validate_assignable_to_at _ _ _ _) as [[]|[|v]]. Qed.

(** ** Unions and bounds *)

Lemma types_contain_accepts l t v : types_contain l t = true -> accepts t v = true ->
  existsb (fun u => accepts u v) l = true.
Proof.
  unfold types_contain. intros (u & Hin & Hu)%existsb_exists Ht.
  apply existsb_exists. exists u. split; [done|]. by rewrite (accepts_type_eqb _ _ v Hu).
Qed.

Lemma dedupe_variants_accepts types variants v :
  existsb (fun t => accepts t v) (variants ++ types) = true ->
  match dedupe_variants types variants with
  | Some l => existsb (fun t => accepts t v) l = true
  | None => True
  end.
Proof.
  revert variants. induction types as [|t rest IH]; intros variants H; cbn.
  - by rewrite app_nil_r in H.
  - destruct (type_eqb t TAny); [done|]. destruct (types_contain variants t) eqn:Hc.
    + apply IH. rewrite existsb_app in *. cbn in H.
      destruct (existsb _ variants) eqn:Hv; [done|]. cbn in *.
      destruct (accepts t v) eqn:Ht; [|done].
      by rewrite (types_contain_accepts _ _ _ Hc Ht) in Hv.
    + apply IH. by rewrite <- app_assoc.
Qed.

Lemma dedupe_union_accepts l v :
  existsb (fun t => accepts t v) l = true -> accepts (dedupe_union l) v = true.
Proof.
  intros H. unfold dedupe_union. pose proof (dedupe_variants_accepts l [] v H) as Hd.
  destruct (dedupe_variants l []) as [[|t [|u k]]|]; try done. cbn in Hd. by rewrite orb_false_r in Hd.
Qed.

Lemma accepts_union_variants t v :
  existsb (fun u => accepts u v) (union_variants t) = accepts t v.
Proof. destruct t; cbn; by rewrite ?orb_false_r. Qed.

Lemma type_eqb_any_l u : type_eqb TAny u = true -> u = TAny.
Proof. by destruct u. Qed.

Lemma common_type_upper a b c v : common_type a b = Some c ->
  accepts a v = true \/ accepts b v = true -> accepts c v = true.
Proof.
  revert b c. induction a as [| | | | | | |l|t mn mx IHa|t _|t _|f o _ _|l _|l t _ _]
    using RuninatorType_ind'; intros b;
    induction b as [| | | | | | |l'|t' mn' mx' IHb|t' _|t' _|f' o' _ _|l' _|l' t' _ _]
    using RuninatorType_ind'; intros c Hc;
    cbn [common_type] in Hc; (case_hyp Hc; [injection Hc as <-;
      intros [Hv|Hv]; [done|by erewrite accepts_type_eqb]|]);
    cbn in Hc; try discriminate Hc;
    try (injection Hc as <-; intros [Hv|Hv]; cbn in Hv |- *; try done; by destruct v);
    try (intros [Hv|Hv]; [rewrite accepts_range in Hv; destruct Hv as [Hv _]|];
         apply (IHa _ _ Hc); auto);
    try (intros [Hv|Hv]; [|rewrite accepts_range in Hv; destruct Hv as [Hv _]];
         apply (IHb _ Hc); auto).
Qed.

Lemma unify_upper a b v : accepts a v = true \/ accepts b v = true -> accepts (unify a b) v = true.
Proof.
  intros H. unfold unify. destruct (common_type a b) as [c|] eqn:Hc; [by eapply common_type_upper|].
  apply dedupe_union_accepts. rewrite existsb_app, !accepts_union_variants. by apply orb_true_iff.
Qed.

(** ** Inference *)

Lemma infer_accepts v : wf_value v -> accepts (infer_from_value v) v = true.
Proof.
  induction v as [| b | n | s | l IH | m IH] using Value_ind'; intros Hwf; cbn; try done.
  - destruct (is_integer_number n) eqn:Hn; [|done]. unfold is_integer_number in Hn. cbn.
    by destruct (number_as_i64 n), (number_as_u64 n).
  - apply wf_array in Hwf. apply forallb_forall. intros x Hin. apply dedupe_union_accepts.
    apply existsb_exists. exists (infer_from_value x). split; [by apply in_map|].
    eapply List.Forall_forall in IH; [|done]. eapply List.Forall_forall in Hwf; [|done]. by apply IH.
  - apply andb_true_intro. split; apply forallb_forall.
    + intros [k fld] ([j x] & [= <- <-] & Hin)%in_map_iff. cbn.
      destruct (wf_object_In _ _ _ Hwf Hin) as [Hx Hget]. rewrite Hget.
      eapply List.Forall_forall in IH; [|done]. by apply IH.
    + intros kv _. apply orb_true_r.
Qed.

(** ** Fuel *)

Lemma In_type_size_fields k fld (f : btree RuninatorField) : In (k, fld) f ->
  type_size (ty fld) <= foldr (fun kf acc => type_size (ty kf.2) + acc) 0 f.
Proof.
  induction f as [|[j g] f IH]; cbn; [done|]. intros [[= -> ->]|Hin]; [lia|]. specialize (IH Hin). lia.
Qed.

Lemma In_type_size t l : In t l -> type_size t <= foldr (fun t acc => type_size t + acc) 0 l.
Proof. induction l as [|u l IH]; cbn; [done|]. intros [->|Hin]; [lia|]. specialize (IH Hin). lia. Qed.

Lemma type_size_pos t : 1 <= type_size t.
Proof. destruct t; cbn; lia. Qed.

Lemma foldl_ext_In {A B} (f g : B -> A -> B) l b :
  (forall x b, In x l -> f b x = g b x) -> foldl f b l = foldl g b l.
Proof.
  revert b. induction l as [|x l IH]; intros b H; cbn; [done|].
  rewrite H by (by left). apply IH. intros; apply H. by right.
Qed.

Lemma try_variants_ext (f g : RuninatorType -> result AssignError unit) mm l :
  (forall t, In t l -> f t = g t) -> forall best,
  (fix go (l : list RuninatorType) (best : option AssignError) : result AssignError unit :=
     match l with
     | [] => match best with Some b => Err b | None => mm end
     | variant :: l' =>
         match f variant with
         | Ok _ => Ok tt
         | Err Exhausted => Err Exhausted
         | Err e => go l' (Some (best_error best e))
         end
     end) l best =
  (fix go (l : list RuninatorType) (best : option AssignError) : result AssignError unit :=
     match l with
     | [] => match best with Some b => Err b | None => mm end
     | variant :: l' =>
         match g variant with
         | Ok _ => Ok tt
         | Err Exhausted => Err Exhausted
         | Err e => go l' (Some (best_error best e))
         end
     end) l best.
Proof.
  induction l as [|t l IH]; intros H best; [done|]. rewrite H by (by left).
  destruct (g t) as [|[|v]]; [done..|]. apply IH. intros; apply H. by right.
Qed.

Lemma bind_unit_ext {E A} (r s : result E unit) (f g : unit -> result E A) :
  r = s -> f tt = g tt -> r ≫= f = s ≫= g.
Proof. intros -> H. by destruct s as [[]|]. Qed.

(** Every recursive call of a run with enough fuel has enough fuel. *)
Definition settles {A} (r : result AssignError A) : Prop := r <> Err Exhausted.

Lemma settles_bind {A B} (r : result AssignError A) (f : A -> result AssignError B) :
  settles r -> (forall a, settles (f a)) -> settles (r ≫= f).
Proof. intros Hr Hf. destruct r as [a|[]]; [apply Hf|by destruct Hr|done]. Qed.

Lemma settles_for_each {A} (f : A -> result AssignError unit) l : (forall x, In x l -> settles (f x)) -> settles (for_each f l).
Proof.
  induction l as [|x l IH]; intros H; [done|]. cbn. apply settles_bind; [apply H; by left|].
  intros _. apply IH. intros y Hy. apply H. by right.
Qed.

Lemma settles_attempt {A} (r : result TypeViolation A) : settles (as_attempt r).
Proof. by destruct r. Qed.

(** The variants of the source: the error kept is one of theirs. *)
Lemma settles_fold (f : RuninatorType -> result AssignError unit) l : (forall t, In t l -> settles (f t)) ->
  forall best, best <> Some Exhausted ->
  foldl (fun best variant =>
    match f variant with Ok _ => best | Err e => Some (best_error best e) end) best l <> Some Exhausted.
Proof.
  induction l as [|t l IH]; intros H best Hb; [done|]. cbn. apply IH; [intros u Hu; apply H; by right|].
  assert (Ht : settles (f t)) by (apply H; by left). destruct (f t) as [|[|v]]; [done|by destruct Ht|].
  by destruct best as [[]|].
Qed.

Lemma settles_variants (f : RuninatorType -> result AssignError unit) mm l : settles mm -> (forall t, In t l -> settles (f t)) ->
  forall best, best <> Some Exhausted ->
  settles ((fix go (l : list RuninatorType) (best : option AssignError) : result AssignError unit :=
     match l with
     | [] => match best with Some b => Err b | None => mm end
     | variant :: l' =>
         match f variant with
         | Ok _ => Ok tt
         | Err Exhausted => Err Exhausted
         | Err e => go l' (Some (best_error best e))
         end
     end) l best).
Proof.
  intros Hm. induction l as [|t l IH]; intros H best Hb; [destruct best as [b|]; [by intros [= ->]|done]|].
  assert (Ht : settles (f t)) by (apply H; by left).
  destruct (f t) as [|[|v]]; [done|by destruct Ht|]. apply IH; [intros u Hu; apply H; by right|]. by destruct best as [[]|].
Qed.

(** Fuel for a call on components of the types at hand. *)
Ltac fuel_component IH :=
  apply IH; cbn in *;
  repeat match goal with
  | H : In (_, _) _ |- _ => apply In_type_size_fields in H
  | H : In _ _ |- _ => apply In_type_size in H
  end; lia.

Lemma assign_fuel_irrelevant n m a e path :
  type_size a + type_size e <= n -> type_size a + type_size e <= m ->
  validate_assignable_to_at n a e path = validate_assignable_to_at m a e path.
Proof.
  revert m a e path. induction n as [|n IH]; intros [|m] a e path Hn Hm;
    [done|pose proof (type_size_pos a); lia..|].
  cbn [validate_assignable_to_at].
  destruct (type_eqb a e || is_any e); [done|]. destruct (widens a e); [done|].
  destruct a as [| | | | | |l|t mn mx|t|t|f o|l|l t|], e as [| | | | | |k|u mn' mx'|u|u|g p|k|k u|];
    try done;
    try (fuel_component IH);
    try (match goal with |- mbind ?h ?r = mbind ?h ?s =>
           assert (r = s) as ->; [fuel_component IH|done] end);
    try (erewrite foldl_ext_In; [reflexivity|]; intros t' b Hin; cbn beta;
         match goal with |- context [validate_assignable_to_at n ?x ?y ?q] =>
           assert (validate_assignable_to_at n x y q = validate_assignable_to_at m x y q) as ->;
             [fuel_component IH|done] end);
    try (apply try_variants_ext; intros t' Hin; fuel_component IH).
  - apply for_each_ext. intros [k fld] Hin. cbn. destruct (required fld); [done|]. fuel_component IH.
  - apply bind_unit_ext; [apply for_each_ext; intros [k fld] Hin; fuel_component IH|].
    destruct o as [t|]; [fuel_component IH|done].
  - repeat apply bind_unit_ext.
    + apply for_each_ext. intros [k ex] Hin. destruct (field_gap _ _); [done|].
      destruct (bt_get k f) as [fld|] eqn:Hk; [apply bt_get_In in Hk; fuel_component IH|done].
    + apply for_each_ext. intros [k fld] Hin. destruct (bt_contains k g); [done|].
      destruct p as [t|]; [fuel_component IH|done].
    + destruct o as [t|]; [|done]. destruct p as [t'|]; [fuel_component IH|done].
  - destruct (negb _); [done|]. apply bind_unit_ext; [|fuel_component IH].
    apply for_each_ext. intros [t1 t2] Hin.
    pose proof (in_combine_l _ _ _ _ Hin). pose proof (in_combine_r _ _ _ _ Hin). fuel_component IH.
Qed.

Lemma assign_settles n a e path : type_size a + type_size e <= n -> settles (validate_assignable_to_at n a e path).
Proof.
  revert a e path. induction n as [|n IH]; intros a e path Hn; [pose proof (type_size_pos a); lia|].
  cbn [validate_assignable_to_at].
  destruct (type_eqb a e || is_any e); [done|]. destruct (widens a e); [done|].
  destruct a as [| | | | | |l|t mn mx|t|t|f o|l|l t|], e as [| | | | | |k|u mn' mx'|u|u|g p|k|k u|];
    try done;
    try (fuel_component IH);
    try apply settles_attempt;
    try (apply settles_variants; [done|intros t' Hin; fuel_component IH|done]);
    try (destruct (foldl _ _ _) as [e|] eqn:Hfold; [|done]; intros [= ->];
         revert Hfold; apply settles_fold; [intros t' Hin; fuel_component IH|done]);
    try (apply settles_bind; [fuel_component IH|intros _; try done; by destruct (range_bounds_within _ _ _ _)]).
  - by destruct (forallb _ _).
  - apply settles_for_each. intros [k fld] Hin. destruct (required fld); [done|]. fuel_component IH.
  - apply settles_bind; [apply settles_for_each; intros [k fld] Hin; fuel_component IH|intros _].
    destruct o as [t|]; [fuel_component IH|done].
  - apply settles_bind; [|intros _; apply settles_bind; [|intros _]].
    + apply settles_for_each. intros [k ex] Hin. destruct (field_gap _ _); [done|].
      destruct (bt_get k f) as [fld|] eqn:Hk; [apply bt_get_In in Hk; fuel_component IH|done].
    + apply settles_for_each. intros [k fld] Hin. destruct (bt_contains k g); [done|].
      destruct p as [t|]; [fuel_component IH|done].
    + destruct o as [t|]; [|done]. destruct p as [t'|]; [fuel_component IH|done].
  - destruct (negb _); [done|]. apply settles_bind; [|intros _; fuel_component IH].
    apply settles_for_each. intros [t1 t2] Hin.
    pose proof (in_combine_l _ _ _ _ Hin). pose proof (in_combine_r _ _ _ _ Hin). fuel_component IH.
Qed.

(** ** Properties *)

(** C2: [validate_value] succeeds exactly on the values the type denotes ([accepts]),
    whatever the nesting of ranges, structs, unions and maps. *)
Theorem validate_value_correct t v : is_ok (validate_value t v) = accepts t v.
Proof. apply validate_value_at_spec. Qed.

(** C6: Assignability is sound subtyping on closed source types: when [a] is
    assignable to [e], has no map and no open struct (or [e] has no struct), and
    range bounds are numbers, every well-formed value valid at [a] is valid at [e]. *)
Theorem assignable_sound a e v :
  validate_assignable_to a e = Ok tt ->
  closed_type a = true \/ struct_free e = true ->
  numeric_bounds a = true -> numeric_bounds e = true ->
  wf_value v -> validate_value a v = Ok tt -> validate_value e v = Ok tt.
Proof.
  intros H%assignable_ok Hc Ha He Hwf. rewrite !validate_value_ok.
  eapply assignable_at_sound; [exact H|by split|done].
Qed.

Lemma assignable_sound_witness :
  let a := TStruct [("x", field_required (TRange TInteger (Some (value_from_i64 2)) (Some (value_from_i64 5))))] None in
  let e := TMap (TRange TNumber (Some (value_from_i64 1)) None) in
  validate_value e (VObject [("x", value_from_i64 3)]) = Ok tt.
Proof.
  apply (assignable_sound
    (TStruct [("x", field_required (TRange TInteger (Some (value_from_i64 2)) (Some (value_from_i64 5))))] None)).
  - vm_compute. reflexivity.
  - left. reflexivity.
  - vm_compute. reflexivity.
  - vm_compute. reflexivity.
  - apply wf_object. split.
    + apply sorted_cons. split; [apply sorted_nil|constructor].
    + constructor; [reflexivity|constructor].
  - vm_compute. reflexivity.
Defined.

(** C18: Without the closedness condition it is not: a map type is assignable to a
    closed struct with only optional fields, and a struct that leaves a field to
    its additional type is assignable to one that constrains that field, yet each
    denotes a value the target rejects. *)
Theorem assignable_unsound_open_sources :
  (exists v, validate_assignable_to (TMap TInteger) (TStruct [("a", field_optional TInteger)] None) = Ok tt /\
     validate_value (TMap TInteger) v = Ok tt /\
     validate_value (TStruct [("a", field_optional TInteger)] None) v
       = Err (mk_violation "$.b" "no additional fields" "unexpected")) /\
  (exists v, validate_assignable_to (TStruct [] (Some TAny)) (TStruct [("a", field_optional TInteger)] (Some TAny)) = Ok tt /\
     validate_value (TStruct [] (Some TAny)) v = Ok tt /\
     validate_value (TStruct [("a", field_optional TInteger)] (Some TAny)) v
       = Err (mk_violation "$.a" "integer" "string")).
Proof.
  split.
  - exists (VObject [("b", value_from_i64 1)]). vm_compute. done.
  - exists (VObject [("a", VString "x")]). vm_compute. done.
Qed.

(** C19: The recursion of assignability terminates: from the sum of the two type sizes on,
    no call of it, at any depth and in any branch, is out of fuel, and the answer is that of
    [validate_assignable_to], a success or a violation. *)
Theorem assignable_fuel_enough n a e :
  type_size a + type_size e <= n ->
  validate_assignable_to_at n a e [] <> Err Exhausted /\
  validate_assignable_to_at n a e [] = as_attempt (validate_assignable_to a e).
Proof.
  intros Hn. pose proof (assign_settles n a e [] Hn) as Hs. split; [done|].
  unfold validate_assignable_to. rewrite <- (assign_fuel_irrelevant n (type_size a + type_size e) a e []) by lia.
  by destruct (validate_assignable_to_at n a e []) as [[]|[|v]].
Qed.

Lemma assignable_fuel_enough_witness :
  validate_assignable_to_at 7 (TArray TInteger) (TArray TNumber) [] <> Err Exhausted /\
  validate_assignable_to_at 7 (TArray TInteger) (TArray TNumber) [] = as_attempt (validate_assignable_to (TArray TInteger) (TArray TNumber)).
Proof. apply (assignable_fuel_enough 7). cbn. lia. Defined.

(** C20: [unify] is an upper bound: a value of either type is a value of the unified
    type, whether the two share a common type, widen to a number or form a union. *)
Theorem unify_upper_bound a b v :
  accepts a v = true \/ accepts b v = true -> accepts (unify a b) v = true.
Proof. apply unify_upper. Qed.

Lemma unify_upper_bound_witness : accepts (unify (TUnion [TNull; TString]) TBoolean) (VBool true) = true.
Proof. apply unify_upper_bound. right. reflexivity. Defined.

(** C21: A value validates against the type inferred from it. *)
Theorem infer_from_value_sound v : wf_value v -> validate_value (infer_from_value v) v = Ok tt.
Proof. rewrite validate_value_ok. apply infer_accepts. Qed.

Lemma infer_from_value_sound_witness :
  validate_value (infer_from_value (VArray [VNull; value_from_i64 (-3)])) (VArray [VNull; value_from_i64 (-3)]) = Ok tt.
Proof.
  apply infer_from_value_sound. apply wf_array.
  repeat constructor; unfold i64_min; cbn; lia.
Defined.
