(* ===== verification/TypeCodec.v ===== *)
(** * Wire forms of types ([runinator-models/src/types.rs])

    The two encodings of a type: the native form of its [Serialize] and
    [Deserialize] instances ([to_native_value], [from_native_value]) and JSON
    Schema ([to_json_schema], [from_json_schema], and the checked reader that
    first rejects unsupported keywords).

    The decoders recurse on components looked up in the value, so they take
    fuel; the size of the value is enough ([from_native_value_roundtrip] holds
    from that size on). *)

From S2P Require Import Prelude BTree Float64 Values Types.

#[local] Open Scope string_scope.

(** [crate::json!({ ... })] with literal keys. *)
Definition json_object (fields : list (string * Value)) : Value := VObject (bt_from_list fields).

Definition quoted (prefix name : string) : string := prefix ++ "'" ++ name ++ "'".

(** ** Native form *)

Fixpoint to_native_value (t : RuninatorType) : Value :=
  match t with
  | TNull => json_object [("type", VString "null")]
  | TBoolean => json_object [("type", VString "boolean")]
  | TInteger => json_object [("type", VString "integer")]
  | TNumber => json_object [("type", VString "number")]
  | TDuration => json_object [("type", VString "duration")]
  | TString => json_object [("type", VString "string")]
  | TEnum values => json_object [("type", VString "enum"); ("values", VArray values)]
  | TRange base min max =>
      let object := bt_from_list [("type", VString "range"); ("base", to_native_value base)] in
      let object := match min with Some m => bt_insert "min" m object | None => object end in
      let object := match max with Some m => bt_insert "max" m object | None => object end in
      VObject object
  | TArray items => json_object [("type", VString "array"); ("items", to_native_value items)]
  | TMap values => json_object [("type", VString "map"); ("values", to_native_value values)]
  | TStruct fields additional =>
      let typed_fields :=
        map (fun kf => (kf.1,
          let object := bt_from_list [("ty", to_native_value (ty kf.2)); ("required", VBool (required kf.2))] in
          VObject match default kf.2 with Some d => bt_insert "default" d object | None => object end)) fields in
      let object := bt_from_list [("type", VString "struct"); ("fields", VObject typed_fields)] in
      VObject match additional with
              | Some additional => bt_insert "additional" (to_native_value additional) object
              | None => object
              end
  | TUnion variants =>
      json_object [("type", VString "union"); ("variants", VArray (map to_native_value variants))]
  | TFunction params ret =>
      json_object [("type", VString "function"); ("params", VArray (map to_native_value params));
                   ("ret", to_native_value ret)]
  | TAny => json_object [("type", VString "any")]
  end.

Definition from_type_name (name : string) : option RuninatorType :=
  match name with
  | "null" => Some TNull
  | "boolean" => Some TBoolean
  | "integer" => Some TInteger
  | "number" => Some TNumber
  | "duration" => Some TDuration
  | "string" => Some TString
  | "any" | "json" => Some TAny
  | _ => None
  end.

(** ** JSON Schema *)

Definition get_array (k : string) (object : Map) : option (list Value) :=
  match bt_get k object with Some v => as_array v | None => None end.
Definition get_str (k : string) (object : Map) : option string :=
  match bt_get k object with Some v => as_str v | None => None end.

Fixpoint to_json_schema (t : RuninatorType) : Value :=
  match t with
  | TNull => json_object [("type", VString "null")]
  | TBoolean => json_object [("type", VString "boolean")]
  | TInteger => json_object [("type", VString "integer")]
  | TNumber => json_object [("type", VString "number")]
  | TDuration => json_object [("type", VString "integer"); ("format", VString "duration-seconds")]
  | TString => json_object [("type", VString "string")]
  | TEnum values => json_object [("enum", VArray values)]
  | TRange base min max =>
      update_object (to_json_schema base) (fun map =>
        let map := match min with Some m => bt_insert "minimum" m map | None => map end in
        match max with Some m => bt_insert "maximum" m map | None => map end)
  | TArray items => json_object [("type", VString "array"); ("items", to_json_schema items)]
  | TMap values => json_object [("type", VString "object"); ("additionalProperties", to_json_schema values)]
  | TStruct fields additional =>
      let properties := map (fun kf => (kf.1, to_json_schema (ty kf.2))) fields in
      let required := map (fun kf => VString kf.1) (List.filter (fun kf => required kf.2) fields) in
      let additional := match additional with Some t => to_json_schema t | None => VBool false end in
      json_object [("type", VString "object"); ("properties", VObject properties);
                   ("required", VArray required); ("additionalProperties", additional)]
  | TUnion variants => json_object [("anyOf", VArray (map to_json_schema variants))]
  | TFunction _ _ => json_object [("type", VString "function")]
  | TAny => VBool true
  end.

(** [merged_fields.extend(fields)] and the merge of the additional types. *)
Fixpoint merge_all_of (types : list RuninatorType) (merged_fields : btree RuninatorField)
  (merged_additional : option RuninatorType) (saw_struct : bool) (non_structs : list RuninatorType)
  : btree RuninatorField * option RuninatorType * bool * list RuninatorType :=
  match types with
  | [] => (merged_fields, merged_additional, saw_struct, non_structs)
  | TStruct fields additional :: rest =>
      let merged_additional' :=
        match additional with
        | None => None
        | Some _ => match merged_additional with Some TAny => additional | _ => merged_additional end
        end in
      merge_all_of rest (bt_extend merged_fields fields) merged_additional' true non_structs
  | TAny :: rest => merge_all_of rest merged_fields merged_additional saw_struct non_structs
  | t :: rest => merge_all_of rest merged_fields merged_additional saw_struct (non_structs ++ [t])%list
  end.

Definition from_all_of_schema (types : list RuninatorType) : RuninatorType :=
  match merge_all_of types [] (Some TAny) false [] with
  | (merged_fields, merged_additional, saw_struct, non_structs) =>
      if saw_struct && match non_structs with [] => true | _ => false end
      then TStruct merged_fields merged_additional
      else dedupe_union non_structs
  end.

Definition from_object_schema (from_json_schema : Value -> RuninatorType) (object : Map) : RuninatorType :=
  let required := match get_array "required" object with Some items => omap as_str items | None => [] end in
  let fields :=
    match bt_get "properties" object with
    | Some (VObject properties) =>
        map (fun kv => (kv.1, mk_field (from_json_schema kv.2) (existsb (String.eqb kv.1) required) None)) properties
    | _ => []
    end in
  let additional :=
    match bt_get "additionalProperties" object with
    | Some (VBool false) => None
    | Some (VBool true) => Some TAny
    | Some value => Some (from_json_schema value)
    | None => match fields with [] => Some TAny | _ => None end
    end in
  TStruct fields additional.

Definition schema_scalar (from_json_schema : Value -> RuninatorType) (object : Map)
  (schema_type : option string) : RuninatorType :=
  match schema_type with
  | Some "null" => TNull
  | Some "boolean" => TBoolean
  | Some "integer" => TInteger
  | Some "number" => TNumber
  | Some "string" => TString
  | Some "array" =>
      TArray match bt_get "items" object with Some items => from_json_schema items | None => TAny end
  | Some "object" => from_object_schema from_json_schema object
  | _ => TAny
  end.

Fixpoint from_json_schema_fuel (fuel : nat) (schema : Value) : RuninatorType :=
  match fuel with
  | O => TAny
  | S fuel' =>
    let from_json_schema := from_json_schema_fuel fuel' in
    match as_object schema with
    | None => TAny
    | Some object =>
      match bt_get "const" object with
      | Some value => from_json_value value
      | None =>
      match get_array "enum" object with
      | Some values => TEnum values
      | None =>
      match get_array "oneOf" object with
      | Some variants => dedupe_union (map from_json_schema variants)
      | None =>
      match get_array "anyOf" object with
      | Some variants => dedupe_union (map from_json_schema variants)
      | None =>
      match get_array "allOf" object with
      | Some items => from_all_of_schema (map from_json_schema items)
      | None =>
      match get_array "type" object with
      | Some schema_types =>
          dedupe_union (map (fun type_name => from_json_schema (VObject (bt_insert "type" (VString type_name) object)))
            (omap as_str schema_types))
      | None =>
        let schema_type := get_str "type" object in
        if match schema_type with None => bt_contains "properties" object | Some _ => false end
        then from_object_schema from_json_schema object
        else
          let ty := schema_scalar from_json_schema object schema_type in
          let ty :=
            match schema_type, get_str "format" object with
            | Some "integer", Some "duration-seconds" => TDuration
            | _, _ => ty
            end in
          let ty :=
            if bt_contains "minimum" object || bt_contains "maximum" object
            then TRange ty (bt_get "minimum" object) (bt_get "maximum" object) else ty in
          match bt_get "nullable" object with
          | Some (VBool true) => if type_eqb ty TNull then ty else dedupe_union [ty; TNull]
          | _ => ty
          end
      end end end end end end
    end
  end.

Definition from_json_schema (schema : Value) : RuninatorType :=
  from_json_schema_fuel (value_size schema) schema.

(** ** The checked reader *)

Definition reject_unknown_schema_type (name path : string) : result string unit :=
  match name with
  | "null" | "boolean" | "integer" | "number" | "string" | "array" | "object" => Ok tt
  | other => Err (path ++ " uses unsupported JSON Schema type '" ++ other ++ "'")
  end.

Definition index_suffix (index : nat) : string := "[" ++ pretty index ++ "]".

Definition reject_keywords (object : Map) (path : string) : result string unit :=
  for_each (fun key =>
    if bt_contains key object then Err (path ++ "." ++ key ++ " is not supported") else Ok tt)
    ["patternProperties"; "not"; "if"; "then"; "else"; "dependentSchemas"; "dependencies"].

Definition reject_bad_enum (object : Map) (path : string) : result string unit :=
  match bt_get "enum" object with
  | None => Ok tt
  | Some values =>
      match as_array values with
      | None => Err (path ++ ".enum must be an array")
      | Some [] => Err (path ++ ".enum must not be empty")
      | Some _ => Ok tt
      end
  end.

Definition reject_bad_type (object : Map) (path : string) : result string unit :=
  match bt_get "type" object with
  | None => Ok tt
  | Some (VString name) => reject_unknown_schema_type name path
  | Some (VArray []) => Err (path ++ ".type must not be empty")
  | Some (VArray items) =>
      for_eachi (fun index item =>
        match as_str item with
        | None => Err (path ++ ".type" ++ index_suffix index ++ " must be a string")
        | Some name => reject_unknown_schema_type name (path ++ ".type" ++ index_suffix index)
        end) 0 items
  | Some _ => Err (path ++ ".type must be a string or string array")
  end.

Fixpoint reject_unsupported_schema (fuel : nat) (schema : Value) (path : string) : result string unit :=
  match fuel with
  | O => Err "out of fuel"
  | S fuel' =>
    let reject := reject_unsupported_schema fuel' in
    match as_object schema with
    | None => Err (path ++ " must be a JSON Schema object")
    | Some object =>
      _ ← reject_keywords object path;
      _ ← reject_bad_enum object path;
      _ ← reject_bad_type object path;
      _ ← for_each (fun key =>
            match bt_get key object with
            | None => Ok tt
            | Some items =>
                match as_array items with
                | None => Err (path ++ "." ++ key ++ " must be an array")
                | Some [] => Err (path ++ "." ++ key ++ " must not be empty")
                | Some items =>
                    for_eachi (fun index item =>
                      reject item (path ++ "." ++ key ++ index_suffix index)) 0 items
                end
            end) ["oneOf"; "anyOf"; "allOf"];
      _ ← match bt_get "items" object with
          | None => Ok tt
          | Some items =>
              if is_array items then Err (path ++ ".items tuple arrays are not supported")
              else reject items (path ++ ".items")
          end;
      _ ← match bt_get "properties" object with
          | None => Ok tt
          | Some properties =>
              match as_object properties with
              | None => Err (path ++ ".properties must be an object")
              | Some properties =>
                  for_each (fun kv => reject kv.2 (path ++ ".properties." ++ kv.1)) properties
              end
          end;
      match bt_get "additionalProperties" object with
      | None | Some (VBool _) => Ok tt
      | Some (VObject _ as additional) => reject additional (path ++ ".additionalProperties")
      | Some _ => Err (path ++ ".additionalProperties must be a boolean or schema")
      end
    end
  end.

Definition from_json_schema_checked (schema : Value) : result string RuninatorType :=
  _ ← reject_unsupported_schema (value_size schema) schema "$";
  Ok (from_json_schema schema).

(** ** Native decoder *)

Definition option_transpose {E A} (o : option (result E A)) : result E (option A) :=
  match o with
  | None => Ok None
  | Some (Ok a) => Ok (Some a)
  | Some (Err e) => Err e
  end.

Definition unwrap_or {A} (o : option A) (d : A) : A := match o with Some a => a | None => d end.

(** [RuninatorField::from_native_value], given the decoder of types. *)
Definition field_from_native_value (from_native : Value -> result string RuninatorType) (value : Value)
  : result string RuninatorField :=
  match as_object value with
  | None => field_required <$> from_native value
  | Some object =>
      if bt_contains "ty" object then
        ty ← option_transpose (option_map from_native (bt_get "ty" object));
        ty ← ok_or ty "field ty is required";
        required ← match bt_get "required" object with
                   | Some (VBool required) => Ok required
                   | Some _ => Err "field required must be a boolean"
                   | None => Ok true
                   end;
        Ok (mk_field ty required (bt_get "default" object))
      else match bt_get "required" object with
           | Some (VBool _) => Err "field required requires field ty"
           | _ => field_required <$> from_native value
           end
  end.

Fixpoint from_native_value_fuel (fuel : nat) (value : Value) : result string RuninatorType :=
  match fuel with
  | O => Err "out of fuel"
  | S fuel' =>
    let from_native := from_native_value_fuel fuel' in
    match value with
    | VString name => ok_or (from_type_name name) (quoted "unknown type " name)
    | _ =>
      object ← ok_or (as_object value) "type must be an object or string";
      if bt_contains "anyOf" object then
        items ← ok_or (get_array "anyOf" object) "anyOf must be an array";
        variants ← mapM from_native items;
        if (length variants =? 0)%nat then Err "union variants must not be empty" else Ok (TUnion variants)
      else
      match get_str "type" object with
      | None => Ok (from_json_schema (VObject object))
      | Some type_name =>
        match type_name with
        | "null" | "boolean" | "integer" | "number" | "duration" | "string" | "any" | "json" =>
            ok_or (from_type_name type_name) (quoted "unknown type " type_name)
        | "enum" =>
            values ← ok_or (get_array "values" object) "enum values must be an array";
            if (length values =? 0)%nat then Err "enum values must not be empty" else Ok (TEnum values)
        | "range" =>
            base ← option_transpose (option_map from_native (bt_get "base" object));
            Ok (TRange (unwrap_or base TInteger) (bt_get "min" object) (bt_get "max" object))
        | "array" =>
            items ← option_transpose (option_map from_native (bt_get "items" object));
            Ok (TArray (unwrap_or items TAny))
        | "map" =>
            let slot := match bt_get "values" object with
                        | Some v => Some v
                        | None => bt_get "additional" object
                        end in
            values ← option_transpose (option_map from_native slot);
            Ok (TMap (unwrap_or values TAny))
        | "struct" =>
            fields ← match bt_get "fields" object with
                     | Some (VObject fields) =>
                         mapM (fun kv => pair kv.1 <$> field_from_native_value from_native kv.2) fields
                     | _ => Ok []
                     end;
            additional ← match bt_get "additional" object with
                         | Some (VBool false) | None => Ok None
                         | Some (VBool true) => Ok (Some TAny)
                         | Some value => Some <$> from_native value
                         end;
            Ok (TStruct fields additional)
        | "union" =>
            items ← ok_or (get_array "variants" object) "union variants must be an array";
            variants ← mapM from_native items;
            if (length variants =? 0)%nat then Err "union variants must not be empty" else Ok (TUnion variants)
        | "function" =>
            params ← option_transpose (option_map (mapM from_native) (get_array "params" object));
            ret ← option_transpose (option_map from_native (bt_get "ret" object));
            Ok (TFunction (unwrap_or params []) (unwrap_or ret TAny))
        | "object" => Ok (from_json_schema (VObject object))
        | other => Err (quoted "unknown type " other)
        end
      end
    end
  end.

Definition from_native_value (value : Value) : result string RuninatorType :=
  from_native_value_fuel (value_size value) value.

(** ** Decoding what was encoded *)

(** Types the decoder accepts back: enums and unions are not empty. *)
Fixpoint wire_type (t : RuninatorType) : bool :=
  match t with
  | TEnum values => negb (length values =? 0)%nat
  | TRange base _ _ => wire_type base
  | TArray t | TMap t => wire_type t
  | TStruct fields additional =>
      forallb (fun kf => wire_type (ty kf.2)) fields &&
      match additional with Some t => wire_type t | None => true end
  | TUnion variants => negb (length variants =? 0)%nat && forallb wire_type variants
  | TFunction params ret => forallb wire_type params && wire_type ret
  | _ => true
  end.

(** The object a field encodes to. *)
Definition field_native (f : RuninatorField) : Value :=
  let object := bt_from_list [("ty", to_native_value (ty f)); ("required", VBool (required f))] in
  VObject match default f with Some d => bt_insert "default" d object | None => object end.

Lemma field_native_size f : value_size (to_native_value (ty f)) < value_size (field_native f).
Proof. destruct f as [t r [d|]]; cbn; key_cmp; lia. Qed.

Lemma field_native_decode from_native f :
  from_native (to_native_value (ty f)) = Ok (ty f) ->
  field_from_native_value from_native (field_native f) = Ok f.
Proof.
  intros H. destruct f as [t r [d|]]; cbn in *; key_cmp; unfold field_from_native_value; cbn;
    rewrite H; done.
Qed.

Lemma native_fields_decode from_native (fields : btree RuninatorField) :
  Forall (fun kf => from_native (to_native_value (ty kf.2)) = Ok (ty kf.2)) fields ->
  mapM (fun kv => pair kv.1 <$> field_from_native_value from_native kv.2)
    (map (fun kf => (kf.1, field_native kf.2)) fields) = Ok fields.
Proof.
  intros H. apply mapM_map_id. eapply List.Forall_impl; [|exact H].
  intros [k f] Hf. cbn [fst snd] in *. by rewrite field_native_decode.
Qed.

Lemma not_zero_length {A} (l : list A) : negb (length l =? 0)%nat = true -> (length l =? 0)%nat = false.
Proof. apply negb_true_iff. Qed.

(** One decoding step per composite constructor. *)
Section decode.
Context (n : nat).
Let go := from_native_value_fuel n.

Lemma decode_range t mn mx : go (to_native_value t) = Ok t ->
  from_native_value_fuel (S n) (to_native_value (TRange t mn mx)) = Ok (TRange t mn mx).
Proof.
  intros H. transitivity (base ← option_transpose (Some (go (to_native_value t)));
    Ok (TRange (unwrap_or base TInteger) mn mx)); [|by rewrite H].
  by destruct mn, mx.
Qed.

Lemma decode_array t : go (to_native_value t) = Ok t ->
  from_native_value_fuel (S n) (to_native_value (TArray t)) = Ok (TArray t).
Proof.
  intros H. transitivity (items ← option_transpose (Some (go (to_native_value t)));
    Ok (TArray (unwrap_or items TAny))); [done|]. by rewrite H.
Qed.

Lemma decode_map t : go (to_native_value t) = Ok t ->
  from_native_value_fuel (S n) (to_native_value (TMap t)) = Ok (TMap t).
Proof.
  intros H. transitivity (items ← option_transpose (Some (go (to_native_value t)));
    Ok (TMap (unwrap_or items TAny))); [done|]. by rewrite H.
Qed.

Lemma decode_enum l : (length l =? 0)%nat = false ->
  from_native_value_fuel (S n) (to_native_value (TEnum l)) = Ok (TEnum l).
Proof.
  intros H. transitivity (if (length l =? 0)%nat then Err "enum values must not be empty" else Ok (TEnum l));
    [done|]. by rewrite H.
Qed.

Lemma decode_union l : mapM go (map to_native_value l) = Ok l -> (length l =? 0)%nat = false ->
  from_native_value_fuel (S n) (to_native_value (TUnion l)) = Ok (TUnion l).
Proof.
  intros Hm H. transitivity (variants ← mapM go (map to_native_value l);
    if (length variants =? 0)%nat then Err "union variants must not be empty" else Ok (TUnion variants));
    [done|]. rewrite Hm. cbn. by rewrite H.
Qed.

Lemma decode_function l t : mapM go (map to_native_value l) = Ok l -> go (to_native_value t) = Ok t ->
  from_native_value_fuel (S n) (to_native_value (TFunction l t)) = Ok (TFunction l t).
Proof.
  intros Hm H. transitivity (
    params ← option_transpose (Some (mapM go (map to_native_value l)));
    ret ← option_transpose (Some (go (to_native_value t)));
    Ok (TFunction (unwrap_or params []) (unwrap_or ret TAny))); [done|]. by rewrite Hm; cbn; rewrite H.
Qed.

Lemma additional_not_bool t : exists m, to_native_value t = VObject m.
Proof. destruct t; eexists; reflexivity. Qed.

Lemma decode_struct (f : btree RuninatorField) o :
  mapM (fun kv => pair kv.1 <$> field_from_native_value go kv.2)
    (map (fun kf => (kf.1, field_native kf.2)) f) = Ok f ->
  match o with Some t => go (to_native_value t) = Ok t | None => True end ->
  from_native_value_fuel (S n) (to_native_value (TStruct f o)) = Ok (TStruct f o).
Proof.
  intros Hm H. destruct o as [t|].
  - destruct (additional_not_bool t) as [m Em]. rewrite Em in H.
    change (to_native_value (TStruct f (Some t))) with
      (VObject (bt_insert "additional" (to_native_value t) (bt_from_list [("type", VString "struct");
        ("fields", VObject (map (fun kf => (kf.1, field_native kf.2)) f))]))).
    rewrite Em. transitivity (
      fields ← mapM (fun kv => pair kv.1 <$> field_from_native_value go kv.2)
        (map (fun kf => (kf.1, field_native kf.2)) f);
      additional ← Some <$> go (VObject m);
      Ok (TStruct fields additional)); [done|]. by rewrite Hm; cbn; rewrite H.
  - transitivity (
      fields ← mapM (fun kv => pair kv.1 <$> field_from_native_value go kv.2)
        (map (fun kf => (kf.1, field_native kf.2)) f);
      Ok (TStruct fields None)); [done|]. by rewrite Hm.
Qed.
End decode.

Lemma struct_field_size f o kf : In kf f -> value_size (field_native kf.2) < value_size (to_native_value (TStruct f o)).
Proof.
  intros Hin. assert (Hk : get_key "fields" (to_native_value (TStruct f o))
    = Some (VObject (map (fun kf => (kf.1, field_native kf.2)) f))) by (by destruct o).
  apply get_key_size in Hk. rewrite size_object in Hk.
  pose proof (In_value_size_obj kf.1 (field_native kf.2) (map (fun kf => (kf.1, field_native kf.2)) f)
    (in_map (fun kf => (kf.1, field_native kf.2)) _ _ Hin)). lia.
Qed.


Lemma from_native_decodes t n :
  wire_type t = true -> value_size (to_native_value t) <= n ->
  from_native_value_fuel n (to_native_value t) = Ok t.
Proof.
  revert n. induction t as [| | | | | | |l|t mn mx IH|t IH|t IH|f o IHf IHo|l IH|l t IHl IH]
    using RuninatorType_ind'; intros [|n] Hw Hn;
    try (match type of Hn with value_size ?v <= 0 => pose proof (value_size_pos v); lia end);
    try reflexivity.
  - by apply decode_enum, not_zero_length.
  - apply decode_range, IH; [done|]. enough (value_size (to_native_value t) < value_size (to_native_value (TRange t mn mx))) by lia.
    apply (get_key_size "base"). by destruct mn, mx.
  - apply decode_array, IH; [done|]. pose proof (get_key_size "items" (to_native_value (TArray t)) (to_native_value t) eq_refl). lia.
  - apply decode_map, IH; [done|]. pose proof (get_key_size "values" (to_native_value (TMap t)) (to_native_value t) eq_refl). lia.
  - apply andb_prop in Hw as [Hwf Hwo]. apply decode_struct.
    + apply native_fields_decode, List.Forall_forall. intros kf Hin.
      eapply List.Forall_forall in IHf; [|exact Hin]. apply IHf; [by apply (forallb_In _ _ _ Hwf)|].
      pose proof (field_native_size kf.2). pose proof (struct_field_size f o kf Hin). lia.
    + destruct o as [t|]; [|done]. apply IHo; [done|done|].
      pose proof (get_key_size "additional" (to_native_value (TStruct f (Some t))) (to_native_value t) eq_refl). lia.
  - apply andb_prop in Hw as [Hne Hw]. apply decode_union; [|by apply not_zero_length].
    apply mapM_map_id, List.Forall_forall. intros t Hin. eapply List.Forall_forall in IH; [|done].
    apply IH; [by apply (forallb_In _ _ _ Hw)|].
    pose proof (get_key_items_size "variants" (to_native_value (TUnion l)) (map to_native_value l) _ eq_refl (in_map _ _ _ Hin)). lia.
  - apply andb_prop in Hw as [Hwl Hw]. apply decode_function.
    + apply mapM_map_id, List.Forall_forall. intros u Hin. eapply List.Forall_forall in IHl; [|done].
      apply IHl; [by apply (forallb_In _ _ _ Hwl)|].
      pose proof (get_key_items_size "params" (to_native_value (TFunction l t)) (map to_native_value l) _ eq_refl (in_map _ _ _ Hin)). lia.
    + apply IH; [done|]. pose proof (get_key_size "ret" (to_native_value (TFunction l t)) (to_native_value t) eq_refl). lia.
Qed.

(** C13: Decoding the native encoding of a type gives the type back, for every type
    whose enums and unions are not empty (the decoder refuses those). *)
Theorem from_native_value_roundtrip t : wire_type t = true -> from_native_value (to_native_value t) = Ok t.
Proof. intros Hw. by apply from_native_decodes. Qed.

Lemma from_native_value_roundtrip_witness :
  let t := TStruct [("a", mk_field (TArray (TUnion [TNull; TString])) true (Some VNull));
                    ("b", field_optional (TMap TInteger))] (Some (TFunction [TBoolean] TAny)) in
  from_native_value (to_native_value t) = Ok t.
Proof. cbv zeta. apply from_native_value_roundtrip. reflexivity. Defined.
