(* ===== verification/Ast.v ===== *)
(** * Workflow programs ([runinator-models/src/workflow_ast.rs])

    The typed forms of expressions ([$ref], [$concat], [$call], [$if], ...),
    conditions ([{all|any|not}] over [{value, <op>}] leaves) and compute
    programs ([$let], [$return], [$goto], [$if]), with the structural parse from
    a [Value] and the serialization back.  The compute-program parser and the
    validation errors are those of [runinator-workflows] ([compute.rs],
    [errors.rs]).

    The parsers recurse through lookups, so they carry fuel; [value_size] of the
    parsed value is enough ([expr_parse_enough]). *)

From S2P Require Import Prelude BTree Float64 Values.

(** ** Errors *)

Record WorkflowTypeDiagnostic : Type := mk_diagnostic {
  diag_path : string;
  diag_expected : string;
  diag_actual : string;
  diag_message : string
}.

Inductive WorkflowValidationError : Type :=
| MissingNodes
| MissingStart
| DuplicateNode (node : string)
| MissingStartNode (node : string)
| MissingStartKind
| MissingEndNode
| MissingTransition (node target : string)
| InvalidNode (message : string)
| MissingAction (node : string)
| InvalidRetry (node : string)
| InvalidTimeout (node : string)
| InvalidLoopLimit (node : string)
| MissingSubflowTarget (node : string)
| InvalidReentry (node : string)
| RefCycle (node : string)
| MissingRef (reference : string)
| InvalidValueRef (message : string)
| InvalidCondition (message : string)
| InvalidNodeParameters (node message : string)
| InvalidSubflowId (node id : string)
| TypeError (message : string)
| TypeDiagnostic (diagnostic : WorkflowTypeDiagnostic)
| MapConcurrencyBodyNotIsolatable (node reason : string)
| InvalidComputeProgram (message : string)
| UnknownIntrinsic (name : string)
| IntrinsicError (name message : string)
| InvalidGotoTarget (target : string)
| InvalidNodeReferenceType (node reference target target_kind expected : string)
| MutexReleaseBeforeAcquire (node name : string).

(** ** Data *)

Inductive WorkflowPathSegment : Type :=
| Key (key : string)
| Index (index : Z).

Inductive WorkflowRefSource : Type :=
| SrcInput
| SrcPrev
| SrcWorkflow
| SrcConfig
| SrcLocal
| SrcNodeOutput (node : string).

Record WorkflowValueRef : Type := mk_ref {
  source : WorkflowRefSource;
  path : list WorkflowPathSegment
}.

Inductive WorkflowExpression : Type :=
| ELiteral (value : Value)
| ERef (reference : WorkflowValueRef)
| EConcat (items : list WorkflowExpression)
| ECoalesce (items : list WorkflowExpression)
| EToString (nested : WorkflowExpression)
| EToJsonString (nested : WorkflowExpression)
| EAdd (items : list WorkflowExpression)
| ESub (items : list WorkflowExpression)
| EMul (items : list WorkflowExpression)
| EDiv (items : list WorkflowExpression)
| EMod (items : list WorkflowExpression)
| ENeg (nested : WorkflowExpression)
| ECall (name : string) (args : list WorkflowExpression)
| ELambda (params : list string) (body : WorkflowExpression)
| EApply (callee : WorkflowExpression) (args : list WorkflowExpression)
| ECond (condition thn otherwise : WorkflowExpression).

Inductive CompareOp : Type :=
| Equals | NotEquals | Contains | In_ | StartsWith | EndsWith
| GreaterThan | GreaterThanOrEqual | LessThan | LessThanOrEqual.

Inductive ConditionNode : Type :=
| CAll (items : list ConditionNode)
| CAny (items : list ConditionNode)
| CNot (inner : ConditionNode)
| CCompare (lft : WorkflowExpression) (op : CompareOp) (rgt : WorkflowExpression)
| CExists (lft : WorkflowExpression) (expected : bool)
| CTruthy (lft : WorkflowExpression)
| COther (value : Value).

(** A [ComputeProgram] is its list of statements. *)
Inductive ComputeStmt : Type :=
| SLet (name : string) (value : WorkflowExpression)
| SReturn (expr : WorkflowExpression)
| SGoto (target : string)
| SIf (condition : ConditionNode) (then_branch else_branch : list ComputeStmt)
| SExpr (expr : WorkflowExpression).

Abbreviation ComputeProgram := (list ComputeStmt).

(** ** Comparators *)

Definition compare_key (op : CompareOp) : string :=
  match op with
  | Equals => "equals"
  | NotEquals => "not_equals"
  | Contains => "contains"
  | In_ => "in"
  | StartsWith => "starts_with"
  | EndsWith => "ends_with"
  | GreaterThan => "greater_than"
  | GreaterThanOrEqual => "greater_than_or_equal"
  | LessThan => "less_than"
  | LessThanOrEqual => "less_than_or_equal"
  end.

Definition compare_from_key (key : string) : option CompareOp :=
  match key with
  | "equals" => Some Equals
  | "not_equals" => Some NotEquals
  | "contains" => Some Contains
  | "in" => Some In_
  | "starts_with" => Some StartsWith
  | "ends_with" => Some EndsWith
  | "greater_than" => Some GreaterThan
  | "greater_than_or_equal" => Some GreaterThanOrEqual
  | "less_than" => Some LessThan
  | "less_than_or_equal" => Some LessThanOrEqual
  | _ => None
  end.

Definition ORDER : list CompareOp :=
  [Equals; NotEquals; Contains; In_; StartsWith; EndsWith;
   GreaterThan; GreaterThanOrEqual; LessThan; LessThanOrEqual].

(** ** Serialization *)

Definition single (key : string) (value : Value) : Value := VObject (bt_insert key value []).

Definition path_segment_value (segment : WorkflowPathSegment) : Value :=
  match segment with
  | Key key => VString key
  | Index index => value_from_u64 index
  end.

Definition ref_value (reference : WorkflowValueRef) : Value :=
  let path := VArray (map path_segment_value (path reference)) in
  match source reference with
  | SrcInput => single "params" path
  | SrcPrev => single "prev" path
  | SrcWorkflow => single "workflow" path
  | SrcConfig => single "config" path
  | SrcLocal => single "let" path
  | SrcNodeOutput node => VObject (bt_insert "output" path (bt_insert "node" (VString node) []))
  end.

Fixpoint expr_value (expression : WorkflowExpression) : Value :=
  let array items := VArray (map expr_value items) in
  match expression with
  | ELiteral value => value
  | ERef reference => single "$ref" (ref_value reference)
  | EConcat items => single "$concat" (array items)
  | ECoalesce items => single "$coalesce" (array items)
  | EToString nested => single "$to_string" (expr_value nested)
  | EToJsonString nested => single "$to_json_string" (expr_value nested)
  | EAdd items => single "$add" (array items)
  | ESub items => single "$sub" (array items)
  | EMul items => single "$mul" (array items)
  | EDiv items => single "$div" (array items)
  | EMod items => single "$mod" (array items)
  | ENeg nested => single "$neg" (expr_value nested)
  | ECall name args =>
      VObject (bt_insert "args" (array args) (bt_insert "$call" (VString name) []))
  | ELambda params body =>
      single "$lambda"
        (VObject (bt_insert "body" (expr_value body)
                   (bt_insert "params" (VArray (map VString params)) [])))
  | EApply callee args =>
      VObject (bt_insert "args" (array args) (bt_insert "$apply" (expr_value callee) []))
  | ECond condition thn otherwise =>
      VObject (bt_insert "else" (expr_value otherwise)
                (bt_insert "then" (expr_value thn)
                  (bt_insert "$if" (expr_value condition) [])))
  end.

Fixpoint condition_value (node : ConditionNode) : Value :=
  match node with
  | CAll items => single "all" (VArray (map condition_value items))
  | CAny items => single "any" (VArray (map condition_value items))
  | CNot inner => single "not" (condition_value inner)
  | CCompare lft op rgt =>
      VObject (bt_insert (compare_key op) (expr_value rgt) (bt_insert "value" (expr_value lft) []))
  | CExists lft expected =>
      VObject (bt_insert "exists" (VBool expected) (bt_insert "value" (expr_value lft) []))
  | CTruthy lft => single "value" (expr_value lft)
  | COther value => value
  end.

Fixpoint stmt_value (statement : ComputeStmt) : Value :=
  match statement with
  | SLet name value =>
      VObject (bt_insert "value" (expr_value value) (bt_insert "$let" (VString name) []))
  | SReturn expr => single "$return" (expr_value expr)
  | SGoto target => single "$goto" (VString target)
  | SIf condition then_branch else_branch =>
      VObject (bt_insert "else" (VArray (map stmt_value else_branch))
                (bt_insert "then" (VArray (map stmt_value then_branch))
                  (bt_insert "$if" (condition_value condition) [])))
  | SExpr expr => expr_value expr
  end.

Definition program_value (program : ComputeProgram) : Value := VArray (map stmt_value program).

(** ** Parsing *)

Section parse.
Context {EX : Externals}.

(** [InvalidExpression(value.to_string())]: the error is its string. *)
Definition invalid (value : Value) : string := json_string value.

Definition parse_path (value : Value) : result string (list WorkflowPathSegment) :=
  items ← ok_or (as_array value) (invalid value);
  mapM (fun item =>
    match as_str item with
    | Some key => Ok (Key key)
    | None =>
        match as_u64 item with
        | Some index => Ok (Index index)
        | None => Err (invalid value)
        end
    end) items.

(** [object.get(k1).or_else(|| object.get(k2))]. *)
Definition bt_get_or {V} (k1 k2 : string) (object : btree V) : option V :=
  match bt_get k1 object with Some v => Some v | None => bt_get k2 object end.

Definition ref_parse (value : Value) : result string WorkflowValueRef :=
  object ← ok_or (as_object value) (invalid value);
  if negb (length object =? 1)%nat
     && negb ((length object =? 2)%nat && bt_contains "node" object && bt_contains "output" object)
  then Err (invalid value)
  else
  match bt_get_or "params" "input" object with
  | Some path => mk_ref SrcInput <$> parse_path path
  | None =>
  match bt_get "prev" object with
  | Some path => mk_ref SrcPrev <$> parse_path path
  | None =>
  match bt_get "workflow" object with
  | Some path => mk_ref SrcWorkflow <$> parse_path path
  | None =>
  match bt_get "config" object with
  | Some path => mk_ref SrcConfig <$> parse_path path
  | None =>
  match bt_get "let" object with
  | Some path => mk_ref SrcLocal <$> parse_path path
  | None =>
  match bt_get "node" object, bt_get "output" object with
  | Some node, Some output =>
      match as_str node with
      | Some node =>
          if String.eqb node "" then Err (invalid value)
          else mk_ref (SrcNodeOutput node) <$> parse_path output
      | None => Err (invalid value)
      end
  | _, _ => Err (invalid value)
  end end end end end end.

Section expr_parse.
Context (go : Value -> result string WorkflowExpression).

(** [map.get("args")]: no arguments when absent, an array otherwise. *)
Definition parse_args (value : Value) (object : Map) : result string (list WorkflowExpression) :=
  match bt_get "args" object with
  | None => Ok []
  | Some items => items ← ok_or (as_array items) (invalid value); mapM go items
  end.

Definition keys_within (allowed : list string) (object : Map) : bool :=
  forallb (fun k => existsb (String.eqb k) allowed) (bt_keys object).

Definition parse_call (value : Value) (object : Map) : result string WorkflowExpression :=
  match bt_get "$call" object with
  | Some (VString name) =>
      if keys_within ["$call"; "args"] object
      then ECall name <$> parse_args value object
      else Err (invalid value)
  | _ => Err (invalid value)
  end.

Definition parse_apply (value : Value) (object : Map) : result string WorkflowExpression :=
  if negb (keys_within ["$apply"; "args"] object) then Err (invalid value)
  else
    callee ← ok_or (bt_get "$apply" object) (invalid value);
    args ← parse_args value object;
    callee ← go callee;
    Ok (EApply callee args).

Definition parse_lambda (value : Value) (object : Map) : result string WorkflowExpression :=
  if negb (length object =? 1)%nat then Err (invalid value)
  else
    spec ← ok_or (bt_get "$lambda" object ≫= as_object) (invalid value);
    params ← ok_or (bt_get "params" spec ≫= as_array) (invalid value);
    params ← mapM (fun param => ok_or (as_str param) (invalid value)) params;
    body ← ok_or (bt_get "body" spec) (invalid value);
    ELambda params <$> go body.

Definition parse_cond (value : Value) (object : Map) : result string WorkflowExpression :=
  if negb (keys_within ["$if"; "then"; "else"] object) then Err (invalid value)
  else
    let branch key := ok_or (bt_get key object) (invalid value) ≫= go in
    condition ← branch "$if";
    thn ← branch "then";
    otherwise ← branch "else";
    Ok (ECond condition thn otherwise).

(** [items.as_array().filter(|items| !items.is_empty())]. *)
Definition non_empty_items (value items : Value) : result string (list Value) :=
  match items with
  | VArray [] => Err (invalid value)
  | VArray items => Ok items
  | _ => Err (invalid value)
  end.

(** The arithmetic keys in probe order. *)
Definition arith_ctors : list (string * (list WorkflowExpression -> WorkflowExpression)) :=
  [("$add", EAdd); ("$sub", ESub); ("$mul", EMul); ("$div", EDiv); ("$mod", EMod)].

Fixpoint parse_arith (ctors : list (string * (list WorkflowExpression -> WorkflowExpression)))
    (value : Value) (object : Map) : option (result string WorkflowExpression) :=
  match ctors with
  | [] => None
  | (key, ctor) :: rest =>
      match bt_get key object with
      | Some items => Some (items ← non_empty_items value items; ctor <$> mapM go items)
      | None => parse_arith rest value object
      end
  end.

Definition OPERATOR_KEYS : list string :=
  ["$ref"; "$concat"; "$coalesce"; "$literal"; "$to_string"; "$to_json_string";
   "$add"; "$sub"; "$mul"; "$div"; "$mod"; "$neg"; "$node"].

Definition parse_operator (value : Value) (object : Map) : result string WorkflowExpression :=
  if negb (length object =? 1)%nat then Err (invalid value)
  else
  match bt_get "$ref" object with
  | Some reference => ERef <$> ref_parse reference
  | None =>
  match parse_arith arith_ctors value object with
  | Some parsed => parsed
  | None =>
  match bt_get "$neg" object with
  | Some operand => ENeg <$> go operand
  | None =>
  match bt_get "$concat" object with
  | Some items => items ← ok_or (as_array items) (invalid value); EConcat <$> mapM go items
  | None =>
  match bt_get "$coalesce" object with
  | Some items => items ← non_empty_items value items; ECoalesce <$> mapM go items
  | None =>
  match bt_get "$literal" object with
  | Some literal => Ok (ELiteral literal)
  | None =>
  match bt_get "$to_string" object with
  | Some nested => EToString <$> go nested
  | None =>
  match bt_get "$to_json_string" object with
  | Some nested => EToJsonString <$> go nested
  | None => Err (invalid value)
  end end end end end end end end.

(** A plain object is a literal whose entries are parsed and serialized back. *)
Definition parse_object (object : Map) : result string WorkflowExpression :=
  fields ← mapM (fun kv => (fun e => (kv.1, expr_value e)) <$> go kv.2) object;
  Ok (ELiteral (VObject (bt_from_list fields))).

(** The dispatch on the keys of an object. *)
Definition parse_map (value : Value) (object : Map) : result string WorkflowExpression :=
  if bt_contains "$value" object then Err (invalid value)
  else if bt_contains "$call" object then parse_call value object
  else if bt_contains "$apply" object then parse_apply value object
  else if bt_contains "$lambda" object then parse_lambda value object
  else if bt_contains "$if" object then parse_cond value object
  else if existsb (fun k => bt_contains k object) OPERATOR_KEYS then parse_operator value object
  else parse_object object.

Definition expr_parse_step (value : Value) : result string WorkflowExpression :=
  match value with
  | VObject object => parse_map value object
  | VArray items =>
      items ← mapM (fun item => expr_value <$> go item) items;
      Ok (ELiteral (VArray items))
  | VString raw =>
      if str_contains raw "{{" || str_contains raw "}}" then Err raw else Ok (ELiteral value)
  | _ => Ok (ELiteral value)
  end.

End expr_parse.

Fixpoint expr_parse_fuel (fuel : nat) (value : Value) : result string WorkflowExpression :=
  match fuel with
  | O => Err "out of fuel"
  | S fuel' => expr_parse_step (expr_parse_fuel fuel') value
  end.

Definition expr_parse (value : Value) : result string WorkflowExpression :=
  expr_parse_fuel (value_size value) value.

(** ** Conditions *)

(** The first comparator of [ORDER] the object carries. *)
Fixpoint find_compare (ops : list CompareOp) (object : Map) : option (CompareOp * Value) :=
  match ops with
  | [] => None
  | op :: rest =>
      match bt_get (compare_key op) object with
      | Some rgt => Some (op, rgt)
      | None => find_compare rest object
      end
  end.

Definition leaf_left (object : Map) : option Value := bt_get_or "value" "left" object.

Definition unwrap_bool (o : option bool) (d : bool) : bool :=
  match o with Some b => b | None => d end.

Definition condition_leaf (value : Value) (object : Map) : ConditionNode :=
  match leaf_left object with
  | None => COther value
  | Some lft =>
      match expr_parse lft with
      | Err _ => COther value
      | Ok lft =>
          match find_compare ORDER object with
          | Some (op, rgt) =>
              match expr_parse rgt with
              | Err _ => COther value
              | Ok rgt => CCompare lft op rgt
              end
          | None =>
              match bt_get "exists" object with
              | Some exists_ => CExists lft (unwrap_bool (as_bool exists_) true)
              | None =>
                  if (length object =? 1)%nat && bt_contains "value" object
                  then CTruthy lft else COther value
              end
          end
      end
  end.

Definition condition_parse_step (go : Value -> ConditionNode) (value : Value) : ConditionNode :=
  match value with
  | VObject object =>
      match bt_get "all" object with
      | Some (VArray items) => CAll (map go items)
      | Some _ => COther value
      | None =>
      match bt_get "any" object with
      | Some (VArray items) => CAny (map go items)
      | Some _ => COther value
      | None =>
      match bt_get "not" object with
      | Some inner => CNot (go inner)
      | None => condition_leaf value object
      end end end
  | _ => COther value
  end.

Fixpoint condition_parse_fuel (fuel : nat) (value : Value) : ConditionNode :=
  match fuel with
  | O => COther value
  | S fuel' => condition_parse_step (condition_parse_fuel fuel') value
  end.

Definition condition_parse (value : Value) : ConditionNode :=
  condition_parse_fuel (value_size value) value.

(** ** Compute programs ([compute.rs]) *)

Definition parse_expression (value : Value) : result WorkflowValidationError WorkflowExpression :=
  match expr_parse value with
  | Ok e => Ok e
  | Err message => Err (InvalidValueRef message)
  end.

Fixpoint parse_statement_fuel (fuel : nat) (value : Value) : result WorkflowValidationError ComputeStmt :=
  match fuel with
  | O => Err (InvalidComputeProgram "out of fuel")
  | S fuel' =>
      let parse_program value :=
        items ← ok_or (as_array value) (InvalidComputeProgram "program must be an array");
        mapM (parse_statement_fuel fuel') items in
      object ← ok_or (as_object value) (InvalidComputeProgram "statement must be an object");
      match bt_get "$let" object with
      | Some name =>
          name ← ok_or (as_str name) (InvalidComputeProgram "$let name must be a string");
          bound ← ok_or (bt_get "value" object) (InvalidComputeProgram "$let requires a value");
          SLet name <$> parse_expression bound
      | None =>
      match bt_get "$return" object with
      | Some bound => SReturn <$> parse_expression bound
      | None =>
      match bt_get "$goto" object with
      | Some target =>
          SGoto <$> ok_or (as_str target) (InvalidComputeProgram "$goto target must be a string")
      | None =>
      match bt_get "$if" object with
      | Some condition =>
          then_branch ← match bt_get "then" object with Some branch => parse_program branch | None => Ok [] end;
          else_branch ← match bt_get "else" object with Some branch => parse_program branch | None => Ok [] end;
          Ok (SIf (condition_parse condition) then_branch else_branch)
      | None => SExpr <$> parse_expression value
      end end end end
  end.

Definition parse_program (value : Value) : result WorkflowValidationError ComputeProgram :=
  items ← ok_or (as_array value) (InvalidComputeProgram "program must be an array");
  mapM (parse_statement_fuel (value_size value)) items.

End parse.

Arguments expr_parse {EX} value : simpl never.
Arguments condition_parse {EX} value : simpl never.

(** ** Fuel *)

Section fuel.
Context {EX : Externals}.

Section step_ext.
Context (go go' : Value -> result string WorkflowExpression) (v : Value).
Hypothesis Hgo : forall x, value_size x < value_size v -> go x = go' x.

Lemma items_ext k object items : v = VObject object -> bt_get k object = Some (VArray items) ->
  mapM go items = mapM go' items.
Proof.
  intros -> Hk. apply mapM_ext_In. intros x Hx. apply Hgo.
  by apply (get_key_items_size k _ items).
Qed.

Lemma go_ext k object x : v = VObject object -> bt_get k object = Some x -> go x = go' x.
Proof. intros -> Hk. apply Hgo. by apply (get_key_size k). Qed.

Lemma as_items_ext k object x : v = VObject object -> bt_get k object = Some x ->
  (items ← ok_or (as_array x) (invalid v); mapM go items) =
  (items ← ok_or (as_array x) (invalid v); mapM go' items).
Proof. intros Hv Hk. destruct x; try done. by apply (items_ext k object). Qed.

Lemma non_empty_ext {A} (f : _ -> A) k object x : v = VObject object -> bt_get k object = Some x ->
  (items ← non_empty_items v x; f <$> mapM go items) =
  (items ← non_empty_items v x; f <$> mapM go' items).
Proof.
  intros Hv Hk. destruct x as [| | | |[|y items]|]; try done.
  unfold non_empty_items. cbn [mbind result_bind]. by rewrite (items_ext k object (y :: items)).
Qed.

Lemma parse_args_ext object : v = VObject object -> parse_args go v object = parse_args go' v object.
Proof.
  intros Hv. unfold parse_args. destruct (bt_get "args" object) eqn:Hk; [|done].
  by apply (as_items_ext "args" object).
Qed.

Lemma parse_arith_ext ctors object : v = VObject object ->
  parse_arith go ctors v object = parse_arith go' ctors v object.
Proof.
  intros Hv. induction ctors as [|[k c] ctors IH]; cbn; [done|].
  destruct (bt_get k object) eqn:Hk; [|done]. by rewrite (non_empty_ext c k object).
Qed.

Lemma parse_operator_ext object : v = VObject object ->
  parse_operator go v object = parse_operator go' v object.
Proof.
  intros Hv. unfold parse_operator. rewrite (parse_arith_ext _ object Hv).
  repeat case_goal; try done.
  all: try (erewrite go_ext by done; done).
  all: try by apply (non_empty_ext ECoalesce "$coalesce" object).
  destruct v0; try done. cbn [as_array ok_or mbind result_bind].
  by rewrite (items_ext "$concat" object items).
Qed.

Lemma parse_cond_ext object : v = VObject object -> parse_cond go v object = parse_cond go' v object.
Proof.
  intros Hv. unfold parse_cond. case_goal; [done|].
  assert (Hb : forall k, (ok_or (bt_get k object) (invalid v) ≫= go) = (ok_or (bt_get k object) (invalid v) ≫= go')).
  { intros k. destruct (bt_get k object) eqn:Hk; [|done]. by apply (go_ext k object). }
  by rewrite !Hb.
Qed.

Lemma parse_lambda_ext object : v = VObject object -> parse_lambda go v object = parse_lambda go' v object.
Proof.
  intros Hv. unfold parse_lambda. case_goal; [done|].
  destruct (bt_get "$lambda" object) as [spec|] eqn:Hs; [|done]. cbn.
  destruct spec as [| | | | |spec]; try done. cbn.
  destruct (bt_get "params" spec) as [params|]; [|done]. cbn. destruct params; try done. cbn.
  destruct (mapM _ items) as [ps|]; [|done]. cbn.
  destruct (bt_get "body" spec) as [body|] eqn:Hb; [|done]. cbn. rewrite Hgo; [done|].
  transitivity (value_size (VObject spec)); [by apply (get_key_size "body")|].
  subst v. by apply (get_key_size "$lambda").
Qed.

Lemma parse_apply_ext object : v = VObject object -> parse_apply go v object = parse_apply go' v object.
Proof.
  intros Hv. unfold parse_apply. rewrite (parse_args_ext object Hv). case_goal; [done|].
  destruct (bt_get "$apply" object) as [c|] eqn:Hk; [|done]. cbn. by rewrite (go_ext "$apply" object c).
Qed.

Lemma parse_object_ext object : v = VObject object -> parse_object go object = parse_object go' object.
Proof.
  intros ->. unfold parse_object. erewrite mapM_ext_In; [done|]. intros [k x] Hin. cbn.
  rewrite Hgo; [done|]. rewrite size_object. pose proof (In_value_size_obj k x object Hin). lia.
Qed.

Lemma parse_map_ext object : v = VObject object -> parse_map go v object = parse_map go' v object.
Proof.
  intros Hv. unfold parse_map, parse_call.
  by rewrite parse_args_ext, parse_apply_ext, parse_lambda_ext, parse_cond_ext, parse_operator_ext,
    parse_object_ext by done.
Qed.
End step_ext.

Lemma expr_parse_step_ext go go' v : (forall x, value_size x < value_size v -> go x = go' x) ->
  expr_parse_step go v = expr_parse_step go' v.
Proof.
  intros Hgo. destruct v as [| | | |items|object]; try done.
  - unfold expr_parse_step. erewrite mapM_ext_In; [done|]. intros x Hx. cbn. rewrite Hgo; [done|].
    rewrite size_array. pose proof (In_value_size x items Hx). lia.
  - by apply parse_map_ext.
Qed.

(** Any fuel from the size of the value on gives the same parse. *)
Lemma expr_parse_enough n v : value_size v <= n -> expr_parse_fuel n v = expr_parse v.
Proof.
  unfold expr_parse. enough (H : forall n m v, value_size v <= n -> value_size v <= m ->
    expr_parse_fuel n v = expr_parse_fuel m v) by (intros; by apply H).
  clear. induction n as [|n IH]; intros [|m] v Hn Hm;
    try (pose proof (value_size_pos v); lia).
  cbn. apply expr_parse_step_ext. intros x Hx. apply IH; lia.
Qed.

Lemma expr_parse_unfold v : expr_parse v = expr_parse_step expr_parse v.
Proof.
  unfold expr_parse at 1. pose proof (value_size_pos v). destruct (value_size v) eqn:Hs; [lia|].
  cbn. apply expr_parse_step_ext. intros x Hx. apply expr_parse_enough. lia.
Qed.

End fuel.

(** ** Serializing and parsing again *)

(** No object of the value carries [$literal]: the quoting form is the one the
    serializer does not write back. *)
Fixpoint literal_free (v : Value) : bool :=
  match v with
  | VArray l => forallb literal_free l
  | VObject m => negb (bt_contains "$literal" m) && forallb (fun kv => literal_free kv.2) m
  | _ => true
  end.

Lemma forallb_In' {A} (f : A -> bool) l x : forallb f l = true -> In x l -> f x = true.
Proof. intros H. by apply forallb_forall. Qed.

Lemma literal_free_get k m x : literal_free (VObject m) = true -> bt_get k m = Some x -> literal_free x = true.
Proof.
  intros [_ H]%andb_prop Hin%bt_get_In. by apply (forallb_In' (fun kv => literal_free kv.2) m (k, x)).
Qed.

Lemma literal_free_item l x : literal_free (VArray l) = true -> In x l -> literal_free x = true.
Proof. apply forallb_In'. Qed.

Section reparse.
Context {EX : Externals}.

Lemma parse_path_value p : parse_path (VArray (map path_segment_value p)) = Ok p.
Proof. 
  unfold parse_path. cbn [as_array ok_or mbind result_bind]. generalize (invalid (VArray (map path_segment_value p))).
  intros e. rewrite mapM_map. apply mapM_ok_Forall2. induction p as [|[] p IH]; constructor; done.
Qed.

Lemma ref_parse_value source p :
  match source with SrcNodeOutput node => node <> "" | _ => True end ->
  ref_parse (ref_value (mk_ref source p)) = Ok (mk_ref source p).
Proof.
  intros Hs. destruct source as [| | | | |node].
  1-5: match goal with |- _ = Ok (mk_ref ?s _) =>
         transitivity (mk_ref s <$> parse_path (VArray (map path_segment_value p))); [done|]
       end; by rewrite parse_path_value.
  transitivity (if String.eqb node "" then Err (invalid (ref_value (mk_ref (SrcNodeOutput node) p)))
    else mk_ref (SrcNodeOutput node) <$> parse_path (VArray (map path_segment_value p))); [done|].
  destruct (String.eqb_spec node ""); [done|]. by rewrite parse_path_value.
Qed.

Lemma ref_parse_node v node p : ref_parse v = Ok (mk_ref (SrcNodeOutput node) p) -> node <> "".
Proof.
  unfold ref_parse. intros H. destruct v as [| | | | |object]; try done. cbn [as_object ok_or mbind result_bind] in H.
  repeat (case_hyp H; try done).
  all: match type of H with _ <$> ?r = _ => destruct r; [|done] end; try discriminate H.
  all: injection H as <- _.
  all: match goal with E : String.eqb _ "" = false |- _ => by apply String.eqb_neq in E end.
Qed.

Lemma ref_parse_serialized v r : ref_parse v = Ok r -> ref_parse (ref_value r) = Ok r.
Proof.
  intros H. destruct r as [[| | | | |node] p]; apply ref_parse_value; try done. by apply ref_parse_node in H.
Qed.

(** The parse of each serialized form. *)
Abbreviation reparse_items es := (mapM expr_parse (map expr_value es) = Ok es).
Abbreviation reparses e := (expr_parse (expr_value e) = Ok e).

Ltac reparse_step e :=
  rewrite expr_parse_unfold; transitivity e; [reflexivity|];
  repeat match goal with H : _ = Ok _ |- _ => rewrite H; clear H; cbn end; try done.

Lemma reparse_call name es : reparse_items es -> reparses (ECall name es).
Proof. intros H. reparse_step (ECall name <$> mapM expr_parse (map expr_value es)). Qed.

Lemma reparse_apply c es : reparses c -> reparse_items es -> reparses (EApply c es).
Proof.
  intros Hc H.
  reparse_step (args ← mapM expr_parse (map expr_value es); callee ← expr_parse (expr_value c); Ok (EApply callee args)).
Qed.

Lemma reparse_lambda ps b : reparses b -> reparses (ELambda ps b).
Proof.
  intros Hb. rewrite expr_parse_unfold.
  transitivity (params ← mapM (fun param => ok_or (as_str param) (invalid (expr_value (ELambda ps b)))) (map VString ps);
    ELambda params <$> expr_parse (expr_value b)); [done|].
  rewrite mapM_map_id.
  - cbn [mbind result_bind]. by rewrite Hb.
  - apply List.Forall_forall. done.
Qed.

Lemma reparse_cond c t o : reparses c -> reparses t -> reparses o -> reparses (ECond c t o).
Proof.
  intros Hc Ht Ho. rewrite expr_parse_unfold.
  transitivity (c' ← expr_parse (expr_value c); t' ← expr_parse (expr_value t); o' ← expr_parse (expr_value o);
    Ok (ECond c' t' o')); [done|]. rewrite Hc. cbn. rewrite Ht. cbn. by rewrite Ho.
Qed.

Lemma reparse_single (key : string) (f : WorkflowExpression -> WorkflowExpression) e :
  (key, f) ∈ [("$neg", ENeg); ("$to_string", EToString); ("$to_json_string", EToJsonString)] ->
  reparses e -> reparses (f e).
Proof.
  rewrite !elem_of_cons, elem_of_nil. intros Hin He. rewrite expr_parse_unfold.
  destruct Hin as [[= -> ->]|[[= -> ->]|[[= -> ->]|[]]]];
    (match goal with |- _ = Ok (?f e) => transitivity (f <$> expr_parse (expr_value e)); [done|by rewrite He] end).
Qed.

Lemma reparse_many (key : string) (f : list WorkflowExpression -> WorkflowExpression) e es :
  (key, f) ∈ (("$coalesce", ECoalesce) :: arith_ctors) ->
  reparse_items (e :: es) -> reparses (f (e :: es)).
Proof.
  unfold arith_ctors. rewrite !elem_of_cons, elem_of_nil. intros Hin He. rewrite expr_parse_unfold.
  destruct Hin as [[= -> ->]|[[= -> ->]|[[= -> ->]|[[= -> ->]|[[= -> ->]|[[= -> ->]|[]]]]]]];
    (match goal with |- _ = Ok (?f _) => transitivity (f <$> mapM expr_parse (map expr_value (e :: es))); [done|by rewrite He] end).
Qed.

Lemma reparse_concat es : reparse_items es -> reparses (EConcat es).
Proof. intros H. reparse_step (EConcat <$> mapM expr_parse (map expr_value es)). Qed.

Lemma reparse_ref r : ref_parse (ref_value r) = Ok r -> reparses (ERef r).
Proof. intros H. reparse_step (ERef <$> ref_parse (ref_value r)). Qed.

Lemma mapM_values_reparse (l k : list Value) :
  Forall2 (fun x y => expr_value <$> expr_parse x = Ok y) l k ->
  (forall x e, In x l -> expr_parse x = Ok e -> reparses e) ->
  mapM (fun x => expr_value <$> expr_parse x) k = Ok k.
Proof.
  intros HF Hre. apply mapM_ok_Forall2. induction HF as [|x y l k Hx _ IH]; constructor.
  - destruct (expr_parse x) as [e|] eqn:He; [|done]. injection Hx as <-.
    rewrite (Hre x e); [done|by left|done].
  - apply IH. intros z e Hz. apply Hre. by right.
Qed.

End reparse.

Section roundtrip.
Context {EX : Externals} (v : Value).
Hypothesis Hre : forall x e, value_size x < value_size v -> literal_free x = true ->
  expr_parse x = Ok e -> expr_parse (expr_value e) = Ok e.
Context (object : Map).
Hypothesis Hv : v = VObject object.
Hypothesis Hlf : literal_free (VObject object) = true.

Lemma field_reparse k x e : bt_get k object = Some x -> expr_parse x = Ok e -> expr_parse (expr_value e) = Ok e.
Proof.
  intros Hk. apply Hre; [rewrite Hv; by apply (get_key_size k)|by apply (literal_free_get k object)].
Qed.

Lemma items_reparse k items es : bt_get k object = Some (VArray items) -> mapM expr_parse items = Ok es ->
  mapM expr_parse (map expr_value es) = Ok es.
Proof.
  intros Hk Hm. rewrite mapM_map. apply mapM_ok_Forall2. apply mapM_ok_Forall2 in Hm.
  assert (Hin : forall x e, In x items -> expr_parse x = Ok e -> expr_parse (expr_value e) = Ok e).
  { intros x e Hx. apply Hre; [rewrite Hv; by apply (get_key_items_size k _ items)|].
    eapply literal_free_item; [|done]. by apply (literal_free_get k object). }
  clear Hk. induction Hm as [|x y l k' Hx _ IH]; constructor.
  - apply (Hin x); [by left|done].
  - apply IH. intros z e Hz. apply Hin. by right.
Qed.

Lemma as_items_reparse k x es : bt_get k object = Some x ->
  (items ← ok_or (as_array x) (invalid v); mapM expr_parse items) = Ok es ->
  mapM expr_parse (map expr_value es) = Ok es.
Proof. intros Hk. destruct x; try done. by apply (items_reparse k). Qed.

Lemma parse_args_reparse es : parse_args expr_parse v object = Ok es ->
  mapM expr_parse (map expr_value es) = Ok es.
Proof.
  unfold parse_args. destruct (bt_get "args" object) as [x|] eqn:Hk; [by apply (as_items_reparse "args")|].
  by intros [= <-].
Qed.

Lemma non_empty_reparse key f x e : bt_get key object = Some x ->
  (key, f) ∈ (("$coalesce", ECoalesce) :: arith_ctors) ->
  (items ← non_empty_items v x; f <$> mapM expr_parse items) = Ok e -> expr_parse (expr_value e) = Ok e.
Proof.
  intros Hk Hf H. destruct x as [| | | |[|y items]|]; try done. unfold non_empty_items in H.
  cbn [mbind result_bind] in H. destruct (mapM expr_parse (y :: items)) as [es|] eqn:Hm; [|done].
  injection H as <-. pose proof (items_reparse key _ _ Hk Hm) as Hes.
  destruct es as [|e es]; [apply mapM_ok_Forall2 in Hm; inversion Hm|]. by apply (reparse_many key).
Qed.

Lemma parse_arith_reparse ctors r e : ctors ⊆ arith_ctors ->
  parse_arith expr_parse ctors v object = Some r -> r = Ok e -> expr_parse (expr_value e) = Ok e.
Proof.
  induction ctors as [|[k f] ctors IH]; intros Hsub; cbn; [done|].
  destruct (bt_get k object) as [x|] eqn:Hk.
  - intros [= <-]. apply (non_empty_reparse k); [done|]. right. apply Hsub. left.
  - apply IH. intros z Hz. apply Hsub. by right.
Qed.

Lemma parse_operator_reparse e : parse_operator expr_parse v object = Ok e -> expr_parse (expr_value e) = Ok e.
Proof.
  intros H. unfold parse_operator in H. destruct (negb _); [done|].
  destruct (bt_get "$ref" object) as [x|] eqn:H1.
  { destruct (ref_parse x) as [r|] eqn:Hr; [|done]. injection H as <-. by eapply reparse_ref, ref_parse_serialized. }
  destruct (parse_arith _ _ _ _) as [r|] eqn:H2; [by eapply parse_arith_reparse|].
  destruct (bt_get "$neg" object) as [x|] eqn:H3.
  { destruct (expr_parse x) as [y|] eqn:Hx; [|done]. injection H as <-.
    apply (reparse_single "$neg"); [left|by apply (field_reparse "$neg" x)]. }
  destruct (bt_get "$concat" object) as [x|] eqn:H4.
  { destruct (items ← ok_or (as_array x) (invalid v); mapM expr_parse items) as [es|] eqn:Hx.
    - apply (as_items_reparse "$concat") in Hx as Hes; [|done]. destruct x; try done. cbn in Hx, H. rewrite Hx in H.
      injection H as <-. by apply reparse_concat.
    - destruct x; try done. cbn in Hx, H. by rewrite Hx in H. }
  destruct (bt_get "$coalesce" object) as [x|] eqn:H5; [by apply (non_empty_reparse "$coalesce" ECoalesce x); [|left|]|].
  destruct (bt_get "$literal" object) as [x|] eqn:H6.
  { apply andb_prop in Hlf as [Hn _]. unfold bt_contains in Hn. by rewrite H6 in Hn. }
  destruct (bt_get "$to_string" object) as [x|] eqn:H7.
  { destruct (expr_parse x) as [y|] eqn:Hx; [|done]. injection H as <-.
    apply (reparse_single "$to_string"); [right; left|by apply (field_reparse "$to_string" x)]. }
  destruct (bt_get "$to_json_string" object) as [x|] eqn:H8; [|done].
  destruct (expr_parse x) as [y|] eqn:Hx; [|done]. injection H as <-.
  apply (reparse_single "$to_json_string"); [right; right; left|by apply (field_reparse "$to_json_string" x)].
Qed.

Lemma parse_cond_reparse e : parse_cond expr_parse v object = Ok e -> expr_parse (expr_value e) = Ok e.
Proof.
  unfold parse_cond. intros H. destruct (negb _); [done|].
  apply bind_ok in H as (c & H1 & H). apply bind_ok in H as (t & H2 & H). apply bind_ok in H as (o & H3 & H).
  injection H as <-.
  destruct (bt_get "$if" object) as [x|] eqn:E1; [|done].
  destruct (bt_get "then" object) as [y|] eqn:E2; [|done].
  destruct (bt_get "else" object) as [z|] eqn:E3; [|done].
  cbn in H1, H2, H3. apply reparse_cond; [by apply (field_reparse "$if" x)|by apply (field_reparse "then" y)|by apply (field_reparse "else" z)].
Qed.

Lemma parse_apply_reparse e : parse_apply expr_parse v object = Ok e -> expr_parse (expr_value e) = Ok e.
Proof.
  unfold parse_apply. intros H. destruct (negb _); [done|].
  apply bind_ok in H as (c & H1 & H). apply bind_ok in H as (es & H2 & H). apply bind_ok in H as (c' & H3 & H).
  injection H as <-.
  destruct (bt_get "$apply" object) as [x|] eqn:E1; [|done]. injection H1 as <-.
  apply reparse_apply; [by apply (field_reparse "$apply" x)|by apply parse_args_reparse].
Qed.

Lemma parse_lambda_reparse e : parse_lambda expr_parse v object = Ok e -> expr_parse (expr_value e) = Ok e.
Proof.
  unfold parse_lambda. intros H. destruct (negb _); [done|].
  destruct (bt_get "$lambda" object) as [spec|] eqn:Hs; [|done]. cbn in H.
  destruct spec as [| | | | |spec]; try done. cbn in H.
  apply bind_ok in H as (ps & _ & H). apply bind_ok in H as (names & _ & H).
  destruct (bt_get "body" spec) as [b|] eqn:Hb; [|done]. cbn in H.
  destruct (expr_parse b) as [y|] eqn:Hy; [|done]. injection H as <-.
  apply reparse_lambda, (Hre b); [| |done].
  - transitivity (value_size (VObject spec)); [by apply (get_key_size "body")|].
    rewrite Hv. by apply (get_key_size "$lambda").
  - apply (literal_free_get "body" spec); [|done]. by apply (literal_free_get "$lambda" object).
Qed.

Lemma parse_call_reparse e : parse_call expr_parse v object = Ok e -> expr_parse (expr_value e) = Ok e.
Proof.
  unfold parse_call. intros H. repeat (case_hyp H; try done).
  destruct (parse_args expr_parse v object) as [es|] eqn:Ha; [|done]. injection H as <-.
  by apply reparse_call, parse_args_reparse.
Qed.

End roundtrip.

Section roundtrip_main.
Context {EX : Externals}.

Lemma contains_same_keys (m m' : Map) : (forall k, bt_contains k m = bt_contains k m') ->
  existsb (fun k => bt_contains k m) OPERATOR_KEYS = existsb (fun k => bt_contains k m') OPERATOR_KEYS.
Proof. intros H. unfold OPERATOR_KEYS. cbn. by rewrite !H. Qed.

Lemma fields_same_keys (object fields : Map) :
  mapM (fun kv => (fun e => (kv.1, expr_value e)) <$> expr_parse kv.2) object = Ok fields ->
  bt_keys fields = bt_keys object.
Proof.
  intros H%mapM_ok_Forall2. induction H as [|[k x] [j y] object fields Hx _ IH]; [done|].
  cbn in Hx |- *. destruct (expr_parse x); [|done]. injection Hx as <- _. f_equal. exact IH.
Qed.

Lemma parse_object_reparse (object : Map) e :
  (forall k x e, In (k, x) object -> expr_parse x = Ok e -> expr_parse (expr_value e) = Ok e) ->
  parse_object expr_parse object = Ok e ->
  (forall k, k ∈ ["$value"; "$call"; "$apply"; "$lambda"; "$if"] -> bt_contains k object = false) ->
  existsb (fun k => bt_contains k object) OPERATOR_KEYS = false ->
  expr_parse (expr_value e) = Ok e.
Proof.
  intros Hre H Hkeys Hops. unfold parse_object in H. apply bind_ok in H as (fields & Hf & [= <-]).
  assert (Hsame : forall k, bt_contains k (bt_from_list fields) = bt_contains k object).
  { intros k. by rewrite bt_contains_from_list, !bt_contains_keys, (fields_same_keys object fields). }
  cbn [expr_value]. rewrite expr_parse_unfold. cbn [expr_parse_step]. unfold parse_map.
  rewrite (contains_same_keys _ object Hsame), !Hsame, Hops.
  rewrite !Hkeys by (rewrite !elem_of_cons; tauto).
  unfold parse_object. rewrite (mapM_ok_map _ (fun kv => kv)).
  - cbn. rewrite map_id. by rewrite bt_from_list_sorted by apply sorted_from_list.
  - apply List.Forall_forall. intros [k y] Hin%bt_from_list_In.
    apply mapM_ok_Forall2 in Hf. clear Hsame Hops Hkeys. induction Hf as [|[i x] [j z] object fields Hx _ IH]; [done|].
    destruct Hin as [[= <- <-]|Hin].
    + cbn in *. destruct (expr_parse x) as [e|] eqn:He; [|done]. cbn in Hx. injection Hx as <- <-.
      by rewrite (Hre i x e) by (try done; by left).
    + apply IH; [|done]. intros k' x' e' Hk'. by apply (Hre k'); right.
Qed.

Lemma expr_reparse v e : literal_free v = true -> expr_parse v = Ok e -> expr_parse (expr_value e) = Ok e.
Proof.
  remember (value_size v) as n eqn:Hn. revert v e Hn.
  induction (lt_wf n) as [n _ IH]. intros v e -> Hlf H.
  assert (Hre : forall x e, value_size x < value_size v -> literal_free x = true ->
    expr_parse x = Ok e -> expr_parse (expr_value e) = Ok e) by (intros x e' Hx; by apply (IH (value_size x))).
  rewrite expr_parse_unfold in H. destruct v as [|b|n|s|items|object]; try (injection H as <-; done).
  - cbn in H. destruct (_ || _) eqn:Hs; [done|]. injection H as <-.
    cbn [expr_value]. rewrite expr_parse_unfold. cbn. by rewrite Hs.
  - cbn [expr_parse_step] in H. apply bind_ok in H as (items' & Hm & [= <-]).
    cbn [expr_value]. rewrite expr_parse_unfold. cbn [expr_parse_step].
    apply mapM_ok_Forall2 in Hm. rewrite (mapM_values_reparse items); [done|done|].
    intros x e Hx. apply Hre; [|by apply (literal_free_item items)].
    rewrite size_array. pose proof (In_value_size x items Hx). lia.
  - cbn [expr_parse_step] in H. unfold parse_map in H.
    destruct (bt_contains "$value" object) eqn:H1; [done|].
    destruct (bt_contains "$call" object) eqn:H2; [by eapply (parse_call_reparse (VObject object))|].
    destruct (bt_contains "$apply" object) eqn:H3; [by eapply (parse_apply_reparse (VObject object))|].
    destruct (bt_contains "$lambda" object) eqn:H4; [by eapply (parse_lambda_reparse (VObject object))|].
    destruct (bt_contains "$if" object) eqn:H5; [by eapply (parse_cond_reparse (VObject object))|].
    destruct (existsb _ OPERATOR_KEYS) eqn:H6; [by eapply (parse_operator_reparse (VObject object))|].
    apply (parse_object_reparse object); [|done| |done].
    + intros k x e' Hin. apply Hre.
      * rewrite size_object. pose proof (In_value_size_obj k x object Hin). lia.
      * apply andb_prop in Hlf as [_ Hall]. by apply (forallb_In' (fun kv => literal_free kv.2) object (k, x)).
    + intros k. rewrite !elem_of_cons, elem_of_nil. intros [->|[->|[->|[->|[->|[]]]]]]; done.
Qed.

End roundtrip_main.

(** ** Conditions *)

Section conditions.
Context {EX : Externals}.

Lemma condition_parse_step_ext go go' v : (forall x, value_size x < value_size v -> go x = go' x) ->
  condition_parse_step go v = condition_parse_step go' v.
Proof.
  intros Hgo. destruct v as [| | | | |object]; try done. cbn.
  assert (Hitems : forall k items, bt_get k object = Some (VArray items) -> map go items = map go' items).
  { intros k items Hk. apply map_ext_in. intros x Hx. apply Hgo. by apply (get_key_items_size k _ items). }
  destruct (bt_get "all" object) as [[| | | |items|]|] eqn:H1; try done; [by rewrite (Hitems "all" items)|].
  destruct (bt_get "any" object) as [[| | | |items|]|] eqn:H2; try done; [by rewrite (Hitems "any" items)|].
  destruct (bt_get "not" object) as [x|] eqn:H3; [|done]. rewrite Hgo; [done|]. by apply (get_key_size "not").
Qed.

Lemma condition_parse_unfold v : condition_parse v = condition_parse_step condition_parse v.
Proof.
  assert (Henough : forall n m v, value_size v <= n -> value_size v <= m ->
    condition_parse_fuel n v = condition_parse_fuel m v).
  { clear. induction n as [|n IH]; intros [|m] v Hn Hm; try (pose proof (value_size_pos v); lia).
    cbn. apply condition_parse_step_ext. intros x Hx. apply IH; lia. }
  unfold condition_parse at 1. pose proof (value_size_pos v). destruct (value_size v) eqn:Hs; [lia|].
  cbn. apply condition_parse_step_ext. intros x Hx. apply Henough; lia.
Qed.

Lemma find_compare_some ops object op x : find_compare ops object = Some (op, x) ->
  bt_get (compare_key op) object = Some x.
Proof.
  induction ops as [|o ops IH]; cbn; [done|].
  destruct (bt_get (compare_key o) object) eqn:Hk; [|done]. by intros [= <- <-].
Qed.

Lemma reparse_compare l op r :
  expr_parse (expr_value l) = Ok l -> expr_parse (expr_value r) = Ok r ->
  condition_parse (condition_value (CCompare l op r)) = CCompare l op r.
Proof.
  intros Hl Hr. rewrite condition_parse_unfold.
  transitivity (match expr_parse (expr_value l) with
    | Ok l' => match expr_parse (expr_value r) with
               | Ok r' => CCompare l' op r'
               | Err _ => COther (condition_value (CCompare l op r))
               end
    | Err _ => COther (condition_value (CCompare l op r))
    end); [by destruct op|]. by rewrite Hl, Hr.
Qed.

Lemma reparse_exists l b : expr_parse (expr_value l) = Ok l ->
  condition_parse (condition_value (CExists l b)) = CExists l b.
Proof.
  intros Hl. rewrite condition_parse_unfold.
  transitivity (match expr_parse (expr_value l) with
    | Ok l' => CExists l' b
    | Err _ => COther (condition_value (CExists l b))
    end); [done|]. by rewrite Hl.
Qed.

Lemma reparse_truthy l : expr_parse (expr_value l) = Ok l ->
  condition_parse (condition_value (CTruthy l)) = CTruthy l.
Proof.
  intros Hl. rewrite condition_parse_unfold.
  transitivity (match expr_parse (expr_value l) with
    | Ok l' => CTruthy l'
    | Err _ => COther (condition_value (CTruthy l))
    end); [done|]. by rewrite Hl.
Qed.

Lemma condition_leaf_reparse v object : v = VObject object -> literal_free v = true ->
  condition_parse v = condition_leaf v object ->
  condition_parse (condition_value (condition_leaf v object)) = condition_leaf v object.
Proof.
  intros Hv Hlf Hsame. unfold condition_leaf. unfold leaf_left.
  assert (Hother : condition_leaf v object = COther v ->
    condition_parse (condition_value (COther v)) = COther v) by (intros E; cbn [condition_value]; by rewrite Hsame, E).
  unfold condition_leaf, leaf_left in Hother.
  destruct (bt_get_or "value" "left" object) as [l|] eqn:Hl; [|by apply Hother].
  assert (Hlfl : literal_free l = true).
  { subst v. unfold bt_get_or in Hl. destruct (bt_get "value" object) eqn:Hk.
    - injection Hl as <-. by apply (literal_free_get "value" object).
    - by apply (literal_free_get "left" object). }
  destruct (expr_parse l) as [el|] eqn:Hel; [|by apply Hother].
  apply expr_reparse in Hel as Hrl; [|done].
  destruct (find_compare ORDER object) as [[op r]|] eqn:Hf.
  - destruct (expr_parse r) as [er|] eqn:Her; [|by apply Hother].
    apply expr_reparse in Her as Hrr; [by apply reparse_compare|].
    subst v. apply (literal_free_get (compare_key op) object); [done|]. by eapply find_compare_some.
  - destruct (bt_get "exists" object) as [x|] eqn:Hx.
    + by apply reparse_exists.
    + destruct (_ && _) eqn:Hone; [by apply reparse_truthy|by apply Hother].
Qed.

Lemma condition_reparse v : literal_free v = true ->
  condition_parse (condition_value (condition_parse v)) = condition_parse v.
Proof.
  remember (value_size v) as n eqn:Hn. revert v Hn.
  induction (lt_wf n) as [n _ IH]. intros v -> Hlf.
  assert (Hre : forall x, value_size x < value_size v -> literal_free x = true ->
    condition_parse (condition_value (condition_parse x)) = condition_parse x) by (intros x Hx; by apply (IH (value_size x))).
  pose proof (condition_parse_unfold v) as Hu.
  destruct v as [|b|n|s|items|object]; try (rewrite Hu; cbn [condition_parse_step condition_value]; by rewrite Hu).
  assert (Hitems : forall k items, bt_get k object = Some (VArray items) ->
    map (fun x => condition_parse (condition_value (condition_parse x))) items = map condition_parse items).
  { intros k items Hk. apply map_ext_in. intros x Hx. apply Hre; [by apply (get_key_items_size k _ items)|].
    eapply literal_free_item; [|done]. by apply (literal_free_get k object). }
  cbn [condition_parse_step] in Hu.
  destruct (bt_get "all" object) as [x|] eqn:H1.
  { destruct x as [| | | |items|]; try (rewrite Hu; cbn [condition_value]; by rewrite Hu).
    rewrite Hu. rewrite condition_parse_unfold. cbn. by rewrite !map_map, (Hitems "all" items). }
  destruct (bt_get "any" object) as [x|] eqn:H2.
  { destruct x as [| | | |items|]; try (rewrite Hu; cbn [condition_value]; by rewrite Hu).
    rewrite Hu. rewrite condition_parse_unfold. cbn. by rewrite !map_map, (Hitems "any" items). }
  destruct (bt_get "not" object) as [x|] eqn:H3.
  { rewrite Hu. rewrite condition_parse_unfold. cbn. rewrite Hre; [done|by apply (get_key_size "not")|].
    by apply (literal_free_get "not" object). }
  rewrite Hu. by apply condition_leaf_reparse.
Qed.

End conditions.

(** ** Properties *)

(** C23: Parsing an expression, serializing it and parsing again gives the same
    expression, for every value that does not use the [$literal] quoting form. *)
Theorem expression_reparse `{Externals} v e :
  literal_free v = true -> expr_parse v = Ok e -> expr_parse (expr_value e) = Ok e.
Proof. apply expr_reparse. Qed.

Definition sample_expression : Value :=
  VObject [("$if", single "$ref" (single "input" (VArray [VString "n"; value_from_i64 0])));
           ("else", VObject [("a", single "$neg" (value_from_i64 1))]);
           ("then", VObject [("$call", VString "len"); ("args", VArray [VArray [VNull]])])].

Lemma expression_reparse_witness :
  exists e, expr_parse (EX := externals_stub) sample_expression = Ok e /\            expr_parse (EX := externals_stub) (expr_value e) = Ok e.
Proof.
  eexists. split; [reflexivity|]. apply (expression_reparse sample_expression); reflexivity.
Defined.

(** C24: The [$literal] form does not survive: serialization drops the quotes, so a
    quoted reference (any reference with a non-empty path or source) parses, is
    written back unquoted, and becomes an active reference. *)
Theorem literal_quoting_lost `{Externals} p :
  let reference := mk_ref SrcPrev p in
  let quoted := single "$literal" (expr_value (ERef reference)) in
  expr_parse quoted = Ok (ELiteral (expr_value (ERef reference))) /\
  expr_parse (expr_value (ELiteral (expr_value (ERef reference)))) = Ok (ERef reference).
Proof.
  cbv zeta. split.
  - rewrite expr_parse_unfold. reflexivity.
  - by apply reparse_ref, ref_parse_value.
Qed.

(** C25: The condition parser is total, and one parse reaches a normal form: parsing the
    serialized condition gives the same condition (for values without [$literal]). *)
Theorem condition_normal_form `{Externals} v : literal_free v = true ->
  condition_parse (condition_value (condition_parse v)) = condition_parse v.
Proof. apply condition_reparse. Qed.

Lemma condition_normal_form_witness :
  let v := single "any" (VArray [VObject [("exists", VString "x"); ("left", VBool true)]; VNull]) in
  condition_parse (EX := externals_stub) v = CAny [CExists (ELiteral (VBool true)) true; COther VNull] /\
  condition_parse (EX := externals_stub) (condition_value (condition_parse (EX := externals_stub) v))
  = condition_parse (EX := externals_stub) v.
Proof. cbv zeta. split; [reflexivity|]. apply condition_normal_form. reflexivity. Defined.

(** The serialized condition is not byte-identical to the parsed value: a leaf
    written with the [left] alias is written back under [value], a non-boolean
    [exists] becomes [true], and unknown keys are dropped. *)
Theorem condition_not_byte_identical `{Externals} :
  condition_value (condition_parse (VObject [("exists", VNull); ("junk", VNull); ("left", VBool true)]))
  = VObject [("exists", VBool true); ("value", VBool true)].
Proof. rewrite condition_parse_unfold. reflexivity. Qed.
