(* ===== verification/Intrinsics.v ===== *)
(** * The pure intrinsic library ([runinator-workflows/src/compute.rs])

    The functions a compute program or an expression may call, their dispatch by
    name, their accepted arities and declared signatures.  A [u64]/[usize] index is
    a [Z]; [i64] arithmetic wraps or is checked as in the source.  The dispatch
    [match] is the association list [pure_table], in the order of the source. *)

From S2P Require Import Prelude BTree Float64 Values Types Ast.

#[local] Open Scope string_scope.

Abbreviation eval_result := (result WorkflowValidationError).

Definition err (name message : string) : WorkflowValidationError := IntrinsicError name message.

(** [format!("{index}")]. *)
Definition show_nat (n : nat) : string := pretty n.

Definition arg (name : string) (args : list Value) (index : nat) : eval_result Value :=
  ok_or (nth_error args index) (err name ("missing argument " ++ show_nat index)).

Section intrinsics.
Context {EX : Externals}.

Definition number (name : string) (value : Value) : eval_result f64 :=
  ok_or (as_f64 value) (err name ("expected a number, got " ++ json_string value)).

Definition finite_number (name : string) (value : f64) : eval_result Value :=
  if f_is_finite value then Ok (value_from_f64 value) else Err (err name "produced a non-finite number").

Definition numeric_binary (name : string) (float_op : f64 -> f64 -> f64) (int_op : Z -> Z -> option Z)
    (args : list Value) : eval_result Value :=
  lft ← arg name args 0;
  rgt ← arg name args 1;
  match as_i64 lft, as_i64 rgt with
  | Some a, Some b => value_from_i64 <$> ok_or (int_op a b) (err name "undefined integer operation")
  | _, _ => x ← number name lft; y ← number name rgt; finite_number name (float_op x y)
  end.

Definition string_unary (name : string) (op : string -> string) (args : list Value) : eval_result Value :=
  value ← arg name args 0;
  text ← ok_or (as_str value) (err name ("expected a string, got " ++ json_string value));
  Ok (VString (op text)).

Definition number_to_int (name : string) (op : f64 -> f64) (args : list Value) : eval_result Value :=
  value ← arg name args 0;
  x ← number name value;
  Ok (value_from_i64 (f_to_i64 (op x))).

Definition intrinsic_len (args : list Value) : eval_result Value :=
  value ← arg "len" args 0;
  length_ ← match value with
            | VString text => Ok (length (str_chars text))
            | VArray items => Ok (length items)
            | VObject object => Ok (length object)
            | other => Err (err "len" ("expected a string, array, or object, got " ++ json_string other))
            end;
  Ok (value_from_i64 (wrap_i64 (Z.of_nat length_))).

Definition intrinsic_keys (args : list Value) : eval_result Value :=
  value ← arg "keys" args 0;
  object ← ok_or (as_object value) (err "keys" ("expected an object, got " ++ json_string value));
  Ok (VArray (map VString (bt_keys object))).

Definition parse_int (args : list Value) : eval_result Value :=
  value ← arg "parse_int" args 0;
  text ← ok_or (as_str value) (err "parse_int" ("expected a string, got " ++ json_string value));
  match parse_i64_result (str_trim text) with
  | Ok z => Ok (value_from_i64 z)
  | Err message => Err (err "parse_int" message)
  end.

Definition parse_float (args : list Value) : eval_result Value :=
  value ← arg "parse_float" args 0;
  text ← ok_or (as_str value) (err "parse_float" ("expected a string, got " ++ json_string value));
  let text := str_trim text in
  parsed ← ok_or (f64_parse text)
    (err "parse_float" (if String.eqb text "" then "cannot parse float from empty string" else "invalid float literal"));
  finite_number "parse_float" parsed.

Definition at_position (what : string) (index : nat) (value : Value) : string :=
  "expected " ++ what ++ " at position " ++ show_nat index ++ ", got " ++ json_string value.

Definition string_at (name : string) (args : list Value) (index : nat) : eval_result string :=
  value ← arg name args index;
  ok_or (as_str value) (err name (at_position "a string" index value)).

Definition int_at (name : string) (args : list Value) (index : nat) : eval_result Z :=
  value ← arg name args index;
  ok_or (as_i64 value) (err name (at_position "an integer" index value)).

Definition array_at (name : string) (args : list Value) (index : nat) : eval_result (list Value) :=
  value ← arg name args index;
  ok_or (as_array value) (err name (at_position "an array" index value)).

Definition truthy (value : Value) : bool :=
  match value with VNull | VBool false => false | _ => true end.

Definition stringify (value : Value) : string :=
  match value with
  | VString text => text
  | VNull => "null"
  | VBool b => if b then "true" else "false"
  | VNumber n => number_string n
  | other => json_string other
  end.

Definition cmp_values (lft rgt : Value) : comparison :=
  match as_f64 lft, as_f64 rgt with
  | Some a, Some b => match f_cmp a b with Some o => o | None => Eq end
  | _, _ =>
      match as_str lft, as_str rgt with
      | Some a, Some b => String.compare a b
      | _, _ => Eq
      end
  end.

(** [slice::sort_by], as the insertion sort the standard library runs on short
    slices: each element moves left past the elements it is less than.  Whenever
    the comparison is a total preorder every stable sort gives this list; where it is not,
    as [cmp_values] on mixed lists, the standard library leaves the order unspecified and
    may panic, and this list is one it may give ([sort_mixed_unsorted]). *)
Fixpoint insert_sorted {A} (cmp : A -> A -> comparison) (x : A) (rev_prefix : list A) : list A :=
  match rev_prefix with
  | [] => [x]
  | y :: rest => match cmp x y with Lt => y :: insert_sorted cmp x rest | _ => x :: rev_prefix end
  end.

Definition sort_by {A} (cmp : A -> A -> comparison) (l : list A) : list A :=
  rev (foldl (fun acc x => insert_sorted cmp x acc) [] l).

Definition is_lt (o : comparison) : bool := match o with Lt => true | _ => false end.
Definition is_gt (o : comparison) : bool := match o with Gt => true | _ => false end.
Definition is_le (o : comparison) : bool := negb (is_gt o).
Definition is_ge (o : comparison) : bool := negb (is_lt o).

Definition string_pair (name : string) (predicate : string -> string -> bool) (args : list Value) : eval_result Value :=
  lft ← string_at name args 0;
  rgt ← string_at name args 1;
  Ok (VBool (predicate lft rgt)).

Definition compare (name : string) (predicate : comparison -> bool) (args : list Value) : eval_result Value :=
  lft ← arg name args 0;
  rgt ← arg name args 1;
  match as_f64 lft, as_f64 rgt with
  | Some a, Some b =>
      ordering ← ok_or (f_cmp a b) (err name "comparison is undefined");
      Ok (VBool (predicate ordering))
  | _, _ =>
      match as_str lft, as_str rgt with
      | Some a, Some b => Ok (VBool (predicate (String.compare a b)))
      | _, _ => Err (err name "comparison requires two numbers or two strings")
      end
  end.

(** A negative index counts from the end. *)
Definition clamp_index (index : Z) (len : nat) : nat :=
  if (index <? 0)%Z then Z.to_nat (Z.max (Z.of_nat len + index) 0) else Nat.min (Z.to_nat index) len.

Definition slice_of {A} (l : list A) (start stop : nat) : list A :=
  if (start <=? stop)%nat then firstn (stop - start) (skipn start l) else [].

Definition intrinsic_split (args : list Value) : eval_result Value :=
  text ← string_at "split" args 0;
  sep ← string_at "split" args 1;
  Ok (VArray (map VString (if String.eqb sep "" then str_chars text else str_split sep text))).

Definition intrinsic_join (args : list Value) : eval_result Value :=
  items ← array_at "join" args 0;
  sep ← string_at "join" args 1;
  Ok (VString (str_join sep (map stringify items))).

Definition intrinsic_replace (args : list Value) : eval_result Value :=
  text ← string_at "replace" args 0;
  from ← string_at "replace" args 1;
  to ← string_at "replace" args 2;
  Ok (VString (str_replace from to text)).

(** The optional end of [substring] and [slice]. *)
Definition end_index (name : string) (args : list Value) (len : nat) : eval_result nat :=
  match nth_error args 2 with
  | Some _ => stop ← int_at name args 2; Ok (clamp_index stop len)
  | None => Ok len
  end.

Definition intrinsic_substring (args : list Value) : eval_result Value :=
  text ← string_at "substring" args 0;
  let chars := str_chars text in
  start ← int_at "substring" args 1;
  stop ← end_index "substring" args (length chars);
  Ok (VString (str_concat (slice_of chars (clamp_index start (length chars)) stop))).

Definition intrinsic_values (args : list Value) : eval_result Value :=
  value ← arg "values" args 0;
  object ← ok_or (as_object value) (err "values" ("expected an object, got " ++ json_string value));
  Ok (VArray (bt_values object)).

Definition intrinsic_contains (args : list Value) : eval_result Value :=
  haystack ← arg "contains" args 0;
  needle ← arg "contains" args 1;
  match haystack, needle with
  | VString text, VString sub => Ok (VBool (str_contains text sub))
  | VArray items, _ => Ok (VBool (values_contain items needle))
  | VObject object, VString key => Ok (VBool (bt_contains key object))
  | _, _ => Err (err "contains" "requires a string, array, or object")
  end.

Definition intrinsic_has (args : list Value) : eval_result Value :=
  collection ← arg "has" args 0;
  key ← arg "has" args 1;
  match collection, as_str key, as_i64 key with
  | VObject object, Some key, _ => Ok (VBool (bt_contains key object))
  | VArray items, _, Some index => Ok (VBool ((0 <=? index)%Z && (index <? Z.of_nat (length items))%Z))
  | _, _, _ => Ok (VBool false)
  end.

(** [unwrap_or(Value::Null)]. *)
Definition or_null (o : option Value) : Value := match o with Some v => v | None => VNull end.

Definition intrinsic_at (args : list Value) : eval_result Value :=
  collection ← arg "at" args 0;
  key ← arg "at" args 1;
  match collection, as_i64 key, as_str key with
  | VArray items, Some index, _ => Ok (or_null (nth_error items (clamp_index index (length items))))
  | VObject object, _, Some key => Ok (or_null (bt_get key object))
  | _, _, _ => Ok VNull
  end.

(** The loop of [intrinsic_sum]: integer and float accumulators, and whether every
    item so far is an [i64]. *)
Fixpoint sum_loop (items : list Value) (int_acc : Z) (float_acc : f64) (all_int : bool) : eval_result Value :=
  match items with
  | [] => if all_int then Ok (value_from_i64 int_acc) else finite_number "sum" float_acc
  | item :: rest =>
      match (if all_int then as_i64 item else None) with
      | Some value => sum_loop rest (wrap_i64 (int_acc + value)) (f_add float_acc (f_of_Z value)) true
      | None =>
          value ← ok_or (as_f64 item) (err "sum" ("expected a number, got " ++ json_string item));
          sum_loop rest int_acc (f_add float_acc value) false
      end
  end.

Definition intrinsic_sum (args : list Value) : eval_result Value :=
  items ← array_at "sum" args 0;
  sum_loop items 0 f_zero true.

Definition intrinsic_sort (args : list Value) : eval_result Value :=
  items ← array_at "sort" args 0;
  Ok (VArray (sort_by cmp_values items)).

Definition intrinsic_reverse (args : list Value) : eval_result Value :=
  value ← arg "reverse" args 0;
  match value with
  | VString text => Ok (VString (str_concat (rev (str_chars text))))
  | _ => items ← array_at "reverse" args 0; Ok (VArray (rev items))
  end.

Definition unique_items (items : list Value) : list Value :=
  foldl (fun seen item => if values_contain seen item then seen else (seen ++ [item])%list) [] items.

Definition intrinsic_unique (args : list Value) : eval_result Value :=
  items ← array_at "unique" args 0;
  Ok (VArray (unique_items items)).

Definition flatten_items (items : list Value) : list Value :=
  concat (map (fun item => match item with VArray inner => inner | other => [other] end) items).

Definition intrinsic_flatten (args : list Value) : eval_result Value :=
  items ← array_at "flatten" args 0;
  Ok (VArray (flatten_items items)).

Definition intrinsic_slice (args : list Value) : eval_result Value :=
  items ← array_at "slice" args 0;
  start ← int_at "slice" args 1;
  stop ← end_index "slice" args (length items);
  Ok (VArray (slice_of items (clamp_index start (length items)) stop)).

Definition intrinsic_first (args : list Value) : eval_result Value :=
  items ← array_at "first" args 0;
  Ok (or_null (head items)).

Definition intrinsic_last (args : list Value) : eval_result Value :=
  items ← array_at "last" args 0;
  Ok (or_null (head (rev items))).

Definition intrinsic_append (args : list Value) : eval_result Value :=
  items ← array_at "append" args 0;
  item ← arg "append" args 1;
  Ok (VArray (items ++ [item])%list).

Definition intrinsic_range (args : list Value) : eval_result Value :=
  start ← int_at "range" args 0;
  stop ← int_at "range" args 1;
  Ok (VArray (map (fun i => value_from_i64 (start + Z.of_nat i)) (seq 0 (Z.to_nat (stop - start))))).

Definition intrinsic_merge (args : list Value) : eval_result Value :=
  lft ← arg "merge" args 0;
  rgt ← arg "merge" args 1;
  match lft, rgt with
  | VObject lft, VObject rgt => Ok (VObject (bt_extend lft rgt))
  | _, _ => Err (err "merge" "both arguments must be objects")
  end.

Definition intrinsic_pick (keep : bool) (args : list Value) : eval_result Value :=
  let name := if keep then "pick" else "omit" in
  value ← arg name args 0;
  object ← ok_or (as_object value) (err name "first argument must be an object");
  keys ← array_at name args 1;
  let wanted := omap as_str keys in
  Ok (VObject (bt_from_list (List.filter (fun kv => Bool.eqb (existsb (fun k => String.eqb k kv.1) wanted) keep) object))).

Definition entry_value (kv : string * Value) : Value :=
  VObject (bt_from_list [("key", VString kv.1); ("value", kv.2)]).

Definition intrinsic_entries (args : list Value) : eval_result Value :=
  value ← arg "entries" args 0;
  object ← ok_or (as_object value) (err "entries" ("expected an object, got " ++ json_string value));
  Ok (VArray (map entry_value object)).

Definition entry_pair (item : Value) : eval_result (string * Value) :=
  match item with
  | VObject object =>
      key ← ok_or (bt_get "key" object ≫= as_str) (err "from_entries" "entry object needs a string 'key'");
      Ok (key, or_null (bt_get "value" object))
  | VArray [k; v] =>
      key ← ok_or (as_str k) (err "from_entries" "entry pair key must be a string");
      Ok (key, v)
  | _ => Err (err "from_entries" "entry must be {key, value} or [key, value]")
  end.

Definition intrinsic_from_entries (args : list Value) : eval_result Value :=
  items ← array_at "from_entries" args 0;
  pairs ← mapM entry_pair items;
  Ok (VObject (bt_from_list pairs)).

(** [map_err(|e| err(name, e.to_string()))]. *)
Definition with_err {A} (name : string) (r : result string A) : eval_result A :=
  match r with Ok a => Ok a | Err message => Err (err name message) end.

Definition intrinsic_parse_json (args : list Value) : eval_result Value :=
  text ← string_at "parse_json" args 0;
  with_err "parse_json" (json_parse text).

Definition intrinsic_base64_encode (args : list Value) : eval_result Value :=
  text ← string_at "base64_encode" args 0;
  Ok (VString (base64_encode text)).

Definition intrinsic_base64_decode (args : list Value) : eval_result Value :=
  text ← string_at "base64_decode" args 0;
  VString <$> with_err "base64_decode" (base64_decode text).

Definition hash_bytes (value : Value) : string :=
  match value with VString text => text | other => json_string other end.

(** FNV-1a over the bytes, on 64 bits, then masked to 63. *)
Definition FNV_OFFSET : Z := 0xcbf29ce484222325.
Definition FNV_PRIME : Z := 0x00000100000001b3.

Fixpoint fnv1a_bytes (text : string) (hash : Z) : Z :=
  match text with
  | EmptyString => hash
  | String byte rest =>
      fnv1a_bytes rest (wrap_u64 (Z.lxor hash (Z.of_N (N_of_ascii byte)) * FNV_PRIME))
  end.

Definition fnv1a_63 (text : string) : Z := Z.land (fnv1a_bytes text FNV_OFFSET) i64_max.

Definition intrinsic_hash (args : list Value) : eval_result Value :=
  value ← arg "hash" args 0;
  Ok (value_from_i64 (fnv1a_63 (hash_bytes value))).

Definition intrinsic_hash_percent (args : list Value) : eval_result Value :=
  value ← arg "hash_percent" args 0;
  Ok (value_from_i64 (Z.rem (fnv1a_63 (hash_bytes value)) 100)).

Definition parse_rfc3339 (name text : string) : eval_result datetime :=
  match datetime_from_rfc3339 text with
  | Ok dt => Ok dt
  | Err e => Err (err name ("invalid RFC 3339 timestamp: " ++ e))
  end.

Definition intrinsic_format_date (args : list Value) : eval_result Value :=
  source ← arg "format_date" args 0;
  fmt ← string_at "format_date" args 1;
  dt ← match as_i64 source, as_str source with
       | Some epoch, _ => ok_or (datetime_from_timestamp epoch) (err "format_date" "epoch seconds out of range")
       | None, Some text => parse_rfc3339 "format_date" text
       | None, None => Err (err "format_date" "first argument must be epoch seconds or an RFC 3339 string")
       end;
  Ok (VString (datetime_format dt fmt)).

Definition intrinsic_parse_date (args : list Value) : eval_result Value :=
  text ← string_at "parse_date" args 0;
  fmt ← string_at "parse_date" args 1;
  match naive_datetime_parse text fmt with
  | Some dt => Ok (VString (datetime_to_rfc3339 dt))
  | None =>
      match naive_date_parse text fmt with
      | Ok dt => Ok (VString (datetime_to_rfc3339 dt))
      | Err e => Err (err "parse_date" ("could not parse with pattern: " ++ e))
      end
  end.

(** The addition panics outside chrono's range: there is no result then. *)
Definition intrinsic_add_duration (args : list Value) : eval_result Value :=
  text ← string_at "add_duration" args 0;
  dt ← parse_rfc3339 "add_duration" text;
  seconds ← int_at "add_duration" args 1;
  shifted ← ok_or (datetime_add_seconds dt seconds) (err "add_duration" "panic");
  Ok (VString (datetime_to_rfc3339 shifted)).

Definition intrinsic_date_diff (args : list Value) : eval_result Value :=
  lft ← string_at "date_diff" args 0 ≫= parse_rfc3339 "date_diff";
  rgt ← string_at "date_diff" args 1 ≫= parse_rfc3339 "date_diff";
  Ok (value_from_i64 (wrap_i64 (datetime_diff_seconds lft rgt))).

Definition compile_regex (name pattern : string) : eval_result regex :=
  match regex_new pattern with
  | Ok r => Ok r
  | Err e => Err (err name ("invalid pattern: " ++ e))
  end.

Definition intrinsic_regex_match (args : list Value) : eval_result Value :=
  text ← string_at "regex_match" args 0;
  r ← string_at "regex_match" args 1 ≫= compile_regex "regex_match";
  Ok (VBool (regex_is_match r text)).

Definition intrinsic_regex_replace (args : list Value) : eval_result Value :=
  text ← string_at "regex_replace" args 0;
  r ← string_at "regex_replace" args 1 ≫= compile_regex "regex_replace";
  replacement ← string_at "regex_replace" args 2;
  Ok (VString (regex_replace_all r text replacement)).

Definition intrinsic_regex_extract (args : list Value) : eval_result Value :=
  text ← string_at "regex_extract" args 0;
  r ← string_at "regex_extract" args 1 ≫= compile_regex "regex_extract";
  Ok (VArray (map VString (regex_find_all r text))).

Definition intrinsic_eq (name : string) (negate : bool) (args : list Value) : eval_result Value :=
  a ← arg name args 0;
  b ← arg name args 1;
  Ok (VBool (xorb negate (value_eqb a b))).

Definition intrinsic_not (args : list Value) : eval_result Value :=
  a ← arg "not" args 0;
  Ok (VBool (negb (truthy a))).

(** [&&] and [||] look at the second argument only when the first does not decide. *)
Definition intrinsic_and (args : list Value) : eval_result Value :=
  a ← arg "and" args 0;
  if truthy a then b ← arg "and" args 1; Ok (VBool (truthy b)) else Ok (VBool false).

Definition intrinsic_or (args : list Value) : eval_result Value :=
  a ← arg "or" args 0;
  if truthy a then Ok (VBool true) else b ← arg "or" args 1; Ok (VBool (truthy b)).

Definition intrinsic_default (args : list Value) : eval_result Value :=
  primary ← arg "default" args 0;
  if is_null primary then arg "default" args 1 else Ok primary.

(** ** Dispatch *)

Definition pure_table : list (string * (list Value -> eval_result Value)) :=
  [("add", numeric_binary "add" f_add (fun a b => Some (wrap_i64 (a + b))));
   ("sub", numeric_binary "sub" f_sub (fun a b => Some (wrap_i64 (a - b))));
   ("mul", numeric_binary "mul" f_mul (fun a b => Some (wrap_i64 (a * b))));
   ("div", numeric_binary "div" f_div checked_div_i64);
   ("mod", numeric_binary "mod" f_rem checked_rem_i64);
   ("min", numeric_binary "min" f_min (fun a b => Some (Z.min a b)));
   ("max", numeric_binary "max" f_max (fun a b => Some (Z.max a b)));
   ("len", intrinsic_len);
   ("keys", intrinsic_keys);
   ("lower", string_unary "lower" to_lowercase);
   ("upper", string_unary "upper" to_uppercase);
   ("trim", string_unary "trim" str_trim);
   ("floor", number_to_int "floor" f_floor);
   ("ceil", number_to_int "ceil" f_ceil);
   ("round", number_to_int "round" f_round);
   ("parse_int", parse_int);
   ("parse_float", parse_float);
   ("split", intrinsic_split);
   ("join", intrinsic_join);
   ("replace", intrinsic_replace);
   ("substring", intrinsic_substring);
   ("starts_with", string_pair "starts_with" (fun s p => String.prefix p s));
   ("ends_with", string_pair "ends_with" str_ends_with);
   ("values", intrinsic_values);
   ("contains", intrinsic_contains);
   ("has", intrinsic_has);
   ("at", intrinsic_at);
   ("sum", intrinsic_sum);
   ("sort", intrinsic_sort);
   ("reverse", intrinsic_reverse);
   ("unique", intrinsic_unique);
   ("flatten", intrinsic_flatten);
   ("slice", intrinsic_slice);
   ("first", intrinsic_first);
   ("last", intrinsic_last);
   ("append", intrinsic_append);
   ("range", intrinsic_range);
   ("merge", intrinsic_merge);
   ("pick", intrinsic_pick true);
   ("omit", intrinsic_pick false);
   ("entries", intrinsic_entries);
   ("from_entries", intrinsic_from_entries);
   ("parse_json", intrinsic_parse_json);
   ("base64_encode", intrinsic_base64_encode);
   ("base64_decode", intrinsic_base64_decode);
   ("hash", intrinsic_hash);
   ("hash_percent", intrinsic_hash_percent);
   ("eq", intrinsic_eq "eq" false);
   ("ne", intrinsic_eq "ne" true);
   ("gt", compare "gt" is_gt);
   ("lt", compare "lt" is_lt);
   ("gte", compare "gte" is_ge);
   ("lte", compare "lte" is_le);
   ("not", intrinsic_not);
   ("and", intrinsic_and);
   ("or", intrinsic_or);
   ("default", intrinsic_default);
   ("format_date", intrinsic_format_date);
   ("parse_date", intrinsic_parse_date);
   ("add_duration", intrinsic_add_duration);
   ("date_diff", intrinsic_date_diff);
   ("regex_match", intrinsic_regex_match);
   ("regex_replace", intrinsic_regex_replace);
   ("regex_extract", intrinsic_regex_extract)].

Definition call_pure (name : string) (args : list Value) : eval_result Value :=
  match bt_get name pure_table with
  | Some f => f args
  | None => Err (UnknownIntrinsic name)
  end.

End intrinsics.

(** ** Sorting

    Facts about [sort_by] for a comparison that is a total preorder on the
    elements at hand. *)

Section sorting.
Context {A : Type} (cmp : A -> A -> comparison).

Lemma insert_sorted_Permutation x l : insert_sorted cmp x l ≡ₚ x :: l.
Proof.
  induction l as [|y l IH]; cbn; [done|]. destruct (cmp x y); try done.
  rewrite IH. by apply Permutation_swap.
Qed.

Lemma sort_loop_Permutation acc l : foldl (fun acc x => insert_sorted cmp x acc) acc l ≡ₚ acc ++ l.
Proof.
  revert acc. induction l as [|x l IH]; intros acc; cbn; [by rewrite app_nil_r|].
  rewrite IH, insert_sorted_Permutation. cbn. by rewrite Permutation_middle.
Qed.

Lemma sort_by_Permutation l : sort_by cmp l ≡ₚ l.
Proof. unfold sort_by. by rewrite <- Permutation_rev, sort_loop_Permutation. Qed.

Context (P : A -> Prop).
Hypothesis cmp_opp : forall a b, P a -> P b -> cmp b a = CompOpp (cmp a b).
Hypothesis cmp_trans : forall a b c, P a -> P b -> P c -> cmp a b <> Gt -> cmp b c <> Gt -> cmp a c <> Gt.

Definition le_cmp (a b : A) : Prop := cmp a b <> Gt.
Definition ge_cmp (a b : A) : Prop := cmp b a <> Gt.

Lemma insert_sorted_sorted x l : P x -> Forall P l -> StronglySorted ge_cmp l ->
  StronglySorted ge_cmp (insert_sorted cmp x l).
Proof.
  intros Hx. induction l as [|y l IH]; intros HP Hs; cbn; [by repeat constructor|].
  inversion HP as [|? ? Hy Hl]; subst. inversion Hs as [|? ? Hs' Hge]; subst.
  assert (Hflip : cmp x y <> Lt -> StronglySorted ge_cmp (x :: y :: l)).
  { intros Hc. assert (Hxy : cmp y x <> Gt) by (rewrite (cmp_opp x y Hx Hy); by destruct (cmp x y)).
    constructor; [done|]. constructor; [done|]. rewrite List.Forall_forall in *.
    intros z Hz. apply (cmp_trans z y x); auto. by apply Hge. }
  destruct (cmp x y) eqn:Hc; try (by apply Hflip).
  constructor; [by apply IH|]. rewrite List.Forall_forall in *. intros z Hz.
  apply (Permutation_in z (insert_sorted_Permutation x l)) in Hz as [<-|Hz]; [unfold ge_cmp; by rewrite Hc|].
  by apply Hge.
Qed.

Lemma StronglySorted_snoc (R : A -> A -> Prop) l x :
  StronglySorted R l -> Forall (fun y => R y x) l -> StronglySorted R (l ++ [x]).
Proof.
  induction 1 as [|y l Hs IH Hy]; intros Hx; cbn; [by repeat constructor|].
  inversion Hx; subst. constructor; [by apply IH|]. apply Forall_app. split; [done|]. by repeat constructor.
Qed.

Lemma StronglySorted_rev (R : A -> A -> Prop) l :
  StronglySorted (fun a b => R b a) l -> StronglySorted R (rev l).
Proof.
  induction 1 as [|x l Hs IH Hx]; cbn; [constructor|]. apply StronglySorted_snoc; [done|].
  apply List.Forall_forall. intros y Hy%in_rev. by eapply List.Forall_forall in Hx.
Qed.

Lemma sort_loop_sorted acc l : Forall P acc -> Forall P l -> StronglySorted ge_cmp acc ->
  StronglySorted ge_cmp (foldl (fun acc x => insert_sorted cmp x acc) acc l).
Proof.
  revert acc. induction l as [|x l IH]; intros acc Ha Hl Hs; cbn; [done|]. inversion Hl; subst.
  apply IH; [|done|by apply insert_sorted_sorted]. rewrite insert_sorted_Permutation. by constructor.
Qed.

Lemma sort_by_sorted l : Forall P l -> StronglySorted le_cmp (sort_by cmp l).
Proof. intros Hl. apply StronglySorted_rev, sort_loop_sorted; [constructor|done|constructor]. Qed.

(** Elements that compare equal keep their order. *)
Definition ties (z y : A) : bool := match cmp z y with Eq => true | _ => false end.

Lemma insert_sorted_ties z x l : P z -> P x -> Forall P l ->
  List.filter (ties z) (insert_sorted cmp x l) = List.filter (ties z) (x :: l).
Proof.
  intros Hz Hx. induction l as [|y l IH]; intros HP; [done|]. inversion HP as [|? ? Hy Hl]; subst.
  cbn [insert_sorted]. destruct (cmp x y) eqn:Hc; try done.
  cbn [List.filter] in *. rewrite IH by done. unfold ties. destruct (cmp z y) eqn:Hzy, (cmp z x) eqn:Hzx; try done.
  exfalso. assert (Hyx : cmp y x = Gt) by by rewrite (cmp_opp x y), Hc.
  apply (cmp_trans y z x Hy Hz Hx); [|by rewrite Hzx|done]. by rewrite (cmp_opp z y), Hzy.
Qed.

Lemma filter_rev (f : A -> bool) l : List.filter f (rev l) = rev (List.filter f l).
Proof. induction l as [|x l IH]; cbn; [done|]. rewrite filter_app, IH. cbn. by destruct (f x); cbn; rewrite ?app_nil_r. Qed.

Lemma sort_loop_ties z acc l : P z -> Forall P acc -> Forall P l ->
  List.filter (ties z) (foldl (fun acc x => insert_sorted cmp x acc) acc l)
  = (rev (List.filter (ties z) l) ++ List.filter (ties z) acc)%list.
Proof.
  intros Hz. revert acc. induction l as [|x l IH]; intros acc Ha Hl; cbn [foldl]; [done|]. inversion Hl; subst.
  rewrite IH; [|by rewrite insert_sorted_Permutation; constructor|done].
  rewrite insert_sorted_ties by done. cbn [List.filter]. destruct (ties z x); cbn; [|done].
  by rewrite <- app_assoc.
Qed.

Lemma sort_by_ties z l : P z -> Forall P l ->
  List.filter (ties z) (sort_by cmp l) = List.filter (ties z) l.
Proof.
  intros Hz Hl. unfold sort_by. rewrite filter_rev, sort_loop_ties by (done || constructor).
  cbn. by rewrite app_nil_r, rev_involutive.
Qed.
End sorting.

(** [slice::sort_by_key] for an integer key. *)
Definition sort_by_key {A} (key : A -> Z) (l : list A) : list A := sort_by (fun a b => Z.compare (key a) (key b)) l.

Section sort_by_key.
Context {A : Type} (key : A -> Z).
Let cmp (a b : A) : comparison := Z.compare (key a) (key b).

Lemma key_cmp_opp (a b : A) : True -> True -> cmp b a = CompOpp (cmp a b).
Proof. intros _ _. apply Z.compare_antisym. Qed.

Lemma key_cmp_trans (a b c : A) : True -> True -> True -> cmp a b <> Gt -> cmp b c <> Gt -> cmp a c <> Gt.
Proof. unfold cmp. intros _ _ _. rewrite !Z.compare_le_iff. lia. Qed.

Lemma sort_by_key_Permutation l : sort_by_key key l ≡ₚ l.
Proof. apply sort_by_Permutation. Qed.

Lemma sort_by_key_sorted l : StronglySorted (fun a b => (key a <= key b)%Z) (sort_by_key key l).
Proof.
  assert (H : StronglySorted (le_cmp cmp) (sort_by_key key l)).
  { apply (sort_by_sorted cmp (fun _ => True) key_cmp_opp key_cmp_trans). by apply List.Forall_forall. }
  induction H as [|x k _ IH Hx]; constructor; [done|].
  eapply List.Forall_impl; [|exact Hx]. intros y. unfold le_cmp, cmp. by rewrite Z.compare_le_iff.
Qed.

(** The elements with one key keep their order. *)
Lemma sort_by_key_stable p l :
  List.filter (fun x => Z.eqb (key x) p) (sort_by_key key l) = List.filter (fun x => Z.eqb (key x) p) l.
Proof.
  destruct (List.find (fun x => Z.eqb (key x) p) l) as [z|] eqn:Hz.
  - apply List.find_some in Hz as [_ Hz%Z.eqb_eq].
    assert (Hties : forall k, List.filter (fun x => Z.eqb (key x) p) k = List.filter (ties cmp z) k).
    { intros k. apply List.filter_ext. intros x. unfold ties, cmp. rewrite Hz.
      destruct (Z.eqb_spec (key x) p) as [->|Hn]; [by rewrite Z.compare_refl|].
      destruct (Z.compare_spec p (key x)); congruence. }
    rewrite !Hties. apply (sort_by_ties cmp (fun _ => True) key_cmp_opp key_cmp_trans z l I). by apply List.Forall_forall.
  - assert (Hnone : forall k, k ≡ₚ l -> List.filter (fun x => Z.eqb (key x) p) k = []).
    { intros k Hk. rewrite <- (List.filter_false k). apply List.filter_ext_in. intros x Hx.
      exact (List.find_none _ _ Hz x (Permutation_in _ Hk Hx)). }
    rewrite !Hnone; [done|done|apply sort_by_key_Permutation].
Qed.
End sort_by_key.

(** ** The comparison of values *)

Definition comparable_number (v : Value) : bool :=
  match as_f64 v with Some f => negb (f_is_nan f) | None => false end.

Lemma cmp_numbers a b : comparable_number a = true -> comparable_number b = true ->
  exists x y, as_f64 a = Some x /\ as_f64 b = Some y /\ f_is_nan x = false /\ f_is_nan y = false /\
    cmp_values a b = lex3 (f_rank x) (f_rank y).
Proof.
  unfold comparable_number, cmp_values. destruct (as_f64 a) as [x|], (as_f64 b) as [y|]; try done.
  intros Hx%negb_true_iff Hy%negb_true_iff. exists x, y. by rewrite f_cmp_rank.
Qed.

Lemma lex3_opp a b : lex3 b a = CompOpp (lex3 a b).
Proof.
  destruct (lex3 a b) eqn:H; cbn.
  - apply lex3_Eq in H as ->. by apply lex3_Eq.
  - by apply lex3_Gt.
  - by apply lex3_Gt in H.
Qed.

Lemma lex3_trans a b c : lex3 a b <> Gt -> lex3 b c <> Gt -> lex3 a c <> Gt.
Proof. rewrite !lex3_Gt, !lex3_Lt. lia. Qed.

Lemma cmp_numbers_opp a b : comparable_number a = true -> comparable_number b = true ->
  cmp_values b a = CompOpp (cmp_values a b).
Proof.
  intros Ha Hb. destruct (cmp_numbers a b Ha Hb) as (x & y & Hx & Hy & _ & _ & ->).
  destruct (cmp_numbers b a Hb Ha) as (y' & x' & Hy' & Hx' & _ & _ & ->).
  simplify_eq. apply lex3_opp.
Qed.

Lemma cmp_numbers_trans a b c : comparable_number a = true -> comparable_number b = true -> comparable_number c = true ->
  cmp_values a b <> Gt -> cmp_values b c <> Gt -> cmp_values a c <> Gt.
Proof.
  intros Ha Hb Hc. destruct (cmp_numbers a b Ha Hb) as (x & y & Hx & Hy & _ & _ & ->).
  destruct (cmp_numbers b c Hb Hc) as (y' & z & Hy' & Hz & _ & _ & ->).
  destruct (cmp_numbers a c Ha Hc) as (x' & z' & Hx' & Hz' & _ & _ & ->).
  simplify_eq. apply lex3_trans.
Qed.

Lemma cmp_strings a b : cmp_values (VString a) (VString b) = String.compare a b.
Proof. done. Qed.

Lemma str_compare_trans a b c : String.compare a b <> Gt -> String.compare b c <> Gt -> String.compare a c <> Gt.
Proof.
  rewrite !str_compare_gt. intros Hab Hbc Hac. apply Hab.
  destruct (String.compare b c) eqn:E; [apply str_compare_eq in E as ->; done| |by apply str_compare_gt in E].
  by eapply str_lt_trans.
Qed.

(** A list [sort] orders: numbers only, or strings only. *)
Definition homogeneous (l : list Value) : bool := forallb comparable_number l || forallb is_string l.

(** The order [sort] promises, said without [cmp_values]: numbers as floats, strings byte by
    byte. *)
Inductive value_le : Value -> Value -> Prop :=
| numbers_le a b x y : as_f64 a = Some x -> as_f64 b = Some y -> SFleb x y = true -> value_le a b
| strings_le s t : s = t \/ String_as_OT.lts s t -> value_le (VString s) (VString t).

(** Numbers with equal floats, and equal strings. *)
Definition same_key (a b : Value) : bool :=
  match as_f64 a, as_f64 b with
  | Some x, Some y => SFeqb x y
  | _, _ => match a, b with VString s, VString t => String.eqb s t | _, _ => false end
  end.

Lemma cmp_numbers_float a b : comparable_number a = true -> comparable_number b = true ->
  exists x y, as_f64 a = Some x /\ as_f64 b = Some y /\ SFcompare x y = Some (cmp_values a b).
Proof.
  intros Ha Hb. destruct (cmp_numbers a b Ha Hb) as (x & y & Hx & Hy & Hnx & Hny & ->).
  exists x, y. split; [done|]. split; [done|]. by apply f_cmp_rank.
Qed.

Lemma StronglySorted_on {A} (P : A -> Prop) (R S : A -> A -> Prop) l :
  (forall a b, P a -> P b -> R a b -> S a b) -> Forall P l -> StronglySorted R l -> StronglySorted S l.
Proof.
  intros HRS HP. induction 1 as [|x l Hs IH Hx]; [constructor|]. inversion HP as [|? ? Hpx Hpl]; subst.
  constructor; [by apply IH|]. rewrite List.Forall_forall in *. eauto.
Qed.

Lemma homogeneous_class l : homogeneous l = true -> exists P : Value -> Prop, Forall P l /\
  (forall a b, P a -> P b -> cmp_values b a = CompOpp (cmp_values a b)) /\
  (forall a b c, P a -> P b -> P c -> cmp_values a b <> Gt -> cmp_values b c <> Gt -> cmp_values a c <> Gt) /\
  (forall a b, P a -> P b -> cmp_values a b <> Gt -> value_le a b) /\
  (forall a b, P a -> P b -> same_key a b = ties cmp_values a b).
Proof.
  intros [H|H]%orb_prop; rewrite forallb_forall in H.
  - exists (fun v => comparable_number v = true). split; [by apply List.Forall_forall|].
    split; [apply cmp_numbers_opp|]. split; [apply cmp_numbers_trans|]. split.
    + intros a b Ha Hb Hle. destruct (cmp_numbers_float a b Ha Hb) as (x & y & Hx & Hy & Hc).
      apply (numbers_le a b x y Hx Hy). unfold SFleb. rewrite Hc. by destruct (cmp_values a b).
    + intros a b Ha Hb. destruct (cmp_numbers_float a b Ha Hb) as (x & y & Hx & Hy & Hc).
      unfold same_key, ties. rewrite Hx, Hy. unfold SFeqb. by rewrite Hc.
  - exists (fun v => is_string v = true). split; [by apply List.Forall_forall|]. split; [|split; [|split]].
    + intros [] []; try done. intros _ _. rewrite !cmp_strings. apply String.compare_antisym.
    + intros [] [] []; try done. intros _ _ _. rewrite !cmp_strings. apply str_compare_trans.
    + intros [| | |s| |] [| | |t| |]; try done. intros _ _. rewrite cmp_strings. intros Hle. apply strings_le.
      destruct (String.compare s t) eqn:E; [left; by apply str_compare_eq|right|done].
      by apply String_as_OT.cmp_lt, str_lt_cmp.
    + intros [| | |s| |] [| | |t| |]; try done. intros _ _. unfold ties. rewrite cmp_strings. cbn.
      destruct (String.eqb_spec s t) as [->|Hn]; [by rewrite str_compare_refl|].
      destruct (String.compare s t) eqn:E; [by apply str_compare_eq in E|done|done].
Qed.

(** ** Properties *)

(** C30: [sort] is a stable sort of lists of numbers and of lists of strings: called on such
    a list it returns a permutation of it, ascending in [value_le], in which the items of one
    key keep their order.  The order does not come from the comparison of the program: the
    numbers are ordered as the floats they convert to, the strings byte by byte. *)
Theorem sort_correct `{Externals} l : homogeneous l = true ->
  exists items, call_pure "sort" [VArray l] = Ok (VArray items) /\
    items ≡ₚ l /\ StronglySorted value_le items /\
    forall z, In z l -> List.filter (same_key z) items = List.filter (same_key z) l.
Proof.
  intros Hl. exists (sort_by cmp_values l). split; [reflexivity|]. split; [apply sort_by_Permutation|].
  destruct (homogeneous_class l Hl) as (P & HP & Hopp & Htrans & Hle & Hties). split.
  - assert (HP' : Forall P (sort_by cmp_values l)) by by rewrite sort_by_Permutation.
    apply (StronglySorted_on P _ _ _ Hle); [done|]. by apply (sort_by_sorted cmp_values P).
  - intros z Hz. assert (Hpz : P z) by by eapply List.Forall_forall in HP.
    assert (Heq : forall k, Forall P k -> List.filter (same_key z) k = List.filter (ties cmp_values z) k).
    { intros k Hk. apply List.filter_ext_in. intros x Hx. apply Hties; [done|]. by eapply List.Forall_forall in Hk. }
    rewrite !Heq; [|done|by rewrite sort_by_Permutation]. by apply (sort_by_ties cmp_values P).
Qed.

Lemma sort_correct_witness :
  exists items, call_pure (EX := externals_stub) "sort" [VArray [VNumber (PosInt 3); VNumber (NegInt (-2)); VNumber (PosInt 0)]] = Ok (VArray items) /\
    items ≡ₚ [VNumber (PosInt 3); VNumber (NegInt (-2)); VNumber (PosInt 0)] /\ StronglySorted value_le items /\
    forall z, In z [VNumber (PosInt 3); VNumber (NegInt (-2)); VNumber (PosInt 0)] ->
      List.filter (same_key z) items = List.filter (same_key z) [VNumber (PosInt 3); VNumber (NegInt (-2)); VNumber (PosInt 0)].
Proof. apply (sort_correct (H := externals_stub)). reflexivity. Defined.

(** On mixed lists [cmp_values] is not an order (it equates a number with every
    string, and is not transitive), and [sort] leaves strings before numbers and out
    of order, against the comment that numbers come first. *)
Theorem sort_mixed_unsorted :
  let one := VNumber (PosInt 1) in
  cmp_values (VString "b") one = Eq /\ cmp_values one (VString "a") = Eq /\
  cmp_values (VString "b") (VString "a") = Gt /\
  sort_by cmp_values [VString "b"; one; VString "a"] = [VString "b"; one; VString "a"].
Proof. repeat split. Qed.

(** The slicing indices are always in bounds: a clamped index never exceeds the
    length, so [chars[start..end]] and [items[start..end]] cannot panic; a
    non-negative index is itself when within the length, and a negative one counts
    from the end. *)
Theorem clamp_index_bounds index len :
  (clamp_index index len <= len)%nat /\
  ((0 <= index <= Z.of_nat len)%Z -> Z.of_nat (clamp_index index len) = index) /\
  ((- Z.of_nat len <= index < 0)%Z -> Z.of_nat (clamp_index index len) = (Z.of_nat len + index)%Z).
Proof. unfold clamp_index. destruct (Z.ltb_spec index 0); repeat split; lia. Qed.

Lemma clamp_index_bounds_witness : Z.of_nat (clamp_index (-2) 5) = 3%Z.
Proof. apply (clamp_index_bounds (-2) 5). lia. Defined.

(** The hash is a non-negative 63-bit integer and the percentage bucket lies in
    0..=99, for every value. *)
Theorem hash_bounds `{Externals} v :
  exists h p, intrinsic_hash [v] = Ok (value_from_i64 h) /\ (0 <= h <= i64_max)%Z /\
    intrinsic_hash_percent [v] = Ok (value_from_i64 p) /\ (0 <= p <= 99)%Z.
Proof.
  set (h := fnv1a_63 (hash_bytes v)). exists h, (Z.rem h 100).
  assert (Hh : (0 <= h <= i64_max)%Z).
  { unfold h, fnv1a_63. change i64_max with (Z.ones 63). rewrite Z.land_ones by lia.
    pose proof (Z.mod_pos_bound (fnv1a_bytes (hash_bytes v) FNV_OFFSET) (2 ^ 63) eq_refl).
    change (Z.ones 63) with (2 ^ 63 - 1)%Z. lia. }
  repeat split; try lia; pose proof (Z.rem_bound_pos h 100); lia.
Qed.

(** [from_entries] rebuilds the object [entries] takes apart. *)
Theorem entries_roundtrip `{Externals} m entries : wf_value (VObject m) ->
  intrinsic_entries [VObject m] = Ok entries -> intrinsic_from_entries [entries] = Ok (VObject m).
Proof.
  intros [Hs _]%wf_object [= <-]. unfold intrinsic_from_entries. cbn [array_at arg nth_error ok_or mbind result_bind as_array].
  rewrite mapM_map_id; [cbn; by rewrite bt_from_list_sorted|].
  apply List.Forall_forall. by intros [k x] _.
Qed.

Lemma entries_roundtrip_witness :
  intrinsic_from_entries (EX := externals_stub) [VArray [entry_value ("a", VNull); entry_value ("b", VBool true)]]
  = Ok (VObject [("a", VNull); ("b", VBool true)]).
Proof. eapply (entries_roundtrip (H := externals_stub)); [|reflexivity]. repeat constructor. Defined.

(** [floor], [ceil] and [round] go through a float, so an integer argument above
    2^53 is not returned unchanged. *)
Theorem floor_loses_precision `{Externals} :
  call_pure "floor" [value_from_i64 9007199254740993] = Ok (value_from_i64 9007199254740992).
Proof. vm_compute. reflexivity. Qed.

(** The one overflowing integer division is reported as an error, as a zero divisor
    is; every other division of [i64]s returns the truncated quotient, in range. *)
Theorem div_total `{Externals} a b : in_i64 a = true -> in_i64 b = true ->
  call_pure "div" [value_from_i64 a; value_from_i64 b] =
    (if (b =? 0)%Z || ((a =? i64_min)%Z && (b =? -1)%Z)
     then Err (IntrinsicError "div" "undefined integer operation")
     else Ok (value_from_i64 (Z.quot a b))) /\
  ((b =? 0)%Z || ((a =? i64_min)%Z && (b =? -1)%Z) = false -> in_i64 (Z.quot a b) = true).
Proof.
  intros Ha Hb. split.
  - change (call_pure "div" [value_from_i64 a; value_from_i64 b]) with
      (match as_i64 (value_from_i64 a), as_i64 (value_from_i64 b) with
       | Some a, Some b => value_from_i64 <$> ok_or (checked_div_i64 a b) (err "div" "undefined integer operation")
       | _, _ => x ← number "div" (value_from_i64 a); y ← number "div" (value_from_i64 b); finite_number "div" (f_div x y)
       end).
    rewrite (proj1 (as_i64_from_i64 a Ha)), (proj1 (as_i64_from_i64 b Hb)). unfold checked_div_i64.
    by destruct (_ || _).
  - by apply checked_div_range.
Qed.

Lemma div_total_witness :
  call_pure (EX := externals_stub) "div" [value_from_i64 i64_min; value_from_i64 (-1)]
    = Err (IntrinsicError "div" "undefined integer operation") /\
  call_pure (EX := externals_stub) "div" [value_from_i64 (-7); value_from_i64 2] = Ok (value_from_i64 (-3)).
Proof.
  split.
  - apply (div_total (H := externals_stub) i64_min (-1)); reflexivity.
  - apply (div_total (H := externals_stub) (-7) 2); reflexivity.
Defined.
