(* ===== verification/Catalog.v ===== *)
(** * The intrinsic catalog ([compute.rs], [functions.rs], [intrinsic_typing.rs])

    The names, modules, arities and declared signatures of the intrinsics, as the
    front end and the type checkers read them, and the argument-dependent result
    types.  Documentation strings of the metadata are left out.  The theorems tie
    this catalog to the dispatch of [Intrinsics.v]. *)

From S2P Require Import Prelude BTree Float64 Values Types Ast Intrinsics.

#[local] Open Scope string_scope.

(** ** Metadata ([runinator-models/src/providers.rs]) *)

Record ParameterMetadata : Type := mk_param {
  param_name : string;
  param_ty : RuninatorType;
  param_required : bool
}.

Record ResultMetadata : Type := mk_result {
  result_name : string;
  result_ty : RuninatorType
}.

Record ActionMetadata : Type := mk_action {
  function_name : string;
  parameters : list ParameterMetadata;
  results : list ResultMetadata;
  pure : bool
}.

Definition req (name : string) (t : RuninatorType) : ParameterMetadata := mk_param name t true.
Definition opt (name : string) (t : RuninatorType) : ParameterMetadata := mk_param name t false.

(** A pure signature with the single result ["result"]. *)
Definition pure_sig (name : string) (params : list ParameterMetadata) (t : RuninatorType) : ActionMetadata :=
  mk_action name params [mk_result "result" t] true.

Definition numeric (name : string) : ActionMetadata := pure_sig name [req "a" TNumber; req "b" TNumber] TNumber.
Definition unary_number_to_int (name : string) : ActionMetadata := pure_sig name [req "a" TNumber] TInteger.
Definition unary_string (name : string) : ActionMetadata := pure_sig name [req "a" TString] TString.
Definition any_predicate (name : string) : ActionMetadata := pure_sig name [req "a" TAny; req "b" TAny] TBoolean.
Definition array_transform (name : string) : ActionMetadata := pure_sig name [req "a" TAny] (TArray TAny).

(** [PureIntrinsics::names]. *)
Definition pure_names : list string :=
  ["add"; "sub"; "mul"; "div"; "mod"; "floor"; "ceil"; "round"; "min"; "max"; "parse_int"; "parse_float";
   "lower"; "upper"; "trim"; "split"; "join"; "replace"; "substring"; "starts_with"; "ends_with";
   "len"; "keys"; "values"; "contains"; "at"; "has"; "sum"; "sort"; "reverse"; "unique"; "flatten";
   "slice"; "first"; "last"; "append"; "range";
   "merge"; "pick"; "omit"; "entries"; "from_entries";
   "parse_json"; "base64_encode"; "base64_decode"; "hash"; "hash_percent";
   "eq"; "ne"; "gt"; "lt"; "gte"; "lte"; "not"; "and"; "or"; "default";
   "format_date"; "parse_date"; "add_duration"; "date_diff";
   "regex_match"; "regex_replace"; "regex_extract"].

Definition one_of (name : string) (names : list string) : bool := existsb (String.eqb name) names.

Definition pure_contains (name : string) : bool := one_of name pure_names.

(** [PureIntrinsics::signatures]: numbers, strings and collections, ... *)
Definition collection_signatures : list ActionMetadata :=
  [numeric "add"; numeric "sub"; numeric "mul"; numeric "div"; numeric "mod";
   pure_sig "len" [req "a" TAny] TInteger;
   pure_sig "keys" [req "a" TAny] (TArray TString);
   unary_string "lower"; unary_string "upper";
   unary_number_to_int "floor"; unary_number_to_int "ceil"; unary_number_to_int "round";
   numeric "min"; numeric "max";
   pure_sig "parse_int" [req "a" TString] TInteger;
   pure_sig "parse_float" [req "a" TString] TNumber;
   unary_string "trim";
   pure_sig "split" [req "a" TString; req "sep" TString] (TArray TString);
   pure_sig "join" [req "a" TAny; req "sep" TString] TString;
   pure_sig "replace" [req "a" TString; req "from" TString; req "to" TString] TString;
   pure_sig "substring" [req "a" TString; req "start" TInteger; opt "end" TInteger] TString;
   any_predicate "starts_with"; any_predicate "ends_with";
   pure_sig "values" [req "a" TAny] (TArray TAny);
   any_predicate "contains"; any_predicate "has";
   pure_sig "at" [req "a" TAny; req "key" TAny] TAny;
   pure_sig "sum" [req "a" TAny] TNumber;
   array_transform "sort"; array_transform "reverse"; array_transform "unique"; array_transform "flatten";
   pure_sig "slice" [req "a" TAny; req "start" TInteger; opt "end" TInteger] (TArray TAny);
   pure_sig "first" [req "a" TAny] TAny;
   pure_sig "last" [req "a" TAny] TAny;
   pure_sig "append" [req "a" TAny; req "item" TAny] (TArray TAny);
   pure_sig "range" [req "start" TInteger; req "end" TInteger] (TArray TInteger)].

(** ... then objects, encoding, logic, dates and regular expressions. *)
Definition object_signatures : list ActionMetadata :=
  [pure_sig "merge" [req "a" TAny; req "b" TAny] TAny;
   pure_sig "pick" [req "a" TAny; req "keys" (TArray TString)] TAny;
   pure_sig "omit" [req "a" TAny; req "keys" (TArray TString)] TAny;
   pure_sig "entries" [req "a" TAny] (TArray TAny);
   pure_sig "from_entries" [req "a" TAny] TAny;
   pure_sig "parse_json" [req "a" TString] TAny;
   unary_string "base64_encode"; unary_string "base64_decode";
   pure_sig "hash" [req "a" TAny] TInteger;
   pure_sig "hash_percent" [req "a" TAny] TInteger;
   any_predicate "eq"; any_predicate "ne"; any_predicate "gt"; any_predicate "lt";
   any_predicate "gte"; any_predicate "lte";
   pure_sig "not" [req "a" TBoolean] TBoolean;
   any_predicate "and"; any_predicate "or";
   pure_sig "default" [req "a" TAny; req "b" TAny] TAny;
   pure_sig "format_date" [req "a" TAny; req "fmt" TString] TString;
   pure_sig "parse_date" [req "a" TString; req "fmt" TString] TString;
   pure_sig "add_duration" [req "a" TString; req "seconds" TInteger] TString;
   pure_sig "date_diff" [req "a" TString; req "b" TString] TInteger;
   pure_sig "regex_match" [req "a" TString; req "pattern" TString] TBoolean;
   pure_sig "regex_replace" [req "a" TString; req "pattern" TString; req "replacement" TString] TString;
   pure_sig "regex_extract" [req "a" TString; req "pattern" TString] (TArray TString)].

Definition pure_signatures : list ActionMetadata := collection_signatures ++ object_signatures.

Definition EFFECTFUL_INTRINSIC_NAMES : list string := ["http_get"; "http_post"; "now"; "uuid"; "env"].

Definition response_type : RuninatorType :=
  TStruct (bt_from_list [("status", field_required TInteger); ("body", field_required TAny)]) None.

Definition effectful_signatures : list ActionMetadata :=
  [mk_action "http_get" [req "url" TString] [mk_result "response" response_type] false;
   mk_action "http_post" [req "url" TString; opt "body" TAny] [mk_result "response" response_type] false;
   mk_action "now" [] [mk_result "result" TString] false;
   mk_action "uuid" [] [mk_result "result" TString] false;
   mk_action "env" [req "name" TString] [mk_result "result" (TUnion [TString; TNull])] false].

Definition intrinsic_signature (name : string) : option ActionMetadata :=
  List.find (fun action => String.eqb (function_name action) name) (pure_signatures ++ effectful_signatures).

Definition HIGHER_ORDER_NAMES : list string :=
  ["map"; "filter"; "find"; "any"; "all"; "reduce"; "sort_by"; "flat_map"].

Definition is_higher_order (name : string) : bool := one_of name HIGHER_ORDER_NAMES.

Definition is_known_intrinsic (name : string) : bool :=
  pure_contains name || one_of name EFFECTFUL_INTRINSIC_NAMES || is_higher_order name.

Definition collection_lambda (name : string) (t : RuninatorType) : ActionMetadata :=
  pure_sig name [req "collection" (TArray TAny); req "f" TAny] t.

Definition higher_order_signatures : list ActionMetadata :=
  [collection_lambda "map" (TArray TAny); collection_lambda "flat_map" (TArray TAny);
   collection_lambda "filter" (TArray TAny); collection_lambda "find" TAny;
   collection_lambda "any" TBoolean; collection_lambda "all" TBoolean;
   collection_lambda "sort_by" (TArray TAny);
   pure_sig "reduce" [req "collection" (TArray TAny); req "initial" TAny; req "f" TAny] TAny].

Definition intrinsic_catalog : list ActionMetadata :=
  pure_signatures ++ effectful_signatures ++ higher_order_signatures.

(** ** Modules and arities *)

Definition STD_MODULES : list string :=
  ["math"; "strings"; "collections"; "objects"; "encoding"; "logic"; "dates"; "regex"; "exec"].

Definition intrinsic_module (leaf : string) : option string :=
  if one_of leaf ["add"; "sub"; "mul"; "div"; "mod"; "floor"; "ceil"; "round"; "min"; "max"; "parse_int"; "parse_float"]
  then Some "math"
  else if one_of leaf ["lower"; "upper"; "trim"; "split"; "join"; "replace"; "substring"; "starts_with"; "ends_with"]
  then Some "strings"
  else if one_of leaf ["len"; "keys"; "values"; "contains"; "at"; "has"; "sum"; "sort"; "reverse"; "unique";
                       "flatten"; "slice"; "first"; "last"; "append"; "range"; "map"; "filter"; "find"; "any";
                       "all"; "reduce"; "sort_by"; "flat_map"]
  then Some "collections"
  else if one_of leaf ["merge"; "pick"; "omit"; "entries"; "from_entries"] then Some "objects"
  else if one_of leaf ["parse_json"; "base64_encode"; "base64_decode"; "hash"; "hash_percent"] then Some "encoding"
  else if one_of leaf ["eq"; "ne"; "gt"; "lt"; "gte"; "lte"; "not"; "and"; "or"; "default"] then Some "logic"
  else if one_of leaf ["format_date"; "parse_date"; "add_duration"; "date_diff"] then Some "dates"
  else if one_of leaf ["regex_match"; "regex_replace"; "regex_extract"] then Some "regex"
  else if one_of leaf ["http_get"; "http_post"; "now"; "uuid"; "env"] then Some "exec"
  else None.

Definition qualified_intrinsic_name (leaf : string) : option string :=
  option_map (fun module => "std." ++ module ++ "." ++ leaf) (intrinsic_module leaf).

(** The error carries the module the leaf lives in, if any.  On success the source
    returns the matched module. *)
Definition resolve_std_path (module leaf : string) : result (option string) string :=
  match intrinsic_module leaf with
  | Some actual => if String.eqb actual module then Ok actual else Err (Some actual)
  | None => Err None
  end.

Definition intrinsic_arity (name : string) : option (nat * nat) :=
  if one_of name ["add"; "sub"; "mul"; "div"; "mod"; "min"; "max"] then Some (2, 2)
  else if one_of name ["len"; "keys"; "lower"; "upper"; "floor"; "ceil"; "round"; "parse_int"; "parse_float"] then Some (1, 1)
  else if one_of name ["trim"; "base64_encode"; "base64_decode"; "parse_json"; "hash"; "hash_percent"] then Some (1, 1)
  else if one_of name ["split"; "join"; "starts_with"; "ends_with"] then Some (2, 2)
  else if one_of name ["replace"] then Some (3, 3)
  else if one_of name ["substring"] then Some (2, 3)
  else if one_of name ["values"; "sum"; "sort"; "reverse"; "unique"; "flatten"; "first"; "last"; "entries"; "from_entries"] then Some (1, 1)
  else if one_of name ["contains"; "has"; "at"; "append"; "range"] then Some (2, 2)
  else if one_of name ["slice"] then Some (2, 3)
  else if one_of name ["merge"; "pick"; "omit"] then Some (2, 2)
  else if one_of name ["eq"; "ne"; "gt"; "lt"; "gte"; "lte"; "and"; "or"; "default"] then Some (2, 2)
  else if one_of name ["not"] then Some (1, 1)
  else if one_of name ["format_date"; "parse_date"; "add_duration"; "date_diff"] then Some (2, 2)
  else if one_of name ["regex_match"; "regex_extract"] then Some (2, 2)
  else if one_of name ["regex_replace"] then Some (3, 3)
  else if one_of name ["map"; "filter"; "find"; "any"; "all"; "sort_by"; "flat_map"] then Some (2, 2)
  else if one_of name ["reduce"] then Some (3, 3)
  else if one_of name ["http_get"; "env"] then Some (1, 1)
  else if one_of name ["http_post"] then Some (1, 2)
  else if one_of name ["now"; "uuid"] then Some (0, 0)
  else None.

(** ** Argument-dependent result types ([intrinsic_typing.rs]) *)

Definition narrow_struct (t : RuninatorType) (keys : list string) (keep : bool) : option RuninatorType :=
  match t with
  | TStruct fields additional =>
      Some (TStruct (List.filter (fun kf => Bool.eqb (one_of kf.1 keys) keep) fields)
                    (if keep then None else additional))
  | _ => None
  end.

Definition merge_result_type (lft rgt : RuninatorType) : option RuninatorType :=
  match lft, rgt with
  | TStruct left_fields left_additional, TStruct right_fields right_additional =>
      Some (TStruct (bt_extend left_fields right_fields)
              (match left_additional, right_additional with None, None => None | _, _ => Some TAny end))
  | _, _ => None
  end.

(** A pair of struct fields, as [RuninatorType::structure] builds them. *)
Definition structure (fields : list (string * RuninatorType)) : RuninatorType :=
  TStruct (bt_from_list (map (fun kt => (kt.1, field_required kt.2)) fields)) None.

Definition intrinsic_result_type (name : string) (args : list RuninatorType)
    (literal_keys : option (list string)) : option RuninatorType :=
  let arg0 := head args in
  let arg1 := nth_error args 1 in
  match name with
  | "first" | "last" => arg0 ≫= element_type
  | "at" =>
      match arg0 with
      | Some (TMap value) => Some value
      | Some (TStruct fields additional) =>
          keys ← literal_keys;
          key ← head keys;
          match bt_get key fields with Some field => Some (ty field) | None => additional end
      | Some other => element_type other
      | None => None
      end
  | "sort" | "reverse" | "unique" | "slice" => TArray <$> (arg0 ≫= element_type)
  | "append" =>
      element ← arg0 ≫= element_type;
      item ← arg1;
      Some (TArray match common_type element item with Some t => t | None => TAny end)
  | "flatten" =>
      outer ← arg0 ≫= element_type;
      Some (TArray match element_type outer with Some t => t | None => outer end)
  | "values" => match arg0 with Some (TMap value) => Some (TArray value) | _ => None end
  | "entries" =>
      match arg0 with
      | Some (TMap value) => Some (TArray (structure [("key", TString); ("value", value)]))
      | _ => None
      end
  | "default" => a ← arg0; b ← arg1; Some (unify a b)
  | "merge" => a ← arg0; b ← arg1; merge_result_type a b
  | "pick" => t ← arg0; keys ← literal_keys; narrow_struct t keys true
  | "omit" => t ← arg0; keys ← literal_keys; narrow_struct t keys false
  | _ => None
  end.

(** [static_string_keys] of the type checker: the keys a literal expression denotes. *)
Definition static_string_keys (expr : WorkflowExpression) : option (list string) :=
  match expr with
  | ELiteral (VString key) => Some [key]
  | ELiteral (VArray items) => mapM as_str items
  | _ => None
  end.

(** ** The catalog and the dispatch agree *)

Section agreement.
Context {EX : Externals}.

Lemma one_of_incl (l k : list string) name : forallb (fun n => one_of n k) l = true ->
  one_of name l = true -> one_of name k = true.
Proof.
  unfold one_of at 2. rewrite existsb_exists, forallb_forall. intros H (n & Hin & ->%String.eqb_eq). by apply H.
Qed.

(** Two tables that hold the same names. *)
Lemma one_of_same (l k : list string) name : forallb (fun n => one_of n k) l = true -> forallb (fun n => one_of n l) k = true ->
  one_of name l = one_of name k.
Proof. intros Hl Hk. apply eq_true_iff_eq. split; by apply one_of_incl. Qed.

Lemma one_of_In name l : one_of name l = true <-> In name l.
Proof.
  unfold one_of. rewrite existsb_exists. split; [intros (x & Hx & ->%String.eqb_eq); done|].
  intros Hn. exists name. by rewrite String.eqb_refl.
Qed.

Lemma dispatch_names name : pure_contains name = bt_contains name pure_table.
Proof.
  rewrite bt_contains_keys. apply eq_true_iff_eq. split; apply one_of_incl; vm_compute; reflexivity.
Qed.

Definition count_required (a : ActionMetadata) : nat := length (List.filter param_required (parameters a)).

Definition catalog_entry_ok (a : ActionMetadata) : bool :=
  match intrinsic_arity (function_name a), intrinsic_module (function_name a) with
  | Some (lo, hi), Some m =>
      (lo =? count_required a)%nat && (hi =? length (parameters a))%nat && one_of m STD_MODULES &&
      Bool.eqb (pure a) (pure_contains (function_name a) || is_higher_order (function_name a))
  | _, _ => false
  end.

Lemma catalog_entries a : In a intrinsic_catalog ->
  intrinsic_arity (function_name a) = Some (count_required a, length (parameters a)) /\
  (exists m, intrinsic_module (function_name a) = Some m /\ In m STD_MODULES) /\
  pure a = pure_contains (function_name a) || is_higher_order (function_name a).
Proof.
  assert (Hok : forallb catalog_entry_ok intrinsic_catalog = true) by (vm_compute; reflexivity).
  intros Ha. rewrite forallb_forall in Hok. apply Hok in Ha. unfold catalog_entry_ok in Ha.
  destruct (intrinsic_arity _) as [[lo hi]|]; [|done]. destruct (intrinsic_module _) as [m|]; [|done].
  rewrite !andb_true_iff, !Nat.eqb_eq, one_of_In, Bool.eqb_true_iff in Ha. destruct Ha as [[[-> ->] Hm] Hp]. eauto.
Qed.

Definition catalog_names : list string := map function_name intrinsic_catalog.

Lemma known_in_catalog name : is_known_intrinsic name = one_of name catalog_names.
Proof.
  transitivity (one_of name (pure_names ++ EFFECTFUL_INTRINSIC_NAMES ++ HIGHER_ORDER_NAMES)).
  - unfold is_known_intrinsic, pure_contains, is_higher_order, one_of. by rewrite !existsb_app, orb_assoc.
  - apply one_of_same; vm_compute; reflexivity.
Qed.

Lemma known_by_name name : is_known_intrinsic name = true <-> exists a, In a intrinsic_catalog /\ function_name a = name.
Proof.
  rewrite known_in_catalog, one_of_In. unfold catalog_names. rewrite in_map_iff. split; intros (a & H1 & H2); eauto.
Qed.

Lemma catalog_unique a b : In a intrinsic_catalog -> In b intrinsic_catalog -> function_name a = function_name b -> a = b.
Proof.
  assert (Hnd : List.NoDup catalog_names).
  { apply NoDup_ListNoDup. apply (bool_decide_unpack (NoDup catalog_names)). vm_compute. exact I. }
  unfold catalog_names in Hnd. induction intrinsic_catalog as [|x l IH]; [done|].
  inversion Hnd as [|? ? Hx Hl]; subst. intros [->|Ha] [->|Hb] He; [done| | |by apply IH]; exfalso; apply Hx.
  - rewrite He. by apply in_map.
  - rewrite <- He. by apply in_map.
Qed.

(** A name the tables of arities or modules know is in the catalog. *)
Lemma arity_known name : intrinsic_arity name <> None -> is_known_intrinsic name = true.
Proof.
  rewrite known_in_catalog. unfold intrinsic_arity.
  repeat (match goal with |- context [one_of name ?l] => destruct (one_of name l) eqn:?H end;
    [intros _; eapply one_of_incl; [|eassumption]; vm_compute; reflexivity|]). done.
Qed.

Lemma module_known name : intrinsic_module name <> None -> is_known_intrinsic name = true.
Proof.
  rewrite known_in_catalog. unfold intrinsic_module.
  repeat (match goal with |- context [one_of name ?l] => destruct (one_of name l) eqn:?H end;
    [intros _; eapply one_of_incl; [|eassumption]; vm_compute; reflexivity|]). done.
Qed.

(** Reading an argument below the bound. *)
Lemma arg_firstn name (args : list Value) n i : (i <? n)%nat = true -> arg name (firstn n args) i = arg name args i.
Proof. intros H. unfold arg. rewrite nth_error_firstn. by rewrite H. Qed.

Lemma nth_firstn (args : list Value) n i : (i <? n)%nat = true -> nth_error (firstn n args) i = nth_error args i.
Proof. intros H. rewrite nth_error_firstn. by rewrite H. Qed.

Definition reads_within (kf : string * (list Value -> eval_result Value)) : Prop :=
  match intrinsic_arity kf.1 with
  | Some (_, hi) => forall args, kf.2 (firstn hi args) = kf.2 args
  | None => False
  end.

Lemma table_reads_within : Forall reads_within pure_table.
Proof.
  unfold pure_table. repeat (apply List.Forall_cons; [|]); [..|apply List.Forall_nil];
  unfold reads_within; cbn [fst snd];
  match goal with |- match ?a with _ => _ end => let v := eval vm_compute in a in change a with v; cbv iota beta end;
  intros args.
  all: unfold numeric_binary, string_unary, number_to_int, intrinsic_len, intrinsic_keys, parse_int, parse_float,
    string_pair, compare, intrinsic_split, intrinsic_join, intrinsic_replace, intrinsic_substring, intrinsic_values,
    intrinsic_contains, intrinsic_has, intrinsic_at, intrinsic_sum, intrinsic_sort, intrinsic_reverse,
    intrinsic_unique, intrinsic_flatten, intrinsic_slice, intrinsic_first, intrinsic_last, intrinsic_append,
    intrinsic_range, intrinsic_merge, intrinsic_pick, intrinsic_entries, intrinsic_from_entries,
    intrinsic_parse_json, intrinsic_base64_encode, intrinsic_base64_decode, intrinsic_hash, intrinsic_hash_percent,
    intrinsic_eq, intrinsic_not, intrinsic_and, intrinsic_or, intrinsic_default, intrinsic_format_date,
    intrinsic_parse_date, intrinsic_add_duration, intrinsic_date_diff, intrinsic_regex_match,
    intrinsic_regex_replace, intrinsic_regex_extract, end_index, string_at, int_at, array_at.
  all: rewrite ?arg_firstn, ?nth_firstn by reflexivity; try reflexivity.
Qed.

(** The intrinsics that can answer without their last argument. *)
Definition lazy_names : list string := ["and"; "or"; "default"].

Definition needs_its_arguments (kf : string * (list Value -> eval_result Value)) : Prop :=
  match intrinsic_arity kf.1 with
  | Some (lo, _) => one_of kf.1 lazy_names = false -> forall args, length args < lo -> is_ok (kf.2 args) = false
  | None => False
  end.

Lemma bind_fails {A B} (m : eval_result A) (f : A -> eval_result B) :
  (forall x, is_ok (f x) = false) -> is_ok (m ≫= f) = false.
Proof. intros Hf. destruct m as [x|e]; [apply Hf|reflexivity]. Qed.

Lemma table_needs_arguments : Forall needs_its_arguments pure_table.
Proof.
  unfold pure_table. repeat (apply List.Forall_cons; [|]); [..|apply List.Forall_nil];
  unfold needs_its_arguments; cbn [fst snd];
  match goal with |- match ?a with _ => _ end => let v := eval vm_compute in a in change a with v; cbv iota beta end;
  intros Hlazy; try discriminate Hlazy; clear Hlazy;
  intros [|a1 [|a2 [|a3 args]]] Hlen; try (cbn in Hlen; lia); clear Hlen.
  all: unfold numeric_binary, string_unary, number_to_int, intrinsic_len, intrinsic_keys, parse_int, parse_float,
    string_pair, compare, intrinsic_split, intrinsic_join, intrinsic_replace, intrinsic_substring, intrinsic_values,
    intrinsic_contains, intrinsic_has, intrinsic_at, intrinsic_sum, intrinsic_sort, intrinsic_reverse,
    intrinsic_unique, intrinsic_flatten, intrinsic_slice, intrinsic_first, intrinsic_last, intrinsic_append,
    intrinsic_range, intrinsic_merge, intrinsic_pick, intrinsic_entries, intrinsic_from_entries,
    intrinsic_parse_json, intrinsic_base64_encode, intrinsic_base64_decode, intrinsic_hash, intrinsic_hash_percent,
    intrinsic_eq, intrinsic_not, intrinsic_and, intrinsic_or, intrinsic_default, intrinsic_format_date,
    intrinsic_parse_date, intrinsic_add_duration, intrinsic_date_diff, intrinsic_regex_match,
    intrinsic_regex_replace, intrinsic_regex_extract, end_index, string_at, int_at, array_at, arg.
  all: cbn; repeat first [reflexivity | apply bind_fails; intros ?].
Qed.

End agreement.

(** ** Declared result types *)

Section result_types.
Context {EX : Externals}.

Definition result_typed (t : RuninatorType) (f : list Value -> eval_result Value) : Prop :=
  forall args r, f args = Ok r -> accepts t r = true.

Lemma accepts_from_i64 z : accepts TInteger (value_from_i64 z) = true.
Proof. unfold value_from_i64, number_from_i64. destruct (0 <=? z)%Z; cbn; [by destruct (z <=? i64_max)%Z|done]. Qed.

Lemma accepts_number_i64 z : accepts TNumber (value_from_i64 z) = true.
Proof. done. Qed.

Lemma accepts_strings l : accepts (TArray TString) (VArray (map VString l)) = true.
Proof. cbn. induction l; cbn; done. Qed.

Lemma accepts_integers {A} (g : A -> Z) l : accepts (TArray TInteger) (VArray (map (fun i => value_from_i64 (g i)) l)) = true.
Proof. cbn -[value_from_i64]. induction l as [|x l IH]; [done|]. cbn [map forallb]. rewrite IH, andb_true_r. apply accepts_from_i64. Qed.

Lemma accepts_any_items l : accepts (TArray TAny) (VArray l) = true.
Proof. cbn. induction l; cbn; done. Qed.

Lemma accepts_any v : accepts TAny v = true.
Proof. by destruct v. Qed.

Lemma finite_number_typed name f r : finite_number name f = Ok r -> accepts TNumber r = true.
Proof.
  unfold finite_number, value_from_f64, number_from_f64. destruct (f_is_finite f); [|done]. by intros [= <-].
Qed.

Lemma numeric_binary_typed name fop iop : result_typed TNumber (numeric_binary name fop iop).
Proof.
  intros args r H. unfold numeric_binary in H. res_inv.
  destruct (as_i64 a), (as_i64 a0); [|by res_inv; eapply finite_number_typed..].
  destruct (iop z z0); [|done]. injection H as <-. apply accepts_number_i64.
Qed.

Lemma sum_loop_typed items i f b r : sum_loop items i f b = Ok r -> accepts TNumber r = true.
Proof.
  revert i f b. induction items as [|item items IH]; intros i f b; cbn.
  - destruct b; [by intros [= <-]|apply finite_number_typed].
  - destruct (if b then as_i64 item else None); [apply IH|]. intros H. res_inv. by eapply IH.
Qed.

Create HintDb typed.
#[local] Hint Resolve accepts_from_i64 accepts_number_i64 accepts_strings accepts_any_items accepts_any
  numeric_binary_typed finite_number_typed sum_loop_typed : typed.

Ltac result_typed :=
  intros args r H;
  repeat (res_inv; match goal with
    | H : (match ?x with _ => _ end) = Ok _ |- _ => destruct x eqn:?; try discriminate H
    | H : _ <$> ?x = Ok _ |- _ => destruct x eqn:?; [injection H as <-|discriminate H]
    end); res_inv; eauto with typed.

Lemma table_result_typed (a : ActionMetadata) : In a pure_signatures -> function_name a <> "reverse" ->
  exists f t, bt_get (function_name a) pure_table = Some f /\ map result_ty (results a) = [t] /\ result_typed t f.
Proof.
  unfold pure_signatures, collection_signatures, object_signatures. cbn [app]. intros Hin Hne. repeat (destruct Hin as [<-|Hin]); try (by destruct Hne); try by destruct Hin.
  all: eexists _, _; split; [reflexivity|split; [reflexivity|]].
  all: try apply numeric_binary_typed.
  all: unfold string_unary, number_to_int, intrinsic_len, intrinsic_keys, parse_int, parse_float,
    string_pair, compare, intrinsic_split, intrinsic_join, intrinsic_replace, intrinsic_substring, intrinsic_values,
    intrinsic_contains, intrinsic_has, intrinsic_sum, intrinsic_sort,
    intrinsic_unique, intrinsic_flatten, intrinsic_slice, intrinsic_append,
    intrinsic_entries, intrinsic_base64_encode, intrinsic_base64_decode, intrinsic_hash, intrinsic_hash_percent,
    intrinsic_eq, intrinsic_not, intrinsic_and, intrinsic_or, intrinsic_format_date,
    intrinsic_parse_date, intrinsic_add_duration, intrinsic_date_diff, intrinsic_regex_match,
    intrinsic_regex_replace, intrinsic_regex_extract.
  all: try (intros args r _; apply accepts_any).
  all: try (result_typed; fail).
  intros args r H. unfold intrinsic_range in H. res_inv. apply accepts_integers.
Qed.
End result_types.

(** ** Soundness of the argument-dependent types *)

Lemma unique_items_In x l : In x (unique_items l) -> In x l.
Proof.
  unfold unique_items. enough (H : forall seen,
    In x (foldl (fun seen item => if values_contain seen item then seen else (seen ++ [item])%list) seen l) ->
    In x seen \/ In x l) by (intros Hx; by destruct (H [] Hx)).
  induction l as [|y l IH]; intros seen; cbn; [by left|]. intros Hx. apply IH in Hx as [Hx|Hx]; [|by right; right].
  destruct (values_contain seen y); [by left|]. apply in_app_or in Hx as [Hx|[->|[]]]; [by left|by right; left].
Qed.

Lemma slice_of_In {A} (x : A) l i j : In x (slice_of l i j) -> In x l.
Proof.
  unfold slice_of. destruct (i <=? j)%nat; [|done]. intros Hx.
  rewrite <- (firstn_skipn i l). apply in_or_app. right.
  rewrite <- (firstn_skipn (j - i) (skipn i l)). apply in_or_app. by left.
Qed.

Lemma array_subset t l k : accepts (TArray t) (VArray l) = true -> (forall x, In x k -> In x l) ->
  accepts (TArray t) (VArray k) = true.
Proof. cbn. rewrite !forallb_forall. intros Hl Hk x Hx. by apply Hl, Hk. Qed.

(** An array value of a type with elements [t]. *)
Lemma element_type_accepts u t l : element_type u = Some t -> accepts u (VArray l) = true ->
  accepts (TArray t) (VArray l) = true.
Proof. destruct u; try done; cbn [element_type]; intros [= <-]; [done|]. intros _. apply accepts_any_items. Qed.

Lemma head_Forall2 {A B} (R : A -> B -> Prop) l k x : Forall2 R l k -> head l = Some x ->
  exists y, nth_error k 0 = Some y /\ R x y.
Proof. intros HF. destruct HF as [|a b l k Hab _]; [done|]. intros [= <-]. by exists b. Qed.

Lemma nth_Forall2 {A B} (R : A -> B -> Prop) l k n x : Forall2 R l k -> nth_error l n = Some x ->
  exists y, nth_error k n = Some y /\ R x y.
Proof.
  intros HF. revert n. induction HF as [|a b l k Hab _ IH]; intros [|n]; cbn; try done; [|apply IH].
  intros [= <-]. by exists b.
Qed.

Section result_type_sound.
Context {EX : Externals}.
Context (tys : list RuninatorType) (args : list Value).
Hypothesis Hargs : Forall2 (fun t v => accepts t v = true) tys args.

Lemma array_at_accepts name t l : head tys = Some t -> array_at name args 0 = Ok l -> accepts t (VArray l) = true.
Proof.
  intros Ht Hl. destruct (head_Forall2 _ _ _ _ Hargs Ht) as (v & Hv & Hok).
  unfold array_at, arg in Hl. rewrite Hv in Hl. cbn in Hl. destruct v; try discriminate Hl. by injection Hl as <-.
Qed.

Lemma arg0_accepts name t v : head tys = Some t -> arg name args 0 = Ok v -> accepts t v = true.
Proof.
  intros Ht Hl. destruct (head_Forall2 _ _ _ _ Hargs Ht) as (w & Hw & Hok).
  unfold arg in Hl. rewrite Hw in Hl. by injection Hl as <-.
Qed.

Lemma arg1_accepts name t v : nth_error tys 1 = Some t -> arg name args 1 = Ok v -> accepts t v = true.
Proof.
  intros Ht Hl. destruct (nth_Forall2 _ _ _ _ _ Hargs Ht) as (w & Hw & Hok).
  unfold arg in Hl. rewrite Hw in Hl. by injection Hl as <-.
Qed.

(** The transforms whose result items all come from the first argument. *)
Lemma transform_sound (f : list Value -> list Value) name t l :
  (forall l x, In x (f l) -> In x l) ->
  TArray <$> (head tys ≫= element_type) = Some t -> array_at name args 0 = Ok l ->
  accepts t (VArray (f l)) = true.
Proof.
  intros Hf Ht Hl. destruct (head tys) as [u|] eqn:Hu; [|done]. cbn in Ht.
  destruct (element_type u) as [e|] eqn:He; [|done]. injection Ht as <-.
  apply (array_subset e l); [|apply Hf]. eapply element_type_accepts; [done|]. by eapply array_at_accepts.
Qed.

Lemma append_sound keys t r : intrinsic_result_type "append" tys keys = Some t ->
  intrinsic_append args = Ok r -> accepts t r = true.
Proof.
  cbn -[nth_error]. intros Ht Hr. destruct (head tys) as [u|] eqn:Hu; [|done]. cbn -[nth_error] in Ht.
  destruct (element_type u) as [e|] eqn:He; [|done]. cbn -[nth_error] in Ht.
  destruct (nth_error tys 1) as [i|] eqn:Hi; [|done]. injection Ht as <-.
  unfold intrinsic_append in Hr.
  apply bind_ok in Hr as (l & Hl & Hr). apply bind_ok in Hr as (x & Hx & [= <-]).
  pose proof (element_type_accepts _ _ _ He (array_at_accepts _ _ _ Hu Hl)) as Hitems.
  pose proof (arg1_accepts _ _ _ Hi Hx) as Hitem.
  cbn in Hitems |- *. rewrite forallb_app. cbn. rewrite andb_true_r.
  destruct (common_type e i) as [c|] eqn:Hc; [|by rewrite accepts_any, andb_true_r; apply forallb_forall].
  rewrite (common_type_upper e i c x Hc) by by right. rewrite andb_true_r. apply forallb_forall.
  intros y Hy. apply (common_type_upper e i c y Hc). left. by eapply forallb_forall in Hitems.
Qed.

Lemma values_sound keys t r : intrinsic_result_type "values" tys keys = Some t ->
  intrinsic_values args = Ok r -> accepts t r = true.
Proof.
  cbn -[nth_error]. intros Ht Hr. destruct (head tys) as [u|] eqn:Hu; [|done]. destruct u; try done. injection Ht as <-.
  unfold intrinsic_values in Hr.
  apply bind_ok in Hr as (v & Hv & Hr). apply bind_ok in Hr as (m & Hm & [= <-]).
  pose proof (arg0_accepts _ _ _ Hu Hv) as Hok. destruct v; try done. injection Hm as <-.
  cbn in Hok |- *. unfold bt_values. clear Hv. induction fields as [|[k x] m IH]; cbn in *; [done|].
  apply andb_prop in Hok as [-> Hok]. by apply IH.
Qed.

Lemma entry_typed t kv : accepts t kv.2 = true ->
  accepts (structure [("key", TString); ("value", t)]) (entry_value kv) = true.
Proof.
  destruct kv as [k x]. cbn [snd]. intros H. transitivity (accepts t x && true && true); [reflexivity|by rewrite H].
Qed.

Lemma entries_sound keys t r : intrinsic_result_type "entries" tys keys = Some t ->
  intrinsic_entries args = Ok r -> accepts t r = true.
Proof.
  cbn -[nth_error]. intros Ht Hr. destruct (head tys) as [u|] eqn:Hu; [|done]. destruct u; try done. injection Ht as <-.
  unfold intrinsic_entries in Hr.
  apply bind_ok in Hr as (v & Hv & Hr). apply bind_ok in Hr as (m & Hm & [= <-]).
  pose proof (arg0_accepts _ _ _ Hu Hv) as Hok. destruct v; try done. injection Hm as <-.
  cbn [accepts] in Hok. clear Hv.
  change (forallb (accepts (structure [("key", TString); ("value", u)])) (map entry_value fields) = true).
  rewrite forallb_forall in *. intros e (kv & <- & Hin)%in_map_iff. by apply entry_typed, Hok.
Qed.

Lemma default_sound keys t r : intrinsic_result_type "default" tys keys = Some t ->
  intrinsic_default args = Ok r -> accepts t r = true.
Proof.
  cbn -[nth_error]. intros Ht Hr. destruct (head tys) as [u|] eqn:Hu; [|done]. cbn -[nth_error] in Ht.
  destruct (nth_error tys 1) as [i|] eqn:Hi; [|done]. injection Ht as <-.
  unfold intrinsic_default in Hr. apply bind_ok in Hr as (x & Hx & Hr).
  apply unify_upper. destruct (is_null x).
  - right. by eapply arg1_accepts.
  - left. injection Hr as <-. by eapply arg0_accepts.
Qed.

(** What the type checker knows of the second argument: nothing, or its literal keys. *)
Definition keys_of_literal (keys : option (list string)) (args : list Value) : Prop :=
  keys = None \/ exists v, nth_error args 1 = Some v /\ keys = static_string_keys (ELiteral v).

(** The element an accessor names, by the position of an array or the key of an
    object: positions below zero count from the end and stop at the first. *)
Definition element_of (name : string) (args : list Value) : option Value :=
  match args with
  | VArray items :: rest =>
      if String.eqb name "first" then items !! 0
      else if String.eqb name "last" then items !! (length items - 1)
      else index ← head rest ≫= as_i64;
           items !! Z.to_nat (if (index <? 0)%Z then Z.max 0 (Z.of_nat (length items) + index) else index)
  | VObject m :: VString key :: _ => bt_get key m
  | _ => None
  end.

Lemma nth_error_lookup {A} (l : list A) n : nth_error l n = l !! n.
Proof. revert n. induction l as [|x l IH]; intros [|n]; [done..|apply IH]. Qed.

Lemma clamp_lookup {A} (l : list A) i :
  nth_error l (clamp_index i (length l)) = l !! Z.to_nat (if (i <? 0)%Z then Z.max 0 (Z.of_nat (length l) + i) else i).
Proof.
  rewrite nth_error_lookup. unfold clamp_index. destruct (i <? 0)%Z; [by rewrite Z.max_comm|].
  destruct (Nat.min_spec (Z.to_nat i) (length l)) as [[_ ->]|[Hle ->]]; [done|].
  by rewrite !lookup_ge_None_2.
Qed.

Lemma accepted_item t l n x : accepts (TArray t) (VArray l) = true -> l !! n = Some x -> accepts t x = true.
Proof. cbn. rewrite forallb_forall. intros Hl Hx. apply Hl. by eapply list_elem_of_In, list_elem_of_lookup_2. Qed.

Lemma array_at_shape name xs l : array_at name xs 0 = Ok l -> exists rest, xs = VArray l :: rest.
Proof.
  unfold array_at, arg. destruct xs as [|x rest]; [done|]. cbn. destruct x; try done. intros [= ->]. by exists rest.
Qed.

Lemma head_rev {A} (l : list A) : head (rev l) = l !! (length l - 1).
Proof.
  destruct l as [|x l] using rev_ind; [done|]. rewrite rev_app_distr, length_app. cbn.
  by rewrite Nat.add_sub, lookup_app_r, Nat.sub_diag by done.
Qed.

(** [first], [last] and [at] of an array. *)
Lemma array_element_sound name t l n x : head tys ≫= element_type = Some t -> array_at name args 0 = Ok l ->
  l !! n = Some x -> accepts t x = true.
Proof.
  intros Ht Hl Hx. destruct (head tys) as [u|] eqn:Hu; [|done]. cbn in Ht.
  eapply accepted_item; [|exact Hx]. eapply element_type_accepts; [exact Ht|]. by eapply array_at_accepts.
Qed.

Lemma at_type keys t : intrinsic_result_type "at" tys keys = Some t -> keys_of_literal keys args ->
  match args with
  | VArray _ :: _ => head tys ≫= element_type = Some t
  | VObject m :: VString key :: _ => forall x, bt_get key m = Some x -> accepts t x = true
  | _ => True
  end.
Proof.
  intros Ht Hkeys. destruct Hargs as [|u v us vs Hv Hvs]; [done|]. cbn in Ht.
  destruct v as [| | | |l|m]; try done.
  { destruct u; try exact Ht; discriminate Hv. }
  destruct vs as [|[| | |key| |] vs]; try done. intros x Hget. pose proof (bt_get_In _ _ _ Hget) as Hx.
  destruct u; try discriminate Ht; try discriminate Hv; try (injection Ht as <-; apply accepts_any).
  - injection Ht as <-. cbn in Hv. rewrite forallb_forall in Hv. exact (Hv _ Hx).
  - destruct Hkeys as [->|(w & [= <-] & ->)]; [discriminate Ht|]. cbn in Ht. cbn in Hv.
    apply andb_prop in Hv as [Hfields Hrest]. rewrite forallb_forall in Hfields, Hrest.
    destruct (bt_get key fields) as [f|] eqn:Hf.
    + injection Ht as <-. specialize (Hfields _ (bt_get_In _ _ _ Hf)). cbn in Hfields. by rewrite Hget in Hfields.
    + specialize (Hrest _ Hx). cbn in Hrest. unfold bt_contains in Hrest. by rewrite Hf, Ht in Hrest.
Qed.

(** A list the second argument holds exactly the literal keys. *)
Lemma literal_wanted keys name ks l : keys_of_literal keys args -> keys = Some ks -> array_at name args 1 = Ok l ->
  omap as_str l = ks.
Proof.
  intros [->|(v & Hv & ->)] Hks Hl; [done|]. unfold array_at, arg in Hl. rewrite Hv in Hl. cbn in Hl.
  destruct v; try discriminate Hl. cbn in Hl. injection Hl as ->. cbn in Hks. clear Hv. revert ks Hks.
  induction l as [|x l IH]; cbn; [by intros ? [= <-]|]. intros ks Hks.
  destruct (as_str x) as [k|]; [|done]. cbn in Hks.
  destruct (mapM as_str l) as [rest|]; [|done]. injection Hks as <-. cbn. by rewrite (IH rest).
Qed.

Lemma narrow_sound fields additional m ks keep : sorted m -> (keep = true -> additional = None) ->
  accepts (TStruct fields additional) (VObject m) = true ->
  let has k := Bool.eqb (one_of k ks) keep in
  accepts (TStruct (List.filter (fun kf => has kf.1) fields) (if keep then None else additional))
    (VObject (bt_from_list (List.filter (fun kv => has kv.1) m))) = true.
Proof.
  intros Hm Hclosed Hok has. rewrite bt_from_list_sorted by by apply sorted_filter.
  cbn in Hok |- *. apply andb_prop in Hok as [Hfields Hrest]. rewrite forallb_forall in Hfields, Hrest.
  apply andb_true_intro. split; apply forallb_forall.
  - intros kf [Hin Hhas]%filter_In. rewrite bt_get_filter, Hhas. by apply Hfields.
  - intros kv [Hin Hhas]%filter_In. unfold bt_contains. rewrite bt_get_filter, Hhas.
    specialize (Hrest _ Hin). destruct keep; [|done]. by rewrite (Hclosed eq_refl) in Hrest.
Qed.

Definition is_closed (additional : option RuninatorType) : bool :=
  match additional with None => true | Some _ => false end.

(** Merging is exact when no left value can show through where the right type speaks:
    an optional right field is absent from a closed left side, and an open right side
    names every left field. *)
Definition merge_exact (lf : btree RuninatorField) (la : option RuninatorType)
    (rf : btree RuninatorField) (ra : option RuninatorType) : Prop :=
  sorted lf /\ sorted rf /\
  (forall k f, bt_get k rf = Some f -> required f = false -> bt_get k lf = None /\ la = None) /\
  (ra = None \/ forall k f, bt_get k lf = Some f -> bt_contains k rf = true).

Lemma struct_get fields additional m k : accepts (TStruct fields additional) (VObject m) = true ->
  match bt_get k fields, bt_get k m with
  | Some f, Some x => accepts (ty f) x = true
  | Some f, None => required f = false
  | None, Some x => exists t, additional = Some t /\ accepts t x = true
  | None, None => True
  end.
Proof.
  cbn. intros [Hfields Hrest]%andb_prop. rewrite forallb_forall in Hfields, Hrest.
  destruct (bt_get k fields) as [f|] eqn:Hf.
  - specialize (Hfields _ (bt_get_In _ _ _ Hf)). cbn in Hfields.
    destruct (bt_get k m) as [x|]; [done|]. by apply negb_true_iff.
  - destruct (bt_get k m) as [x|] eqn:Hx; [|done].
    specialize (Hrest _ (bt_get_In _ _ _ Hx)). cbn in Hrest. unfold bt_contains in Hrest. rewrite Hf in Hrest.
    destruct additional as [t|]; [|done]. by exists t.
Qed.

(** On sorted maps that is all [accepts] asks. *)
Lemma struct_accepts fields additional m : sorted fields -> sorted m ->
  (forall k, match bt_get k fields, bt_get k m with
             | Some f, Some x => accepts (ty f) x = true
             | Some f, None => required f = false
             | None, Some x => exists t, additional = Some t /\ accepts t x = true
             | None, None => True
             end) ->
  accepts (TStruct fields additional) (VObject m) = true.
Proof.
  intros Hfs Hms H. cbn. apply andb_true_intro. split; apply forallb_forall.
  - intros [k f] Hin%sorted_In_get; [|done]. cbn. specialize (H k). rewrite Hin in H.
    destruct (bt_get k m); [done|]. by rewrite H.
  - intros [k x] Hin%sorted_In_get; [|done]. cbn. specialize (H k). rewrite Hin in H. unfold bt_contains.
    destruct (bt_get k fields); [done|]. destruct H as (t & -> & Ht). done.
Qed.

Lemma merge_sound lf la rf ra ml mr t : merge_exact lf la rf ra -> sorted ml -> sorted mr ->
  accepts (TStruct lf la) (VObject ml) = true -> accepts (TStruct rf ra) (VObject mr) = true ->
  merge_result_type (TStruct lf la) (TStruct rf ra) = Some t -> accepts t (VObject (bt_extend ml mr)) = true.
Proof.
  intros (Hlf & Hrf & Hopt & Hopen) Hml Hmr Hl Hr [= <-].
  apply struct_accepts; [by apply sorted_extend..|]. intros k. rewrite !bt_get_from_sorted by done.
  pose proof (struct_get _ _ _ k Hl) as Hlk. pose proof (struct_get _ _ _ k Hr) as Hrk.
  destruct (bt_get k rf) as [f|] eqn:Hf.
  - destruct (bt_get k mr) as [x|]; [done|]. destruct (Hopt k f Hf Hrk) as [Hnl ->]. rewrite Hnl in Hlk.
    destruct (bt_get k ml); [|done]. by destruct Hlk as (? & ? & _).
  - destruct (bt_get k mr) as [x|].
    + destruct Hrk as (u & -> & _). destruct Hopen as [?|Hopen]; [done|].
      destruct (bt_get k lf) as [g|] eqn:Hg.
      * specialize (Hopen _ _ Hg). unfold bt_contains in Hopen. by rewrite Hf in Hopen.
      * exists TAny. split; [by destruct la|apply accepts_any].
    + destruct (bt_get k lf) as [g|]; [by destruct (bt_get k ml)|].
      destruct (bt_get k ml); [|done]. destruct Hlk as (u & -> & _).
      exists TAny. split; [done|apply accepts_any].
Qed.

(** Types without arrays among their values. *)
Fixpoint no_arrays (t : RuninatorType) : bool :=
  match t with
  | TAny | TArray _ => false
  | TEnum values => forallb (fun v => negb (is_array v)) values
  | TRange base _ _ => no_arrays base
  | TUnion variants => forallb no_arrays variants
  | _ => true
  end.

Lemma no_arrays_spec t l : no_arrays t = true -> accepts t (VArray l) = false.
Proof.
  induction t as [| | | | | | |k|u mn mx IH|u IH|u IH|g p|vs IH|ps u] using RuninatorType_ind'; cbn; try done.
  - rewrite forallb_forall. intros Hk. apply not_true_iff_false. rewrite values_contain_In.
    intros (x & Hx & He). specialize (Hk x Hx). by destruct x.
  - intros H. by rewrite IH.
  - rewrite forallb_forall. intros Hvs. apply not_true_iff_false. rewrite existsb_exists.
    intros (u & Hin & Hu). rewrite List.Forall_forall in IH. rewrite IH in Hu; [done..|by apply Hvs].
Qed.

Lemma flatten_sound u l t : accepts (TArray u) (VArray l) = true -> (element_type u = None -> no_arrays u = true) ->
  (match element_type u with Some e => e | None => u end) = t ->
  accepts (TArray t) (VArray (flatten_items l)) = true.
Proof.
  cbn. rewrite !forallb_forall. intros Hl Hu Ht x Hx.
  unfold flatten_items in Hx. apply in_concat in Hx as (k & (y & <- & Hy)%in_map_iff & Hx).
  specialize (Hl y Hy). destruct (element_type u) as [e|] eqn:He.
  - subst t. destruct u; try discriminate He; injection He as <-; [|apply accepts_any].
    destruct y; try done. cbn in Hl. rewrite forallb_forall in Hl. by apply Hl.
  - subst t. destruct y; cbn in Hx; try (by destruct Hx as [<-|[]]).
    by rewrite no_arrays_spec in Hl; [|apply Hu].
Qed.

Lemma existsb_flip name ks : one_of name ks = existsb (fun k => String.eqb k name) ks.
Proof. unfold one_of. induction ks as [|k ks IH]; [done|]. cbn. by rewrite IH, String.eqb_sym. Qed.

Lemma narrow_intrinsic_sound keep keys t r :
  (keep = true -> forall fields additional, head tys = Some (TStruct fields additional) -> additional = None) ->
  Forall wf_value args -> keys_of_literal keys args ->
  (u ← head tys; ks ← keys; narrow_struct u ks keep) = Some t ->
  intrinsic_pick keep args = Ok r -> accepts t r = true.
Proof.
  intros Hexact Hwf Hkeys Ht Hr. destruct (head tys) as [u|] eqn:Hu; [|done]. cbn in Ht.
  destruct keys as [ks|] eqn:Hks; [|done]. cbn in Ht. destruct u; try discriminate Ht. injection Ht as <-.
  unfold intrinsic_pick in Hr. apply bind_ok in Hr as (v & Hv & Hr). apply bind_ok in Hr as (m & Hm & Hr).
  apply bind_ok in Hr as (l & Hl & [= <-]).
  pose proof (arg0_accepts _ _ _ Hu Hv) as Hok. destruct v; try discriminate Hm. injection Hm as ->.
  rewrite (literal_wanted _ _ _ _ Hkeys eq_refl Hl).
  assert (Hsorted : sorted m).
  { unfold arg in Hv. destruct args as [|w ws]; [done|]. injection Hv as ->.
    inversion Hwf as [|? ? Hw _]; subst. by apply wf_object in Hw as [Hw _]. }
  replace (List.filter _ m) with (List.filter (fun kv => Bool.eqb (one_of kv.1 ks) keep) m).
  - apply narrow_sound; [done| |done]. intros ->. by eapply Hexact.
  - apply List.filter_ext. intros kv. f_equal. apply existsb_flip.
Qed.

End result_type_sound.

(** ** Properties *)

(** C29: The tables of the intrinsics agree, name by name.  The advertised pure names are those
    that are dispatched; the known names are those of the catalog, each with one entry, and
    the only ones with an arity or a module; the arity is the number of required and of all
    parameters of the entry, the module is a standard one, and the entry is marked pure
    exactly for pure and higher-order intrinsics.  The arity is what the dispatched functions
    live by: further arguments change nothing, and with fewer, except for [and], [or] and
    [default], they fail. *)
Theorem catalog_agrees `{Externals} name :
  (pure_contains name = true <-> exists f, bt_get name pure_table = Some f) /\
  (is_known_intrinsic name = true <-> exists a, In a intrinsic_catalog /\ function_name a = name) /\
  (is_known_intrinsic name = true <-> intrinsic_arity name <> None) /\
  (is_known_intrinsic name = true <-> intrinsic_module name <> None) /\
  (forall a, In a intrinsic_catalog -> function_name a = name ->
     (forall b, In b intrinsic_catalog -> function_name b = name -> b = a) /\
     intrinsic_arity name = Some (count_required a, length (parameters a)) /\
     (exists m, intrinsic_module name = Some m /\ In m STD_MODULES) /\
     pure a = pure_contains name || is_higher_order name) /\
  (pure_contains name = true -> forall lo hi args, intrinsic_arity name = Some (lo, hi) ->
     call_pure name (firstn hi args) = call_pure name args /\
     (length args < lo -> ~ In name lazy_names -> is_ok (call_pure name args) = false)).
Proof.
  assert (Hentry : is_known_intrinsic name = true -> intrinsic_arity name <> None /\ intrinsic_module name <> None).
  { intros (a & Ha & <-)%known_by_name. destruct (catalog_entries a Ha) as (-> & (m & -> & _) & _). done. }
  split; [rewrite dispatch_names; apply bt_contains_get|]. split; [apply known_by_name|].
  split; [split; [apply Hentry|apply arity_known]|]. split; [split; [apply Hentry|apply module_known]|]. split.
  - intros a Ha <-. split; [|by apply catalog_entries]. intros b Hb He. by apply catalog_unique.
  - rewrite dispatch_names. intros (f & Hf)%bt_contains_get lo hi args Har. unfold call_pure. rewrite Hf.
    pose proof (bt_get_In _ _ _ Hf) as Hin. split.
    + pose proof (proj1 (List.Forall_forall _ _) table_reads_within _ Hin) as Hr.
      unfold reads_within in Hr. cbn [fst snd] in Hr. rewrite Har in Hr. apply Hr.
    + intros Hlen Hlazy. pose proof (proj1 (List.Forall_forall _ _) table_needs_arguments _ Hin) as Hr.
      unfold needs_its_arguments in Hr. cbn [fst snd] in Hr. rewrite Har in Hr. apply Hr; [|done].
      apply not_true_iff_false. by rewrite one_of_In.
Qed.

(** A pure intrinsic reads no argument beyond its arity: extra arguments change
    nothing. *)
Theorem call_pure_ignores_extra `{Externals} name lo hi args :
  pure_contains name = true -> intrinsic_arity name = Some (lo, hi) ->
  call_pure name (firstn hi args) = call_pure name args.
Proof.
  rewrite dispatch_names. intros (f & Hf)%bt_contains_get Ha. unfold call_pure. rewrite Hf.
  pose proof (proj1 (List.Forall_forall _ _) table_reads_within _ (bt_get_In _ _ _ Hf)) as Hr.
  unfold reads_within in Hr. cbn [fst snd] in Hr. rewrite Ha in Hr. apply Hr.
Qed.

Lemma call_pure_ignores_extra_witness :
  call_pure (EX := externals_stub) "first" [VArray [VBool true]]
  = call_pure (EX := externals_stub) "first" [VArray [VBool true]; VNull].
Proof. apply (call_pure_ignores_extra (H := externals_stub) "first" 1 1 [VArray [VBool true]; VNull]); reflexivity. Defined.

(** C26: The declared result types are right: whenever a pure intrinsic other than
    [reverse] returns a value, the value belongs to the result type of its
    signature, whatever the arguments. *)
Theorem call_pure_result_typed `{Externals} a args r :
  In a pure_signatures -> function_name a <> "reverse" -> call_pure (function_name a) args = Ok r ->
  exists t, map result_ty (results a) = [t] /\ accepts t r = true.
Proof.
  intros Ha Hne Hr. destruct (table_result_typed a Ha Hne) as (f & t & Hf & Ht & Htyped).
  exists t. split; [done|]. apply (Htyped args). unfold call_pure in Hr. by rewrite Hf in Hr.
Qed.

Lemma call_pure_result_typed_witness :
  exists t, map result_ty (results (pure_sig "len" [req "a" TAny] TInteger)) = [t] /\
            accepts t (value_from_i64 2) = true.
Proof.
  apply (call_pure_result_typed (H := externals_stub) (pure_sig "len" [req "a" TAny] TInteger) [VArray [VNull; VNull]]).
  - right. right. right. right. right. left. reflexivity.
  - discriminate.
  - reflexivity.
Defined.

(** [reverse] is the exception: its signature promises an array, and on a string it
    returns a string. *)
Theorem reverse_breaks_signature `{Externals} s :
  exists r, call_pure "reverse" [VString s] = Ok r /\
    accepts TAny (VString s) = true /\ In (array_transform "reverse") pure_signatures /\
    map result_ty (results (array_transform "reverse")) = [TArray TAny] /\ accepts (TArray TAny) r = false.
Proof.
  exists (VString (str_concat (rev (str_chars s)))). repeat split. unfold pure_signatures, collection_signatures. cbn [app].
  repeat (first [left; reflexivity | right]).
Qed.

(** The argument-polymorphic intrinsics whose refined types are sound. *)
Definition refined_names : list string := ["sort"; "unique"; "slice"; "append"; "values"; "entries"; "default"].

(** C27: For the transforms and readers of [refined_names] the
    argument-dependent result type is sound: when the arguments belong to the
    inferred types, the returned value belongs to the refined type. *)
Theorem intrinsic_result_type_sound `{Externals} name tys keys args t r :
  In name refined_names -> Forall2 (fun t v => accepts t v = true) tys args ->
  intrinsic_result_type name tys keys = Some t -> call_pure name args = Ok r -> accepts t r = true.
Proof.
  intros Hname Hargs Ht Hr.
  destruct Hname as [<-|[<-|[<-|[<-|[<-|[<-|[<-|[]]]]]]]].
  - change (intrinsic_sort args = Ok r) in Hr. apply bind_ok in Hr as (l & Hl & [= <-]).
    apply (transform_sound tys args Hargs (sort_by cmp_values) "sort" t l); [|done|done].
    intros k x Hx. by apply (Permutation_in x (sort_by_Permutation cmp_values k)).
  - change (intrinsic_unique args = Ok r) in Hr. apply bind_ok in Hr as (l & Hl & [= <-]).
    apply (transform_sound tys args Hargs unique_items "unique" t l); [|done|done].
    intros k x. apply unique_items_In.
  - change (intrinsic_slice args = Ok r) in Hr.
    apply bind_ok in Hr as (l & Hl & Hr). apply bind_ok in Hr as (i & _ & Hr). apply bind_ok in Hr as (j & _ & [= <-]).
    apply (transform_sound tys args Hargs (fun k => slice_of k (clamp_index i (length l)) j) "slice" t l); [|done|done].
    intros k x. apply slice_of_In.
  - by apply (append_sound tys args Hargs keys).
  - by apply (values_sound tys args Hargs keys).
  - by apply (entries_sound tys args Hargs keys).
  - by apply (default_sound tys args Hargs keys).
Qed.

Lemma intrinsic_result_type_sound_witness :
  accepts (TArray TNumber) (VArray [value_from_i64 1; VNumber (Float f_one)]) = true.
Proof.
  apply (intrinsic_result_type_sound (H := externals_stub) "append" [TArray TInteger; TNumber] None
    [VArray [value_from_i64 1]; VNumber (Float f_one)]).
  - right. right. right. left. reflexivity.
  - repeat constructor.
  - reflexivity.
  - reflexivity.
Defined.

(** C28: The refined types of the element accessors [first], [last] and [at] describe
    exactly the elements that exist.  When the arguments belong to the inferred types
    and the literal keys, if any, are those of the second argument, a call that returns
    answers with the element the arguments name, which belongs to the refined type,
    and with null when there is none. *)
Theorem element_access_typed `{Externals} name tys keys args t r :
  In name ["first"; "last"; "at"] -> Forall2 (fun t v => accepts t v = true) tys args ->
  keys_of_literal keys args -> intrinsic_result_type name tys keys = Some t -> call_pure name args = Ok r ->
  r = or_null (element_of name args) /\ forall x, element_of name args = Some x -> accepts t x = true.
Proof.
  intros Hname Hargs Hkeys Ht Hr. destruct Hname as [<-|[<-|[<-|[]]]].
  - change (intrinsic_first args = Ok r) in Hr. apply bind_ok in Hr as (l & Hl & [= <-]).
    pose proof (fun n x => array_element_sound tys args Hargs "first" t l n x Ht Hl) as Hitem.
    destruct (array_at_shape _ _ _ Hl) as [rest ->]. split; [by destruct l|]. apply Hitem.
  - change (intrinsic_last args = Ok r) in Hr. apply bind_ok in Hr as (l & Hl & [= <-]).
    pose proof (fun n x => array_element_sound tys args Hargs "last" t l n x Ht Hl) as Hitem.
    destruct (array_at_shape _ _ _ Hl) as [rest ->]. split; [by rewrite head_rev|]. apply Hitem.
  - change (intrinsic_at args = Ok r) in Hr.
    pose proof (at_type tys args Hargs keys t Ht Hkeys) as Hat.
    destruct args as [|c [|k rest]]; [done..|].
    destruct c as [| | | |l|m]; try (cbn in Hr; destruct k; injection Hr as <-; done).
    pose proof (fun n x => array_element_sound tys _ Hargs "at" t l n x Hat eq_refl) as Hitem.
    cbn in Hr |- *. destruct (as_i64 k) as [i|]; [|by injection Hr as <-]. injection Hr as <-.
    rewrite clamp_lookup. split; [done|]. apply Hitem.
Qed.

Lemma element_access_typed_witness :
  value_from_i64 1 = or_null (element_of "at" [VObject [("a", value_from_i64 1)]; VString "a"]) /\
  forall x, element_of "at" [VObject [("a", value_from_i64 1)]; VString "a"] = Some x -> accepts TInteger x = true.
Proof.
  apply (element_access_typed (H := externals_stub) "at" [structure [("a", TInteger)]; TString] (Some ["a"])
    [VObject [("a", value_from_i64 1)]; VString "a"]).
  - right. right. left. reflexivity.
  - repeat constructor.
  - right. exists (VString "a"). split; reflexivity.
  - reflexivity.
  - reflexivity.
Defined.

(** Where the refined type of a reshaping intrinsic is exact: [omit] everywhere,
    [pick] on a closed struct, [reverse] on an array, [flatten] when the items are
    typed arrays or hold no arrays at all, [merge] under [merge_exact]. *)
Definition reshape_exact (name : string) (tys : list RuninatorType) : Prop :=
  match name, tys with
  | "omit", _ => True
  | "pick", TStruct _ additional :: _ => additional = None
  | "reverse", TArray _ :: _ => True
  | "flatten", t :: _ => forall u, element_type t = Some u -> element_type u = None -> no_arrays u = true
  | "merge", TStruct lf la :: TStruct rf ra :: _ => merge_exact lf la rf ra
  | _, _ => False
  end.

(** C31: Outside the corners [reshape_exact] rules out, the refined types of [reverse],
    [flatten], [merge], [pick] and [omit] are sound: when well-formed arguments belong to
    the inferred types and the literal keys are those of the second argument, the
    returned value belongs to the refined type. *)
Theorem reshape_result_type_sound `{Externals} name tys keys args t r :
  In name ["reverse"; "flatten"; "merge"; "pick"; "omit"] -> reshape_exact name tys ->
  Forall2 (fun t v => accepts t v = true) tys args -> Forall wf_value args ->
  keys_of_literal keys args -> intrinsic_result_type name tys keys = Some t -> call_pure name args = Ok r ->
  accepts t r = true.
Proof.
  intros Hname Hexact Hargs Hwf Hkeys Ht Hr. destruct Hname as [<-|[<-|[<-|[<-|[<-|[]]]]]].
  - destruct Hargs as [|u v us vs Hv _]; [done|]. destruct u; try done. cbn in Ht. injection Ht as <-.
    destruct v as [| | | |l|]; try discriminate Hv. injection Hr as <-.
    apply (array_subset u l); [done|]. intros x. by rewrite <- in_rev.
  - change (intrinsic_flatten args = Ok r) in Hr. apply bind_ok in Hr as (l & Hl & [= <-]).
    destruct tys as [|u us]; [done|]. cbn in Ht. destruct (element_type u) as [e|] eqn:He; [|done]. injection Ht as <-.
    apply (flatten_sound e); [|by apply Hexact|done].
    eapply element_type_accepts; [exact He|]. by eapply (array_at_accepts _ _ Hargs).
  - destruct Hargs as [|u v us vs Hv [|u' v' ? ? Hv' _]]; [done|by destruct u|].
    destruct u as [| | | | | | | | | |lf la| | |]; try done. destruct u' as [| | | | | | | | | |rf ra| | |]; try done.
    destruct v as [| | | | |ml]; try discriminate Hv. destruct v' as [| | | | |mr]; try discriminate Hv'.
    injection Hr as <-.
    inversion Hwf as [|? ? Hml Hwf']; subst. inversion Hwf' as [|? ? Hmr _]; subst.
    apply wf_object in Hml as [Hml _], Hmr as [Hmr _]. by apply (merge_sound lf la rf ra).
  - apply (narrow_intrinsic_sound tys args Hargs true keys); [|done..].
    intros _ f a Hhead. destruct tys as [|u us]; [done|]. injection Hhead as ->. exact Hexact.
  - by apply (narrow_intrinsic_sound tys args Hargs false keys).
Qed.

Lemma reshape_result_type_sound_witness :
  accepts (TStruct [("b", field_required TString)] (Some TAny)) (VObject [("b", VString "x"); ("c", VNull)]) = true.
Proof.
  apply (reshape_result_type_sound (H := externals_stub) "omit"
    [TStruct [("a", field_required TInteger); ("b", field_required TString)] (Some TAny); TArray TString] (Some ["a"])
    [VObject [("a", value_from_i64 1); ("b", VString "x"); ("c", VNull)]; VArray [VString "a"]]).
  - right. right. right. right. left. reflexivity.
  - exact I.
  - repeat constructor.
  - repeat constructor.
  - right. exists (VArray [VString "a"]). split; reflexivity.
  - reflexivity.
  - reflexivity.
Defined.

(** The arguments belong to the types, the call returns, and the result is outside
    the refined type. *)
Definition refuted `{Externals} (name : string) (tys : list RuninatorType) (keys : option (list string))
    (args : list Value) : bool :=
  forallb (fun tv => accepts tv.1 tv.2) (combine tys args) && (length tys =? length args)%nat &&
  match intrinsic_result_type name tys keys, call_pure name args with
  | Some t, Ok r => negb (accepts t r)
  | _, _ => false
  end.

(** Outside those conditions the refined types are wrong: [first] and [last] of an empty
    array and [at] of a missing element return null, [reverse] of an untyped string
    returns a string, [flatten] unwraps arrays hidden in a union, [merge] lets a left
    field survive an absent optional right field of another type, and [pick] of an open
    struct keeps a key its closed type does not have. *)
Example intrinsic_result_type_unsound `{Externals} :
  refuted "first" [TArray TInteger] None [VArray []] = true /\
  refuted "last" [TArray TInteger] None [VArray []] = true /\
  refuted "at" [TArray TInteger; TInteger] None [VArray []; value_from_i64 0] = true /\
  refuted "at" [TMap TInteger; TString] None [VObject []; VString "k"] = true /\
  refuted "reverse" [TAny] None [VString "ab"] = true /\
  refuted "flatten" [TArray (TUnion [TArray TInteger; TString])] None [VArray [VArray [value_from_i64 1]]] = true /\
  refuted "merge" [structure [("a", TInteger)]; TStruct [("a", field_optional TString)] None] None
    [VObject [("a", value_from_i64 1)]; VObject []] = true /\
  refuted "pick" [TStruct [] (Some TAny); TArray TString] (Some ["a"])
    [VObject [("a", VNull)]; VArray [VString "a"]] = true.
Proof. repeat split. Qed.

(** [resolve_std_path] answers with the module of the leaf, not with the leaf. *)
Theorem resolve_std_path_returns_module module leaf m :
  resolve_std_path module leaf = Ok m -> m = module /\ intrinsic_module leaf = Some module.
Proof.
  unfold resolve_std_path. destruct (intrinsic_module leaf) as [actual|]; [|done].
  destruct (String.eqb_spec actual module) as [e|]; [|done]. intros [= <-]. by rewrite e.
Qed.

Lemma resolve_std_path_returns_module_witness : "math" = "math" /\ intrinsic_module "add" = Some "math".
Proof. apply (resolve_std_path_returns_module "math" "add" "math"). reflexivity. Defined.
