(* ===== verification/Eval.v ===== *)
(** * Evaluation ([runinator-workflows]: [expressions.rs], [functions.rs], [conditions.rs], [compute.rs])

    The evaluator of expressions, conditions and compute blocks against a run
    context.  It is one recursion: expressions apply closures and call user
    functions whose bodies are expressions or blocks, blocks evaluate conditions,
    conditions evaluate expressions.  Every definition below is written against an
    expression evaluator [ev]; [eval_fuel] ties the knot with fuel, which bounds the
    nesting of evaluations.  [OutOfFuel] is kept apart from the program's own
    errors: a run that needs more fuel is not a failed run. *)

From S2P Require Import Prelude BTree Float64 Values Types TypeCodec Ast Intrinsics Catalog.

#[local] Open Scope string_scope.

(** ** Outcomes *)

Inductive EvalError : Type :=
| OutOfFuel
| Failed (e : WorkflowValidationError).

Abbreviation eval := (result EvalError).

Definition lift {A} (r : result WorkflowValidationError A) : eval A :=
  match r with Ok a => Ok a | Err e => Err (Failed e) end.

Definition fail {A} (message : string) : eval A := Err (Failed (InvalidValueRef message)).

(** ** Libraries, functions and the environment *)

(** [trait IntrinsicLibrary]. *)
Record IntrinsicLibrary : Type := mk_library {
  lib_call : string -> list Value -> result WorkflowValidationError Value;
  lib_knows : string -> bool;
  lib_is_pure : string -> bool
}.

Definition PureIntrinsics `{Externals} : IntrinsicLibrary :=
  mk_library call_pure pure_contains (fun _ => true).

Inductive FunctionBody : Type :=
| BodyExpr (expr : WorkflowExpression)
| BodyProgram (program : ComputeProgram).

Record RuntimeFunction : Type := mk_function {
  fn_params : list string;
  fn_body : FunctionBody;
  fn_max_depth : option Z
}.

(** [FunctionTable]: a hash map read by name only. *)
Abbreviation FunctionTable := (btree RuntimeFunction).

Record EvalEnv : Type := mk_env {
  lib : option IntrinsicLibrary;
  functions : option FunctionTable;
  depth : Z
}.

Definition env_new (l : option IntrinsicLibrary) (f : option FunctionTable) : EvalEnv := mk_env l f 0.
Definition lib_only (l : option IntrinsicLibrary) : EvalEnv := mk_env l None 0.
Definition lookup_function (env : EvalEnv) (name : string) : option RuntimeFunction :=
  functions env ≫= bt_get name.
Definition deeper (env : EvalEnv) : EvalEnv := mk_env (lib env) (functions env) (depth env + 1).

Definition MAX_CALL_DEPTH : Z := 1024.

Inductive ComputeOutcome : Type :=
| OReturn (value : Value)
| OGoto (target : string)
| OFallthrough (value : Value).

(** ** Parsing the function table *)

Section function_table.
Context {EX : Externals}.

Definition invalid_ref {A} (message : string) : result WorkflowValidationError A := Err (InvalidValueRef message).

Definition param_name_of (value : Value) : result WorkflowValidationError string :=
  match as_str value with
  | Some name => Ok name
  | None =>
      ok_or (match value with VObject object => get_str "name" object | _ => None end)
        (InvalidValueRef "function parameter requires a name")
  end.

(** [depth as u32]: the low 32 bits. *)
Definition as_u32 (z : Z) : Z := (z mod 4294967296)%Z.

Definition parse_function (value : Value) : result WorkflowValidationError RuntimeFunction :=
  object ← ok_or (as_object value) (InvalidValueRef "function must be an object");
  params ← match get_array "params" object with
           | Some items => mapM param_name_of items
           | None => Ok []
           end;
  body ← match bt_get "program" object with
         | Some program => BodyProgram <$> parse_program program
         | None =>
             body ← ok_or (bt_get "body" object) (InvalidValueRef "function requires a body");
             BodyExpr <$> parse_expression body
         end;
  let max_depth := 
    match bt_get "recursive" object with
    | Some (VObject recursive) => match bt_get "max_depth" recursive with Some d => as_u64 d | None => None end
    | _ => None
    end in
  Ok (mk_function params body (option_map as_u32 max_depth)).

Definition table_entry (item : Value) : result WorkflowValidationError (string * RuntimeFunction) :=
  function ← parse_function item;
  name ← ok_or (match item with VObject object => get_str "name" object | _ => None end) (InvalidValueRef "function requires a name");
  Ok (name, function).

Definition from_metadata (value : option Value) : result WorkflowValidationError FunctionTable :=
  match value with
  | None | Some VNull => Ok []
  | Some value =>
      items ← ok_or (as_array value) (InvalidValueRef "metadata.functions must be an array");
      bt_from_list <$> mapM table_entry items
  end.

End function_table.

(** ** References *)

Fixpoint resolve_path (value : Value) (path : list WorkflowPathSegment) : option Value :=
  match path with
  | [] => Some value
  | Key key :: rest => next ← get_key key value; resolve_path next rest
  | Index index :: rest => next ← get_index index value; resolve_path next rest
  end.

Section references.
Context {EX : Externals}.

Definition unresolved (reference : WorkflowValueRef) : WorkflowValidationError :=
  InvalidValueRef (json_string (ref_value reference)).

Definition source_slot (s : WorkflowRefSource) : option string :=
  match s with
  | SrcInput => Some "input"
  | SrcPrev => Some "prev"
  | SrcWorkflow => Some "workflow"
  | SrcConfig => Some "config"
  | SrcLocal => Some "let"
  | SrcNodeOutput _ => None
  end.

(** A node reference reads the node's output, and falls back to the step itself. *)
Definition resolve_value_ref (reference : WorkflowValueRef) (context : Value)
    : result WorkflowValidationError Value :=
  match source reference with
  | SrcNodeOutput node =>
      step ← ok_or (get_key "steps" context ≫= get_key node) (unresolved reference);
      Ok (match get_key "output" step ≫= (fun output => resolve_path output (path reference)) with
          | Some value => value
          | None => or_null (resolve_path step (path reference))
          end)
  | s =>
      base ← ok_or (source_slot s ≫= (fun slot => get_key slot context)) (unresolved reference);
      Ok (or_null (resolve_path base (path reference)))
  end.

End references.

(** ** Closures *)

Section closures.
Context {EX : Externals}.

Definition empty_object : Value := VObject [].

Definition make_closure (params : list string) (body : WorkflowExpression) (context : Value) : Value :=
  let env := match get_key "let" context with Some locals => locals | None => empty_object end in
  let spec := bt_from_list [("params", VArray (map VString params)); ("body", expr_value body); ("env", env)] in
  VObject (bt_from_list [(CLOSURE_TAG, VObject spec)]).

Definition as_closure (value : Value) : option (list string * WorkflowExpression * Value) :=
  spec ← get_key CLOSURE_TAG value ≫= as_object;
  params ← bt_get "params" spec ≫= as_array;
  params ← mapM as_str params;
  body ← bt_get "body" spec;
  body ← match parse_expression body with Ok e => Some e | Err _ => None end;
  Some (params, body, match bt_get "env" spec with Some env => env | None => empty_object end).

Definition is_closure (value : Value) : bool :=
  match as_object value with Some object => bt_contains CLOSURE_TAG object | None => false end.

(** A local bound to a closure. *)
Definition local_closure (name : string) (context : Value) : option (list string * WorkflowExpression * Value) :=
  match get_key "let" context with
  | Some locals =>
      match get_key name locals with
      | Some value => if is_closure value then as_closure value else None
      | None => None
      end
  | None => None
  end.

End closures.

(** ** Truthiness and numbers *)

(** [expressions.rs]. *)
Definition expr_truthy (value : Value) : bool :=
  match value with
  | VNull => false
  | VBool b => b
  | VNumber n =>
      match number_as_f64 n with Some f => negb (f_eqb f f_zero) && negb (f_is_nan f) | None => false end
  | VString text => negb (String.eqb text "")
  | VArray items => negb (length items =? 0)%nat
  | VObject map => negb (length map =? 0)%nat
  end.

(** [conditions.rs]. *)
Definition cond_truthy (value : Value) : bool :=
  match value with
  | VNull => false
  | VBool b => b
  | VNumber n =>
      match number_as_i64 n with
      | Some z => negb (z =? 0)%Z
      | None =>
          match number_as_u64 n with
          | Some z => negb (z =? 0)%Z
          | None => match number_as_f64 n with Some f => negb (f_eqb f f_zero) && negb (f_is_nan f) | None => false end
          end
      end
  | VString text => negb (String.eqb text "")
  | VArray items => negb (length items =? 0)%nat
  | VObject map => negb (length map =? 0)%nat
  end.

Inductive Num : Type :=
| NInt (z : Z)
| NFloat (f : f64).

Definition num_as_f64 (n : Num) : f64 := match n with NInt z => f_of_Z z | NFloat f => f end.

Definition float_value (value : f64) : eval Value :=
  if f_is_finite value then Ok (value_from_f64 value) else fail "arithmetic produced a non-finite number".

Definition as_number `{Externals} (value : Value) : eval Num :=
  match as_i64 value with
  | Some z => Ok (NInt z)
  | None =>
      match as_f64 value with
      | Some f => Ok (NFloat f)
      | None => fail ("arithmetic requires numbers, got " ++ json_string value)
      end
  end.

(** ** Comparisons of conditions *)

Definition fail_cond {A} (message : string) : eval A := Err (Failed (InvalidCondition message)).

Definition contains_value (lft expected : Value) : eval bool :=
  match lft, expected with
  | VString text, VString needle => Ok (str_contains text needle)
  | VArray items, _ => Ok (values_contain items expected)
  | VObject object, VString key => Ok (bt_contains key object)
  | _, _ => fail_cond "contains requires a string, array, or object value"
  end.

Definition string_match (predicate : string -> string -> bool) (lft expected : Value) : eval bool :=
  match as_str lft with
  | None => fail_cond "string comparison requires a string value"
  | Some text =>
      match as_str expected with
      | None => fail_cond "string comparison requires a string operand"
      | Some expected => Ok (predicate text expected)
      end
  end.

Definition compare_value (predicate : comparison -> bool) (lft expected : Value) : eval bool :=
  match as_f64 lft, as_f64 expected with
  | Some a, Some b =>
      match f_cmp a b with
      | Some ordering => Ok (predicate ordering)
      | None => fail_cond "numeric comparison is undefined"
      end
  | _, _ =>
      match as_str lft, as_str expected with
      | Some a, Some b => Ok (predicate (String.compare a b))
      | _, _ => fail_cond "ordering comparison requires both values to be numbers or strings"
      end
  end.

Definition apply_compare (op : CompareOp) (lft rgt : Value) : eval bool :=
  match op with
  | Equals => Ok (value_eqb lft rgt)
  | NotEquals => Ok (negb (value_eqb lft rgt))
  | Contains => contains_value lft rgt
  | In_ => Ok match as_array rgt with Some items => values_contain items lft | None => false end
  | StartsWith => string_match (fun s p => String.prefix p s) lft rgt
  | EndsWith => string_match str_ends_with lft rgt
  | GreaterThan => compare_value is_gt lft rgt
  | GreaterThanOrEqual => compare_value is_ge lft rgt
  | LessThan => compare_value is_lt lft rgt
  | LessThanOrEqual => compare_value is_le lft rgt
  end.

(** ** The recursion *)

Definition Evaluator : Type := WorkflowExpression -> Value -> EvalEnv -> eval Value.

Section step.
Context {EX : Externals} (ev : Evaluator).

(** [resolve_value_refs_with]. *)
Definition resolve_with (value : Value) (context : Value) (env : EvalEnv) : eval Value :=
  expression ← lift (parse_expression value);
  ev expression context env.

(** [evaluate_condition_node]: [all] and [any] stop at the first deciding item. *)
Fixpoint evaluate_condition_node (node : ConditionNode) (context : Value) (env : EvalEnv) : eval bool :=
  match node with
  | CAll items =>
      (fix all (items : list ConditionNode) : eval bool :=
         match items with
         | [] => Ok true
         | item :: rest => b ← evaluate_condition_node item context env; if (b : bool) then all rest else Ok false
         end) items
  | CAny items =>
      (fix any (items : list ConditionNode) : eval bool :=
         match items with
         | [] => Ok false
         | item :: rest => b ← evaluate_condition_node item context env; if (b : bool) then Ok true else any rest
         end) items
  | CNot inner => b ← evaluate_condition_node inner context env; Ok (negb b)
  | CCompare lft op rgt =>
      lft ← ev lft context env;
      rgt ← ev rgt context env;
      apply_compare op lft rgt
  | CExists lft expected => lft ← ev lft context env; Ok (xorb expected (is_null lft))
  | CTruthy lft => lft ← ev lft context env; Ok (cond_truthy lft)
  | COther _ => fail_cond "condition object is not a recognized shape"
  end.

(** The leaf of [evaluate_condition_inner]: its own chain of comparators. *)
Definition evaluate_leaf (object : Map) (context : Value) (env : EvalEnv) : eval bool :=
  lft ← lift (ok_or (match bt_get "value" object with Some v => Some v | None => bt_get "left" object end)
                    (InvalidCondition "missing value"));
  lft ← resolve_with lft context env;
  let resolve expected := resolve_with expected context env in
  match bt_get "equals" object with Some expected => expected ← resolve expected; Ok (value_eqb lft expected) | None =>
  match bt_get "not_equals" object with Some expected => expected ← resolve expected; Ok (negb (value_eqb lft expected)) | None =>
  match bt_get "contains" object with Some expected => expected ← resolve expected; contains_value lft expected | None =>
  match bt_get "in" object with Some expected => expected ← resolve expected; Ok match as_array expected with Some items => existsb (fun item => value_eqb item lft) items | None => false end | None =>
  match bt_get "starts_with" object with Some expected => expected ← resolve expected; string_match (fun lft rgt => String.prefix rgt lft) lft expected | None =>
  match bt_get "ends_with" object with Some expected => expected ← resolve expected; string_match (fun lft rgt => str_ends_with lft rgt) lft expected | None =>
  match bt_get "greater_than" object with Some expected => expected ← resolve expected; compare_value is_gt lft expected | None =>
  match bt_get "greater_than_or_equal" object with Some expected => expected ← resolve expected; compare_value is_ge lft expected | None =>
  match bt_get "less_than" object with Some expected => expected ← resolve expected; compare_value is_lt lft expected | None =>
  match bt_get "less_than_or_equal" object with Some expected => expected ← resolve expected; compare_value is_le lft expected | None =>
  match bt_get "exists" object with
  | Some expected => Ok (xorb (unwrap_bool (as_bool expected) true) (is_null lft))
  | None =>
      if (length object =? 1)%nat && bt_contains "value" object then Ok (cond_truthy lft)
      else fail_cond "expected equals, not_equals, contains, in, starts_with, ends_with, greater_than, greater_than_or_equal, less_than, less_than_or_equal, exists, all, any, or not"
  end end end end end end end end end end end.

(** The loops over the items of [all] and [any]. *)
Fixpoint all_ok (f : Value -> eval bool) (items : list Value) : eval bool :=
  match items with
  | [] => Ok true
  | item :: rest => b ← f item; if (b : bool) then all_ok f rest else Ok false
  end.
Fixpoint any_ok (f : Value -> eval bool) (items : list Value) : eval bool :=
  match items with
  | [] => Ok false
  | item :: rest => b ← f item; if (b : bool) then Ok true else any_ok f rest
  end.

(** [evaluate_condition_inner]: the untyped twin, on the condition's own value; its
    fuel is the size of that value. *)
Fixpoint evaluate_condition_inner (fuel : nat) (condition context : Value) (env : EvalEnv) : eval bool :=
  match fuel with
  | O => Err OutOfFuel
  | S fuel' =>
      match condition with
      | VNull => Ok true
      | VObject object =>
          match bt_get "all" object with
          | Some (VArray items) => all_ok (fun item => evaluate_condition_inner fuel' item context env) items
          | Some _ => fail_cond "all must be an array"
          | None =>
          match bt_get "any" object with
          | Some (VArray items) => any_ok (fun item => evaluate_condition_inner fuel' item context env) items
          | Some _ => fail_cond "any must be an array"
          | None =>
          match bt_get "not" object with
          | Some inner => b ← evaluate_condition_inner fuel' inner context env; Ok (negb b)
          | None => evaluate_leaf object context env
          end end end
      | _ => fail_cond "condition must be an object"
      end
  end.

(** ** Compute blocks *)

(** [set_local]: only when the context has an object under [let]. *)
Definition set_local (context : Value) (name : string) (value : Value) : Value :=
  match context with
  | VObject object =>
      match bt_get "let" object with
      | Some (VObject locals) => VObject (bt_insert "let" (VObject (bt_insert name value locals)) object)
      | _ => context
      end
  | _ => context
  end.

Definition ensure_local_slot (context : Value) : Value :=
  match context with
  | VObject object =>
      match bt_get "let" object with
      | Some (VObject _) => context
      | _ => VObject (bt_insert "let" empty_object object)
      end
  | _ => context
  end.

(** Go on with the updated context unless the statement ended the block. *)
Definition continue_with (r : eval (Value * option ComputeOutcome))
    (k : Value -> eval (Value * option ComputeOutcome)) : eval (Value * option ComputeOutcome) :=
  match r with
  | Ok (context, None) => k context
  | Ok (context, Some outcome) => Ok (context, Some outcome)
  | Err e => Err e
  end.

(** A statement returns the updated context and the outcome that ends the block, if any. *)
Fixpoint run_statement (statement : ComputeStmt) (context : Value) (env : EvalEnv)
    : eval (Value * option ComputeOutcome) :=
  match statement with
  | SLet name value =>
      evaluated ← ev value context env;
      Ok (set_local context name evaluated, None)
  | SReturn expr => value ← ev expr context env; Ok (context, Some (OReturn value))
  | SGoto target => Ok (context, Some (OGoto target))
  | SExpr expr => _ ← ev expr context env; Ok (context, None)
  | SIf condition then_branch else_branch =>
      b ← evaluate_condition_node condition context env;
      (fix block (statements : list ComputeStmt) (context : Value) : eval (Value * option ComputeOutcome) :=
         match statements with
         | [] => Ok (context, None)
         | statement :: rest => continue_with (run_statement statement context env) (block rest)
         end) (if (b : bool) then then_branch else else_branch) context
  end.

Fixpoint run_block (statements : list ComputeStmt) (context : Value) (env : EvalEnv)
    : eval (Value * option ComputeOutcome) :=
  match statements with
  | [] => Ok (context, None)
  | statement :: rest =>
      continue_with (run_statement statement context env) (fun context => run_block rest context env)
  end.

(** [run_program_with]. *)
Definition run_program_with (program : ComputeProgram) (context : Value) (l : IntrinsicLibrary)
    (f : option FunctionTable) : eval ComputeOutcome :=
  r ← run_block program (ensure_local_slot context) (env_new (Some l) f);
  Ok match snd r with Some outcome => outcome | None => OFallthrough VNull end.

(** ** Functions and lambdas *)

(** Parameters bound by position, into the given locals. *)
Definition bind_params (params : list string) (values : list Value) (locals : Map) : Map :=
  bt_extend locals (combine params values).

Definition invoke_user_function (name : string) (function : RuntimeFunction) (values : list Value)
    (env : EvalEnv) : eval Value :=
  if (MAX_CALL_DEPTH <=? depth env)%Z then fail ("maximum call depth exceeded calling '" ++ name ++ "'")
  else if match fn_max_depth function with Some max => (max <=? depth env)%Z | None => false end
  then fail ("recursion limit (" ++ pretty (unwrap_or (fn_max_depth function) 0%Z) ++ ") exceeded for '" ++ name ++ "'")
  else
    let scope := VObject (bt_from_list [("let", VObject (bind_params (fn_params function) values []))]) in
    match fn_body function with
    | BodyExpr expr => ev expr scope (deeper env)
    | BodyProgram program =>
        r ← run_block program scope (deeper env);
        match snd r with
        | Some (OReturn value) | Some (OFallthrough value) => Ok value
        | Some (OGoto _) => fail ("goto is not allowed in function '" ++ name ++ "'")
        | None => Ok VNull
        end
    end.

(** The locals a lambda body starts from: the captured ones of a closure, or those
    of the call site. *)
Definition lambda_locals (captured : option Value) (context : Value) : Map :=
  match (match captured with Some c => as_object c | None => get_key "let" context ≫= as_object end) with
  | Some locals => locals
  | None => []
  end.

Definition apply_lambda_over (params : list string) (body : WorkflowExpression) (captured : option Value)
    (values : list Value) (context : Value) (env : EvalEnv) : eval Value :=
  let locals := bind_params params values (lambda_locals captured context) in
  let scope := update_object context (bt_insert "let" (VObject locals)) in
  ev body scope env.

(** [struct Callable]. *)
Record Callable : Type := mk_callable {
  call_params : list string;
  call_body : WorkflowExpression;
  call_captured : option Value
}.

Definition callable_apply (c : Callable) (values : list Value) (context : Value) (env : EvalEnv) : eval Value :=
  apply_lambda_over (call_params c) (call_body c) (call_captured c) values context env.

Definition resolve_callable (name : string) (expr : WorkflowExpression) (context : Value) (env : EvalEnv)
    : eval Callable :=
  match expr with
  | ELambda params body => Ok (mk_callable params body None)
  | _ =>
      value ← ev expr context env;
      match as_closure value with
      | Some (params, body, captured) => Ok (mk_callable params body (Some captured))
      | None => fail ("'" ++ name ++ "' requires a lambda argument")
      end
  end.

Definition collection (name : string) (value : Value) : eval (list Value) :=
  match value with
  | VArray items => Ok items
  | other => fail ("'" ++ name ++ "' requires an array, got " ++ json_string other)
  end.

Definition predicate (name : string) (value : Value) : eval bool :=
  match value with
  | VBool b => Ok b
  | other => fail ("'" ++ name ++ "' lambda must return a boolean, got " ++ json_string other)
  end.

(** The loops of the higher-order intrinsics. *)
Fixpoint filter_loop (f : Value -> eval bool) (items : list Value) : eval (list Value) :=
  match items with
  | [] => Ok []
  | item :: rest =>
      keep ← f item;
      kept ← filter_loop f rest;
      Ok (if (keep : bool) then item :: kept else kept)
  end.

Fixpoint find_loop (f : Value -> eval bool) (items : list Value) : eval Value :=
  match items with
  | [] => Ok VNull
  | item :: rest => b ← f item; if (b : bool) then Ok item else find_loop f rest
  end.

Fixpoint reduce_loop (f : list Value -> eval Value) (acc : Value) (items : list Value) : eval Value :=
  match items with
  | [] => Ok acc
  | item :: rest => acc ← f [acc; item]; reduce_loop f acc rest
  end.

Definition evaluate_higher_order (name : string) (args : list WorkflowExpression) (context : Value)
    (env : EvalEnv) : eval Value :=
  let arg index := ok_or (nth_error args index) (Failed (InvalidValueRef ("'" ++ name ++ "' is missing an argument"))) in
  let lambda_index := if String.eqb name "reduce" then 2 else 1 in
  first ← arg 0;
  value ← ev first context env;
  items ← collection name value;
  lambda ← arg lambda_index;
  callable ← resolve_callable name lambda context env;
  let apply values := callable_apply callable values context env in
  let test item := value ← apply [item]; predicate name value in
  if String.eqb name "map" then VArray <$> mapM (fun item => apply [item]) items
  else if String.eqb name "flat_map" then
    results ← mapM (fun item => apply [item]) items; Ok (VArray (flatten_items results))
  else if String.eqb name "filter" then VArray <$> filter_loop test items
  else if String.eqb name "find" then find_loop test items
  else if String.eqb name "any" then VBool <$> any_ok test items
  else if String.eqb name "all" then VBool <$> all_ok test items
  else if String.eqb name "sort_by" then
    keyed ← mapM (fun item => key ← apply [item]; Ok (key, item)) items;
    Ok (VArray (map snd (sort_by (fun a b => cmp_values a.1 b.1) keyed)))
  else if String.eqb name "reduce" then
    initial ← arg 1;
    acc ← ev initial context env;
    reduce_loop apply acc items
  else fail ("unknown higher-order intrinsic '" ++ name ++ "'").

(** ** Arithmetic *)

Fixpoint fold_numbers (int_op : Z -> Z -> eval Z) (float_op : f64 -> f64 -> f64)
    (items : list WorkflowExpression) (context : Value) (env : EvalEnv) (acc : Num) : eval Num :=
  match items with
  | [] => Ok acc
  | item :: rest =>
      value ← ev item context env;
      next ← as_number value;
      acc ← match acc, next with
            | NInt a, NInt b => NInt <$> int_op a b
            | a, b => Ok (NFloat (float_op (num_as_f64 a) (num_as_f64 b)))
            end;
      fold_numbers int_op float_op rest context env acc
  end.

Definition fold_arith (items : list WorkflowExpression) (context : Value) (env : EvalEnv) (op : string)
    (int_op : Z -> Z -> eval Z) (float_op : f64 -> f64 -> f64) : eval Value :=
  match items with
  | [] => fail ("'" ++ op ++ "' requires at least one operand")
  | first :: rest =>
      value ← ev first context env;
      acc ← as_number value;
      acc ← fold_numbers int_op float_op rest context env acc;
      match acc with
      | NInt z => Ok (value_from_i64 z)
      | NFloat f => float_value f
      end
  end.

Definition or_zero_error (message : string) (o : option Z) : eval Z := ok_or o (Failed (InvalidValueRef message)).

(** ** Expressions *)

Fixpoint concat_loop (items : list WorkflowExpression) (context : Value) (env : EvalEnv) (rendered : string)
    : eval Value :=
  match items with
  | [] => Ok (VString rendered)
  | item :: rest =>
      value ← ev item context env;
      match value with
      | VString text => concat_loop rest context env (rendered ++ text)
      | _ => fail "$concat items must resolve to strings"
      end
  end.

Fixpoint coalesce_loop (items : list WorkflowExpression) (context : Value) (env : EvalEnv) : eval Value :=
  match items with
  | [] => Ok VNull
  | item :: rest =>
      value ← ev item context env;
      if is_null value then coalesce_loop rest context env else Ok value
  end.

Definition evaluate_call (name : string) (args : list WorkflowExpression) (context : Value) (env : EvalEnv)
    : eval Value :=
  if is_higher_order name then evaluate_higher_order name args context env
  else
  match local_closure name context with
  | Some (params, body, captured) =>
      values ← mapM (fun arg => ev arg context env) args;
      apply_lambda_over params body (Some captured) values context env
  | None =>
      match lookup_function env name with
      | Some function =>
          values ← mapM (fun arg => ev arg context env) args;
          invoke_user_function name function values env
      | None =>
          l ← ok_or (lib env) (Failed (InvalidValueRef ("call to '" ++ name ++ "' is not allowed in this context")));
          values ← mapM (fun arg => ev arg context env) args;
          lift (lib_call l name values)
      end
  end.

Definition evaluate_step (expression : WorkflowExpression) (context : Value) (env : EvalEnv) : eval Value :=
  match expression with
  | ELiteral (VObject map) =>
      resolved ← mapM (fun kv => pair kv.1 <$> resolve_with kv.2 context env) map;
      Ok (VObject (bt_from_list resolved))
  | ELiteral (VArray items) => VArray <$> mapM (fun item => resolve_with item context env) items
  | ELiteral value => Ok value
  | ERef reference => lift (resolve_value_ref reference context)
  | EConcat items => concat_loop items context env ""
  | ECoalesce items => coalesce_loop items context env
  | EToString nested =>
      value ← ev nested context env;
      match value with
      | VString text => Ok (VString text)
      | VBool b => Ok (VString (if (b : bool) then "true" else "false"))
      | VNumber n => Ok (VString (number_string n))
      | _ => fail "$to_string requires a string, boolean, or number"
      end
  | EToJsonString nested =>
      value ← ev nested context env;
      match value with
      | VArray _ | VObject _ => Ok (VString (json_string value))
      | _ => fail "$to_json_string requires an array or object"
      end
  | EAdd items => fold_arith items context env "+" (fun a b => Ok (wrap_i64 (a + b))) f_add
  | ESub items => fold_arith items context env "-" (fun a b => Ok (wrap_i64 (a - b))) f_sub
  | EMul items => fold_arith items context env "*" (fun a b => Ok (wrap_i64 (a * b))) f_mul
  | EDiv items =>
      fold_arith items context env "/" (fun a b => or_zero_error "division by zero" (checked_div_i64 a b)) f_div
  | EMod items =>
      fold_arith items context env "%" (fun a b => or_zero_error "modulo by zero" (checked_rem_i64 a b)) f_rem
  | ENeg nested =>
      value ← ev nested context env;
      n ← as_number value;
      match n with
      | NInt z => Ok (value_from_i64 (wrap_i64 (- z)))
      | NFloat f => float_value (f_neg f)
      end
  | ECall name args => evaluate_call name args context env
  | ECond condition thn otherwise =>
      value ← ev condition context env;
      ev (if expr_truthy value then thn else otherwise) context env
  | ELambda params body => Ok (make_closure params body context)
  | EApply callee args =>
      target ← ev callee context env;
      match as_closure target with
      | None => fail "cannot apply a value that is not a function"
      | Some (params, body, captured) =>
          values ← mapM (fun arg => ev arg context env) args;
          apply_lambda_over params body (Some captured) values context env
      end
  end.

End step.

(** [evaluate_expression_with]. *)
Fixpoint eval_fuel `{Externals} (fuel : nat) : Evaluator :=
  match fuel with
  | O => fun _ _ _ => Err OutOfFuel
  | S fuel' => evaluate_step (eval_fuel fuel')
  end.

(** ** Entry points *)

Definition resolve_value_refs `{Externals} (fuel : nat) (value context : Value) : eval Value :=
  resolve_with (eval_fuel fuel) value context (lib_only (Some PureIntrinsics)).

Definition evaluate_expression `{Externals} (fuel : nat) (expression : WorkflowExpression) (context : Value) : eval Value :=
  eval_fuel fuel expression context (lib_only (Some PureIntrinsics)).

Definition resolve_value_refs_with_functions `{Externals} (fuel : nat) (value context : Value)
    (table : FunctionTable) : eval Value :=
  resolve_with (eval_fuel fuel) value context (env_new (Some PureIntrinsics) (Some table)).

Definition evaluate_condition `{Externals} (fuel : nat) (condition context : Value) : eval bool :=
  evaluate_condition_inner (eval_fuel fuel) (value_size condition) condition context (lib_only (Some PureIntrinsics)).

(** A [WorkflowCondition] is [None] for the null condition. *)
Definition evaluate_workflow_condition `{Externals} (fuel : nat) (condition : option ConditionNode) (context : Value)
    : eval bool :=
  match condition with
  | None => Ok true
  | Some node => evaluate_condition_node (eval_fuel fuel) node context (lib_only (Some PureIntrinsics))
  end.

Definition run_program `{Externals} (fuel : nat) (program : ComputeProgram) (context : Value) (l : IntrinsicLibrary)
    : eval ComputeOutcome :=
  run_program_with (eval_fuel fuel) program context l None.

(** ** Input defaults

    [apply_input_defaults] with the resolver of defaults as a parameter.  The source
    loops until a pass makes no progress; [input_defaults_settle] shows that one
    pass more than there are fields is enough. *)

Section input_defaults.
Context (resolve : Value -> Value -> eval Value).

(** Insert into the [input] object, when there is one. *)
Definition insert_input (context : Value) (name : string) (value : Value) : option Value :=
  match context with
  | VObject object =>
      match bt_get "input" object with
      | Some (VObject input) => Some (VObject (bt_insert "input" (VObject (bt_insert name value input)) object))
      | _ => None
      end
  | _ => None
  end.

Definition input_present (context : Value) (name : string) : bool :=
  match get_key "input" context with
  | Some input => match get_key name input with Some _ => true | None => false end
  | None => false
  end.

Definition default_field (acc : Value * bool) (kf : string * RuninatorField) : Value * bool :=
  let '(context, progressed) := acc in
  match default kf.2 with
  | None => acc
  | Some d =>
      if input_present context kf.1 then acc
      else match resolve d context with
           | Err _ => acc
           | Ok value =>
               match insert_input context kf.1 value with
               | Some context => (context, true)
               | None => acc
               end
           end
  end.

Definition default_pass (fields : btree RuninatorField) (context : Value) : Value * bool :=
  foldl default_field (context, false) fields.

Fixpoint default_loop (fuel : nat) (fields : btree RuninatorField) (context : Value) : Value :=
  match fuel with
  | O => context
  | S fuel' =>
      let '(context, progressed) := default_pass fields context in
      if progressed then default_loop fuel' fields context else context
  end.

(** An [input] object is made only when the slot is absent or null. *)
Definition ensure_input (context : Value) : Value :=
  match get_key "input" context with
  | Some VNull | None => update_object context (bt_insert "input" empty_object)
  | Some _ => context
  end.

Definition apply_input_defaults (context : Value) (input_type : RuninatorType) : Value :=
  match input_type with
  | TStruct fields _ =>
      if forallb (fun kf => match default kf.2 with None => true | Some _ => false end) fields then context
      else
        let context := ensure_input context in
        match get_key "input" context with
        | Some (VObject _) => default_loop (S (length fields)) fields context
        | _ => context
        end
  | _ => context
  end.

End input_defaults.

(** ** More fuel never changes an answer *)

(** [r] ran out of fuel, or [r'] is the same answer. *)
Definition fuel_le {A} (r r' : eval A) : Prop := r = Err OutOfFuel \/ r = r'.

Lemma fuel_le_refl {A} (r : eval A) : fuel_le r r.
Proof. by right. Qed.

Lemma fuel_le_bind {A B} (r r' : eval A) (f g : A -> eval B) :
  fuel_le r r' -> (forall a, fuel_le (f a) (g a)) -> fuel_le (r ≫= f) (r' ≫= g).
Proof. intros [->| ->] Hf; [by left|]. destruct r' as [a|]; [apply Hf|by right]. Qed.

Lemma fuel_le_fmap {A B} (r r' : eval A) (f : A -> B) : fuel_le r r' -> fuel_le (f <$> r) (f <$> r').
Proof. intros [->| ->]; [by left|by right]. Qed.

Lemma fuel_le_mapM {A B} (f g : A -> eval B) l : (forall a, fuel_le (f a) (g a)) -> fuel_le (mapM f l) (mapM g l).
Proof.
  intros Hf. induction l as [|x l IH]; [apply fuel_le_refl|].
  cbn. apply fuel_le_bind; [apply Hf|]. intros y. apply fuel_le_bind; [done|]. intros k. apply fuel_le_refl.
Qed.

Create HintDb fuel.

(** Compare two runs of the same code bind by bind. *)
Ltac fuel_step :=
  match goal with
  | |- fuel_le ?r ?r => apply fuel_le_refl
  | |- fuel_le (mbind _ _) (mbind _ _) => apply fuel_le_bind; [|intros]
  | |- fuel_le (fmap _ _) (fmap _ _) => apply fuel_le_fmap
  | |- fuel_le (mapM _ _) (mapM _ _) => apply fuel_le_mapM; intros
  | |- fuel_le _ _ => solve [auto with fuel]
  | |- fuel_le (match ?x with _ => _ end) _ => destruct x
  | |- fuel_le (let _ := _ in _) _ => cbv zeta
  end.
Ltac fuel := repeat fuel_step.

Section monotone.
Context {EX : Externals} (ev ev' : Evaluator).
Hypothesis Hev : forall e context env, fuel_le (ev e context env) (ev' e context env).
#[local] Hint Resolve Hev : fuel.

Lemma resolve_with_le value context env :
  fuel_le (resolve_with ev value context env) (resolve_with ev' value context env).
Proof. unfold resolve_with. fuel. Qed.
#[local] Hint Resolve resolve_with_le : fuel.

Lemma condition_le node context env :
  fuel_le (evaluate_condition_node ev node context env) (evaluate_condition_node ev' node context env).
Proof.
  revert node. fix IH 1. intros [items|items|inner|lft op rgt|lft expected|lft|value]; cbn [evaluate_condition_node].
  - induction items as [|item items IHi]; [apply fuel_le_refl|].
    apply fuel_le_bind; [apply IH|]. intros []; [apply IHi|apply fuel_le_refl].
  - induction items as [|item items IHi]; [apply fuel_le_refl|].
    apply fuel_le_bind; [apply IH|]. intros []; [apply fuel_le_refl|apply IHi].
  - apply fuel_le_bind; [apply IH|]. intros. apply fuel_le_refl.
  - fuel.
  - fuel.
  - fuel.
  - fuel.
Qed.
#[local] Hint Resolve condition_le : fuel.

Lemma continue_le r r' k k' : fuel_le r r' -> (forall c, fuel_le (k c) (k' c)) ->
  fuel_le (continue_with r k) (continue_with r' k').
Proof. intros [->| ->] Hk; [by left|]. destruct r' as [[c [o|]]|]; cbn; [apply fuel_le_refl|apply Hk|apply fuel_le_refl]. Qed.

Lemma statement_le s context env :
  fuel_le (run_statement ev s context env) (run_statement ev' s context env).
Proof.
  revert s context. fix IH 1. intros [name value|expr|target|condition t e|expr] context; cbn [run_statement].
  1,2,3,5: solve [fuel].
  apply fuel_le_bind; [auto with fuel|]. intros b.
  generalize context. generalize (if b then t else e). fix IHb 1. intros [|s l] c; [apply fuel_le_refl|].
  apply continue_le; [apply IH|apply IHb].
Qed.

Lemma block_le l context env : fuel_le (run_block ev l context env) (run_block ev' l context env).
Proof.
  revert context. induction l as [|s l IH]; intros context; cbn [run_block]; [apply fuel_le_refl|].
  apply continue_le; [apply statement_le|done].
Qed.
#[local] Hint Resolve block_le : fuel.

Lemma invoke_le name f values env :
  fuel_le (invoke_user_function ev name f values env) (invoke_user_function ev' name f values env).
Proof. unfold invoke_user_function. fuel. Qed.

Lemma apply_lambda_le params body captured values context env :
  fuel_le (apply_lambda_over ev params body captured values context env)
          (apply_lambda_over ev' params body captured values context env).
Proof. unfold apply_lambda_over. fuel. Qed.
#[local] Hint Resolve invoke_le apply_lambda_le : fuel.

Lemma callable_apply_le c values context env :
  fuel_le (callable_apply ev c values context env) (callable_apply ev' c values context env).
Proof. unfold callable_apply. fuel. Qed.

Lemma resolve_callable_le name e context env :
  fuel_le (resolve_callable ev name e context env) (resolve_callable ev' name e context env).
Proof. unfold resolve_callable. destruct e; fuel. Qed.
#[local] Hint Resolve callable_apply_le resolve_callable_le : fuel.

Lemma any_ok_le (f g : Value -> eval bool) l : (forall v, fuel_le (f v) (g v)) -> fuel_le (any_ok f l) (any_ok g l).
Proof. intros H. induction l as [|v l IH]; cbn; [apply fuel_le_refl|]. apply fuel_le_bind; [done|]. intros []; [apply fuel_le_refl|done]. Qed.
Lemma all_ok_le (f g : Value -> eval bool) l : (forall v, fuel_le (f v) (g v)) -> fuel_le (all_ok f l) (all_ok g l).
Proof. intros H. induction l as [|v l IH]; cbn; [apply fuel_le_refl|]. apply fuel_le_bind; [done|]. intros []; [done|apply fuel_le_refl]. Qed.
Lemma find_loop_le (f g : Value -> eval bool) l : (forall v, fuel_le (f v) (g v)) -> fuel_le (find_loop f l) (find_loop g l).
Proof. intros H. induction l as [|v l IH]; cbn; [apply fuel_le_refl|]. apply fuel_le_bind; [done|]. intros []; [apply fuel_le_refl|done]. Qed.
Lemma filter_loop_le (f g : Value -> eval bool) l : (forall v, fuel_le (f v) (g v)) -> fuel_le (filter_loop f l) (filter_loop g l).
Proof. intros H. induction l as [|v l IH]; cbn; [apply fuel_le_refl|]. by fuel. Qed.
Lemma reduce_loop_le (f g : list Value -> eval Value) acc l : (forall v, fuel_le (f v) (g v)) -> fuel_le (reduce_loop f acc l) (reduce_loop g acc l).
Proof. intros H. revert acc. induction l as [|v l IH]; intros acc; cbn; [apply fuel_le_refl|]. by apply fuel_le_bind. Qed.

Lemma higher_order_le name args context env :
  fuel_le (evaluate_higher_order ev name args context env) (evaluate_higher_order ev' name args context env).
Proof.
  unfold evaluate_higher_order. repeat (apply fuel_le_bind; [fuel|intros]). cbv zeta.
  repeat match goal with |- fuel_le (if ?b then _ else _) _ => destruct b end;
    try first [apply fuel_le_fmap; first [apply filter_loop_le|apply any_ok_le|apply all_ok_le]; intros; fuel
              |apply find_loop_le; intros; fuel]; fuel.
  apply reduce_loop_le. intros. fuel.
Qed.

Lemma fold_numbers_le iop fop items context env acc :
  fuel_le (fold_numbers ev iop fop items context env acc) (fold_numbers ev' iop fop items context env acc).
Proof. revert acc. induction items as [|e items IH]; intros acc; cbn [fold_numbers]; fuel. all: apply IH. Qed.

Lemma fold_arith_le items context env op iop fop :
  fuel_le (fold_arith ev items context env op iop fop) (fold_arith ev' items context env op iop fop).
Proof. unfold fold_arith. destruct items; fuel. apply fold_numbers_le. Qed.

Lemma concat_le items context env acc :
  fuel_le (concat_loop ev items context env acc) (concat_loop ev' items context env acc).
Proof. revert acc. induction items as [|e items IH]; intros acc; cbn [concat_loop]; fuel. Qed.

Lemma coalesce_le items context env :
  fuel_le (coalesce_loop ev items context env) (coalesce_loop ev' items context env).
Proof. induction items as [|e items IH]; cbn [coalesce_loop]; fuel. Qed.
#[local] Hint Resolve higher_order_le fold_arith_le concat_le coalesce_le : fuel.

Lemma call_le name args context env :
  fuel_le (evaluate_call ev name args context env) (evaluate_call ev' name args context env).
Proof. unfold evaluate_call. fuel. Qed.
#[local] Hint Resolve call_le : fuel.

Lemma step_le e context env : fuel_le (evaluate_step ev e context env) (evaluate_step ev' e context env).
Proof. destruct e; cbn [evaluate_step]; fuel. Qed.

End monotone.

Lemma eval_fuel_le `{Externals} n m e context env : n <= m -> fuel_le (eval_fuel n e context env) (eval_fuel m e context env).
Proof.
  revert m e context env. induction n as [|n IH]; intros m e context env Hm; [by left|].
  destruct m as [|m]; [lia|]. cbn [eval_fuel]. apply step_le. intros. apply IH. lia.
Qed.

(** ** The typed and the untyped condition evaluators *)

(** No sub-condition is null. *)
Fixpoint no_null (node : ConditionNode) : bool :=
  match node with
  | CAll items | CAny items => forallb no_null items
  | CNot inner => no_null inner
  | COther VNull => false
  | _ => true
  end.

#[local] Arguments find_compare ops object : simpl never.

Section twins.
Context {EX : Externals} (ev : Evaluator) (context : Value) (env : EvalEnv).

(** The two evaluators return the same truth values (they may differ on errors). *)
Definition same_truth (r r' : eval bool) : Prop := forall b, r = Ok b <-> r' = Ok b.

Lemma same_truth_err e e' : same_truth (Err e) (Err e').
Proof. by split. Qed.

Lemma same_truth_refl r : same_truth r r.
Proof. done. Qed.

Lemma same_truth_if (r r' : eval bool) (f g : bool -> eval bool) :
  same_truth r r' -> (forall b, same_truth (f b) (g b)) -> same_truth (r ≫= f) (r' ≫= g).
Proof.
  intros Hr Hf b. destruct r as [a|e], r' as [a'|e']; cbn.
  - pose proof (proj1 (Hr a) eq_refl) as [= ->]. apply Hf.
  - pose proof (proj1 (Hr a) eq_refl). done.
  - pose proof (proj2 (Hr a') eq_refl). done.
  - done.
Qed.

(** The chain of the leaf is the ordered search of the typed evaluator. *)
Lemma leaf_chain object : evaluate_leaf ev object context env =
  (lft ← lift (ok_or (leaf_left object) (InvalidCondition "missing value"));
   lft ← resolve_with ev lft context env;
   match find_compare ORDER object with
   | Some (op, expected) => expected ← resolve_with ev expected context env; apply_compare op lft expected
   | None =>
       match bt_get "exists" object with
       | Some expected => Ok (xorb (unwrap_bool (as_bool expected) true) (is_null lft))
       | None =>
           if (length object =? 1)%nat && bt_contains "value" object then Ok (cond_truthy lft)
           else fail_cond "expected equals, not_equals, contains, in, starts_with, ends_with, greater_than, greater_than_or_equal, less_than, less_than_or_equal, exists, all, any, or not"
       end
   end).
Proof.
  unfold evaluate_leaf. change (match bt_get "value" object with Some v => Some v | None => bt_get "left" object end) with (leaf_left object).
  destruct (leaf_left object); [|reflexivity].
  cbv beta iota delta [find_compare compare_key ORDER]. cbn. destruct (resolve_with _ _ _ _); [|reflexivity].
  repeat match goal with
  | |- context [match bt_get ?k object with _ => _ end] => destruct (bt_get k object); [reflexivity|]
  end.
  reflexivity.
Qed.

Lemma leaf_twins v object : v = VObject object ->
  same_truth (evaluate_condition_node ev (condition_leaf v object) context env)
             (evaluate_leaf ev object context env).
Proof.
  intros Hv. rewrite leaf_chain. unfold condition_leaf, resolve_with, parse_expression.
  destruct (leaf_left object) as [l|]; cbn; [|apply same_truth_err].
  destruct (expr_parse l) as [el|] eqn:Hel; cbn; [|apply same_truth_err].
  destruct (find_compare ORDER object) as [[op r]|].
  - destruct (expr_parse r) as [er|]; cbn; [apply same_truth_refl|].
    destruct (ev el context env); cbn; apply same_truth_err.
  - destruct (bt_get "exists" object) as [x|]; cbn; [apply same_truth_refl|].
    destruct (_ && _); cbn; [apply same_truth_refl|].
    destruct (ev el context env); cbn; apply same_truth_err.
Qed.

Lemma condition_twins n v : value_size v <= n -> no_null (condition_parse v) = true ->
  same_truth (evaluate_condition_node ev (condition_parse v) context env)
             (evaluate_condition_inner ev n v context env).
Proof.
  revert v. induction n as [|n IH]; intros v Hn; [pose proof (value_size_pos v); lia|].
  rewrite condition_parse_unfold. destruct v as [|b|m|s|items|object]; cbn; try (intros _; apply same_truth_err).
  { done. }
  assert (Hitems : forall k items x, bt_get k object = Some (VArray items) -> In x items ->
    no_null (condition_parse x) = true ->
    same_truth (evaluate_condition_node ev (condition_parse x) context env) (evaluate_condition_inner ev n x context env)).
  { intros k items x Hk Hx. apply IH. pose proof (get_key_items_size k (VObject object) items x Hk Hx). lia. }
  destruct (bt_get "all" object) as [x|] eqn:H1.
  { destruct x as [| | | |items|]; try (intros _; apply same_truth_err). cbn. intros Hnn. specialize (Hitems "all" items).
    revert Hnn Hitems. rewrite H1. clear. intros Hnn Hitems.
    assert (Hin : forall x, In x items -> no_null (condition_parse x) = true ->
      same_truth (evaluate_condition_node ev (condition_parse x) context env) (evaluate_condition_inner ev n x context env))
      by (intros x Hx; by apply Hitems). clear Hitems.
    induction items as [|i items IHi]; cbn in *; [apply same_truth_refl|].
    apply andb_prop in Hnn as [Hi Hnn]. apply same_truth_if; [apply Hin; [by left|done]|].
    intros []; [|apply same_truth_refl]. apply IHi; [done|]. intros x Hx. apply Hin. by right. }
  destruct (bt_get "any" object) as [x|] eqn:H2.
  { destruct x as [| | | |items|]; try (intros _; apply same_truth_err). cbn. intros Hnn. specialize (Hitems "any" items).
    revert Hnn Hitems. rewrite H2. clear. intros Hnn Hitems.
    assert (Hin : forall x, In x items -> no_null (condition_parse x) = true ->
      same_truth (evaluate_condition_node ev (condition_parse x) context env) (evaluate_condition_inner ev n x context env))
      by (intros x Hx; by apply Hitems). clear Hitems.
    induction items as [|i items IHi]; cbn in *; [apply same_truth_refl|].
    apply andb_prop in Hnn as [Hi Hnn]. apply same_truth_if; [apply Hin; [by left|done]|].
    intros []; [apply same_truth_refl|]. apply IHi; [done|]. intros x Hx. apply Hin. by right. }
  destruct (bt_get "not" object) as [x|] eqn:H3.
  { cbn. intros Hnn. apply same_truth_if; [|intros; apply same_truth_refl].
    apply IH; [|done]. pose proof (get_key_size "not" (VObject object) x H3). lia. }
  intros _. by apply leaf_twins.
Qed.

End twins.

(** ** Expressions without calls terminate *)

(** The run does not need more fuel. *)
Definition answers {A} (r : eval A) : Prop := r <> Err OutOfFuel.

(** No object of the value is a call or an application. *)
Fixpoint call_free (v : Value) : bool :=
  match v with
  | VArray l => forallb call_free l
  | VObject m =>
      negb (bt_contains "$call" m) && negb (bt_contains "$apply" m) && forallb (fun kv => call_free kv.2) m
  | _ => true
  end.

Lemma answers_ok {A} (a : A) : answers (Ok a).
Proof. done. Qed.
Lemma answers_fail {A} message : answers (fail (A := A) message).
Proof. done. Qed.
Lemma answers_lift {A} (r : result WorkflowValidationError A) : answers (lift r).
Proof. by destruct r. Qed.

Lemma answers_bind {A B} (r : eval A) (f : A -> eval B) : answers r -> (forall a, answers (f a)) -> answers (r ≫= f).
Proof. intros Hr Hf. destruct r as [a|[]]; [apply Hf|by destruct Hr|done]. Qed.

Lemma answers_fmap {A B} (r : eval A) (f : A -> B) : answers r -> answers (f <$> r).
Proof. intros Hr. destruct r as [a|[]]; [done|by destruct Hr|done]. Qed.

Lemma answers_mapM {A B} (f : A -> eval B) l : (forall x, In x l -> answers (f x)) -> answers (mapM f l).
Proof.
  induction l as [|x l IH]; intros Hf; [done|]. cbn. apply answers_bind; [apply Hf; by left|]. intros y.
  apply answers_bind; [apply IH; intros z Hz; apply Hf; by right|]. done.
Qed.

Lemma answers_as_number `{Externals} v : answers (as_number v).
Proof. unfold as_number. by destruct (as_i64 v), (as_f64 v). Qed.

Lemma answers_float_value f : answers (float_value f).
Proof. unfold float_value. by destruct (f_is_finite f). Qed.

Lemma answers_or_zero message o : answers (or_zero_error message o).
Proof. by destruct o. Qed.

Lemma answers_compare op lft rgt : answers (apply_compare op lft rgt).
Proof.
  destruct op; cbn; try done; unfold contains_value, string_match, compare_value;
    repeat match goal with |- answers (match ?x with _ => _ end) => destruct x end; done.
Qed.

#[local] Hint Resolve answers_ok answers_fail answers_lift answers_as_number answers_float_value answers_or_zero : fuel.

Section loops_answer.
Context {EX : Externals} (ev : Evaluator) (context : Value) (env : EvalEnv).

Abbreviation items_answer items := (forall e, In e items -> answers (ev e context env)).

Lemma items_answer_cons e items : items_answer (e :: items) -> answers (ev e context env) /\ items_answer items.
Proof. intros H. split; [apply H; by left|]. intros x Hx. apply H. by right. Qed.

Lemma concat_answers items acc : items_answer items -> answers (concat_loop ev items context env acc).
Proof.
  revert acc. induction items as [|e items IH]; intros acc H; [done|]. apply items_answer_cons in H as [He H].
  cbn [concat_loop]. apply answers_bind; [done|]. intros []; try done. by apply IH.
Qed.

Lemma coalesce_answers items : items_answer items -> answers (coalesce_loop ev items context env).
Proof.
  induction items as [|e items IH]; intros H; [done|]. apply items_answer_cons in H as [He H].
  cbn [coalesce_loop]. apply answers_bind; [done|]. intros v. destruct (is_null v); [by apply IH|done].
Qed.

Lemma fold_numbers_answers iop fop items acc : (forall a b, answers (iop a b)) -> items_answer items ->
  answers (fold_numbers ev iop fop items context env acc).
Proof.
  intros Hop. revert acc. induction items as [|e items IH]; intros acc H; [done|]. apply items_answer_cons in H as [He H].
  cbn [fold_numbers]. apply answers_bind; [done|]. intros v. apply answers_bind; [auto with fuel|]. intros n.
  apply answers_bind; [destruct acc, n; try done; by apply answers_fmap|]. intros. by apply IH.
Qed.

Lemma fold_arith_answers items op iop fop : (forall a b, answers (iop a b)) -> items_answer items ->
  answers (fold_arith ev items context env op iop fop).
Proof.
  intros Hop H. unfold fold_arith. destruct items as [|e items]; [done|]. apply items_answer_cons in H as [He H].
  apply answers_bind; [done|]. intros v. apply answers_bind; [auto with fuel|]. intros n.
  apply answers_bind; [by apply fold_numbers_answers|]. intros []; auto with fuel.
Qed.
End loops_answer.

(** An expression in the form the serializer writes and the parser reads back, its wire
    form under a condition: without calls, ... *)
Definition canonical_for `{Externals} (wire : Value -> bool) (e : WorkflowExpression) : Prop :=
  expr_parse (expr_value e) = Ok e /\ literal_free (expr_value e) = true /\ wire (expr_value e) = true.

Definition canonical `{Externals} (e : WorkflowExpression) : Prop :=
  expr_parse (expr_value e) = Ok e /\ literal_free (expr_value e) = true /\ call_free (expr_value e) = true.

Lemma Forall2_diag {A} (R : A -> A -> Prop) l x : Forall2 R l l -> In x l -> R x x.
Proof.
  induction l as [|y l IH]; intros HF; [done|]. inversion HF; subst. intros [->|Hin]; [done|]. by apply IH.
Qed.

Section canonical_components.
Context {EX : Externals} (wire : Value -> bool).
Hypothesis wire_field : forall m k x, wire (VObject m) = true -> In (k, x) m -> wire x = true.
Hypothesis wire_item : forall l x, wire (VArray l) = true -> In x l -> wire x = true.
Abbreviation canonical := (canonical_for wire).

Lemma canonical_component e c k : canonical e -> expr_parse (expr_value c) = Ok c ->
  get_key k (expr_value e) = Some (expr_value c) ->
  canonical c /\ value_size (expr_value c) < value_size (expr_value e).
Proof.
  intros (_ & Hl & Hc) Hp Hk. pose proof (get_key_size _ _ _ Hk) as Hs. destruct (expr_value e) as [| | | | |m]; try done.
  split; [|done]. split; [done|]. split; [by apply (literal_free_get k m)|]. by eapply wire_field, bt_get_In.
Qed.

Lemma canonical_item e es k c : canonical e -> mapM expr_parse (map expr_value es) = Ok es ->
  get_key k (expr_value e) = Some (VArray (map expr_value es)) -> In c es ->
  canonical c /\ value_size (expr_value c) < value_size (expr_value e).
Proof.
  intros (_ & Hl & Hc) Hp Hk Hin. apply (in_map expr_value) in Hin as Hin'.
  pose proof (get_key_items_size _ _ _ _ Hk Hin') as Hs. split; [|done].
  assert (Hpc : expr_parse (expr_value c) = Ok c).
  { rewrite mapM_map in Hp. apply mapM_ok_Forall2 in Hp. exact (Forall2_diag _ _ _ Hp Hin). }
  destruct (expr_value e) as [| | | | |m]; try done. split; [done|].
  split; [eapply literal_free_item; [|done]; by apply (literal_free_get k m)|].
  eapply wire_item; [|exact Hin']. by eapply wire_field, bt_get_In.
Qed.

(** The components of each canonical form are what the parser read. *)
Ltac canonical_inv H step :=
  destruct H as [H _]; rewrite expr_parse_unfold in H; change step in H.

Lemma canonical_concat es : canonical (EConcat es) -> mapM expr_parse (map expr_value es) = Ok es.
Proof.
  intros H. canonical_inv H (EConcat <$> mapM expr_parse (map expr_value es) = Ok (EConcat es)).
  destruct (mapM _ _); [|done]. by injection H as ->.
Qed.

Lemma canonical_many (key : string) (f : list WorkflowExpression -> WorkflowExpression) e es :
  (key, f) ∈ (("$coalesce", ECoalesce) :: arith_ctors) -> canonical (f (e :: es)) ->
  mapM expr_parse (map expr_value (e :: es)) = Ok (e :: es) /\
  get_key key (expr_value (f (e :: es))) = Some (VArray (map expr_value (e :: es))).
Proof.
  unfold arith_ctors. rewrite !elem_of_cons, elem_of_nil. intros Hin H.
  destruct Hin as [[= -> ->]|[[= -> ->]|[[= -> ->]|[[= -> ->]|[[= -> ->]|[[= -> ->]|[]]]]]]]; (split; [|reflexivity]);
    (match goal with H : canonical (?g _) |- _ =>
       canonical_inv H (g <$> mapM expr_parse (map expr_value (e :: es)) = Ok (g (e :: es))) end);
    (destruct (mapM expr_parse (map expr_value (e :: es))); [|done]); by injection H as ->.
Qed.

Lemma canonical_single (key : string) (f : WorkflowExpression -> WorkflowExpression) e :
  (key, f) ∈ [("$neg", ENeg); ("$to_string", EToString); ("$to_json_string", EToJsonString)] ->
  canonical (f e) -> canonical e /\ value_size (expr_value e) < value_size (expr_value (f e)).
Proof.
  rewrite !elem_of_cons, elem_of_nil. intros Hin H.
  destruct Hin as [[= -> ->]|[[= -> ->]|[[= -> ->]|[]]]];
    (match goal with H : canonical (?g _) |- _ =>
       pose proof H as Hc; canonical_inv H (g <$> expr_parse (expr_value e) = Ok (g e)) end);
    (destruct (expr_parse (expr_value e)) as [e'|] eqn:He; [|done]); injection H as ->.
  - by apply (canonical_component (ENeg e) e "$neg").
  - by apply (canonical_component (EToString e) e "$to_string").
  - by apply (canonical_component (EToJsonString e) e "$to_json_string").
Qed.

Lemma canonical_cond c t o : canonical (ECond c t o) ->
  expr_parse (expr_value c) = Ok c /\ expr_parse (expr_value t) = Ok t /\ expr_parse (expr_value o) = Ok o.
Proof.
  intros H. canonical_inv H ((c' ← expr_parse (expr_value c); t' ← expr_parse (expr_value t);
    o' ← expr_parse (expr_value o); Ok (ECond c' t' o')) = Ok (ECond c t o)).
  destruct (expr_parse (expr_value c)); [|done]. cbn in H.
  destruct (expr_parse (expr_value t)); [|done]. cbn in H.
  destruct (expr_parse (expr_value o)); [|done]. by injection H as -> -> ->.
Qed.

Lemma canonical_array l x : canonical (ELiteral (VArray l)) -> In x l ->
  exists e, expr_parse x = Ok e /\ canonical e /\ value_size (expr_value e) < value_size (VArray l).
Proof.
  intros (H & Hl & Hc) Hin. cbn [expr_value] in *. rewrite expr_parse_unfold in H. cbn [expr_parse_step] in H.
  apply bind_ok in H as (l' & H & [= ->]). apply mapM_ok_Forall2 in H.
  pose proof (Forall2_diag _ _ _ H Hin) as Hx. cbn in Hx.
  destruct (expr_parse x) as [e|] eqn:He; [|done]. injection Hx as Hx. exists e. split; [done|].
  unfold canonical_for. rewrite Hx. split; [split; [done|split]|].
  - by apply (literal_free_item l).
  - by apply (wire_item l).
  - rewrite size_array. pose proof (In_value_size x l Hin). lia.
Qed.

Lemma arith_not_literal ctors go v object lit : ctors ⊆ arith_ctors ->
  parse_arith go ctors v object <> Some (Ok (ELiteral lit)).
Proof.
  induction ctors as [|[k f] ctors IH]; intros Hsub; cbn; [done|].
  destruct (bt_get k object) as [x|]; [|apply IH; intros z Hz; apply Hsub; by right].
  assert (Hf : (k, f) ∈ arith_ctors) by (apply Hsub; left).
  unfold arith_ctors in Hf. rewrite !elem_of_cons, elem_of_nil in Hf.
  destruct (non_empty_items v x) as [items|]; [|done]. cbn. destruct (mapM go items); [|done]. cbn.
  destruct Hf as [[= -> ->]|[[= -> ->]|[[= -> ->]|[[= -> ->]|[[= -> ->]|[]]]]]]; done.
Qed.

Lemma operator_not_literal v object lit : match bt_get "$literal" object with Some _ => true | None => false end = false ->
  parse_operator expr_parse v object <> Ok (ELiteral lit).
Proof.
  intros Hl H. unfold parse_operator in H. destruct (negb _); [done|].
  destruct (bt_get "$ref" object) as [x|]; [by destruct (ref_parse x)|].
  destruct (parse_arith _ _ _ _) as [r|] eqn:Ha; [subst r; by eapply arith_not_literal in Ha|].
  destruct (bt_get "$neg" object) as [x|]; [by destruct (expr_parse x)|].
  destruct (bt_get "$concat" object) as [x|].
  { apply bind_ok in H as (items & _ & H). by destruct (mapM expr_parse items). }
  destruct (bt_get "$coalesce" object) as [x|].
  { apply bind_ok in H as (items & _ & H). by destruct (mapM expr_parse items). }
  destruct (bt_get "$literal" object); [done|].
  destruct (bt_get "$to_string" object) as [x|]; [by destruct (expr_parse x)|].
  destruct (bt_get "$to_json_string" object) as [x|]; [by destruct (expr_parse x)|done].
Qed.

Lemma canonical_object m k x : canonical (ELiteral (VObject m)) -> In (k, x) m ->
  exists e, expr_parse x = Ok e /\ canonical e /\ value_size (expr_value e) < value_size (VObject m).
Proof.
  intros (H & Hl & Hc) Hin. cbn [expr_value] in *. rewrite expr_parse_unfold in H. cbn [expr_parse_step] in H.
  assert (Hobj : parse_object expr_parse m = Ok (ELiteral (VObject m))).
  { apply andb_prop in Hl as [Hlit%negb_true_iff _]. unfold bt_contains in Hlit.
    unfold parse_map in H. destruct (bt_contains "$value" m); [done|].
    destruct (bt_contains "$call" m); [unfold parse_call in H; repeat (case_hyp H; try done); by destruct (parse_args _ _ _)|].
    destruct (bt_contains "$apply" m).
    { unfold parse_apply in H. destruct (negb _); [done|]. by apply bind_ok in H as (? & _ & (? & _ & (? & _ & [=])%bind_ok)%bind_ok). }
    destruct (bt_contains "$lambda" m).
    { unfold parse_lambda in H. destruct (negb _); [done|].
      apply bind_ok in H as (? & _ & (? & _ & (? & _ & (? & _ & H)%bind_ok)%bind_ok)%bind_ok). by destruct (expr_parse _). }
    destruct (bt_contains "$if" m).
    { unfold parse_cond in H. destruct (negb _); [done|]. by apply bind_ok in H as (? & _ & (? & _ & (? & _ & [=])%bind_ok)%bind_ok). }
    destruct (existsb _ OPERATOR_KEYS); [|done]. exfalso. by eapply (operator_not_literal (VObject m) m). }
  unfold parse_object in Hobj. apply bind_ok in Hobj as (fields & Hf & [= Hm]).
  pose proof Hf as HF. apply mapM_ok_Forall2 in HF.
  assert (Hsorted : sorted fields).
  { pose proof (fields_same_keys m fields Hf) as Hkeys. unfold sorted. rewrite Hkeys, <- Hm. apply sorted_from_list. }
  rewrite bt_from_list_sorted in Hm by done. subst fields.
  pose proof (Forall2_diag _ _ _ HF Hin) as Hx. cbn in Hx.
  destruct (expr_parse x) as [e|] eqn:He; [|done]. injection Hx as Hx. exists e. split; [done|].
  unfold canonical_for. rewrite Hx. split; [split; [done|split]|].
  - apply andb_prop in Hl as [_ Hall]. by apply (forallb_In' (fun kv => literal_free kv.2) m (k, x)).
  - by apply (wire_field m k).
  - rewrite size_object. pose proof (In_value_size_obj k x m Hin). lia.
Qed.

Lemma canonical_call name args : canonical (ECall name args) -> mapM expr_parse (map expr_value args) = Ok args.
Proof.
  intros H. canonical_inv H (ECall name <$> mapM expr_parse (map expr_value args) = Ok (ECall name args)).
  destruct (mapM _ _); [|done]. by injection H as ->.
Qed.

(** One step answers when the components do: the items, branches and operands of the
    expression are canonical and smaller.  Calls and applications are left to the caller. *)
Lemma step_answers ev e context env : canonical e ->
  (forall c, canonical c -> value_size (expr_value c) < value_size (expr_value e) -> answers (ev c context env)) ->
  (forall name args, e = ECall name args -> answers (evaluate_call ev name args context env)) ->
  (forall callee args, e <> EApply callee args) ->
  answers (evaluate_step ev e context env).
Proof.
  intros He IH Hcall Happly.
  assert (Hmany : forall key f c es, (key, f) ∈ (("$coalesce", ECoalesce) :: arith_ctors) -> e = f (c :: es) ->
    forall x, In x (c :: es) -> answers (ev x context env)).
  { intros key f c es Hf -> x Hx. destruct (canonical_many key f c es Hf He) as [Hp Hk].
    destruct (canonical_item _ _ _ _ He Hp Hk Hx). by apply IH. }
  destruct e as [v|r|es|es|e|e|es|es|es|es|es|e|name es|ps b|c es|c t o]; cbn [evaluate_step].
  - destruct v as [| | | |l|m]; try done.
    + apply answers_fmap, answers_mapM. intros x Hx. destruct (canonical_array l x He Hx) as (e & Hp & Hc & Hs).
      unfold resolve_with, parse_expression. rewrite Hp. cbn. by apply IH.
    + apply answers_bind; [|done]. apply answers_mapM. intros [k x] Hx. destruct (canonical_object m k x He Hx) as (e & Hp & Hc & Hs).
      apply answers_fmap. unfold resolve_with, parse_expression. cbn [snd]. rewrite Hp. cbn. by apply IH.
  - apply answers_lift.
  - apply concat_answers. intros x Hx.
    destruct (canonical_item _ _ "$concat" _ He (canonical_concat es He) eq_refl Hx). by apply IH.
  - destruct es as [|c es]; [done|]. apply coalesce_answers. apply (Hmany "$coalesce" ECoalesce); [left|done].
  - destruct (canonical_single "$to_string" EToString e); [right; left|done|].
    apply answers_bind; [by apply IH|]. by intros [].
  - destruct (canonical_single "$to_json_string" EToJsonString e); [right; right; left|done|].
    apply answers_bind; [by apply IH|]. by intros [].
  - destruct es as [|c es]; [done|]. apply fold_arith_answers; [done|]. apply (Hmany "$add" EAdd); [right; left|done].
  - destruct es as [|c es]; [done|]. apply fold_arith_answers; [done|]. apply (Hmany "$sub" ESub); [right; right; left|done].
  - destruct es as [|c es]; [done|]. apply fold_arith_answers; [done|]. apply (Hmany "$mul" EMul); [do 3 right; left|done].
  - destruct es as [|c es]; [done|]. apply fold_arith_answers; [intros; apply answers_or_zero|].
    apply (Hmany "$div" EDiv); [do 4 right; left|done].
  - destruct es as [|c es]; [done|]. apply fold_arith_answers; [intros; apply answers_or_zero|].
    apply (Hmany "$mod" EMod); [do 5 right; left|done].
  - destruct (canonical_single "$neg" ENeg e); [left|done|].
    apply answers_bind; [by apply IH|]. intros v. apply answers_bind; [apply answers_as_number|].
    intros []; [done|apply answers_float_value].
  - by apply Hcall.
  - done.
  - by destruct (Happly c es).
  - destruct (canonical_cond c t o He) as (Hc & Ht & Ho).
    destruct (canonical_component _ c "$if" He Hc eq_refl), (canonical_component _ t "then" He Ht eq_refl),
      (canonical_component _ o "else" He Ho eq_refl).
    apply answers_bind; [by apply IH|]. intros v. destruct (expr_truthy v); by apply IH.
Qed.

End canonical_components.

Lemma call_free_field m k x : call_free (VObject m) = true -> In (k, x) m -> call_free x = true.
Proof. intros [_ H]%andb_prop Hin. by apply (forallb_In' (fun kv => call_free kv.2) m (k, x)). Qed.

Lemma call_free_item l x : call_free (VArray l) = true -> In x l -> call_free x = true.
Proof. intros H Hin. by apply (forallb_In' call_free l). Qed.

Lemma eval_answers `{Externals} context env n e : canonical e -> value_size (expr_value e) <= n ->
  answers (eval_fuel n e context env).
Proof.
  revert e. induction n as [|n IH]; intros e He Hn; [pose proof (value_size_pos (expr_value e)); lia|].
  cbn [eval_fuel]. apply (step_answers call_free call_free_field call_free_item); [done| | |].
  - intros c Hc Hs. apply IH; [done|lia].
  - intros name args ->. destruct He as (_ & _ & Hc). discriminate Hc.
  - intros callee args ->. destruct He as (_ & _ & Hc). discriminate Hc.
Qed.

(** ** First-order programs are bounded by the call depth *)

(** ... or with calls to the named callees only, none of them higher-order, and no
    applications. *)
Fixpoint first_order (callees : list string) (v : Value) : bool :=
  match v with
  | VArray l => forallb (first_order callees) l
  | VObject m =>
      match bt_get "$call" m with
      | Some (VString name) => one_of name callees && negb (is_higher_order name)
      | Some _ => false
      | None => true
      end && negb (bt_contains "$apply" m) && forallb (fun kv => first_order callees kv.2) m
  | _ => true
  end.

Lemma first_order_field callees m k x : first_order callees (VObject m) = true -> In (k, x) m -> first_order callees x = true.
Proof. intros [_ H]%andb_prop Hin. by apply (forallb_In' (fun kv => first_order callees kv.2) m (k, x)). Qed.

Lemma first_order_item callees l x : first_order callees (VArray l) = true -> In x l -> first_order callees x = true.
Proof. intros H Hin. by apply (forallb_In' (first_order callees) l). Qed.

Section first_order_programs.
Context {EX : Externals} (callees : list string) (bound : nat).

(** An expression of a function body: first-order, and its wire form within the bound. *)
Definition bounded_expr (e : WorkflowExpression) : Prop :=
  canonical_for (first_order callees) e /\ value_size (expr_value e) <= bound.

Fixpoint bounded_condition (node : ConditionNode) : Prop :=
  match node with
  | CAll items | CAny items => foldr (fun item acc => bounded_condition item /\ acc) True items
  | CNot inner => bounded_condition inner
  | CCompare lft _ rgt => bounded_expr lft /\ bounded_expr rgt
  | CExists lft _ | CTruthy lft => bounded_expr lft
  | COther _ => True
  end.

(** No statement rebinds a callee. *)
Fixpoint bounded_statement (s : ComputeStmt) : Prop :=
  match s with
  | SLet name value => one_of name callees = false /\ bounded_expr value
  | SReturn expr | SExpr expr => bounded_expr expr
  | SGoto _ => True
  | SIf condition thn els =>
      bounded_condition condition /\ foldr (fun s acc => bounded_statement s /\ acc) True thn /\
      foldr (fun s acc => bounded_statement s /\ acc) True els
  end.

Definition bounded_block (l : list ComputeStmt) : Prop := foldr (fun s acc => bounded_statement s /\ acc) True l.

Definition bounded_function (f : RuntimeFunction) : Prop :=
  Forall (fun p => one_of p callees = false) (fn_params f) /\
  match fn_body f with BodyExpr e => bounded_expr e | BodyProgram p => bounded_block p end.

(** No callee is a local closure. *)
Definition no_local_callees (context : Value) : Prop :=
  forall name, one_of name callees = true -> local_closure name context = None.

Lemma one_of_false_ne name other : one_of name callees = false -> one_of other callees = true -> other <> name.
Proof. intros Hn Ho ->. by rewrite Ho in Hn. Qed.

Lemma set_local_callees context name value : one_of name callees = false -> no_local_callees context ->
  no_local_callees (set_local context name value).
Proof.
  intros Hn H other Ho. specialize (H other Ho). unfold set_local. destruct context as [| | | | |m]; try done.
  destruct (bt_get "let" m) as [[| | | | |locals]|] eqn:Hm; try done. unfold local_closure in *. cbn [get_key] in *.
  rewrite bt_get_insert_eq. rewrite Hm in H. cbn [get_key] in *.
  by rewrite bt_get_insert_ne by by apply (one_of_false_ne name).
Qed.

Lemma params_callees params values : Forall (fun p => one_of p callees = false) params ->
  no_local_callees (VObject (bt_from_list [("let", VObject (bind_params params values []))])).
Proof.
  intros Hp name Hname. unfold local_closure. cbn. unfold bind_params. rewrite bt_get_extend_not_in; [done|].
  intros Hin%in_map_iff. destruct Hin as ([k x] & <- & Hin%in_combine_l). cbn in Hname.
  rewrite List.Forall_forall in Hp. by rewrite (Hp k Hin) in Hname.
Qed.

Section block.
Context (ev : Evaluator) (env : EvalEnv).
Hypothesis Hev : forall e context, bounded_expr e -> no_local_callees context -> answers (ev e context env).

Lemma bounded_condition_answers node context : bounded_condition node -> no_local_callees context ->
  answers (evaluate_condition_node ev node context env).
Proof.
  intros Hb Hc. revert node Hb. fix IH 1.
  intros [items|items|inner|lft op rgt|lft expected|lft|value]; cbn [evaluate_condition_node bounded_condition].
  - induction items as [|item items IHi]; [done|]. intros [Hi Hs].
    apply answers_bind; [by apply IH|]. intros []; [by apply IHi|done].
  - induction items as [|item items IHi]; [done|]. intros [Hi Hs].
    apply answers_bind; [by apply IH|]. intros []; [done|by apply IHi].
  - intros Hi. apply answers_bind; [by apply IH|]. done.
  - intros [Hl Hr]. apply answers_bind; [by apply Hev|]. intros l. apply answers_bind; [by apply Hev|]. intros r.
    apply answers_compare.
  - intros Hl. apply answers_bind; [by apply Hev|]. done.
  - intros Hl. apply answers_bind; [by apply Hev|]. done.
  - done.
Qed.

(** A block answers, and hands on a context without local callees. *)
Definition block_answers (r : eval (Value * option ComputeOutcome)) : Prop :=
  match r with Ok (context, _) => no_local_callees context | Err e => e <> OutOfFuel end.

Lemma block_answers_bind {A} (r : eval A) f : answers r -> (forall a, block_answers (f a)) -> block_answers (r ≫= f).
Proof. intros Hr Hf. destruct r as [a|e]; [apply Hf|]. cbn. intros ->. by apply Hr. Qed.

Lemma continue_answers r k : block_answers r -> (forall c, no_local_callees c -> block_answers (k c)) ->
  block_answers (continue_with r k).
Proof. intros Hr Hk. destruct r as [[c [o|]]|e]; cbn in *; [done|by apply Hk|done]. Qed.

Lemma bounded_statement_answers s context : bounded_statement s -> no_local_callees context ->
  block_answers (run_statement ev s context env).
Proof.
  revert s context. fix IH 1. intros [name value|expr|target|condition t e|expr] context; cbn [run_statement bounded_statement].
  - intros [Hn Hv] Hc. apply block_answers_bind; [by apply Hev|]. intros v. by apply set_local_callees.
  - intros He Hc. apply block_answers_bind; [by apply Hev|]. by intros v.
  - done.
  - intros (Hcond & Ht & He) Hc. apply block_answers_bind; [by apply bounded_condition_answers|]. intros b.
    assert (Hb : foldr (fun s acc => bounded_statement s /\ acc) True (if b then t else e)) by by destruct b.
    revert context Hc Hb. generalize (if b then t else e). fix IHb 1. intros [|s l] c Hc; [done|]. intros [Hs Hl].
    apply continue_answers; [by apply IH|]. intros c' Hc'. by apply IHb.
  - intros He Hc. apply block_answers_bind; [by apply Hev|]. by intros v.
Qed.

Lemma bounded_block_answers l context : bounded_block l -> no_local_callees context ->
  block_answers (run_block ev l context env).
Proof.
  revert context. induction l as [|s l IH]; intros context; [done|]. intros [Hs Hl] Hc.
  apply continue_answers; [by apply bounded_statement_answers|]. intros c Hc'. by apply IH.
Qed.
End block.

End first_order_programs.

(** The user calls an environment still allows below the depth limit. *)
Definition calls_left (env : EvalEnv) : nat := Z.to_nat (MAX_CALL_DEPTH - depth env).

Section bounded_recursion.
Context {EX : Externals} (callees : list string) (bound : nat) (table : FunctionTable).
Hypothesis table_bounded : forall name f, bt_get name table = Some f -> bounded_function callees bound f.

Abbreviation canonical := (canonical_for (first_order callees)).

(** A call to a user function answers when its body does one level deeper. *)
Lemma invoke_answers ev name f values env : bounded_function callees bound f ->
  ((depth env < MAX_CALL_DEPTH)%Z -> forall e context, bounded_expr callees bound e -> no_local_callees callees context ->
     answers (ev e context (deeper env))) ->
  answers (invoke_user_function ev name f values env).
Proof.
  intros [Hparams Hbody] Hev. unfold invoke_user_function. destruct (Z.leb_spec MAX_CALL_DEPTH (depth env)) as [|Hd]; [done|].
  specialize (Hev Hd). destruct (match fn_max_depth f with Some max => (max <=? depth env)%Z | None => false end); [done|].
  pose proof (params_callees callees (fn_params f) values Hparams) as Hscope.
  destruct (fn_body f) as [e|program]; [by apply Hev|].
  pose proof (bounded_block_answers callees bound ev (deeper env) Hev program _ Hbody Hscope) as Hblock.
  destruct (run_block _ _ _ _) as [[c o]|e]; cbn in *; [|by intros [= ->]]. by destruct o as [[]|].
Qed.

Lemma recursion_answers n e context env : functions env = Some table -> canonical e -> no_local_callees callees context ->
  value_size (expr_value e) + calls_left env * bound <= n -> answers (eval_fuel n e context env).
Proof.
  revert e context env. induction n as [|n IH]; intros e context env Htable He Hcontext Hn;
    [pose proof (value_size_pos (expr_value e)); lia|].
  assert (Hsmaller : forall c, canonical c -> value_size (expr_value c) < value_size (expr_value e) ->
    answers (eval_fuel n c context env)) by (intros c Hc Hs; apply IH; [done..|lia]).
  cbn [eval_fuel]. apply (step_answers _ (first_order_field callees) (first_order_item callees)); [done|done| |].
  - intros name args ->. pose proof (canonical_call _ _ _ He) as Hargs.
    assert (Hvalues : answers (mapM (fun arg => eval_fuel n arg context env) args)).
    { apply answers_mapM. intros x Hx.
      destruct (canonical_item _ (first_order_field callees) (first_order_item callees) _ _ "args" x He Hargs eq_refl Hx).
      by apply Hsmaller. }
    destruct He as (_ & _ & Hfo). change (one_of name callees && negb (is_higher_order name) && true &&
      forallb (fun kv => first_order callees kv.2) [("$call", VString name); ("args", VArray (map expr_value args))] = true) in Hfo.
    apply andb_prop in Hfo as [Hfo _]. apply andb_prop in Hfo as [Hfo _]. apply andb_prop in Hfo as [Hname Hho%negb_true_iff].
    unfold evaluate_call. rewrite Hho, (Hcontext name Hname).
    destruct (lookup_function env name) as [f|] eqn:Hf.
    + apply answers_bind; [done|]. intros values. unfold lookup_function in Hf. rewrite Htable in Hf.
      apply invoke_answers; [by eapply table_bounded|]. intros Hd body scope [Hb Hsize] Hscope.
      apply IH; [done..|]. unfold calls_left in *. cbn [deeper depth].
      replace (Z.to_nat (MAX_CALL_DEPTH - depth env)) with (S (Z.to_nat (MAX_CALL_DEPTH - (depth env + 1)))) in Hn by lia.
      pose proof (value_size_pos (expr_value (ECall name args))). lia.
    + apply answers_bind; [by destruct (lib env)|]. intros l. apply answers_bind; [done|]. intros values. apply answers_lift.
  - intros callee args ->. destruct He as (_ & _ & Hfo). discriminate Hfo.
Qed.

(** A compute block over the table. *)
Lemma program_answers n program context l : bounded_block callees bound program -> no_local_callees callees context ->
  bound + calls_left (env_new (Some l) (Some table)) * bound <= n ->
  answers (run_program_with (eval_fuel n) program context l (Some table)).
Proof.
  intros Hp Hcontext Hn. unfold run_program_with.
  assert (Hslot : no_local_callees callees (ensure_local_slot context)).
  { intros name Hname. specialize (Hcontext name Hname). destruct context as [| | | | |m]; try done.
    unfold ensure_local_slot. destruct (bt_get "let" m) as [[| | | | |locals]|] eqn:Hm; try done;
      unfold local_closure; cbn [get_key]; by rewrite bt_get_insert_eq. }
  assert (Hev : forall e c, bounded_expr callees bound e -> no_local_callees callees c ->
    answers (eval_fuel n e c (env_new (Some l) (Some table)))).
  { intros e c [He Hs] Hc. apply recursion_answers; [done..|lia]. }
  pose proof (bounded_block_answers callees bound _ _ Hev program _ Hp Hslot) as Hblock.
  destruct (run_block _ _ _ _) as [[c o]|e]; cbn in *; [done|by intros [= ->]].
Qed.
End bounded_recursion.

(** ** Closure application is not bounded *)

(** [(fun f -> f(f))], and its application to itself, written in the wire form. *)
Definition self_apply : WorkflowExpression :=
  ELambda ["f"] (ECall "f" [ERef (mk_ref SrcLocal [Key "f"])]).
Definition omega : WorkflowExpression := EApply self_apply [self_apply].

Section omega.
Context {EX : Externals} (env : EvalEnv).

Definition omega_body : WorkflowExpression := ECall "f" [ERef (mk_ref SrcLocal [Key "f"])].
Definition self_closure : Value := make_closure ["f"] omega_body (VObject []).
Definition omega_scope : Value := VObject [("let", VObject [("f", self_closure)])].

Lemma omega_body_diverges n : eval_fuel n omega_body omega_scope env = Err OutOfFuel.
Proof.
  induction n as [|n IH]; [done|]. cbn [eval_fuel].
  destruct n as [|n]; [reflexivity|].
  transitivity (values ← mapM (fun arg => eval_fuel (S n) arg omega_scope env) [ERef (mk_ref SrcLocal [Key "f"])];
    apply_lambda_over (eval_fuel (S n)) ["f"] omega_body (Some empty_object) values omega_scope env); [reflexivity|].
  transitivity (eval_fuel (S n) omega_body omega_scope env); [reflexivity|exact IH].
Qed.

Lemma omega_diverges n : eval_fuel n omega (VObject []) env = Err OutOfFuel.
Proof.
  destruct n as [|n]; [done|]. destruct n as [|n]; [done|]. cbn [eval_fuel].
  transitivity (eval_fuel (S n) omega_body omega_scope env); [reflexivity|]. apply omega_body_diverges.
Qed.

End omega.

(** ** Input defaults settle and overwrite nothing *)

Section defaults_facts.
Context (resolve : Value -> Value -> eval Value).

(** [c'] extends [c]: same entries outside [input], and every provided input kept. *)
Definition extends_input (c c' : Value) : Prop :=
  (forall k, k <> "input" -> get_key k c' = get_key k c) /\
  (forall k, input_present c k = true ->
     (get_key "input" c' ≫= get_key k) = (get_key "input" c ≫= get_key k)).

Lemma extends_input_refl c : extends_input c c.
Proof. done. Qed.

Lemma input_present_iff c k : input_present c k = true <-> exists v, (get_key "input" c ≫= get_key k) = Some v.
Proof. unfold input_present. destruct (get_key "input" c) as [i|]; cbn; [|naive_solver]. destruct (get_key k i); naive_solver. Qed.

Lemma extends_input_trans a b c : extends_input a b -> extends_input b c -> extends_input a c.
Proof.
  intros [Hab Iab] [Hbc Ibc]. split.
  - intros k Hk. by rewrite Hbc, Hab.
  - intros k Hk. rewrite Ibc; [by apply Iab|]. apply input_present_iff. rewrite Iab by done. by apply input_present_iff.
Qed.

Lemma insert_input_get c name v c' k : insert_input c name v = Some c' ->
  (get_key "input" c' ≫= get_key k) = if String.eqb k name then Some v else get_key "input" c ≫= get_key k.
Proof.
  unfold insert_input. destruct c as [| | | | |m]; try done.
  destruct (bt_get "input" m) as [[| | | | |i]|] eqn:Hi; try done. intros [= <-]. cbn [get_key].
  rewrite bt_get_insert_eq, Hi. cbn. apply bt_get_insert.
Qed.

Lemma insert_input_extends c name v c' : input_present c name = false -> insert_input c name v = Some c' -> extends_input c c'.
Proof.
  intros Hn Hc. split.
  - intros k Hk. unfold insert_input in Hc. destruct c as [| | | | |m]; try done.
    destruct (bt_get "input" m) as [[| | | | |i]|]; try done. injection Hc as <-. by apply bt_get_insert_ne.
  - intros k Hk. rewrite (insert_input_get _ _ _ _ k Hc). destruct (String.eqb_spec k name) as [e|]; [|done].
    rewrite e, Hn in Hk. done.
Qed.

(** The fields still missing. *)
Definition missing (fields : btree RuninatorField) (c : Value) : nat :=
  length (List.filter (fun kf => negb (input_present c kf.1)) fields).

Lemma missing_mono fields c c' : (forall k, input_present c k = true -> input_present c' k = true) ->
  missing fields c' <= missing fields c.
Proof.
  intros H. unfold missing. induction fields as [|[k f] fields IH]; cbn; [lia|].
  pose proof (H k). destruct (input_present c k), (input_present c' k); cbn; naive_solver lia.
Qed.

Lemma missing_strict fields c c' k f : (forall k, input_present c k = true -> input_present c' k = true) ->
  In (k, f) fields -> input_present c k = false -> input_present c' k = true -> missing fields c' < missing fields c.
Proof.
  intros H Hin Hc Hc'. induction fields as [|[j g] fields IH]; [done|].
  pose proof (missing_mono fields c c' H) as Hm. unfold missing in *. cbn. destruct Hin as [[= -> ->]|Hin].
  - rewrite Hc, Hc'. cbn. lia.
  - specialize (IH Hin). pose proof (H j). destruct (input_present c j), (input_present c' j); cbn; naive_solver lia.
Qed.

Lemma extends_present c c' k : extends_input c c' -> input_present c k = true -> input_present c' k = true.
Proof. intros [_ H] Hk. apply input_present_iff. rewrite H by done. by apply input_present_iff. Qed.

Lemma pass_extends l all c b : (forall kf, In kf l -> In kf all) ->
  let r := foldl (default_field resolve) (c, b) l in
  extends_input c r.1 /\ (r.2 = true -> b = true \/ missing all r.1 < missing all c).
Proof.
  revert c b. induction l as [|[k f] l IH]; intros c b Hall; cbn [foldl]; [split; [apply extends_input_refl|by left]|].
  assert (Hl : forall kf, In kf l -> In kf all) by (intros kf Hkf; apply Hall; by right).
  assert (Hsame := IH c b Hl).
  destruct (default_field resolve (c, b) (k, f)) as [c1 b1] eqn:Hf. unfold default_field in Hf. cbn [fst snd] in Hf.
  destruct (default f) as [d|]; [|by injection Hf as <- <-].
  destruct (input_present c k) eqn:Hp; [by injection Hf as <- <-|].
  destruct (resolve d c) as [v|]; [|by injection Hf as <- <-].
  destruct (insert_input c k v) as [c'|] eqn:Hi; [|by injection Hf as <- <-]. injection Hf as <- <-.
  destruct (IH c' true Hl) as [He Hr]. pose proof (insert_input_extends _ _ _ _ Hp Hi) as Hci.
  split; [by eapply extends_input_trans|]. intros _. right.
  eapply Nat.le_lt_trans; [apply (missing_mono all c'); intros j; by apply extends_present|].
  apply (missing_strict all c c' k f); [intros j; by apply extends_present|apply Hall; by left|done|].
  apply input_present_iff. rewrite (insert_input_get _ _ _ _ k Hi), String.eqb_refl. by eexists.
Qed.

Lemma default_loop_settles fields n c : missing fields c < n ->
  extends_input c (default_loop resolve n fields c) /\
  (default_pass resolve fields (default_loop resolve n fields c)).2 = false.
Proof.
  revert c. induction n as [|n IH]; intros c Hn; [lia|]. cbn [default_loop].
  destruct (pass_extends fields fields c false (fun _ H => H)) as [He Hr]. unfold default_pass at 1 3.
  destruct (foldl (default_field resolve) (c, false) fields) as [c' []] eqn:Hp; cbn in *.
  - destruct (Hr eq_refl) as [|Hlt]; [done|]. destruct (IH c') as [H1 H2]; [lia|].
    split; [by eapply extends_input_trans|done].
  - split; [done|]. assert (Hsame : c' = c).
    { revert Hp. clear. assert (Hmono : forall l (c : Value) b c' b', foldl (default_field resolve) (c, b) l = (c', b') ->
        b' = false -> c' = c /\ b = false).
      { intros l. induction l as [|kf l IH]; intros c0 b c0' b' Hp Hb; cbn [foldl] in Hp; [by injection Hp as <- <-|].
        destruct (default_field resolve (c0, b) kf) as [c1 b1] eqn:Hf. apply IH in Hp as [-> ->]; [|done].
        unfold default_field in Hf. repeat (case_hyp Hf; try done); by injection Hf as <- <-. }
      intros Hp. by apply Hmono in Hp as [-> _]. }
    subst c'. unfold default_pass. by rewrite Hp.
Qed.

End defaults_facts.

(** ** Properties *)

(** Evaluation is deterministic in its fuel: a run that does not run out of fuel gives
    the same answer, value or error, with any larger fuel. *)
Lemma eval_fuel_irrelevant `{Externals} n m e context env :
  n <= m -> eval_fuel n e context env <> Err OutOfFuel -> eval_fuel m e context env = eval_fuel n e context env.
Proof. intros Hm Hn. by destruct (eval_fuel_le n m e context env Hm). Qed.

(** C5: The typed condition tree and the untyped evaluator agree: when no sub-condition is
    null, one returns a truth value exactly when the other returns the same one. *)
Theorem condition_evaluators_agree `{Externals} ev v context env b :
  no_null (condition_parse v) = true ->
  evaluate_condition_node ev (condition_parse v) context env = Ok b <->
  evaluate_condition_inner ev (value_size v) v context env = Ok b.
Proof. intros Hn. by apply condition_twins. Qed.

Lemma condition_evaluators_agree_witness :
  let v := single "not" (VObject [("equals", value_from_i64 2); ("value", value_from_i64 1)]) in
  evaluate_condition_inner (EX := externals_stub) (eval_fuel (H := externals_stub) 3) (value_size v) v VNull (lib_only None) = Ok true.
Proof. cbv zeta. apply condition_evaluators_agree; reflexivity. Defined.

(** On a null sub-condition they do not: the untyped evaluator takes it as true, the
    typed one fails, although the comments promise the same results. *)
Theorem null_condition_diverges `{Externals} ev context env :
  let v := single "all" (VArray [VNull]) in
  evaluate_condition_inner ev (value_size v) v context env = Ok true /\
  evaluate_condition_node ev (condition_parse v) context env
    = Err (Failed (InvalidCondition "condition object is not a recognized shape")).
Proof. cbv zeta. split; [reflexivity|]. rewrite condition_parse_unfold. reflexivity. Qed.

(** The overflowing quotient of [i64] is reported as a division by zero. *)
Theorem div_overflow_reported_as_zero `{Externals} context env :
  eval_fuel 2 (EDiv [ELiteral (value_from_i64 i64_min); ELiteral (value_from_i64 (-1))]) context env
  = Err (Failed (InvalidValueRef "division by zero")).
Proof. reflexivity. Qed.

(** C33: Applying a closure to itself runs forever: the self-application parses from its
    wire form, and no amount of fuel evaluates it, in any environment.  The depth
    limit of 1024 calls only counts user-defined functions. *)
Theorem closure_recursion_unbounded `{Externals} env :
  expr_parse (expr_value omega) = Ok omega /\
  forall n, eval_fuel n omega (VObject []) env = Err OutOfFuel.
Proof. split; [reflexivity|]. intros n. apply omega_diverges. Qed.

(** C32: Expressions without calls terminate: a canonical expression (one the serializer
    writes and the parser reads back, without [$literal], [$call] or [$apply]) is
    evaluated by fuel equal to the size of its wire form, in every context. *)
Theorem call_free_terminates `{Externals} e context env n :
  canonical e -> value_size (expr_value e) <= n -> eval_fuel n e context env <> Err OutOfFuel.
Proof. apply eval_answers. Qed.

Lemma call_free_terminates_witness :
  eval_fuel (H := externals_stub) 20 (ENeg (ERef (mk_ref SrcInput [Key "n"]))) VNull (lib_only None) <> Err OutOfFuel.
Proof.
  apply (call_free_terminates (H := externals_stub) (ENeg (ERef (mk_ref SrcInput [Key "n"]))) VNull (lib_only None) 20).
  - split; [reflexivity|split; reflexivity].
  - cbn. lia.
Defined.

(** C34: Filling input defaults terminates and overwrites nothing: on a context with an
    input object the loop reaches a state where a further pass would change nothing,
    every provided input keeps its value, and nothing outside [input] changes. *)
Theorem input_defaults_settle resolve context fields additional input :
  get_key "input" context = Some (VObject input) ->
  let result := apply_input_defaults resolve context (TStruct fields additional) in
  (forall k, k <> "input" -> get_key k result = get_key k context) /\
  (forall k v, bt_get k input = Some v -> (get_key "input" result ≫= get_key k) = Some v) /\
  ((exists kf, In kf fields /\ default kf.2 <> None) -> (default_pass resolve fields result).2 = false).
Proof.
  intros Hin. cbv zeta. unfold apply_input_defaults.
  destruct (forallb _ fields) eqn:Hd.
  { split; [done|]. split; [intros k v Hk; by rewrite Hin|]. intros ([k f] & Hkf & Hne).
    eapply forallb_forall in Hd; [|exact Hkf]. cbn in *. by destruct (default f). }
  assert (He : ensure_input context = context) by (unfold ensure_input; by rewrite Hin).
  rewrite He, Hin. destruct (default_loop_settles resolve fields (S (length fields)) context) as [[Ho Hi] Hs].
  { unfold missing. pose proof (filter_length_le (fun kf => negb (input_present context kf.1)) fields). lia. }
  split; [done|]. split; [|done]. intros k v Hk. rewrite Hi.
  - by rewrite Hin.
  - unfold input_present. rewrite Hin. cbn. by rewrite Hk.
Qed.

Lemma input_defaults_settle_witness :
  let fields := [("a", field_with_default (field_optional TInteger) (value_from_i64 1));
                 ("b", field_with_default (field_optional TInteger) (value_from_i64 2))] in
  let resolve := resolve_value_refs (H := externals_stub) 5 in
  let context := VObject [("input", VObject [("b", value_from_i64 7)])] in
  (get_key "input" (apply_input_defaults resolve context (TStruct fields None)) ≫= get_key "b") = Some (value_from_i64 7).
Proof.
  cbv zeta. apply (input_defaults_settle _ _ _ None [("b", value_from_i64 7)]); reflexivity.
Defined.

(** C17: User-defined recursion is bounded, whatever the functions do.  Take any function
    table, simple, mutually recursive or not, whose bodies, expressions or compute blocks,
    are first-order: canonical expressions of at most [bound] nodes that apply no closure
    and call only [callees], none of them higher-order, a parameter, a [let] name or a local
    closure.  Then every first-order expression, in every environment over the table, is
    evaluated by fuel equal to its size plus [bound] for each user call the depth limit
    still allows, so it ends with a value or an error; and so does every such compute
    block, with fuel for 1024 nested calls. *)
Theorem function_recursion_bounded `{Externals} callees bound table context :
  (forall name f, bt_get name table = Some f -> bounded_function callees bound f) ->
  no_local_callees callees context ->
  (forall e env n, functions env = Some table -> canonical_for (first_order callees) e ->
     value_size (expr_value e) + calls_left env * bound <= n ->
     eval_fuel n e context env <> Err OutOfFuel) /\
  (forall program l n, bounded_block callees bound program -> bound + 1024 * bound <= n ->
     run_program_with (eval_fuel n) program context l (Some table) <> Err OutOfFuel).
Proof.
  intros Htable Hcontext. split.
  - intros e env n Henv He Hn. by apply (recursion_answers callees bound table Htable).
  - intros program l n Hp Hn. by apply (program_answers callees bound table Htable).
Qed.

(** Two functions that call each other, one of them a block with a condition. *)
Definition local_n : WorkflowExpression := ERef (mk_ref SrcLocal [Key "n"]).
Definition even_body : ComputeProgram :=
  [SIf (CCompare local_n Equals (ELiteral (value_from_i64 0))) [SReturn (ELiteral (VBool true))]
     [SLet "m" (ESub [local_n; ELiteral (value_from_i64 1)]); SReturn (ECall "odd" [local_n])]].
Definition parity_table : FunctionTable :=
  [("even", mk_function ["n"] (BodyProgram even_body) None);
   ("odd", mk_function ["n"] (BodyExpr (ECall "even" [local_n])) None)].

Lemma function_recursion_bounded_witness :
  eval_fuel (H := externals_stub) 22000 (ECall "even" [ELiteral (value_from_i64 7)]) VNull
    (env_new None (Some parity_table)) <> Err OutOfFuel.
Proof.
  refine (proj1 (function_recursion_bounded (H := externals_stub) ["even"; "odd"] 20 parity_table VNull _ _) _ _ _ _ _ _).
  - intros name f Hf. cbn in Hf. repeat (case_hyp Hf; try discriminate Hf); injection Hf as <-.
    + split; [repeat constructor|]. repeat first [exact I|reflexivity|apply Nat.leb_le; reflexivity|split].
    + split; [repeat constructor|]. repeat first [exact I|reflexivity|apply Nat.leb_le; reflexivity|split].
  - intros name _. reflexivity.
  - reflexivity.
  - repeat split.
  - apply Nat.leb_le. vm_compute. reflexivity.
Defined.

(** The limit is reached by a function that only calls itself. *)
Example endless_function_fails `{Externals} l :
  let table := [("f", mk_function [] (BodyExpr (ECall "f" [])) None)] in
  let context := VObject [("let", VObject [])] in
  eval_fuel 1025 (ECall "f" []) context (env_new l (Some table))
  = Err (Failed (InvalidValueRef "maximum call depth exceeded calling 'f'")).
Proof.
  cbv zeta.
  enough (Hk : forall k d, (d + Z.of_nat k = MAX_CALL_DEPTH)%Z ->
    eval_fuel (S k) (ECall "f" []) (VObject [("let", VObject [])])
      (mk_env l (Some [("f", mk_function [] (BodyExpr (ECall "f" [])) None)]) d)
    = Err (Failed (InvalidValueRef "maximum call depth exceeded calling 'f'"))).
  { apply (Hk 1024 0%Z). reflexivity. }
  unfold MAX_CALL_DEPTH. induction k as [|k IH]; intros d Hd.
  - replace d with 1024%Z by lia. reflexivity.
  - change (eval_fuel (S (S k))) with (evaluate_step (eval_fuel (S k))).
    transitivity (if (MAX_CALL_DEPTH <=? d)%Z then
        fail (A := Value) "maximum call depth exceeded calling 'f'"
      else eval_fuel (S k) (ECall "f" []) (VObject [("let", VObject [])])
        (mk_env l (Some [("f", mk_function [] (BodyExpr (ECall "f" [])) None)]) (d + 1))); [reflexivity|].
    unfold MAX_CALL_DEPTH. destruct (Z.leb_spec 1024 d); [lia|]. apply IH. lia.
Qed.
