(* ===== verification/Workflows.v ===== *)
(** * Workflow data, references and transitions

    [runinator-models/src/workflows.rs] (the data of a workflow and its statuses),
    and of [runinator-workflows]: [refs.rs] (expansion of local references),
    [run_state.rs] (joins and races over the history of node runs) and
    [next_transition] of [conditions.rs].  Serde derives are not modelled; the
    conversions written by hand are. *)

From S2P Require Import Prelude BTree Float64 Values Types TypeCodec Ast Intrinsics Catalog Eval.

#[local] Open Scope string_scope.

(** [uuid::Uuid], ordered as its 128-bit number; [chrono::DateTime<Utc>], in nanoseconds. *)
Abbreviation Uuid := Z.
Abbreviation DateTime := Z.

(** ** Statuses *)

Inductive WorkflowStatus : Type :=
| StQueued | StRunning | StPaused | StDebugPaused | StWaiting | StApprovalRequired
| StInputRequired | StBlocked | StSucceeded | StFailed | StTimedOut | StCanceled.

#[export] Instance WorkflowStatus_eq_dec : EqDecision WorkflowStatus.
Proof. solve_decision. Defined.

Definition status_as_str (s : WorkflowStatus) : string :=
  match s with
  | StQueued => "queued"
  | StRunning => "running"
  | StPaused => "paused"
  | StDebugPaused => "debug_paused"
  | StWaiting => "waiting"
  | StApprovalRequired => "approval_required"
  | StInputRequired => "input_required"
  | StBlocked => "blocked"
  | StSucceeded => "succeeded"
  | StFailed => "failed"
  | StTimedOut => "timed_out"
  | StCanceled => "canceled"
  end.

Definition status_is_terminal (s : WorkflowStatus) : bool :=
  match s with StSucceeded | StFailed | StTimedOut | StCanceled => true | _ => false end.

Definition status_is_active (s : WorkflowStatus) : bool :=
  match s with
  | StQueued | StRunning | StDebugPaused | StWaiting | StApprovalRequired | StInputRequired => true
  | _ => false
  end.

Definition status_try_from (value : string) : result string WorkflowStatus :=
  match value with
  | "queued" => Ok StQueued
  | "running" => Ok StRunning
  | "paused" => Ok StPaused
  | "debug_paused" => Ok StDebugPaused
  | "waiting" => Ok StWaiting
  | "approval_required" => Ok StApprovalRequired
  | "input_required" => Ok StInputRequired
  | "blocked" => Ok StBlocked
  | "succeeded" => Ok StSucceeded
  | "failed" => Ok StFailed
  | "timed_out" => Ok StTimedOut
  | "canceled" => Ok StCanceled
  | other => Err ("Unknown workflow status '" +:+ other +:+ "'")
  end.

Inductive WorkflowTriggerKind : Type := TrigCron | TrigManual | TrigChained.

Definition trigger_as_str (k : WorkflowTriggerKind) : string :=
  match k with TrigCron => "cron" | TrigManual => "manual" | TrigChained => "chained" end.

Definition trigger_try_from (value : string) : result string WorkflowTriggerKind :=
  match value with
  | "cron" => Ok TrigCron
  | "manual" => Ok TrigManual
  | "chained" => Ok TrigChained
  | other => Err ("Unknown workflow trigger kind '" +:+ other +:+ "'")
  end.

Inductive WorkflowNodeKind : Type :=
| KStart | KAction | KWait | KCondition | KSwitch | KToggle | KPercentage | KApproval | KGate | KSignal
| KLoop | KParallel | KJoin | KTry | KMap | KRace | KOutput | KInput | KSubflow | KConfig | KEnd | KFail
| KAssert | KTransform | KAudit | KCheckpoint | KMutex | KThrottle | KCooldown | KAwaitRun | KDebounce
| KCollect | KBarrier | KCircuitBreaker | KEventSource.

#[export] Instance WorkflowNodeKind_eq_dec : EqDecision WorkflowNodeKind.
Proof. solve_decision. Defined.

(** [WorkflowNodeKind::ALL]. *)
Definition ALL_KINDS : list WorkflowNodeKind :=
  [KStart; KAction; KWait; KCondition; KSwitch; KToggle; KPercentage; KApproval; KGate; KSignal; KLoop;
   KParallel; KJoin; KTry; KMap; KRace; KOutput; KInput; KSubflow; KConfig; KAssert; KTransform; KAudit;
   KCheckpoint; KMutex; KThrottle; KCooldown; KAwaitRun; KDebounce; KCollect; KBarrier; KCircuitBreaker;
   KEventSource; KEnd; KFail].

(** ** Objects, conditions and actions *)

Record WorkflowObject : Type := mk_object { object_value : Value }.

Definition default_object : WorkflowObject := mk_object (VObject []).

Definition into_object (o : WorkflowObject) : Map :=
  match as_object (object_value o) with Some m => m | None => [] end.

Definition object_from_value (value : Value) : result string WorkflowObject :=
  match value with
  | VNull => Ok (mk_object (VObject []))
  | VObject _ => Ok (mk_object value)
  | _ => Err "value must be an object"
  end.

(** [WorkflowCondition]: [None] is the null condition. *)
Record WorkflowCondition : Type := mk_condition { condition_node : option ConditionNode }.

Definition workflow_condition_to_value (c : WorkflowCondition) : Value :=
  match condition_node c with None => VNull | Some node => condition_value node end.

Definition workflow_condition_from_value `{Externals} (value : Value) : WorkflowCondition :=
  match value with VNull => mk_condition None | other => mk_condition (Some (condition_parse other)) end.

(** The accepting part of the deserializer: null or an object. *)
Definition workflow_condition_deserialize `{Externals} (value : Value) : result string WorkflowCondition :=
  match value with
  | VNull | VObject _ => Ok (workflow_condition_from_value value)
  | _ => Err "condition must be null or an object"
  end.

Record WorkflowAction : Type := mk_action {
  provider : string;
  action_function : string;
  action_timeout_seconds : Z;
  configuration : WorkflowObject;
  mcp_enabled : bool;
  tags : list string;
  required_labels : btree string
}.

Definition merge_action_configuration (config : Value) (extra : Map) : result string WorkflowObject :=
  match extra with
  | [] => object_from_value config
  | _ =>
      merged ← match config with
               | VObject object => Ok object
               | VNull => Ok []
               | _ => Err "action configuration must be an object"
               end;
      Ok (mk_object (VObject (foldl (fun m kv => bt_or_insert kv.1 kv.2 m) merged extra)))
  end.

(** ** Nodes *)

(** [WorkflowNodeRef], a wrapped [WorkflowNodeId]. *)
Record WorkflowNodeRef : Type := mk_node_ref { node_ref : string }.

Definition node_ref_value (r : WorkflowNodeRef) : Value := VObject [("$node", VString (node_ref r))].

(** A text between double quotes. *)
Definition quoted (s : string) : string := bytes_string [34] +:+ s +:+ bytes_string [34].

Definition node_ref_parse (value : Value) : result string WorkflowNodeRef :=
  match as_object value with
  | None => Err "node reference must be an object"
  | Some object =>
      if negb (Nat.eqb (length object) 1) || negb (bt_contains "$node" object)
      then Err ("node reference must be { " +:+ quoted "$node" +:+ ": " +:+ quoted "node_id" +:+ " }")
      else match bt_get "$node" object ≫= as_str with
           | Some node => if String.eqb node "" then Err "$node must be a non-empty string" else Ok (mk_node_ref node)
           | None => Err "$node must be a non-empty string"
           end
  end.

Inductive WorkflowRetryClass : Type := RetryAny | RetryFailure | RetryTimeout.

Definition retryable (c : WorkflowRetryClass) (status : WorkflowStatus) : bool :=
  match c with
  | RetryAny => match status with StFailed | StTimedOut => true | _ => false end
  | RetryFailure => bool_decide (status = StFailed)
  | RetryTimeout => bool_decide (status = StTimedOut)
  end.

Record WorkflowRetry : Type := mk_retry {
  max_attempts : Z;
  backoff_base_seconds : Z;
  backoff_max_seconds : Z;
  jitter : bool;
  retry_on : WorkflowRetryClass
}.

Definition default_retry : WorkflowRetry := mk_retry 1 1 300 false RetryAny.

Record WorkflowReentry : Type := mk_reentry {
  reentry_enabled : bool;
  max_visits : Z;
  on_exhausted : option WorkflowNodeRef
}.

Inductive WorkflowSubflowType : Type := SubflowWait | SubflowFireAndForget.

Record WorkflowSubflow : Type := mk_subflow {
  subflow_workflow_name : option string;
  subflow_run_name : option Value;
  reuse_open_run : bool;
  subflow_type : WorkflowSubflowType
}.

Inductive WorkflowWaitSeconds : Type :=
| WaitInteger (seconds : Z)
| WaitExpression (expression : WorkflowObject).

Record WorkflowWait : Type := mk_wait {
  wait_seconds : option WorkflowWaitSeconds;
  wait_until_status : option string;
  wait_initial_status : option string
}.

Record WorkflowBranch : Type := mk_branch {
  when : WorkflowCondition;
  target : WorkflowNodeRef;
  priority : option Z
}.

Record WorkflowTransitions : Type := mk_transitions {
  next : option WorkflowNodeRef;
  on_success : option WorkflowNodeRef;
  on_failure : option WorkflowNodeRef;
  on_timeout : option WorkflowNodeRef;
  on_reject : option WorkflowNodeRef;
  branches : list WorkflowBranch
}.

Record WorkflowNode : Type := mk_node {
  node_id : string;
  kind : WorkflowNodeKind;
  skipped : bool;
  locked : bool;
  action : option WorkflowAction;
  node_parameters : WorkflowObject;
  wait : WorkflowWait;
  node_condition : WorkflowCondition;
  transitions : WorkflowTransitions;
  retry : WorkflowRetry;
  timeout_seconds : option Z;
  max_iterations : option Z;
  subflow_id : option Uuid;
  subflow : WorkflowSubflow;
  reentry : WorkflowReentry;
  compensation : option WorkflowAction
}.

Record WorkflowNodeRun : Type := mk_node_run {
  run_id : Uuid;
  run_workflow_run_id : Uuid;
  run_node_id : string;
  run_status : WorkflowStatus;
  run_attempt : Z;
  run_parameters : Value;
  run_output_json : option Value;
  run_state : Value;
  run_transition_reason : option string;
  prev_node_run_id : option Uuid;
  run_created_at : DateTime;
  run_started_at : option DateTime;
  run_finished_at : option DateTime;
  run_message : option string;
  current_executor_replica_id : option Uuid;
  last_executor_replica_id : option Uuid;
  executor_claimed_at : option DateTime;
  executor_released_at : option DateTime
}.

(** ** The next node

    [next_transition]: the branches in ascending priority (unset ones last, ties in
    declaration order), then the edge of the status.  Conditions are evaluated with
    the fuel of [evaluate_workflow_condition]. *)

Definition branch_priority (b : WorkflowBranch) : Z := from_option id i64_max (priority b).

Definition ordered_branches (node : WorkflowNode) : list WorkflowBranch :=
  sort_by_key branch_priority (branches (transitions node)).

Definition or_node (a b : option WorkflowNodeRef) : option WorkflowNodeRef :=
  match a with Some _ => a | None => b end.

Definition status_target (t : WorkflowTransitions) (status : WorkflowStatus) : option WorkflowNodeRef :=
  match status with
  | StSucceeded => or_node (on_success t) (next t)
  | StFailed | StBlocked => on_failure t
  | StTimedOut => on_timeout t
  | StCanceled => None
  | _ => next t
  end.

Fixpoint first_branch `{Externals} (fuel : nat) (ordered : list WorkflowBranch) (context : Value)
    : eval (option string) :=
  match ordered with
  | [] => Ok None
  | branch :: rest =>
      taken ← evaluate_workflow_condition fuel (condition_node (when branch)) context;
      if (taken : bool) then Ok (Some (node_ref (target branch))) else first_branch fuel rest context
  end.

Definition next_transition `{Externals} (fuel : nat) (node : WorkflowNode) (status : WorkflowStatus) (context : Value)
    : eval (option string) :=
  chosen ← first_branch fuel (ordered_branches node) context;
  match chosen with
  | Some id => Ok (Some id)
  | None => Ok (node_ref <$> status_target (transitions node) status)
  end.

(** ** Joins and races *)

Inductive BranchPolicy : Type := PolicyAll | PolicyAny | PolicyFirstSuccess.

Definition branch_policy_parse (value : option Value) (dflt : BranchPolicy) : result string BranchPolicy :=
  match value ≫= as_str with
  | None => Ok dflt
  | Some "all" => Ok PolicyAll
  | Some "any" => Ok PolicyAny
  | Some "first_success" => Ok PolicyFirstSuccess
  | Some other => Err ("unsupported branch policy '" +:+ other +:+ "'")
  end.

Definition branch_policy_name (policy : BranchPolicy) : string :=
  match policy with PolicyAll => "all" | PolicyAny => "any" | PolicyFirstSuccess => "first_success" end.

(** [Iterator::max_by_key]: the last element with the greatest key. *)
Definition max_by_key {A} (key : A -> Z) (l : list A) : option A :=
  foldl (fun best x => match best with
                       | Some b => if (key x <? key b)%Z then Some b else Some x
                       | None => Some x
                       end) None l.

Definition latest_node_run (node_runs : list WorkflowNodeRun) (id : string) : option WorkflowNodeRun :=
  max_by_key run_id (List.filter (fun run => String.eqb (run_node_id run) id) node_runs).

Definition latest_status (id : string) (node_runs : list WorkflowNodeRun) : option WorkflowStatus :=
  run_status <$> latest_node_run node_runs id.

Definition branch_succeeded (node_runs : list WorkflowNodeRun) (id : string) : bool :=
  bool_decide (latest_status id node_runs = Some StSucceeded).

Definition join_satisfied (wait_for : list string) (mode : BranchPolicy) (node_runs : list WorkflowNodeRun) : bool :=
  match mode with
  | PolicyAll => forallb (branch_succeeded node_runs) wait_for
  | PolicyAny | PolicyFirstSuccess => existsb (branch_succeeded node_runs) wait_for
  end.

Definition race_winner (race_branches : list string) (winner : BranchPolicy) (node_runs : list WorkflowNodeRun)
    : option string :=
  match winner with
  | PolicyAll => if forallb (branch_succeeded node_runs) race_branches then list.last race_branches else None
  | PolicyAny | PolicyFirstSuccess => List.find (branch_succeeded node_runs) race_branches
  end.

(** ** Expansion of local references ([refs.rs])

    [{"$ref": "#/$defs/path"}] is replaced by the definition, itself expanded, with
    the other fields of the object laid over it and the [with] object merged into
    it.  [stack] holds the references being expanded; meeting one of them again is a
    cycle.  The recursion on the value is structural; the fuel counts the
    definitions entered, one inside the other, and [expand_refs_terminates] bounds
    them by the references of the document. *)

Fixpoint merge_overlay (target overlay : Value) {struct overlay} : Value :=
  match target, overlay with
  | VObject fields, VObject over =>
      VObject ((fix go (over : btree Value) (fields : btree Value) : btree Value :=
                  match over with
                  | [] => fields
                  | (key, value) :: rest =>
                      go rest (match bt_get key fields with
                               | Some existing => bt_insert key (merge_overlay existing value) fields
                               | None => bt_insert key value fields
                               end)
                  end) over fields)
  | _, _ => overlay
  end.

(** The fields of a reference object laid over its replacement. *)
Definition overlay_fields (map : Map) (replacement : Value) : Value :=
  match replacement with
  | VObject fields =>
      VObject (foldl (fun m kv => if String.eqb kv.1 "$ref" || String.eqb kv.1 "with" then m else bt_insert kv.1 kv.2 m)
                 fields map)
  | other => other
  end.

Definition merge_with (map : Map) (replacement : Value) : Value :=
  match bt_get "with" map with
  | Some over => merge_overlay replacement over
  | None => replacement
  end.

Definition local_ref (map : Map) : option string := bt_get "$ref" map ≫= as_str.

(** A reference object; [enter] expands a definition. *)
Definition expand_ref (enter : list string -> Value -> eval Value) (defs : Value) (stack : list string)
    (map : Map) (reference : string) : eval Value :=
  match str_strip_prefix "#/$defs/" reference with
  | Some path =>
      if existsb (String.eqb reference) stack then Err (Failed (RefCycle reference))
      else match pointer defs ("/" +:+ path) with
           | None => Err (Failed (MissingRef reference))
           | Some definition =>
               replacement ← enter (reference :: stack) definition;
               Ok (merge_with map (overlay_fields map replacement))
           end
  | None =>
      match str_strip_prefix "runinator://" reference with
      | Some _ => Ok (VObject map)
      | None => Err (Failed (MissingRef reference))
      end
  end.

Fixpoint expand_refs_in_value (fuel : nat) (defs : Value) (stack : list string) (value : Value) {struct fuel} : eval Value :=
  match fuel with
  | O => Err OutOfFuel
  | S fuel =>
      (fix go (value : Value) : eval Value :=
         match value with
         | VObject map =>
             match local_ref map with
             | Some reference => expand_ref (expand_refs_in_value fuel defs) defs stack map reference
             | None =>
                 fields ← (fix fields (l : list (string * Value)) : eval (list (string * Value)) :=
                             match l with
                             | [] => Ok []
                             | (key, nested) :: rest =>
                                 nested' ← go nested; rest' ← fields rest; Ok ((key, nested') :: rest')
                             end) map;
                 Ok (VObject fields)
             end
         | VArray items =>
             items' ← (fix elements (l : list Value) : eval (list Value) :=
                         match l with
                         | [] => Ok []
                         | item :: rest => item' ← go item; rest' ← elements rest; Ok (item' :: rest')
                         end) items;
             Ok (VArray items')
         | other => Ok other
         end) value
  end.

(** The references of a document: the [$ref] strings of its objects, at any depth. *)
Fixpoint refs_of (value : Value) : list string :=
  match value with
  | VObject map =>
      (match local_ref map with Some r => [r] | None => [] end
       ++ (fix go (l : list (string * Value)) := match l with [] => [] | kv :: rest => refs_of kv.2 ++ go rest end) map)%list
  | VArray items =>
      (fix go (l : list Value) : list string := match l with [] => [] | x :: rest => refs_of x ++ go rest end) items
  | _ => []
  end%list.

(** Every object with a [$ref] field is a reference and nothing else. *)
Fixpoint bare_refs (value : Value) : bool :=
  match value with
  | VObject map =>
      match bt_get "$ref" map with
      | Some (VString _) => Nat.eqb (length map) 1
      | Some _ => false
      | None => forallb (fun kv => bare_refs kv.2) map
      end
  | VArray items => forallb bare_refs items
  | _ => true
  end.

(** [runinator://] references are left to other components. *)
Definition external_ref (reference : string) : bool :=
  match str_strip_prefix "runinator://" reference with Some _ => true | None => false end.

(** ** Facts about expansion *)

Lemma refs_of_object m :
  refs_of (VObject m) = (match local_ref m with Some r => [r] | None => [] end ++ concat (map (fun kv => refs_of kv.2) m))%list.
Proof. cbn. f_equal. induction m as [|kv m IH]; cbn; [done|]. by rewrite IH. Qed.

Lemma refs_of_array l : refs_of (VArray l) = concat (map refs_of l).
Proof. cbn. induction l as [|x l IH]; cbn; [done|]. by rewrite IH. Qed.

Definition expand_field (fuel : nat) (defs : Value) (stack : list string) (kv : string * Value) : eval (string * Value) :=
  nested ← expand_refs_in_value fuel defs stack kv.2; Ok (kv.1, nested).

Lemma fields_mapM (g : Value -> eval Value) (l : list (string * Value)) :
  (fix fields (l : list (string * Value)) : eval (list (string * Value)) :=
     match l with
     | [] => Ok []
     | (key, nested) :: rest => nested' ← g nested; rest' ← fields rest; Ok ((key, nested') :: rest')
     end) l
  = mapM (fun kv => nested ← g kv.2; Ok (kv.1, nested)) l.
Proof.
  induction l as [|[k x] l IH]; [done|]. rewrite IH. cbn. destruct (g x); cbn; [|done]. by destruct (mapM _ l).
Qed.

Lemma elements_mapM (g : Value -> eval Value) (l : list Value) :
  (fix elements (l : list Value) : eval (list Value) :=
     match l with
     | [] => Ok []
     | item :: rest => item' ← g item; rest' ← elements rest; Ok (item' :: rest')
     end) l
  = mapM g l.
Proof. induction l as [|x l IH]; [done|]. by rewrite IH. Qed.

Lemma expand_object n defs stack m :
  expand_refs_in_value (S n) defs stack (VObject m) =
  match local_ref m with
  | Some r => expand_ref (expand_refs_in_value n defs) defs stack m r
  | None => fields ← mapM (expand_field (S n) defs stack) m; Ok (VObject fields)
  end.
Proof.
  transitivity (match local_ref m with
                | Some r => expand_ref (expand_refs_in_value n defs) defs stack m r
                | None => fields ← (fix fields (l : list (string * Value)) : eval (list (string * Value)) :=
                             match l with
                             | [] => Ok []
                             | (key, nested) :: rest =>
                                 nested' ← expand_refs_in_value (S n) defs stack nested;
                                 rest' ← fields rest; Ok ((key, nested') :: rest')
                             end) m; Ok (VObject fields)
                end); [reflexivity|].
  by rewrite fields_mapM.
Qed.

Lemma expand_array n defs stack l :
  expand_refs_in_value (S n) defs stack (VArray l) =
  items ← mapM (expand_refs_in_value (S n) defs stack) l; Ok (VArray items).
Proof.
  transitivity (items ← (fix elements (l : list Value) : eval (list Value) :=
                         match l with
                         | [] => Ok []
                         | item :: rest => item' ← expand_refs_in_value (S n) defs stack item;
                                           rest' ← elements rest; Ok (item' :: rest')
                         end) l; Ok (VArray items)); [reflexivity|].
  by rewrite elements_mapM.
Qed.

Lemma In_refs_object m kv r : In kv m -> In r (refs_of kv.2) -> In r (refs_of (VObject m)).
Proof.
  intros Hkv Hr. rewrite refs_of_object. apply in_app_iff. right. apply in_concat.
  exists (refs_of kv.2). split; [by apply (in_map (fun kv => refs_of kv.2))|done].
Qed.

Lemma In_refs_array l x r : In x l -> In r (refs_of x) -> In r (refs_of (VArray l)).
Proof. intros Hx Hr. rewrite refs_of_array. apply in_concat. exists (refs_of x). split; [by apply in_map|done]. Qed.

(** A pointer leads to a part of the document: what holds of a value and is inherited by
    its elements and fields holds of the target. *)
Lemma pointer_part (P : Value -> Prop) :
  (forall m k x, P (VObject m) -> In (k, x) m -> P x) -> (forall l x, P (VArray l) -> In x l -> P x) ->
  forall v p x, P v -> pointer v p = Some x -> P x.
Proof.
  intros Hm Hl v p x Hv.
  assert (Hw : forall tokens v, P v -> pointer_walk v tokens = Some x -> P x).
  { clear v p Hv. induction tokens as [|t tokens IH]; intros v Hv; cbn [pointer_walk]; [by intros [= <-]|].
    destruct (pointer_step v t) as [y|] eqn:Hy; [|done]. apply IH. destruct v as [| | | |l|m]; cbn in Hy; try done.
    - destruct (parse_u64 t); [|done]. by eapply Hl, list_get_In.
    - by apply bt_get_In, Hm in Hy. }
  destruct p as [|c p]; cbn [pointer]; [by intros [= <-]|]. destruct (Ascii.eqb c "/"); [by apply Hw|done].
Qed.

Lemma pointer_refs v p x : pointer v p = Some x -> incl (refs_of x) (refs_of v).
Proof.
  apply (pointer_part (fun y => incl (refs_of y) (refs_of v))); [..|apply incl_refl].
  - intros m k y Hv Hk r Hr. by apply Hv, (In_refs_object m (k, y)).
  - intros l y Hv Hy r Hr. apply Hv. by eapply In_refs_array.
Qed.

Lemma pointer_bare v p x : bare_refs v = true -> pointer v p = Some x -> bare_refs x = true.
Proof.
  apply (pointer_part (fun y => bare_refs y = true)).
  - intros m k y Hm Hk. cbn in Hm. destruct (bt_get "$ref" m) as [r|] eqn:Hr.
    + destruct r as [| | |r| |]; try done. destruct m as [|[k' y'] [|]]; try done. destruct Hk as [[= -> ->]|[]].
      cbn [bt_get] in Hr. destruct (String.eqb "$ref" k); [|done]. injection Hr as ->. reflexivity.
    + rewrite forallb_forall in Hm. by apply (Hm (k, y)).
  - intros l y Hl Hy. cbn in Hl. rewrite forallb_forall in Hl. by apply Hl.
Qed.

(** The references of [universe] that are not being expanded. *)
Definition pending (stack : list string) (r : string) : bool := negb (existsb (String.eqb r) stack).

Definition remaining (universe stack : list string) : nat := length (List.filter (pending stack) universe).

Lemma remaining_push universe stack r :
  In r universe -> existsb (String.eqb r) stack = false -> remaining universe (r :: stack) < remaining universe stack.
Proof.
  intros Hin Hr.
  assert (Hp : forall u, pending (r :: stack) u = negb (String.eqb u r) && pending stack u)
    by (intros u; unfold pending; cbn; by destruct (String.eqb u r)).
  assert (Hle : forall k, remaining k (r :: stack) <= remaining k stack).
  { intros k. unfold remaining. induction k as [|u k IH]; [done|]. cbn [List.filter]. rewrite Hp.
    destruct (String.eqb u r), (pending stack u); cbn; lia. }
  induction universe as [|u universe IH]; [done|]. specialize (Hle universe). unfold remaining in *.
  cbn [List.filter]. rewrite Hp. destruct Hin as [-> | Hin].
  - assert (pending stack r = true) as -> by (unfold pending; by rewrite Hr). rewrite String.eqb_refl. cbn. lia.
  - specialize (IH Hin). destruct (String.eqb u r), (pending stack u); cbn; lia.
Qed.

Lemma local_ref_refs m r : local_ref m = Some r -> In r (refs_of (VObject m)).
Proof. intros H. rewrite refs_of_object, H. by left. Qed.

Lemma expand_answers universe defs n :
  incl (refs_of defs) universe ->
  forall stack v, incl (refs_of v) universe -> remaining universe stack < n ->
    answers (expand_refs_in_value n defs stack v).
Proof.
  intros Hdefs. induction n as [|n IHn]; intros stack v Hv Hlt; [lia|].
  induction v as [|b|z|s|l IHl|m IHm] using Value_ind'; try done.
  - rewrite expand_array. apply answers_bind; [|done]. apply answers_mapM. intros x Hx.
    rewrite List.Forall_forall in IHl. apply IHl; [done|]. intros r Hr. apply Hv. by eapply In_refs_array.
  - rewrite expand_object. destruct (local_ref m) as [r|] eqn:Hr.
    + unfold expand_ref. destruct (str_strip_prefix "#/$defs/" r) as [path|].
      * destruct (existsb (String.eqb r) stack) eqn:Hs; [done|].
        destruct (pointer defs _) as [definition|] eqn:Hp; [|done].
        apply answers_bind; [|done]. apply IHn.
        -- intros x Hx. by apply Hdefs, (pointer_refs _ _ _ Hp).
        -- pose proof (remaining_push universe stack r (Hv r (local_ref_refs m r Hr)) Hs). lia.
      * by destruct (str_strip_prefix "runinator://" r).
    + apply answers_bind; [|done]. apply answers_mapM. intros kv Hkv. unfold expand_field.
      apply answers_bind; [|done]. rewrite List.Forall_forall in IHm. apply IHm; [done|].
      intros r Hx. apply Hv. by eapply In_refs_object.
Qed.

Lemma expand_fuel_le n m : n <= m -> forall defs stack v,
  fuel_le (expand_refs_in_value n defs stack v) (expand_refs_in_value m defs stack v).
Proof.
  revert m. induction n as [|n IHn]; intros m Hm defs stack v; [by left|].
  destruct m as [|m]; [lia|]. specialize (IHn m ltac:(lia)).
  induction v as [|b|z|s|l IHl|fields IHm] using Value_ind'; try apply fuel_le_refl.
  - rewrite !expand_array. apply fuel_le_bind; [|intros; apply fuel_le_refl].
    induction IHl as [|x l Hx _ IH]; [apply fuel_le_refl|]. cbn [mapM].
    apply fuel_le_bind; [done|]. intros y. apply fuel_le_bind; [done|]. intros. apply fuel_le_refl.
  - rewrite !expand_object. destruct (local_ref fields) as [r|].
    + unfold expand_ref. destruct (str_strip_prefix _ r); [|apply fuel_le_refl].
      destruct (existsb _ stack); [apply fuel_le_refl|]. destruct (pointer defs _); [|apply fuel_le_refl].
      apply fuel_le_bind; [apply IHn|]. intros. apply fuel_le_refl.
    + apply fuel_le_bind; [|intros; apply fuel_le_refl].
      induction IHm as [|kv fields Hx _ IH]; [apply fuel_le_refl|]. cbn [mapM].
      apply fuel_le_bind; [|intros y; apply fuel_le_bind; [done|intros; apply fuel_le_refl]].
      unfold expand_field. apply fuel_le_bind; [done|]. intros. apply fuel_le_refl.
Qed.

(** C12: expansion terminates on every document: more levels of definitions than there
    are references in the value and the definitions together are never entered, and
    with that much fuel the answer (a document, a cycle or a missing reference) no
    longer depends on the fuel. *)
Theorem expand_refs_terminates defs value n m :
  length (refs_of value ++ refs_of defs) < n -> n <= m ->
  expand_refs_in_value n defs [] value <> Err OutOfFuel /\
  expand_refs_in_value m defs [] value = expand_refs_in_value n defs [] value.
Proof.
  intros Hn Hm.
  assert (Ha : answers (expand_refs_in_value n defs [] value)).
  { apply (expand_answers (refs_of value ++ refs_of defs)); [by apply incl_appr, incl_refl|by apply incl_appl, incl_refl|].
    unfold remaining. pose proof (List.filter_length_le (pending []) (refs_of value ++ refs_of defs)).
    lia. }
  split; [exact Ha|]. by destruct (expand_fuel_le n m Hm defs [] value) as [H|H].
Qed.

Lemma refs_of_mapM {A} (g : A -> eval Value) (l : list A) k (P : string -> Prop) :
  (forall x y, In x l -> g x = Ok y -> Forall P (refs_of y)) -> mapM g l = Ok k -> Forall P (concat (map refs_of k)).
Proof.
  intros Hg Hm%mapM_ok_Forall2. induction Hm as [|x y l k Hx _ IH]; cbn; [constructor|].
  apply Forall_app. split; [apply (Hg x); [by left|done]|]. apply IH. intros a b Ha. apply Hg. by right.
Qed.

Lemma expand_field_keys n defs stack m fields :
  mapM (expand_field n defs stack) m = Ok fields -> bt_keys fields = bt_keys m.
Proof.
  intros Hm%mapM_ok_Forall2. induction Hm as [|[k x] [k' y] m fields Hx _ IH]; [done|].
  unfold expand_field in Hx. apply bind_ok in Hx as (z & _ & [= <- <-]). unfold bt_keys in *. cbn. by rewrite IH.
Qed.

Lemma expand_complete defs n : bare_refs defs = true -> forall stack v v', bare_refs v = true ->
  expand_refs_in_value n defs stack v = Ok v' -> Forall (fun r => external_ref r = true) (refs_of v').
Proof.
  intros Hdefs. induction n as [|n IHn]; [done|]. intros stack v.
  induction v as [|b|z|s|l IHl|m IHm] using Value_ind'; intros v' Hv He;
    try (injection He as <-; constructor).
  - rewrite expand_array in He. apply bind_ok in He as (items & He & [= <-]). rewrite refs_of_array.
    eapply refs_of_mapM; [|exact He]. intros x y Hx Hy. cbn in Hv. rewrite forallb_forall in Hv.
    rewrite List.Forall_forall in IHl. by apply (IHl x Hx y); [apply Hv|].
  - rewrite expand_object in He. cbn in Hv. unfold local_ref in He.
    destruct (bt_get "$ref" m) as [[| | |r| |]|] eqn:Hr; cbn in He; try done.
    + destruct m as [|[k x] [|]]; try done. cbn [bt_get] in Hr. destruct (String.eqb_spec "$ref" k) as [<-|]; [|done].
      injection Hr as ->. unfold expand_ref in He. destruct (str_strip_prefix "#/$defs/" r) as [path|].
      * destruct (existsb _ stack); [done|]. destruct (pointer defs _) as [definition|] eqn:Hp; [|done].
        apply bind_ok in He as (y & He & [= <-]).
        assert (merge_with [("$ref", VString r)] (overlay_fields [("$ref", VString r)] y) = y) as -> by (by destruct y).
        eapply (IHn _ definition); [by eapply pointer_bare|done].
      * destruct (str_strip_prefix "runinator://" r) eqn:Hx; [|done]. injection He as <-.
        cbn. constructor; [|constructor]. unfold external_ref. by rewrite Hx.
    + apply bind_ok in He as (fields & He & [= <-]). rewrite refs_of_object.
      assert (local_ref fields = None) as ->.
      { unfold local_ref. pose proof (expand_field_keys _ _ _ _ _ He) as Hk.
        
        apply bt_get_None in Hr. rewrite <- Hk in Hr. apply bt_get_None in Hr. by rewrite Hr. }
      cbn [app]. rewrite <- (map_map snd refs_of). apply (refs_of_mapM (fun kv => expand_refs_in_value (S n) defs stack kv.2) m).
      * intros kv y Hkv Hy. rewrite List.Forall_forall in IHm. rewrite forallb_forall in Hv.
        by apply (IHm kv Hkv y); [apply Hv|].
      * clear -He. apply mapM_ok_Forall2 in He. apply mapM_ok_Forall2.
        induction He as [|kv y m fields Hx _ IH]; cbn; constructor; [|done].
        unfold expand_field in Hx. apply bind_ok in Hx as (z & Hz & [= <-]). exact Hz.
Qed.

(** C35: expansion is complete on documents whose reference objects carry nothing but the
    reference: the result holds no local reference, at any depth.  Fields beside a
    reference are laid over the definition as they are, so a reference inside them
    survives ([overlay_refs_survive]). *)
Theorem expand_refs_complete n defs value value' :
  bare_refs defs = true -> bare_refs value = true -> expand_refs_in_value n defs [] value = Ok value' ->
  Forall (fun r => external_ref r = true) (refs_of value').
Proof. intros Hd Hv He. exact (expand_complete defs n Hd [] value value' Hv He). Qed.

(** Definitions that refer to each other, and a chain of two. *)
Definition cyclic_defs : Value :=
  VObject [("a", VArray [VObject [("$ref", VString "#/$defs/b")]]); ("b", VObject [("$ref", VString "#/$defs/a")])].
Definition chain_defs : Value :=
  VObject [("a", VArray [VObject [("$ref", VString "#/$defs/b")]; VObject [("$ref", VString "#/$defs/b")]]);
           ("b", VString "leaf")].
Definition ref_to_a : Value := VObject [("$ref", VString "#/$defs/a")].

Lemma expand_refs_terminates_witness :
  expand_refs_in_value 4 cyclic_defs [] ref_to_a = Err (Failed (RefCycle "#/$defs/a")) /\
  expand_refs_in_value 7 cyclic_defs [] ref_to_a = Err (Failed (RefCycle "#/$defs/a")).
Proof.
  pose proof (expand_refs_terminates cyclic_defs ref_to_a 4 7 ltac:(vm_compute; lia) ltac:(lia)) as [_ H].
  assert (expand_refs_in_value 4 cyclic_defs [] ref_to_a = Err (Failed (RefCycle "#/$defs/a"))) as E by reflexivity.
  split; [exact E|]. exact (eq_trans H E).
Defined.

Lemma expand_refs_complete_witness :
  expand_refs_in_value 4 chain_defs [] ref_to_a = Ok (VArray [VString "leaf"; VString "leaf"]) /\
  Forall (fun r => external_ref r = true) (refs_of (VArray [VString "leaf"; VString "leaf"])).
Proof. split; [reflexivity|]. by apply (expand_refs_complete 4 chain_defs ref_to_a). Defined.

Lemma overlay_refs_survive :
  expand_refs_in_value 3 (VObject [("a", VObject []); ("b", VString "leaf")]) []
    (VObject [("$ref", VString "#/$defs/a"); ("x", VObject [("$ref", VString "#/$defs/b")])])
  = Ok (VObject [("x", VObject [("$ref", VString "#/$defs/b")])]).
Proof. reflexivity. Qed.

(** ** Facts about statuses *)

Definition ALL_STATUSES : list WorkflowStatus :=
  [StQueued; StRunning; StPaused; StDebugPaused; StWaiting; StApprovalRequired; StInputRequired; StBlocked;
   StSucceeded; StFailed; StTimedOut; StCanceled].

Lemma status_try_from_inv value s : status_try_from value = Ok s -> value = status_as_str s.
Proof.
  unfold status_try_from. intros H.
  repeat match type of H with
  | match ?x with _ => _ end = _ => destruct x; try discriminate H
  end; by injection H as <-.
Qed.

(** The names of statuses are a bijection with their statuses (what one prints the
    other reads, and nothing else is read); no status is both terminal and active, the
    paused and blocked statuses are neither; and only terminal statuses are retried. *)
Theorem status_codec value s :
  (status_try_from value = Ok s <-> value = status_as_str s) /\
  (status_is_terminal s && status_is_active s = false) /\
  (status_is_terminal s || status_is_active s = false <-> s = StPaused \/ s = StBlocked) /\
  (forall c, retryable c s = true -> status_is_terminal s = true) /\
  (forall c, retryable c StCanceled = false /\ retryable c StSucceeded = false).
Proof.
  repeat split.
  - apply status_try_from_inv.
  - intros ->. by destruct s.
  - by destruct s.
  - destruct s; cbn; intros ?; by auto.
  - by intros [-> | ->].
  - destruct c, s; cbn; by auto.
  - by destruct c.
  - by destruct c.
Qed.

(** ** Facts about transitions *)

Section transitions.
Context {EX : Externals} (fuel : nat) (context : Value).

Definition branch_taken (b : WorkflowBranch) : eval bool :=
  evaluate_workflow_condition fuel (condition_node (when b)) context.

(** [Some b]: the first branch of [ordered] whose condition holds, those before it being
    false; [None]: all are false; or the first condition that fails. *)
Inductive branch_choice : list WorkflowBranch -> eval (option WorkflowBranch) -> Prop :=
| choice_none ordered : Forall (fun b => branch_taken b = Ok false) ordered -> branch_choice ordered (Ok None)
| choice_some before b after :
    Forall (fun b => branch_taken b = Ok false) before -> branch_taken b = Ok true ->
    branch_choice (before ++ b :: after) (Ok (Some b))
| choice_error before b after e :
    Forall (fun b => branch_taken b = Ok false) before -> branch_taken b = Err e ->
    branch_choice (before ++ b :: after) (Err e).

Lemma branch_choice_skip b ordered c :
  branch_taken b = Ok false -> branch_choice ordered c -> branch_choice (b :: ordered) c.
Proof.
  intros Hb [k Hk|before x after Hk Hx|before x after e Hk Hx].
  - constructor. by constructor.
  - apply (choice_some (b :: before)); [by constructor|done].
  - apply (choice_error (b :: before)); [by constructor|done].
Qed.

Lemma first_branch_choice ordered : exists c,
  branch_choice ordered c /\
  first_branch fuel ordered context = (fmap (M := option) (fun b => node_ref (target b)) <$> c).
Proof.
  induction ordered as [|b ordered IH]; [exists (Ok None); split; [by constructor|done]|].
  cbn [first_branch]. change (evaluate_workflow_condition fuel _ context) with (branch_taken b).
  destruct (branch_taken b) as [[]|e] eqn:Hb.
  - exists (Ok (Some b)). split; [by apply (choice_some [])|done].
  - destruct IH as (c & Hc & ->). exists c. split; [by apply branch_choice_skip|done].
  - exists (Err e). split; [by apply (choice_error [])|done].
Qed.

(** The edge a finished node takes when no branch holds. *)
Inductive status_edge (t : WorkflowTransitions) : WorkflowStatus -> option WorkflowNodeRef -> Prop :=
| edge_success n : on_success t = Some n -> status_edge t StSucceeded (Some n)
| edge_success_next : on_success t = None -> status_edge t StSucceeded (next t)
| edge_failed : status_edge t StFailed (on_failure t)
| edge_blocked : status_edge t StBlocked (on_failure t)
| edge_timed_out : status_edge t StTimedOut (on_timeout t)
| edge_canceled : status_edge t StCanceled None
| edge_other status : ~ In status [StSucceeded; StFailed; StBlocked; StTimedOut; StCanceled] ->
    status_edge t status (next t).

Lemma status_target_edge t status : status_edge t status (status_target t status).
Proof.
  destruct status; cbn; try (apply edge_other; cbn; intuition discriminate); try constructor.
  destruct (on_success t) eqn:Hs; by constructor.
Qed.

(** C14: the next node: the branches are tried in ascending priority, those without one
    last and ties in declaration order; the first whose condition holds gives the
    target, a condition that fails before that gives its error, and when none holds the
    edge of the status is taken: of success or else next for a success, of failure for
    failed and blocked nodes, of the timeout for a timeout, none for a canceled node and
    next for every other status.  Only a condition makes [next_transition] fail. *)
Theorem next_transition_spec node status :
  (StronglySorted (fun a b => (branch_priority a <= branch_priority b)%Z) (ordered_branches node) /\
   ordered_branches node ≡ₚ branches (transitions node) /\
   forall p, List.filter (fun b => Z.eqb (branch_priority b) p) (ordered_branches node)
           = List.filter (fun b => Z.eqb (branch_priority b) p) (branches (transitions node))) /\
  exists c edge, branch_choice (ordered_branches node) c /\ status_edge (transitions node) status edge /\
    next_transition fuel node status context =
    match c with
    | Ok (Some b) => Ok (Some (node_ref (target b)))
    | Ok None => Ok (node_ref <$> edge)
    | Err e => Err e
    end.
Proof.
  split; [split; [apply sort_by_key_sorted|split; [apply sort_by_key_Permutation|]]|].
  - intros p. apply (sort_by_key_stable branch_priority p).
  - destruct (first_branch_choice (ordered_branches node)) as (c & Hc & Hf).
    exists c, (status_target (transitions node) status). split; [done|]. split; [apply status_target_edge|].
    unfold next_transition. rewrite Hf. by destruct c as [[b|]|e].
Qed.
End transitions.

(** ** Facts about joins and races *)

Definition max_step {A} (key : A -> Z) (best : option A) (x : A) : option A :=
  match best with
  | Some b => if (key x <? key b)%Z then Some b else Some x
  | None => Some x
  end.

Lemma max_by_key_max {A} (key : A -> Z) (l : list A) x :
  max_by_key key l = Some x -> In x l /\ forall y, In y l -> (key y <= key x)%Z.
Proof.
  assert (H : forall l best, foldl (max_step key) best l = Some x ->
    (best = Some x \/ In x l) /\ (forall b, best = Some b -> (key b <= key x)%Z) /\ forall y, In y l -> (key y <= key x)%Z).
  { clear l. induction l as [|z l IH]; intros best; cbn [foldl].
    - intros ->. split; [by left|]. split; [intros b [= ->]; lia|done].
    - intros (Hin & Hb & Hl)%IH. destruct best as [b|]; cbn in *.
      + destruct (Z.ltb_spec (key z) (key b)).
        * specialize (Hb b eq_refl). split; [destruct Hin; auto|]. split; [intros ? [= <-]; lia|].
          intros y [<-|Hy]; [lia|by apply Hl].
        * specialize (Hb z eq_refl). split; [destruct Hin as [[= ->]|]; auto|]. split; [intros ? [= <-]; lia|].
          intros y [<-|Hy]; [lia|by apply Hl].
      + specialize (Hb z eq_refl). split; [destruct Hin as [[= ->]|]; auto|]. split; [done|].
        intros y [<-|Hy]; [lia|by apply Hl]. }
  intros Hm. destruct (H l None Hm) as ([?|Hin] & _ & Hl); [done|]. by split.
Qed.

Lemma max_by_key_none {A} (key : A -> Z) (l : list A) : max_by_key key l = None -> l = [].
Proof.
  assert (H : forall l best, foldl (max_step key) best l = None -> best = None /\ l = []).
  { clear l. induction l as [|z l IH]; intros best; cbn [foldl]; [done|].
    intros [Hb _]%IH. destruct best as [b|]; cbn in Hb; [by destruct (key z <? key b)%Z|done]. }
  intros Hm. by apply (H l None Hm).
Qed.

Lemma latest_status_spec id runs s : latest_status id runs = Some s <->
  exists run, latest_node_run runs id = Some run /\ In run runs /\ run_node_id run = id /\ run_status run = s /\
    forall other, In other runs -> run_node_id other = id -> (run_id other <= run_id run)%Z.
Proof.
  unfold latest_status, latest_node_run. split.
  - destruct (max_by_key _ _) as [run|] eqn:Hm; [|done]. cbn. intros [= <-].
    apply max_by_key_max in Hm as [[Hin Hid%String.eqb_eq]%filter_In Hmax]. exists run. repeat (split; [done|]).
    intros other Ho Hid'. apply Hmax. apply filter_In. split; [done|]. by apply String.eqb_eq.
  - intros (run & -> & _ & _ & <- & _). done.
Qed.

(** The last run of a node was a success. *)
Definition node_succeeded (runs : list WorkflowNodeRun) (id : string) : Prop :=
  exists run, In run runs /\ run_node_id run = id /\ run_status run = StSucceeded /\
    forall other, In other runs -> run_node_id other = id -> (run_id other <= run_id run)%Z.

Lemma branch_succeeded_spec runs id : NoDup (map run_id runs) ->
  branch_succeeded runs id = true <-> node_succeeded runs id.
Proof.
  intros Hnd. unfold branch_succeeded. rewrite bool_decide_eq_true, latest_status_spec. split.
  - intros (run & _ & H). by exists run.
  - intros (run & Hin & Hid & Hs & Hmax). exists run. split; [|done].
    unfold latest_node_run. destruct (max_by_key _ _) as [other|] eqn:Hm.
    + apply max_by_key_max in Hm as [[Ho Hoid%String.eqb_eq]%filter_In Hom].
      assert (run_id run <= run_id other)%Z by (apply Hom, filter_In; split; [done|by apply String.eqb_eq]).
      specialize (Hmax other Ho Hoid). f_equal. assert (Heq : run_id other = run_id run) by lia.
      clear -Hnd Hin Ho Heq. induction runs as [|r runs IH]; [done|]. cbn in Hnd. apply list.NoDup_cons in Hnd as [Hr Hnd].
      destruct Hin as [->|Hin], Ho as [->|Ho]; try done.
      * destruct Hr. apply list_elem_of_In. rewrite <- Heq. by apply in_map.
      * destruct Hr. apply list_elem_of_In. rewrite Heq. by apply in_map.
      * by apply IH.
    + apply max_by_key_none in Hm. assert (In run []) as []. rewrite <- Hm. apply filter_In.
      split; [done|]. by apply String.eqb_eq.
Qed.

(** C36: joins and races agree: with distinct run ids, a branch counts when its last run
    (by id) succeeded; [all] needs every branch, [any] and [first_success] one; a race
    over at least one branch has a winner exactly when the join of its branches is
    satisfied, the winner is one of the branches and its last run succeeded, and under
    [any] and [first_success] no branch listed before it has succeeded.  A race of no
    branches never has a winner, though [all] of no branches joins. *)
Theorem join_race_agree ids mode runs :
  NoDup (map run_id runs) ->
  (join_satisfied ids mode runs = true <->
     match mode with
     | PolicyAll => forall id, In id ids -> node_succeeded runs id
     | _ => exists id, In id ids /\ node_succeeded runs id
     end) /\
  (ids <> [] -> (join_satisfied ids mode runs = true <-> exists w, race_winner ids mode runs = Some w)) /\
  (forall w, race_winner ids mode runs = Some w ->
     exists before after, ids = (before ++ w :: after)%list /\ node_succeeded runs w /\
       match mode with
       | PolicyAll => after = []
       | _ => forall id, In id before -> ~ node_succeeded runs id
       end) /\
  race_winner [] mode runs = None.
Proof.
  intros Hnd. pose proof (branch_succeeded_spec runs) as Hb.
  assert (Hlast : forall l : list string, l <> [] -> exists k w, l = (k ++ [w])%list /\ list.last l = Some w).
  { intros l Hl. destruct (exists_last Hl) as (k & w & ->). exists k, w. by rewrite last_snoc. }
  split; [|split; [|split]].
  - destruct mode; cbn [join_satisfied]; rewrite ?forallb_forall, ?existsb_exists; by setoid_rewrite Hb.
  - intros Hne. destruct mode; cbn [join_satisfied race_winner].
    + destruct (forallb _ ids); [|by split; [|intros []]]. destruct (Hlast ids Hne) as (k & w & _ & ->).
      split; [by exists w|done].
    + rewrite existsb_exists. destruct (List.find _ ids) as [w|] eqn:Hf.
      * apply List.find_some in Hf. split; [by exists w|by intros _; exists w].
      * split; [|by intros []]. intros (x & Hx & Ht). by rewrite (List.find_none _ _ Hf x Hx) in Ht.
    + rewrite existsb_exists. destruct (List.find _ ids) as [w|] eqn:Hf.
      * apply List.find_some in Hf. split; [by exists w|by intros _; exists w].
      * split; [|by intros []]. intros (x & Hx & Ht). by rewrite (List.find_none _ _ Hf x Hx) in Ht.
  - intros w. destruct mode; cbn [race_winner].
    + destruct (forallb _ ids) eqn:Hall; [|done]. intros Hw.
      destruct ids as [|i ids']; [done|]. destruct (Hlast (i :: ids') ltac:(done)) as (k & x & Hk & Hx).
      rewrite Hx in Hw. injection Hw as ->. exists k, []. split; [done|]. split; [|done].
      apply Hb; [done|]. rewrite forallb_forall in Hall. apply Hall. rewrite Hk. apply in_app_iff. right. by left.
    + intros (before & after & -> & Hw & Hn)%find_first. exists before, after. split; [done|]. split; [by apply Hb|].
      intros id Hid%Hn H%Hb; [|done]. congruence.
    + intros (before & after & -> & Hw & Hn)%find_first. exists before, after. split; [done|]. split; [by apply Hb|].
      intros id Hid%Hn H%Hb; [|done]. congruence.
  - by destruct mode.
Qed.

(** Two runs of [a], the later one a success, and a failed run of [b]. *)
Definition sample_run (id : Uuid) (node : string) (status : WorkflowStatus) : WorkflowNodeRun :=
  mk_node_run id 0 node status 1 VNull None VNull None None 0 None None None None None None None.
Definition sample_runs : list WorkflowNodeRun :=
  [sample_run 3 "a" StSucceeded; sample_run 1 "a" StFailed; sample_run 2 "b" StFailed].

Lemma join_race_agree_witness :
  race_winner ["b"; "a"] PolicyAny sample_runs = Some "a" /\
  exists before after, ["b"; "a"] = (before ++ "a" :: after)%list /\ node_succeeded sample_runs "a" /\
    forall id, In id before -> ~ node_succeeded sample_runs id.
Proof.
  assert (Hnd : NoDup (map run_id sample_runs)) by (apply (bool_decide_unpack _); vm_compute; exact I).
  destruct (join_race_agree ["b"; "a"] PolicyAny sample_runs Hnd) as (_ & _ & Hw & _).
  assert (E : race_winner ["b"; "a"] PolicyAny sample_runs = Some "a") by reflexivity.
  split; [exact E|]. exact (Hw "a" E).
Defined.

(** A node with two conditional edges of the same target order as their priorities. *)
Definition sample_branch (p : option Z) (goto : string) : WorkflowBranch :=
  mk_branch (mk_condition None) (mk_node_ref goto) p.
Definition sample_transitions (l : list WorkflowBranch) : WorkflowTransitions :=
  mk_transitions (Some (mk_node_ref "next")) None (Some (mk_node_ref "failed")) None None l.
Definition sample_node (l : list WorkflowBranch) : WorkflowNode :=
  mk_node "n" KCondition false false None default_object (mk_wait None None None) (mk_condition None)
    (sample_transitions l) default_retry None None None (mk_subflow None None false SubflowWait)
    (mk_reentry false 0 None) None.

Example next_transition_priority :
  @next_transition externals_stub 1 (sample_node [sample_branch None "late"; sample_branch (Some 2%Z) "two";
    sample_branch (Some 1%Z) "one"]) StFailed VNull = Ok (Some "one").
Proof. reflexivity. Qed.

Example next_transition_status :
  map (fun s => @next_transition externals_stub 1 (sample_node []) s VNull) [StSucceeded; StBlocked; StTimedOut; StCanceled]
  = [Ok (Some "next"); Ok (Some "failed"); Ok None; Ok None].
Proof. reflexivity. Qed.
