(* ===== verification/Parameters.v ===== *)
(** * Node parameters ([runinator-workflows/src/parameters.rs])

    The typed parameters of each kind of node, read from the node's parameter object;
    the node references and the value references they contain; and the evaluation of
    the routing nodes: switch, toggle and percentage. *)

From S2P Require Import Prelude BTree Float64 Values Types TypeCodec Ast Intrinsics Catalog Eval Workflows.

#[local] Open Scope string_scope.

Abbreviation validated := (result WorkflowValidationError).

(** ** The parameter records ([types.rs]) *)

Record SwitchCase : Type := mk_switch_case { case_target : WorkflowNodeRef; case_condition : WorkflowCondition }.

Record SwitchParameters : Type := mk_switch {
  switch_value : WorkflowExpression;
  cases : list SwitchCase;
  switch_default : option WorkflowNodeRef
}.

Record ToggleParameters : Type := mk_toggle {
  toggle_value : WorkflowExpression;
  on : WorkflowNodeRef;
  off : WorkflowNodeRef
}.

Record PercentageBucket : Type := mk_bucket { weight : Z; bucket_target : WorkflowNodeRef }.

Record PercentageParameters : Type := mk_percentage {
  percentage_key : WorkflowExpression;
  buckets : list PercentageBucket;
  percentage_default : option WorkflowNodeRef
}.

Record ParallelParameters : Type := mk_parallel { parallel_branches : list WorkflowNodeRef }.

Record JoinParameters : Type := mk_join { wait_for : list WorkflowNodeRef; mode : BranchPolicy }.

Record TryParameters : Type := mk_try {
  body : WorkflowNodeRef;
  catch : option WorkflowNodeRef;
  finally : option WorkflowNodeRef
}.

Record MapParameters : Type := mk_map {
  map_items : WorkflowExpression;
  map_target : WorkflowNodeRef;
  concurrency : option Z
}.

Record RaceParameters : Type := mk_race { race_branches : list WorkflowNodeRef; winner : BranchPolicy }.

Record ArtifactItem : Type := mk_artifact_item { item_name : string; item_source : WorkflowExpression }.

Record OutputParameters : Type := mk_output {
  event_type : option string;
  output_data : WorkflowExpression;
  output_items : list ArtifactItem
}.

Record InputParameters : Type := mk_input { prompt : option string }.

Record WaitParameters : Type := mk_wait_parameters {
  wait_for_seconds : Z;
  until_status : option string;
  initial_status : string
}.

Record ApprovalParameters : Type := mk_approval {
  approval_type : string;
  approval_prompt : string;
  approval_metadata : Value
}.

Record SignalParameters : Type := mk_signal { signal_name : string; correlation_key : WorkflowExpression }.

Record LoopParameters : Type := mk_loop { loop_items : list Value }.

Inductive GateKind : Type := GateManual | GateCondition | GateExternal.

Record GateParameters : Type := mk_gate {
  gate_kind : GateKind;
  gate_condition : WorkflowCondition;
  poll_interval_seconds : Z;
  deadline_seconds : option Z;
  gate_label : option string;
  gate_metadata : Value
}.

(** ** Reading parameters *)

Definition invalid_parameters {A} (node : WorkflowNode) (message : string) : validated A :=
  Err (InvalidNodeParameters (node_id node) message).

(** [node.parameters.get(key)]. *)
Definition parameter (node : WorkflowNode) (key : string) : option Value := get_key key (object_value (node_parameters node)).

Definition parameter_object (node : WorkflowNode) : validated Map :=
  match as_object (object_value (node_parameters node)) with
  | Some object => Ok object
  | None => invalid_parameters node "parameters must be an object"
  end.

Definition optional_string (value : option Value) : option string :=
  match value ≫= as_str with
  | Some s => if String.eqb s "" then None else Some s
  | None => None
  end.

Definition parse_node_ref_value `{Externals} (value : Value) (node : option WorkflowNode) (label : string)
    : validated WorkflowNodeRef :=
  let invalid := match node with
                 | Some node =>
                     invalid_parameters node
                       (label +:+ " must be { " +:+ quoted "$node" +:+ ": " +:+ quoted "node_id" +:+ " }")
                 | None => Err (InvalidValueRef (json_string value))
                 end in
  match as_object value with
  | None => invalid
  | Some object =>
      if negb (Nat.eqb (length object) 1) || negb (bt_contains "$node" object) then invalid
      else match bt_get "$node" object ≫= as_str with
           | Some target => if String.eqb target "" then invalid else Ok (mk_node_ref target)
           | None => invalid
           end
  end.

Definition required_node_ref `{Externals} (value : option Value) (node : WorkflowNode) (label : string)
    : validated WorkflowNodeRef :=
  match value with
  | None => invalid_parameters node (label +:+ " is required")
  | Some value => parse_node_ref_value value (Some node) label
  end.

Definition optional_node_ref `{Externals} (value : option Value) (node : WorkflowNode) (label : string)
    : validated (option WorkflowNodeRef) :=
  match value with
  | None => Ok None
  | Some value => Some <$> parse_node_ref_value value (Some node) label
  end.

Definition node_ref_array `{Externals} (value : option Value) (node : WorkflowNode) (label : string)
    : validated (list WorkflowNodeRef) :=
  match value ≫= as_array with
  | None => invalid_parameters node (label +:+ " must be an array")
  | Some items => mapM (fun item => parse_node_ref_value item (Some node) label) items
  end.

(** A required entry of the parameter object. *)
Definition required_value (node : WorkflowNode) (object : Map) (key message : string) : validated Value :=
  match bt_get key object with Some value => Ok value | None => invalid_parameters node message end.

Definition policy_of (node : WorkflowNode) (value : option Value) (dflt : BranchPolicy) : validated BranchPolicy :=
  match branch_policy_parse value dflt with Ok p => Ok p | Err message => invalid_parameters node message end.

(** ** Parameters by kind *)

(** The condition of a case without [when]: the switch value compared by the keys of the
    case. *)
Definition case_comparison (value : Value) (case_object : Map) : Map :=
  foldl (fun condition key =>
           match bt_get key case_object with Some expected => bt_insert key expected condition | None => condition end)
    (bt_insert "value" value []) ["equals"; "not_equals"; "exists"].

Definition parse_switch_case `{Externals} (node : WorkflowNode) (value : Value) (case : Value) : validated SwitchCase :=
  match as_object case with
  | None => invalid_parameters node "switch case must be an object"
  | Some case_object =>
      target ← required_node_ref (bt_get "target" case_object) node "switch case target";
      condition ← match bt_get "when" case_object with
                  | Some when => Ok when
                  | None =>
                      let condition := case_comparison value case_object in
                      if Nat.eqb (length condition) 1
                      then invalid_parameters node "switch case requires when, equals, not_equals, or exists"
                      else Ok (VObject condition)
                  end;
      Ok (mk_switch_case target (workflow_condition_from_value condition))
  end.

Definition parse_switch_parameters `{Externals} (node : WorkflowNode) : validated SwitchParameters :=
  object ← parameter_object node;
  value ← required_value node object "value" "switch.value is required";
  cases ← match bt_get "cases" object ≫= as_array with
          | Some cases => mapM (parse_switch_case node value) cases
          | None => invalid_parameters node "switch.cases must be an array"
          end;
  dflt ← optional_node_ref (bt_get "default" object) node "switch.default";
  value ← parse_expression value;
  Ok (mk_switch value cases dflt).

Definition parse_toggle_parameters `{Externals} (node : WorkflowNode) : validated ToggleParameters :=
  object ← parameter_object node;
  value ← required_value node object "value" "toggle.value is required";
  on ← required_node_ref (bt_get "on" object) node "toggle.on";
  off ← required_node_ref (bt_get "off" object) node "toggle.off";
  value ← parse_expression value;
  Ok (mk_toggle value on off).

Definition parse_bucket `{Externals} (node : WorkflowNode) (bucket : Value) : validated PercentageBucket :=
  match as_object bucket with
  | None => invalid_parameters node "percentage bucket must be an object"
  | Some object =>
      match bt_get "weight" object ≫= as_i64 with
      | None => invalid_parameters node "percentage bucket weight must be an integer"
      | Some weight =>
          if (weight <=? 0)%Z then invalid_parameters node "percentage bucket weight must be greater than zero"
          else
            target ← required_node_ref (bt_get "target" object) node "percentage bucket target";
            Ok (mk_bucket weight target)
      end
  end.

Definition parse_percentage_parameters `{Externals} (node : WorkflowNode) : validated PercentageParameters :=
  object ← parameter_object node;
  key ← required_value node object "key" "percentage.key is required";
  buckets ← match bt_get "buckets" object ≫= as_array with
            | None => invalid_parameters node "percentage.buckets must be an array"
            | Some [] => invalid_parameters node "percentage.buckets cannot be empty"
            | Some entries => mapM (parse_bucket node) entries
            end;
  dflt ← optional_node_ref (bt_get "default" object) node "percentage.default";
  key ← parse_expression key;
  Ok (mk_percentage key buckets dflt).

(** A required, non-empty array of node references. *)
Definition branch_array `{Externals} (node : WorkflowNode) (object : Map) (key label : string) : validated (list WorkflowNodeRef) :=
  items ← node_ref_array (bt_get key object) node label;
  match items with [] => invalid_parameters node (label +:+ " cannot be empty") | _ => Ok items end.

Definition parse_parallel_parameters `{Externals} (node : WorkflowNode) : validated ParallelParameters :=
  object ← parameter_object node;
  items ← branch_array node object "branches" "parallel.branches";
  Ok (mk_parallel items).

Definition parse_join_parameters `{Externals} (node : WorkflowNode) : validated JoinParameters :=
  object ← parameter_object node;
  items ← branch_array node object "wait_for" "join.wait_for";
  policy ← policy_of node (bt_get "mode" object) PolicyAll;
  Ok (mk_join items policy).

Definition parse_try_parameters `{Externals} (node : WorkflowNode) : validated TryParameters :=
  object ← parameter_object node;
  body ← required_node_ref (bt_get "body" object) node "try.body";
  catch ← optional_node_ref (bt_get "catch" object) node "try.catch";
  finally ← optional_node_ref (bt_get "finally" object) node "try.finally";
  Ok (mk_try body catch finally).

Definition parse_map_parameters `{Externals} (node : WorkflowNode) : validated MapParameters :=
  object ← parameter_object node;
  items ← required_value node object "items" "map.items is required";
  target ← required_node_ref (bt_get "target" object) node "map.target";
  let limit := bt_get "concurrency" object ≫= as_i64 in
  if match limit with Some n => (n <=? 0)%Z | None => false end
  then invalid_parameters node "map.concurrency must be greater than zero"
  else items ← parse_expression items; Ok (mk_map items target limit).

Definition parse_race_parameters `{Externals} (node : WorkflowNode) : validated RaceParameters :=
  object ← parameter_object node;
  items ← branch_array node object "branches" "race.branches";
  policy ← policy_of node (bt_get "winner" object) PolicyFirstSuccess;
  Ok (mk_race items policy).

Definition non_empty (s : string) : option string := if String.eqb s "" then None else Some s.

Definition parse_output_item `{Externals} (node : WorkflowNode) (entry : Value) : validated ArtifactItem :=
  match as_object entry with
  | None => invalid_parameters node "output.items entry must be an object"
  | Some entry =>
      match (name ← bt_get "name" entry ≫= as_str; non_empty (str_trim name)) with
      | None => invalid_parameters node "output artifact item requires a name"
      | Some name =>
          source ← required_value node entry "source" "output artifact item requires a source";
          source ← parse_expression source;
          Ok (mk_artifact_item name source)
      end
  end.

Definition parse_output_parameters `{Externals} (node : WorkflowNode) : validated OutputParameters :=
  object ← parameter_object node;
  let data := match bt_get "data" object with Some data => data | None => VNull end in
  items ← match bt_get "items" object ≫= as_array with
          | Some entries => mapM (parse_output_item node) entries
          | None => Ok []
          end;
  data ← parse_expression data;
  Ok (mk_output (optional_string (bt_get "event_type" object)) data items).

Definition parse_input_parameters (node : WorkflowNode) : InputParameters :=
  mk_input (match parameter_object node with
            | Ok object => prompt ← bt_get "prompt" object ≫= as_str; non_empty (str_trim prompt)
            | Err _ => None
            end).

Definition parse_wait_parameters (node : WorkflowNode) : WaitParameters :=
  mk_wait_parameters
    (match wait_seconds (wait node) with Some (WaitInteger value) => Z.max value 0 | _ => 0%Z end)
    (wait_until_status (wait node))
    (from_option id (status_as_str StWaiting) (wait_initial_status (wait node))).

Definition parse_approval_parameters (node : WorkflowNode) : ApprovalParameters :=
  mk_approval
    (from_option id "generic" (parameter node "approval_type" ≫= as_str))
    (from_option id "Approval required" (parameter node "prompt" ≫= as_str))
    (object_value (node_parameters node)).

Definition parse_signal_parameters `{Externals} (node : WorkflowNode) : SignalParameters :=
  let correlation_key := from_option id VNull (parameter node "correlation_key") in
  mk_signal (from_option id "" (parameter node "name" ≫= as_str))
    (match expr_parse correlation_key with Ok e => e | Err _ => ELiteral correlation_key end).

Definition DEFAULT_GATE_POLL_SECONDS : Z := 30.

(** An integer parameter, when positive. *)
Definition positive_parameter (node : WorkflowNode) (key : string) : option Z :=
  match parameter node key ≫= as_i64 with
  | Some seconds => if (0 <? seconds)%Z then Some seconds else None
  | None => None
  end.

Definition parse_gate_parameters `{Externals} (node : WorkflowNode) : GateParameters :=
  mk_gate
    (match parameter node "kind" ≫= as_str with
     | Some "condition" => GateCondition
     | Some "external" => GateExternal
     | _ => GateManual
     end)
    (workflow_condition_from_value (from_option id VNull (parameter node "when")))
    (from_option id DEFAULT_GATE_POLL_SECONDS (positive_parameter node "poll_interval"))
    (positive_parameter node "timeout")
    (parameter node "label" ≫= as_str)
    (object_value (node_parameters node)).

Definition parse_loop_items (resolved_parameters : Value) : LoopParameters :=
  mk_loop (from_option id [] (get_key "items" resolved_parameters ≫= as_array)).

(** ** Routing nodes *)

Fixpoint evaluate_cases `{Externals} (fuel : nat) (cases : list SwitchCase) (context : Value) : eval (option string) :=
  match cases with
  | [] => Ok None
  | case :: rest =>
      taken ← evaluate_workflow_condition fuel (condition_node (case_condition case)) context;
      if (taken : bool) then Ok (Some (node_ref (case_target case))) else evaluate_cases fuel rest context
  end.

Definition evaluate_switch `{Externals} (fuel : nat) (switch : SwitchParameters) (context : Value) : eval (option string) :=
  chosen ← evaluate_cases fuel (cases switch) context;
  match chosen with
  | Some target => Ok (Some target)
  | None => Ok (node_ref <$> switch_default switch)
  end.

Definition evaluate_toggle `{Externals} (fuel : nat) (toggle : ToggleParameters) (context : Value) : eval string :=
  let condition := workflow_condition_from_value (VObject [("value", expr_value (toggle_value toggle))]) in
  taken ← evaluate_workflow_condition fuel (condition_node condition) context;
  Ok (node_ref (if (taken : bool) then on toggle else off toggle)).

(** Sums of [i64]s wrap around in release builds. *)
Definition total_weight (l : list PercentageBucket) : Z := foldl (fun acc b => wrap_i64 (acc + weight b)) 0%Z l.

Fixpoint pick_bucket (l : list PercentageBucket) (slot cumulative : Z) : option WorkflowNodeRef :=
  match l with
  | [] => None
  | bucket :: rest =>
      let cumulative := wrap_i64 (cumulative + weight bucket) in
      if (slot <? cumulative)%Z then Some (bucket_target bucket) else pick_bucket rest slot cumulative
  end.

Definition evaluate_percentage `{Externals} (fuel : nat) (percentage : PercentageParameters) (context : Value)
    : eval (option string) :=
  key ← evaluate_expression fuel (percentage_key percentage) context;
  let total := total_weight (buckets percentage) in
  if is_null key || (total <=? 0)%Z then Ok (node_ref <$> percentage_default percentage)
  else
    hashed ← lift (call_pure "hash" [key]);
    let slot := Z.rem (from_option id 0%Z (as_i64 hashed)) total in
    match pick_bucket (buckets percentage) slot 0%Z with
    | Some target => Ok (Some (node_ref target))
    | None => Ok (node_ref <$> percentage_default percentage)
    end.

(** ** References of a node *)

Definition option_list {A} (o : option A) : list A := match o with Some a => [a] | None => [] end.

Definition parameter_targets `{Externals} (node : WorkflowNode) : validated (list WorkflowNodeRef) :=
  match kind node with
  | KSwitch =>
      params ← parse_switch_parameters node;
      Ok (map case_target (cases params) ++ option_list (switch_default params))%list
  | KToggle => params ← parse_toggle_parameters node; Ok [on params; off params]
  | KPercentage =>
      params ← parse_percentage_parameters node;
      Ok (map bucket_target (buckets params) ++ option_list (percentage_default params))%list
  | KParallel => params ← parse_parallel_parameters node; Ok (parallel_branches params)
  | KJoin => params ← parse_join_parameters node; Ok (wait_for params)
  | KTry =>
      params ← parse_try_parameters node;
      Ok (body params :: option_list (catch params) ++ option_list (finally params))%list
  | KMap => params ← parse_map_parameters node; Ok [map_target params]
  | KRace => params ← parse_race_parameters node; Ok (race_branches params)
  | _ => Ok []
  end.

Definition validate_condition (condition : Value) : validated unit :=
  if is_null condition || is_object condition then Ok tt else Err (InvalidCondition "condition must be an object").

Definition validate_control_node_parameters `{Externals} (node : WorkflowNode) : validated unit :=
  match kind node with
  | KSwitch =>
      params ← parse_switch_parameters node;
      _ ← mapM (fun case => validate_condition (workflow_condition_to_value (case_condition case))) (cases params);
      Ok tt
  | KToggle => _ ← parse_toggle_parameters node; Ok tt
  | KPercentage => _ ← parse_percentage_parameters node; Ok tt
  | KParallel => _ ← parse_parallel_parameters node; Ok tt
  | KJoin => _ ← parse_join_parameters node; Ok tt
  | KTry => _ ← parse_try_parameters node; Ok tt
  | KMap => _ ← parse_map_parameters node; Ok tt
  | KRace => _ ← parse_race_parameters node; Ok tt
  | KOutput => _ ← parse_output_parameters node; Ok tt
  | _ => Ok tt
  end.

Definition parse_value_ref `{Externals} (value : Value) : validated WorkflowValueRef :=
  match ref_parse value with Ok r => Ok r | Err e => Err (InvalidValueRef e) end.

Definition has_any (keys : list string) (m : Map) : bool := existsb (fun key => bt_contains key m) keys.

(** Concatenation of the references collected from a list of values. *)
Fixpoint concat_refs {A} (collect : A -> validated (list WorkflowValueRef)) (l : list A) : validated (list WorkflowValueRef) :=
  match l with
  | [] => Ok []
  | x :: rest => refs ← collect x; more ← concat_refs collect rest; Ok (refs ++ more)%list
  end.

(** [collect_value_refs]; the accumulator of the source is the concatenation.  It runs
    with the size of the value. *)
Fixpoint collect_value_refs_fuel `{Externals} (fuel : nat) (value : Value) : validated (list WorkflowValueRef) :=
  match fuel with
  | O => Ok []
  | S fuel =>
      match value with
      | VObject map =>
          if bt_contains "$value" map then Err (InvalidValueRef (json_string value))
          else if has_any ["$ref"; "$concat"; "$literal"; "$to_string"; "$to_json_string"; "$node"] map then
            if negb (Nat.eqb (length map) 1) then Err (InvalidValueRef (json_string value))
            else match bt_get "$ref" map, bt_get "$concat" map, bt_get "$to_string" map, bt_get "$to_json_string" map with
                 | Some reference, _, _, _ => r ← parse_value_ref reference; Ok [r]
                 | None, Some items, _, _ =>
                     match as_array items with
                     | Some items => concat_refs (collect_value_refs_fuel fuel) items
                     | None => Err (InvalidValueRef (json_string value))
                     end
                 | None, None, Some nested, _ => collect_value_refs_fuel fuel nested
                 | None, None, None, Some nested => collect_value_refs_fuel fuel nested
                 | None, None, None, None => Ok []
                 end
          else concat_refs (fun kv => collect_value_refs_fuel fuel kv.2) map
      | VArray items => concat_refs (collect_value_refs_fuel fuel) items
      | VString raw => if str_contains raw "{{" || str_contains raw "}}" then Err (InvalidValueRef raw) else Ok []
      | _ => Ok []
      end
  end.

Definition collect_value_refs `{Externals} (value : Value) : validated (list WorkflowValueRef) :=
  collect_value_refs_fuel (value_size value) value.

Definition value_refs `{Externals} (node : WorkflowNode) : validated (list WorkflowValueRef) :=
  parameters ← collect_value_refs (object_value (node_parameters node));
  condition ← collect_value_refs (workflow_condition_to_value (node_condition node));
  edges ← concat_refs (fun branch => collect_value_refs (workflow_condition_to_value (when branch)))
            (branches (transitions node));
  Ok (parameters ++ condition ++ edges)%list.

(** ** Facts about collection *)

Lemma concat_refs_ext {A} (f g : A -> validated (list WorkflowValueRef)) l :
  (forall x, In x l -> f x = g x) -> concat_refs f l = concat_refs g l.
Proof.
  induction l as [|x l IH]; intros H; [done|]. cbn [concat_refs]. rewrite (H x) by by left.
  rewrite IH; [done|]. intros y Hy. apply H. by right.
Qed.

(** Any fuel above the size of the value gives the same references. *)
Lemma collect_value_refs_fuel_enough `{Externals} n m v : value_size v <= n -> value_size v <= m ->
  collect_value_refs_fuel n v = collect_value_refs_fuel m v.
Proof.
  revert m v. induction n as [|n IH]; intros [|m] v Hn Hm; try (pose proof (value_size_pos v); lia).
  assert (Hsub : forall x, value_size x < value_size v -> collect_value_refs_fuel n x = collect_value_refs_fuel m x)
    by (intros x Hx; apply IH; lia).
  assert (Hget : forall map k x, v = VObject map -> bt_get k map = Some x -> value_size x < value_size v)
    by (intros map k x -> Hx; by apply (get_key_size k (VObject map))).
  cbn [collect_value_refs_fuel]. destruct v as [| | | |l|map]; try done.
  - apply concat_refs_ext. intros x Hx%In_value_size. apply Hsub. rewrite size_array. lia.
  - destruct (bt_contains "$value" map); [done|]. destruct (has_any _ map).
    + destruct (negb _); [done|]. destruct (bt_get "$ref" map); [done|].
      destruct (bt_get "$concat" map) as [items|] eqn:Hc.
      * destruct (as_array items) as [l|] eqn:Hl; [|done]. apply concat_refs_ext. intros x Hx. apply Hsub.
        destruct items; try done. injection Hl as ->. by apply (get_key_items_size "$concat" _ l).
      * destruct (bt_get "$to_string" map) as [x|] eqn:Hx; [apply Hsub; by eapply Hget|].
        destruct (bt_get "$to_json_string" map) as [x|] eqn:Hy; [|done]. apply Hsub. by eapply Hget.
    + apply concat_refs_ext. intros [k x] Hx%In_value_size_obj. apply Hsub. rewrite size_object. cbn [snd]. lia.
Qed.

(** ** Percentages *)

Definition sum_weights (l : list PercentageBucket) : Z := foldr (fun b acc => (weight b + acc)%Z) 0%Z l.

Lemma sum_weights_cons b l : sum_weights (b :: l) = (weight b + sum_weights l)%Z.
Proof. done. Qed.

Lemma sum_weights_nonneg l : Forall (fun b => (0 < weight b)%Z) l -> (0 <= sum_weights l)%Z.
Proof. induction 1 as [|b l Hb _ IH]; [done|]. rewrite sum_weights_cons. lia. Qed.

Lemma total_weight_sum l : Forall (fun b => (0 < weight b)%Z) l -> (sum_weights l <= i64_max)%Z -> total_weight l = sum_weights l.
Proof.
  unfold total_weight. intros Hl Hs.
  assert (H : forall acc, (0 <= acc)%Z -> (acc + sum_weights l <= i64_max)%Z ->
    foldl (fun acc b => wrap_i64 (acc + weight b)) acc l = (acc + sum_weights l)%Z).
  { clear Hs. induction Hl as [|b l Hb Hl IH]; intros acc Ha Hs; cbn [foldl]; [cbn; lia|].
    rewrite sum_weights_cons in *. pose proof (sum_weights_nonneg l Hl). rewrite wrap_i64_id by (apply in_i64_spec; unfold i64_min; lia).
    rewrite IH by lia. lia. }
  rewrite H by lia. lia.
Qed.

(** The bucket a slot falls into: the first whose cumulative weight exceeds it. *)
Definition slot_bucket (l : list PercentageBucket) (slot : Z) (b : PercentageBucket) : Prop :=
  exists before after, l = (before ++ b :: after)%list /\
    (sum_weights before <= slot < sum_weights before + weight b)%Z.

Lemma pick_bucket_slot l slot : Forall (fun b => (0 < weight b)%Z) l -> (sum_weights l <= i64_max)%Z ->
  (0 <= slot < sum_weights l)%Z -> exists b, slot_bucket l slot b /\ pick_bucket l slot 0 = Some (bucket_target b).
Proof.
  intros Hl Hmax Hslot.
  assert (H : forall acc, (0 <= acc <= slot)%Z -> (slot < acc + sum_weights l)%Z -> (acc + sum_weights l <= i64_max)%Z ->
    exists b before after, l = (before ++ b :: after)%list /\
      (acc + sum_weights before <= slot < acc + sum_weights before + weight b)%Z /\
      pick_bucket l slot acc = Some (bucket_target b)).
  { clear Hmax Hslot. induction Hl as [|b l Hb Hl IH]; intros acc Ha Hlt Hs; [cbn in Hlt; lia|].
    cbn [pick_bucket]. rewrite sum_weights_cons in *. pose proof (sum_weights_nonneg l Hl) as Hnn.
    rewrite wrap_i64_id by (apply in_i64_spec; unfold i64_min; lia).
    destruct (Z.ltb_spec slot (acc + weight b)) as [Hin|Hout].
    - exists b, [], l. split; [done|]. change (sum_weights []) with 0%Z. split; [lia|done].
    - destruct (IH (acc + weight b)%Z ltac:(lia) ltac:(lia) ltac:(lia)) as (c & before & after & -> & Hc & Hp).
      exists c, (b :: before), after. split; [done|]. rewrite sum_weights_cons. split; [lia|done]. }
  destruct (H 0%Z ltac:(lia) ltac:(lia) ltac:(lia)) as (b & before & after & -> & Hb & Hp).
  exists b. split; [|done]. exists before, after. split; [done|lia].
Qed.

Lemma parse_percentage_weights `{Externals} node p : parse_percentage_parameters node = Ok p ->
  buckets p <> [] /\ Forall (fun b => (0 < weight b)%Z) (buckets p).
Proof.
  unfold parse_percentage_parameters. intros Hp.
  apply bind_ok in Hp as (object & _ & Hp). apply bind_ok in Hp as (key & _ & Hp).
  apply bind_ok in Hp as (bs & Hbs & Hp). apply bind_ok in Hp as (dflt & _ & Hp). apply bind_ok in Hp as (e & _ & Hp).
  injection Hp as <-. cbn [buckets].
  destruct (bt_get "buckets" object ≫= as_array) as [[|entry entries]|]; try done.
  apply mapM_ok_Forall2 in Hbs. split; [by inversion Hbs|].
  assert (forall x b, parse_bucket node x = Ok b -> (0 < weight b)%Z) as Hw.
  { intros x b Hx. unfold parse_bucket in Hx. destruct (as_object x) as [o|]; [|done].
    destruct (bt_get "weight" o ≫= as_i64) as [w|]; [|done]. destruct (Z.leb_spec w 0); [done|].
    apply bind_ok in Hx as (t & _ & [= <-]). done. }
  induction Hbs as [|x b xs bs Hx _ IH]; constructor; [by eapply Hw|done].
Qed.

(** C37: percentage routing: for parameters that parse and weights whose sum fits in an [i64],
    the run of a key goes to the bucket whose range of slots holds [hash(key) % total]:
    the ranges of the buckets are adjacent, each as long as its weight, so every
    non-null key is routed to a bucket, the same one each time, and never to the
    default; a null key goes to the default. *)
Theorem percentage_routes `{Externals} node p fuel context key :
  parse_percentage_parameters node = Ok p -> (sum_weights (buckets p) <= i64_max)%Z ->
  evaluate_expression fuel (percentage_key p) context = Ok key ->
  if is_null key then evaluate_percentage fuel p context = Ok (node_ref <$> percentage_default p)
  else exists b, slot_bucket (buckets p) (Z.rem (fnv1a_63 (hash_bytes key)) (sum_weights (buckets p))) b /\
         evaluate_percentage fuel p context = Ok (Some (node_ref (bucket_target b))).
Proof.
  intros Hp Hmax Hkey. destruct (parse_percentage_weights node p Hp) as [Hne Hw].
  unfold evaluate_percentage. rewrite Hkey. cbn [mbind result_bind]. rewrite total_weight_sum by done.
  assert (Hpos : (0 < sum_weights (buckets p))%Z).
  { destruct Hw as [|b l Hb Hl]; [done|]. rewrite sum_weights_cons. pose proof (sum_weights_nonneg l Hl). lia. }
  destruct (is_null key) eqn:Hnull; cbn [orb]; [done|]. destruct (Z.leb_spec (sum_weights (buckets p)) 0); [lia|].
  destruct (hash_bounds key) as (h & _ & Hh & Hr & _ & _).
  change (call_pure "hash" [key]) with (intrinsic_hash [key]).
  assert (Hv : fnv1a_63 (hash_bytes key) = h).
  { injection Hh as Hh. unfold number_from_i64 in Hh. destruct (0 <=? _)%Z, (0 <=? h)%Z; congruence. }
  rewrite Hh, Hv. cbn [lift mbind result_bind].
  destruct (as_i64_from_i64 h) as [-> _]; [apply in_i64_spec; unfold i64_min; lia|]. cbn [from_option id].
  destruct (pick_bucket_slot (buckets p) (Z.rem h (sum_weights (buckets p))) Hw Hmax) as (b & Hb & ->).
  { apply Z.rem_bound_pos; lia. }
  by exists b.
Qed.

(** ** Concrete nodes *)

Definition bare_node (id : string) (k : WorkflowNodeKind) (params : Map) (t : WorkflowTransitions) : WorkflowNode :=
  mk_node id k false false None (mk_object (VObject params)) (mk_wait None None None) (mk_condition None)
    t default_retry None None None (mk_subflow None None false SubflowWait) (mk_reentry false 0 None) None.

Definition no_transitions : WorkflowTransitions := mk_transitions None None None None None [].

Definition bucket_value (w : Z) (goto : string) : Value :=
  VObject [("target", VObject [("$node", VString goto)]); ("weight", VNumber (PosInt w))].

Definition rollout (l : list Value) : WorkflowNode :=
  bare_node "p" KPercentage [("buckets", VArray l); ("key", VString "user-1")] no_transitions.

Definition rollout_parameters : PercentageParameters :=
  mk_percentage (ELiteral (VString "user-1"))
    [mk_bucket 30 (mk_node_ref "canary"); mk_bucket 70 (mk_node_ref "stable")] None.

Lemma percentage_routes_witness :
  exists b, slot_bucket (buckets rollout_parameters) (Z.rem (fnv1a_63 (hash_bytes (EX := externals_stub) (VString "user-1"))) 100) b /\
    evaluate_percentage (H := externals_stub) 2 rollout_parameters VNull = Ok (Some (node_ref (bucket_target b))).
Proof.
  apply (percentage_routes (H := externals_stub) (rollout [bucket_value 30 "canary"; bucket_value 70 "stable"])
    rollout_parameters 2 VNull (VString "user-1")); [reflexivity|by vm_compute|reflexivity].
Defined.

(** Weights whose sum leaves the [i64]s: in a release build the total wraps to zero and no
    bucket is chosen, though every weight is positive. *)
Example percentage_overflow :
  (p ← parse_percentage_parameters (H := externals_stub)
         (rollout [bucket_value i64_max "a"; bucket_value i64_max "b"; bucket_value 2 "c"]);
   Ok (evaluate_percentage (H := externals_stub) 2 p VNull)) = Ok (Ok None).
Proof. vm_compute. reflexivity. Qed.
