(* ===== verification/Validation.v ===== *)
(** * Validation of workflows ([runinator-workflows/src/validation.rs])

    The static checks of a workflow graph: every reference leads to a node it may lead
    to, cycles pass through nodes that bound them, the bodies of concurrent maps are
    isolated, and mutexes are released only after they were acquired.  The graph walks
    run with fuel; [validate_workflow_sound] shows that the fuel they are given is
    enough. *)

From stdpp Require Import relations.
From S2P Require Import Prelude BTree Float64 Values Types TypeCodec Ast Intrinsics Catalog Eval Workflows Parameters.

#[local] Open Scope string_scope.

(** ** The graph *)

Record WorkflowGraph : Type := mk_graph {
  start : option string;
  nodes : list WorkflowNode;
  graph_defs : Map;
  graph_metadata : Value;
  graph_extra : Map
}.

(** [parse_nodes], from the result of [expand_workflow_refs]. *)
Definition parse_nodes (expanded : validated WorkflowGraph) : validated (string * list WorkflowNode) :=
  definition ← expanded;
  start ← match start definition with
          | Some s => if String.eqb s "" then Err MissingStart else Ok s
          | None => Err MissingStart
          end;
  match nodes definition with [] => Err MissingNodes | ns => Ok (start, ns) end.

(** The node map: a hash map collected from the nodes, where later nodes win. *)
Definition find_node (ns : list WorkflowNode) (id : string) : option WorkflowNode :=
  List.find (fun n => String.eqb (node_id n) id) (rev ns).

Definition contains_id (ids : list string) (id : string) : bool := existsb (String.eqb id) ids.

(** ** References *)

Inductive NodeReferenceRole : Type :=
| RTransition | RSwitchCase | RSwitchDefault | RToggleTarget | RPercentageBucket | RParallelBranch | RJoinWaitFor
| RTryBody | RTryCatch | RTryFinally | RMapTarget | RRaceBranch | RNodeOutput | RReentryExhausted.

Definition role_label (r : NodeReferenceRole) : string :=
  match r with
  | RTransition => "transition"
  | RSwitchCase => "switch case target"
  | RSwitchDefault => "switch default target"
  | RToggleTarget => "toggle on/off target"
  | RPercentageBucket => "percentage bucket target"
  | RParallelBranch => "parallel branch"
  | RJoinWaitFor => "join wait_for"
  | RTryBody => "try body"
  | RTryCatch => "try catch"
  | RTryFinally => "try finally"
  | RMapTarget => "map target"
  | RRaceBranch => "race branch"
  | RNodeOutput => "node output reference"
  | RReentryExhausted => "reentry on_exhausted"
  end.

Definition role_expected (r : NodeReferenceRole) : string :=
  match r with
  | RTransition | RSwitchCase | RSwitchDefault | RToggleTarget | RPercentageBucket | RReentryExhausted => "a non-start node"
  | RParallelBranch | RJoinWaitFor | RTryBody | RTryCatch | RTryFinally | RMapTarget | RRaceBranch =>
      "a runnable, non-terminal node"
  | RNodeOutput => "an output-producing node"
  end.

Definition is_runnable_entry_kind (k : WorkflowNodeKind) : bool :=
  match k with KStart | KEnd | KFail => false | _ => true end.

Definition is_output_producing_kind (k : WorkflowNodeKind) : bool :=
  match k with
  | KAction | KApproval | KWait | KSwitch | KToggle | KPercentage | KGate | KSignal | KLoop | KParallel | KJoin | KMap
  | KRace | KOutput | KInput | KSubflow | KConfig | KAssert | KTransform | KAudit | KCheckpoint | KMutex | KThrottle
  | KAwaitRun | KDebounce | KCollect | KBarrier | KCircuitBreaker | KEventSource => true
  | _ => false
  end.

Definition role_accepts (r : NodeReferenceRole) (k : WorkflowNodeKind) : bool :=
  match r with
  | RTransition | RSwitchCase | RSwitchDefault | RToggleTarget | RPercentageBucket | RReentryExhausted =>
      negb (bool_decide (k = KStart))
  | RParallelBranch | RJoinWaitFor | RTryBody | RTryCatch | RTryFinally | RMapTarget | RRaceBranch =>
      is_runnable_entry_kind k
  | RNodeOutput => is_output_producing_kind k
  end.

(** The [Debug] text of a kind. *)
Definition kind_debug (k : WorkflowNodeKind) : string :=
  match k with
  | KStart => "Start" | KAction => "Action" | KWait => "Wait" | KCondition => "Condition" | KSwitch => "Switch"
  | KToggle => "Toggle" | KPercentage => "Percentage" | KApproval => "Approval" | KGate => "Gate" | KSignal => "Signal"
  | KLoop => "Loop" | KParallel => "Parallel" | KJoin => "Join" | KTry => "Try" | KMap => "Map" | KRace => "Race"
  | KOutput => "Output" | KInput => "Input" | KSubflow => "Subflow" | KConfig => "Config" | KEnd => "End" | KFail => "Fail"
  | KAssert => "Assert" | KTransform => "Transform" | KAudit => "Audit" | KCheckpoint => "Checkpoint" | KMutex => "Mutex"
  | KThrottle => "Throttle" | KCooldown => "Cooldown" | KAwaitRun => "AwaitRun" | KDebounce => "Debounce"
  | KCollect => "Collect" | KBarrier => "Barrier" | KCircuitBreaker => "CircuitBreaker" | KEventSource => "EventSource"
  end.

Definition validate_node_ref (ns : list WorkflowNode) (node : WorkflowNode) (role : NodeReferenceRole)
    (target : WorkflowNodeRef) : validated unit :=
  match find_node ns (node_ref target) with
  | None => Err (MissingTransition (node_id node) (node_ref target))
  | Some target_node =>
      if role_accepts role (kind target_node) then Ok tt
      else Err (InvalidNodeReferenceType (node_id node) (role_label role) (node_ref target)
                  (kind_debug (kind target_node)) (role_expected role))
  end.

Definition transition_targets (t : WorkflowTransitions) : list WorkflowNodeRef :=
  option_list (next t) ++ option_list (on_success t) ++ option_list (on_failure t) ++ option_list (on_timeout t)
    ++ option_list (on_reject t) ++ map target (branches t).

Definition validate_parameter_node_refs `{Externals} (ns : list WorkflowNode) (node : WorkflowNode) : validated unit :=
  let check := validate_node_ref ns node in
  match kind node with
  | KSwitch =>
      params ← parse_switch_parameters node;
      _ ← for_each (fun case => check RSwitchCase (case_target case)) (cases params);
      for_each (check RSwitchDefault) (option_list (switch_default params))
  | KToggle =>
      params ← parse_toggle_parameters node;
      _ ← check RToggleTarget (on params);
      check RToggleTarget (off params)
  | KPercentage =>
      params ← parse_percentage_parameters node;
      _ ← for_each (fun bucket => check RPercentageBucket (bucket_target bucket)) (buckets params);
      for_each (check RPercentageBucket) (option_list (percentage_default params))
  | KParallel => params ← parse_parallel_parameters node; for_each (check RParallelBranch) (parallel_branches params)
  | KJoin => params ← parse_join_parameters node; for_each (check RJoinWaitFor) (wait_for params)
  | KTry =>
      params ← parse_try_parameters node;
      _ ← check RTryBody (body params);
      _ ← for_each (check RTryCatch) (option_list (catch params));
      for_each (check RTryFinally) (option_list (finally params))
  | KMap => params ← parse_map_parameters node; check RMapTarget (map_target params)
  | KRace => params ← parse_race_parameters node; for_each (check RRaceBranch) (race_branches params)
  | _ => Ok tt
  end.

(** ** Cycles: the depth-first walk of [validate_graph_cycles] *)

Definition is_reentrant (node : WorkflowNode) : bool :=
  match kind node with KLoop | KTry | KMap | KRace => true | _ => reentry_enabled (reentry node) end.

(** A transition back into a node on the stack that bounds its own re-entry is skipped. *)
Definition bounded_back_edge (ns : list WorkflowNode) (stack : list string) (id : string) : bool :=
  contains_id stack id && match find_node ns id with Some node => is_reentrant node | None => false end.

(** The loop over the targets of a node; [go] visits one. *)
Fixpoint visit_targets (go : string -> list string -> eval (list string)) (bounded : string -> bool)
    (l : list string) (visited : list string) : eval (list string) :=
  match l with
  | [] => Ok visited
  | t :: rest =>
      if bounded t then visit_targets go bounded rest visited
      else visited ← go t visited; visit_targets go bounded rest visited
  end.

Definition target_ids (node : WorkflowNode) : list string := map node_ref (transition_targets (transitions node)).

Fixpoint visit (fuel : nat) (ns : list WorkflowNode) (id : string) (visited stack : list string) : eval (list string) :=
  match fuel with
  | O => Err OutOfFuel
  | S fuel =>
      if contains_id stack id then Err (Failed (RefCycle id))
      else if contains_id visited id then Ok visited
      else
        match find_node ns id with
        | None => Ok (id :: visited)
        | Some node =>
            visit_targets (fun t visited => visit fuel ns t visited (id :: stack)) (bounded_back_edge ns (id :: stack))
              (target_ids node) (id :: visited)
        end
  end.

(** Every id a walk can meet. *)
Definition all_targets (ns : list WorkflowNode) : list string := concat (map target_ids ns).

Definition validate_graph_cycles (start : string) (ns : list WorkflowNode) : eval unit :=
  _ ← visit (S (S (length (all_targets ns)))) ns start [] []; Ok tt.

(** ** Reachability: the worklists of [validate_mutex_sections] and [collect_body_region]

    Both pop an id, pass over it when it is skipped or was visited, and push the ids
    that follow it. *)

Fixpoint explore (fuel : nat) (skip : string -> bool) (follow : list string -> string -> validated (list string))
    (visited stack : list string) : eval (list string) :=
  match fuel with
  | O => Err OutOfFuel
  | S fuel =>
      match stack with
      | [] => Ok visited
      | id :: stack =>
          if skip id || contains_id visited id then explore fuel skip follow visited stack
          else next ← lift (follow (id :: visited) id); explore fuel skip follow (id :: visited) (rev next ++ stack)
      end
  end.

Definition body_edges `{Externals} (node : WorkflowNode) : validated (list WorkflowNodeRef) :=
  targets ← parameter_targets node; Ok (transition_targets (transitions node) ++ targets)%list.

Definition mutex_name (node : WorkflowNode) : string := from_option id (node_id node) (parameter node "name" ≫= as_str).

Definition mutex_is_release (node : WorkflowNode) : bool := from_option id false (parameter node "release" ≫= as_bool).

Definition is_mutex_for (lock : string) (node : WorkflowNode) : bool :=
  bool_decide (kind node = KMutex) && String.eqb (mutex_name node) lock.

Definition node_edges `{Externals} (ns : list WorkflowNode) (id : string) : validated (list string) :=
  match find_node ns id with
  | None => Ok []
  | Some node => edges ← body_edges node; Ok (map node_ref edges)
  end.

(** Past an acquire of [lock] the walk stops; a release it reaches is an error. *)
Definition mutex_follow `{Externals} (ns : list WorkflowNode) (lock : string) (_ : list string) (id : string)
    : validated (list string) :=
  match find_node ns id with
  | None => Ok []
  | Some node =>
      if is_mutex_for lock node then
        if mutex_is_release node then Err (MutexReleaseBeforeAcquire id lock) else Ok []
      else edges ← body_edges node; Ok (map node_ref edges)
  end.

(** Every push of a walk: the edges of every node, or none where they do not parse. *)
Definition edge_count `{Externals} (ns : list WorkflowNode) : nat :=
  length (concat (map (fun n => match body_edges n with Ok l => l | Err _ => [] end) ns)).

Definition walk_fuel `{Externals} (ns : list WorkflowNode) : nat := S (S (edge_count ns)).

(** The locks some release node names; the source collects them in a hash set, whose
    order only decides which of several errors is reported. *)
Definition release_locks (ns : list WorkflowNode) : list string :=
  map mutex_name (List.filter (fun n => bool_decide (kind n = KMutex) && mutex_is_release n) ns).

Definition validate_mutex_sections `{Externals} (start : string) (ns : list WorkflowNode) : eval unit :=
  for_each (fun lock => _ ← explore (walk_fuel ns) (fun _ => false) (mutex_follow ns lock) [] [start]; Ok tt)
    (release_locks ns).

(** ** The bodies of concurrent maps *)

Definition region_follow `{Externals} (ns : list WorkflowNode) (map_id : string) (region : list string) (id : string)
    : validated (list string) :=
  edges ← node_edges ns id;
  Ok (List.filter (fun edge => negb (String.eqb edge map_id) && negb (contains_id region edge)) edges).

Definition collect_body_region `{Externals} (target map_id : string) (ns : list WorkflowNode) : eval (list string) :=
  explore (walk_fuel ns) (fun id => String.eqb id map_id) (region_follow ns map_id) [] [target].

Definition not_isolatable {A} (map_id reason : string) : validated A := Err (MapConcurrencyBodyNotIsolatable map_id reason).

(** A node of the body: it exists, is not terminal and stays inside. *)
Definition validate_region_node `{Externals} (ns : list WorkflowNode) (map_id : string) (region : list string)
    (region_id : string) : validated unit :=
  match find_node ns region_id with
  | None => not_isolatable map_id ("body node '" +:+ region_id +:+ "' does not exist")
  | Some region_node =>
      match kind region_node with
      | KStart | KEnd | KFail =>
          not_isolatable map_id ("body node '" +:+ region_id +:+ "' is a " +:+ kind_debug (kind region_node) +:+ " node")
      | _ =>
          edges ← body_edges region_node;
          for_each (fun edge =>
            if negb (String.eqb (node_ref edge) map_id) && negb (contains_id region (node_ref edge))
            then not_isolatable map_id ("body node '" +:+ region_id +:+ "' exits to '" +:+ node_ref edge +:+ "' outside the map body")
            else Ok tt) edges
      end
  end.

(** A node outside the body: it neither enters the body nor reads its outputs. *)
Definition validate_outside_node `{Externals} (map_id : string) (region : list string) (other : WorkflowNode) : validated unit :=
  if String.eqb (node_id other) map_id || contains_id region (node_id other) then Ok tt
  else
    edges ← body_edges other;
    _ ← for_each (fun edge =>
          if contains_id region (node_ref edge)
          then not_isolatable map_id ("node '" +:+ node_id other +:+ "' enters the map body at '" +:+ node_ref edge +:+ "'")
          else Ok tt) edges;
    refs ← value_refs other;
    for_each (fun reference =>
      match source reference with
      | SrcNodeOutput target =>
          if contains_id region target
          then not_isolatable map_id ("node '" +:+ node_id other +:+ "' reads body output of '" +:+ target +:+ "'")
          else Ok tt
      | _ => Ok tt
      end) refs.

Definition validate_map_body `{Externals} (ns : list WorkflowNode) (node : WorkflowNode) : eval unit :=
  if negb (bool_decide (kind node = KMap)) then Ok tt
  else
    params ← lift (parse_map_parameters node);
    if (from_option id 1%Z (concurrency params) <=? 1)%Z then Ok tt
    else
      region ← collect_body_region (node_ref (map_target params)) (node_id node) ns;
      _ ← lift (for_each (validate_region_node ns (node_id node) region) region);
      lift (for_each (validate_outside_node (node_id node) region) ns).

Definition validate_map_concurrency_bodies `{Externals} (ns : list WorkflowNode) : eval unit :=
  for_each (validate_map_body ns) ns.

(** ** [validate_workflow] *)

Fixpoint distinct_ids (seen : list string) (ns : list WorkflowNode) : validated unit :=
  match ns with
  | [] => Ok tt
  | node :: rest =>
      if contains_id seen (node_id node) then Err (DuplicateNode (node_id node)) else distinct_ids (node_id node :: seen) rest
  end.

Definition positive_when_set (limit : option Z) : bool := match limit with Some n => (0 <? n)%Z | None => true end.

(** A subflow names its workflow by id or by a name that is not blank. *)
Definition has_subflow_target (node : WorkflowNode) : bool :=
  match subflow_id node with
  | Some _ => true
  | None => match subflow_workflow_name (subflow node) with
            | Some name => negb (String.eqb (str_trim name) "")
            | None => false
            end
  end.

Definition check (ok : bool) (e : WorkflowValidationError) : validated unit := if ok then Ok tt else Err e.

Definition validate_node `{Externals} (ns : list WorkflowNode) (node : WorkflowNode) : validated unit :=
  _ ← check (negb (bool_decide (kind node = KAction)) || bool_decide (is_Some (action node))) (MissingAction (node_id node));
  _ ← check (negb (bool_decide (kind node = KSubflow)) || has_subflow_target node) (MissingSubflowTarget (node_id node));
  _ ← check (0 <? max_attempts (retry node))%Z (InvalidRetry (node_id node));
  _ ← check (positive_when_set (timeout_seconds node)) (InvalidTimeout (node_id node));
  _ ← check (positive_when_set (max_iterations node)) (InvalidLoopLimit (node_id node));
  _ ← check (negb (reentry_enabled (reentry node)) || (0 <? max_visits (reentry node))%Z) (InvalidReentry (node_id node));
  _ ← validate_condition (workflow_condition_to_value (node_condition node));
  _ ← validate_control_node_parameters node;
  _ ← for_each (validate_node_ref ns node RTransition) (transition_targets (transitions node));
  _ ← validate_parameter_node_refs ns node;
  refs ← value_refs node;
  _ ← for_each (fun reference =>
        match source reference with
        | SrcNodeOutput target => validate_node_ref ns node RNodeOutput (mk_node_ref target)
        | _ => Ok tt
        end) refs;
  for_each (validate_node_ref ns node RReentryExhausted) (option_list (on_exhausted (reentry node))).

Definition validate_workflow `{Externals} (expanded : validated WorkflowGraph) : eval (string * list WorkflowNode) :=
  '(start, ns) ← lift (parse_nodes expanded);
  _ ← lift (distinct_ids [] ns);
  _ ← lift (check (contains_id (map node_id ns) start) (MissingStartNode start));
  _ ← lift (check (match List.find (fun n => String.eqb (node_id n) start) ns with
                   | Some node => bool_decide (kind node = KStart)
                   | None => false
                   end) MissingStartKind);
  _ ← lift (check (existsb (fun n => bool_decide (kind n = KEnd)) ns) MissingEndNode);
  _ ← lift (for_each (validate_node ns) ns);
  _ ← validate_graph_cycles start ns;
  _ ← validate_map_concurrency_bodies ns;
  _ ← validate_mutex_sections start ns;
  Ok (start, ns).

(** ** Facts about nodes *)

Lemma contains_id_In ids id : contains_id ids id = true <-> In id ids.
Proof. unfold contains_id. rewrite existsb_exists. setoid_rewrite String.eqb_eq. naive_solver. Qed.

Lemma contains_id_false ids id : contains_id ids id = false <-> ~ In id ids.
Proof. rewrite <- contains_id_In. by destruct (contains_id ids id). Qed.

Lemma find_node_In ns id node : find_node ns id = Some node -> In node ns /\ node_id node = id.
Proof. intros [H%in_rev He%String.eqb_eq]%List.find_some. done. Qed.

Lemma find_node_some ns node : In node ns -> exists other, find_node ns (node_id node) = Some other.
Proof.
  intros Hin. unfold find_node. destruct (List.find _ (rev ns)) as [other|] eqn:Hf; [by exists other|].
  apply in_rev in Hin. pose proof (List.find_none _ _ Hf node Hin) as H. cbn in H. by rewrite String.eqb_refl in H.
Qed.

Lemma find_node_unique ns node : NoDup (map node_id ns) -> In node ns -> find_node ns (node_id node) = Some node.
Proof.
  intros Hnd Hin. destruct (find_node_some ns node Hin) as [other Ho]. rewrite Ho. f_equal.
  apply find_node_In in Ho as [Hino Hid]. clear -Hnd Hin Hino Hid. induction ns as [|n ns IH]; [done|].
  cbn in Hnd. apply list.NoDup_cons in Hnd as [Hn Hnd]. destruct Hin as [->|Hin], Hino as [->|Hino]; try done.
  - destruct Hn. apply list_elem_of_In. rewrite <- Hid. by apply in_map.
  - destruct Hn. apply list_elem_of_In. rewrite Hid. by apply in_map.
  - by apply IH.
Qed.

(** ** The depth-first walk *)

Section cycles.
Context (ns : list WorkflowNode).

(** [v] is a transition target of the node [u]. *)
Definition edge (u v : string) : Prop := exists node, find_node ns u = Some node /\ In v (target_ids node).

(** The node bounds its own re-entry: a loop, try, map or race, or one with re-entry
    enabled. *)
Definition guarded (v : string) : bool := match find_node ns v with Some node => is_reentrant node | None => false end.

Definition unguarded_edge (u v : string) : Prop := edge u v /\ guarded v = false.

(** [F] lists the finished nodes, the last finished first: every unguarded edge of one
    leads to one finished before it. *)
Definition finished_order (F : list string) : Prop :=
  forall before u after, F = (before ++ u :: after)%list -> forall v, unguarded_edge u v -> In v after.

Record walk_state (F visited stack : list string) : Prop := {
  ws_nodup : NoDup F;
  ws_order : finished_order F;
  ws_edges : forall u v, In u F -> edge u v -> In v visited;
  ws_visited : forall x, In x visited <-> In x F \/ In x stack;
  ws_apart : forall x, In x F -> ~ In x stack
}.

Lemma finished_push F u : finished_order F -> (forall v, unguarded_edge u v -> In v F) -> finished_order (u :: F).
Proof.
  intros HF Hu [|x before] w after He v Hv; injection He as -> ->; [by apply Hu|]. by eapply HF.
Qed.

(** What a visit of [id] leaves behind. *)
Definition visit_leaves (id : string) (F visited visited' stack : list string) : Prop :=
  exists F', walk_state F' visited' stack /\ incl F F' /\ incl visited visited' /\ In id F'.

Lemma visit_targets_leaves go id stack l : 
  (forall t F visited visited', walk_state F visited (id :: stack) -> go t visited = Ok visited' ->
     visit_leaves t F visited visited' (id :: stack)) ->
  forall F visited visited', walk_state F visited (id :: stack) ->
    visit_targets go (bounded_back_edge ns (id :: stack)) l visited = Ok visited' ->
    exists F', walk_state F' visited' (id :: stack) /\ incl F F' /\ incl visited visited' /\
      forall t, In t l -> In t visited' /\ (guarded t = false -> In t F').
Proof.
  intros Hgo. induction l as [|t l IH]; intros F visited visited' Hw Hv; cbn [visit_targets] in Hv.
  - injection Hv as <-. exists F. by split; [|split; [apply incl_refl|split; [apply incl_refl|]]].
  - destruct (bounded_back_edge ns (id :: stack) t) eqn:Hb.
    + apply andb_prop in Hb as [Hin%contains_id_In Hg]. destruct (IH _ _ _ Hw Hv) as (F' & Hw' & HF & Hvis & Hl).
      exists F'. split; [done|]. split; [done|]. split; [done|]. intros x [<-|Hx]; [|by apply Hl].
      split; [apply Hvis, (ws_visited _ _ _ Hw); by right|]. unfold guarded. by rewrite Hg.
    + apply bind_ok in Hv as (visited1 & H1 & Hv).
      destruct (Hgo _ _ _ _ Hw H1) as (F1 & Hw1 & HF1 & Hvis1 & Ht).
      destruct (IH _ _ _ Hw1 Hv) as (F' & Hw' & HF & Hvis & Hl).
      exists F'. split; [done|]. split; [by eapply incl_tran|]. split; [by eapply incl_tran|].
      intros x [<-|Hx]; [|by apply Hl]. split; [|by intros _; apply HF].
      apply Hvis, (ws_visited _ _ _ Hw1). by left.
Qed.

Lemma visit_spec fuel : forall id F visited visited' stack, walk_state F visited stack ->
  visit fuel ns id visited stack = Ok visited' -> visit_leaves id F visited visited' stack.
Proof.
  induction fuel as [|fuel IH]; intros id F visited visited' stack Hw Hv; [done|]. cbn [visit] in Hv.
  destruct (contains_id stack id) eqn:Hs; [done|]. apply contains_id_false in Hs.
  destruct (contains_id visited id) eqn:Hvis.
  { injection Hv as <-. apply contains_id_In in Hvis. exists F. split; [done|]. split; [apply incl_refl|].
    split; [apply incl_refl|]. by apply (ws_visited _ _ _ Hw) in Hvis as [?|?]. }
  apply contains_id_false in Hvis. destruct Hw as [Hnd Hord Hedg Hvs Hap].
  assert (HidF : ~ In id F) by (intros H; apply Hvis, Hvs; by left).
  destruct (find_node ns id) as [node|] eqn:Hn.
  - assert (Hw' : walk_state F (id :: visited) (id :: stack)).
    { split; [done|done| | |].
      - intros u v Hu He. right. by eapply Hedg.
      - intros x. cbn. rewrite Hvs. tauto.
      - intros x Hx [<-|Hin]; [done|by apply (Hap x)]. }
    destruct (visit_targets_leaves _ id stack _ (fun t F v v' => IH t F v v' (id :: stack)) _ _ _ Hw' Hv)
      as (F' & [Hnd' Hord' Hedg' Hvs' Hap'] & HF & Hincl & Ht).
    exists (id :: F'). split; [split|].
    + apply list.NoDup_cons. split; [|done]. intros Hin%list_elem_of_In. apply (Hap' id Hin). by left.
    + apply finished_push; [done|]. intros v [(n & Hn' & Hv') Hg]. rewrite Hn in Hn'. injection Hn' as <-.
      by apply Ht.
    + intros u v [<-|Hu] He; [|by eapply Hedg']. destruct He as (n & Hn' & Hv'). rewrite Hn in Hn'. injection Hn' as <-.
      by apply Ht.
    + intros x. cbn. rewrite Hvs'. cbn. tauto.
    + intros x [<-|Hx]; [done|]. intros Hin. apply (Hap' x Hx). by right.
    + split; [intros x Hx; right; by apply HF|]. split; [|by left]. intros x Hx. apply Hincl. by right.
  - injection Hv as <-. exists (id :: F). split; [split|].
    + apply list.NoDup_cons. split; [|done]. by intros Hin%list_elem_of_In.
    + apply finished_push; [done|]. intros v [(n & Hn' & _) _]. by rewrite Hn in Hn'.
    + intros u v [<-|Hu] He; [|right; by eapply Hedg]. destruct He as (n & Hn' & _). by rewrite Hn in Hn'.
    + intros x. cbn. rewrite Hvs. tauto.
    + intros x [<-|Hx]; [done|by apply Hap].
    + split; [intros x Hx; by right|]. split; [intros x Hx; by right|by left].
Qed.

(** A walk from a finished node stays among earlier finished nodes. *)
Lemma finished_tc F u v : finished_order F -> tc unguarded_edge u v -> forall before after,
  F = (before ++ u :: after)%list -> In v after.
Proof.
  intros HF Ht. induction Ht as [u v He|u w v He _ IH]; intros before after HFe; [by eapply HF|].
  pose proof (HF before u after HFe w He) as Hw. apply in_split in Hw as (b & a & ->).
  assert (In v a) by (apply (IH (before ++ u :: b)%list a); rewrite HFe, <- app_assoc; done).
  apply in_app_iff. right. by right.
Qed.

Lemma finished_acyclic F u : NoDup F -> finished_order F -> In u F -> ~ tc unguarded_edge u u.
Proof.
  intros Hnd HF Hu Ht. apply in_split in Hu as (before & after & ->).
  pose proof (finished_tc _ u u HF Ht before after eq_refl) as Hin.
  apply list.NoDup_app in Hnd as (_ & _ & Hnd). apply list.NoDup_cons in Hnd as [Hn _].
  by apply Hn, list_elem_of_In.
Qed.

Lemma target_in_all u v : edge u v -> In v (all_targets ns).
Proof.
  intros (node & Hn%find_node_In & Hv). apply in_concat. exists (target_ids node). split; [|done]. by apply in_map, Hn.
Qed.

Lemma remaining_incl universe visited visited' : incl visited visited' -> remaining universe visited' <= remaining universe visited.
Proof.
  intros Hi. unfold remaining. induction universe as [|u universe IH]; [done|]. cbn [List.filter].
  assert (pending visited' u = true -> pending visited u = true) as Hp.
  { unfold pending. rewrite !negb_true_iff. intros H'. apply contains_id_false. apply contains_id_false in H'.
    intros H. by apply H', Hi. }
  destruct (pending visited' u), (pending visited u); cbn [length]; try lia. all: by discriminate Hp.
Qed.

(** [l] is a path of edges from [start], its last node first. *)
Inductive path_from (start : string) : list string -> Prop :=
| path_start : path_from start [start]
| path_step u v l : path_from start (u :: l) -> edge u v -> path_from start (v :: u :: l).

(** A simple path from [start] comes back to its own node [c]. *)
Definition closes_cycle (start c : string) : Prop :=
  exists u l, path_from start (u :: l) /\ NoDup (u :: l) /\ In c (u :: l) /\ edge u c.

(** [id] is about to be visited with [stack] behind it. *)
Definition entered (start id : string) (stack : list string) : Prop :=
  NoDup stack /\
  match stack with [] => id = start | u :: l => path_from start (u :: l) /\ edge u id end.

Lemma entered_path start id stack : entered start id stack -> path_from start (id :: stack).
Proof. destruct stack as [|u l]; [intros [_ ->]; constructor|]. intros (_ & Hp & He). by constructor. Qed.

Lemma path_from_rtc start l : path_from start l -> forall c, In c l -> rtc edge start c.
Proof.
  induction 1 as [|u v l Hp IH He]; intros c Hc; [by destruct Hc as [<-|[]]; constructor|].
  destruct Hc as [<-|Hc]; [|by apply IH]. eapply rtc_r; [apply IH; by left|done].
Qed.

Lemma path_from_tc start u l : path_from start (u :: l) -> forall c v, In c (u :: l) -> edge u v -> tc edge c v.
Proof.
  remember (u :: l) as ul eqn:Hul. intros Hp. revert u l Hul.
  induction Hp as [|w u l Hp IH He]; intros x k [= <- <-] c v Hc Huv.
  - destruct Hc as [<-|[]]. by apply tc_once.
  - destruct Hc as [<-|Hc]; [by apply tc_once|]. eapply tc_r; [by apply (IH w l)|done].
Qed.

Lemma closes_cycle_tc start c : closes_cycle start c -> rtc edge start c /\ tc edge c c.
Proof. intros (u & l & Hp & _ & Hc & He). split; [by eapply path_from_rtc|by eapply path_from_tc]. Qed.

(** Why a visit may fail: a path is closed at an unguarded node. *)
Definition visit_failure (start : string) (e : EvalError) : Prop :=
  exists c, e = Failed (RefCycle c) /\ guarded c = false /\ closes_cycle start c.

Definition visit_result (start : string) (visited : list string) (r : eval (list string)) : Prop :=
  match r with Ok visited' => incl visited visited' | Err e => visit_failure start e end.

Lemma visit_targets_result start universe go id stack n l :
  (forall t visited, In t l -> (In t (id :: stack) -> guarded t = false) -> remaining universe visited < n ->
     visit_result start visited (go t visited)) ->
  forall visited, remaining universe visited < n ->
    visit_result start visited (visit_targets go (bounded_back_edge ns (id :: stack)) l visited).
Proof.
  induction l as [|t l IH]; intros Hgo visited Hr; cbn [visit_targets]; [apply incl_refl|].
  assert (Hrest : forall visited', incl visited visited' ->
    visit_result start visited (visit_targets go (bounded_back_edge ns (id :: stack)) l visited')).
  { intros visited' Hi. pose proof (remaining_incl universe visited visited' Hi) as Hle.
    assert (H : visit_result start visited' (visit_targets go (bounded_back_edge ns (id :: stack)) l visited'))
      by (apply IH; [intros x v Hx; apply Hgo; by right|lia]).
    destruct (visit_targets _ _ _ _); [by eapply incl_tran|done]. }
  destruct (bounded_back_edge ns (id :: stack) t) eqn:Hb; [by apply Hrest, incl_refl|].
  assert (H : visit_result start visited (go t visited)).
  { apply Hgo; [by left| |done]. intros Hin%contains_id_In. unfold bounded_back_edge in Hb. by rewrite Hin in Hb. }
  destruct (go t visited) as [visited'|e]; cbn; [by apply Hrest|done].
Qed.

Lemma visit_answers start universe fuel : incl (all_targets ns) universe ->
  forall id visited stack, In id universe -> entered start id stack ->
    (In id stack -> guarded id = false) -> remaining universe visited < fuel ->
    visit_result start visited (visit fuel ns id visited stack).
Proof.
  intros Huniv. induction fuel as [|fuel IH]; intros id visited stack Hid Hin Hg Hr; [lia|]. cbn [visit].
  destruct (contains_id stack id) eqn:Hs.
  { apply contains_id_In in Hs. exists id. split; [done|]. split; [by apply Hg|].
    destruct stack as [|u l]; [done|]. destruct Hin as (Hnd & Hp & He). by exists u, l. }
  destruct (contains_id visited id) eqn:Hv; [apply incl_refl|].
  destruct (find_node ns id) as [node|] eqn:Hn; [|intros x Hx; by right].
  pose proof (remaining_push universe visited id Hid Hv) as Hpush.
  assert (H : visit_result start (id :: visited)
    (visit_targets (fun t visited => visit fuel ns t visited (id :: stack)) (bounded_back_edge ns (id :: stack))
      (target_ids node) (id :: visited))).
  { apply (visit_targets_result start universe _ id stack fuel); [|lia]. intros t visited1 Ht Hgt Hr1.
    assert (He : edge id t) by (exists node; done).
    apply IH; [by eapply Huniv, target_in_all| |exact Hgt|lia].
    split; [|split; [by apply entered_path|done]]. apply list.NoDup_cons. split; [|apply Hin].
    intros Hi%list_elem_of_In. by apply contains_id_false in Hs. }
  destruct (visit_targets _ _ _ _) as [visited'|e]; [|exact H]. intros x Hx. apply H. by right.
Qed.

(** C3: the cycle check always answers, and each answer has a meaning in the graph.  When
    it passes, no transition cycle that can be reached from the start avoids every node
    that bounds its re-entry (loops, tries, maps, races and nodes with re-entry enabled).
    When it fails, it names a node that does not bound its re-entry and to which a simple
    path from the start returns; so a graph whose simple paths return to bounding nodes
    only is accepted.  Between the two, on cycles with nodes of both kinds, the answer
    depends on where the walk enters them ([cycle_verdict_depends_on_entry]). *)
Theorem graph_cycles_bounded start :
  match validate_graph_cycles start ns with
  | Ok _ => forall u, rtc edge start u -> ~ tc unguarded_edge u u
  | Err e => exists c, e = Failed (RefCycle c) /\ guarded c = false /\ closes_cycle start c /\
               rtc edge start c /\ tc edge c c
  end.
Proof.
  unfold validate_graph_cycles.
  assert (Hr : visit_result start [] (visit (S (S (length (all_targets ns)))) ns start [] [])).
  { apply (visit_answers start (start :: all_targets ns)); [intros x Hx; by right|by left|by repeat constructor|done|].
    pose proof (List.filter_length_le (pending []) (start :: all_targets ns)) as H. unfold remaining. cbn [length] in H. lia. }
  destruct (visit _ _ _ _ _) as [visited|e] eqn:Hv; cbn;
    [|destruct Hr as (c & ? & ? & Hc); exists c; destruct (closes_cycle_tc _ _ Hc); auto].
  assert (Hw : walk_state [] [] []).
  { split; [constructor|intros [|] ? ? H; discriminate H|done|intros x; cbn; tauto|done]. }
  destruct (visit_spec _ start [] [] visited [] Hw Hv) as (F & [Hnd Hord Hedg Hvs _] & _ & _ & Hstart).
  intros u Hu. apply (finished_acyclic F u Hnd Hord).
  clear -Hu Hstart Hedg Hvs. induction Hu as [u|u v w He _ IH]; [done|]. apply IH.
  pose proof (Hedg u v Hstart He) as Hvv. by apply Hvs in Hvv as [?|[]].
Qed.
End cycles.

(** ** The worklist walk *)

Section explore.
Context (skip : string -> bool) (follow : list string -> string -> validated (list string)).

(** A walk that ends with [visited] holds everything it started from and is closed. *)
Lemma explore_closed fuel : forall visited stack visited',
  explore fuel skip follow visited stack = Ok visited' ->
  incl visited visited' /\
  (forall id, In id stack -> skip id = true \/ In id visited') /\
  (forall id, In id visited' -> In id visited \/
     exists seen next, incl seen visited' /\ follow seen id = Ok next /\ forall x, In x next -> skip x = true \/ In x visited').
Proof.
  induction fuel as [|fuel IH]; intros visited stack visited' H; [done|]. cbn [explore] in H.
  destruct stack as [|id stack].
  { injection H as <-. split; [apply incl_refl|]. split; [done|]. by left. }
  destruct (skip id || contains_id visited id) eqn:Hs.
  - destruct (IH _ _ _ H) as (Hv & Hst & Hcl). split; [done|]. split; [|done].
    intros x [<-|Hx]; [|by apply Hst]. apply orb_prop in Hs as [Hs|Hs%contains_id_In]; [by left|]. right. by apply Hv.
  - apply bind_ok in H as (next & Hn & H). destruct (follow (id :: visited) id) as [next0|e] eqn:Hf; [|done].
    injection Hn as ->. destruct (IH _ _ _ H) as (Hv & Hst & Hcl).
    assert (Hid : In id visited') by (apply Hv; by left).
    split; [intros x Hx; apply Hv; by right|]. split.
    + intros x [<-|Hx]; [by right|]. apply Hst, in_app_iff. by right.
    + intros x Hx. destruct (Hcl x Hx) as [[<-|?]|?]; [right|by left|by right].
      exists (id :: visited), next. split; [done|]. split; [done|].
      intros y Hy. apply Hst, in_app_iff. left. by apply -> in_rev.
Qed.

(** A walk answers when its fuel exceeds the pushes still to come. *)
Lemma explore_answers (M : list string -> nat) fuel :
  (forall visited id next, contains_id visited id = false -> follow (id :: visited) id = Ok next ->
     length next + M (id :: visited) <= M visited) ->
  forall visited stack, length stack + M visited < fuel -> answers (explore fuel skip follow visited stack).
Proof.
  intros HM. induction fuel as [|fuel IH]; intros visited stack Hlt; [lia|]. cbn [explore].
  destruct stack as [|id stack]; [done|]. cbn [length] in Hlt.
  destruct (skip id || contains_id visited id) eqn:Hs; [apply IH; lia|].
  apply orb_false_elim in Hs as [_ Hv]. destruct (follow (id :: visited) id) as [next|e] eqn:Hf; [|done].
  cbn. apply IH. pose proof (HM visited id next Hv Hf) as H. rewrite length_app, length_rev. lia.
Qed.
End explore.

Section walks.
Context {EX : Externals} (ns : list WorkflowNode).

(** The edges of the nodes that were not visited. *)
Definition degree (n : WorkflowNode) : nat := length (match body_edges n with Ok l => l | Err _ => [] end).

Definition fresh (visited : list string) (n : WorkflowNode) : bool := negb (contains_id visited (node_id n)).

Definition edges_left (visited : list string) : nat :=
  foldr (fun n acc => (if fresh visited n then degree n else 0) + acc) 0 ns.

Lemma fresh_push visited id n : fresh (id :: visited) n = negb (String.eqb (node_id n) id) && fresh visited n.
Proof. unfold fresh, contains_id. cbn. by destruct (String.eqb (node_id n) id). Qed.

Lemma edges_left_le visited id : edges_left (id :: visited) <= edges_left visited.
Proof.
  unfold edges_left. induction ns as [|n l IH]; [done|]. cbn [foldr]. rewrite fresh_push.
  destruct (String.eqb (node_id n) id), (fresh visited n); cbn [negb andb]; lia.
Qed.

Lemma edges_left_visit visited id node edges : contains_id visited id = false -> find_node ns id = Some node ->
  body_edges node = Ok edges -> length edges + edges_left (id :: visited) <= edges_left visited.
Proof.
  intros Hv [Hin Hid]%find_node_In He. pose proof edges_left_le as Hle. unfold edges_left in *.
  assert (Hd : degree node = length edges) by (unfold degree; by rewrite He).
  assert (Hf : fresh visited node = true) by (unfold fresh; by rewrite Hid, Hv).
  assert (Hf' : fresh (id :: visited) node = false) by (rewrite fresh_push, Hid; by rewrite String.eqb_refl).
  clear Hle He. induction ns as [|n l IH]; [done|]. cbn [foldr].
  assert (Htail : foldr (fun n acc => (if fresh (id :: visited) n then degree n else 0) + acc) 0 l
                  <= foldr (fun n acc => (if fresh visited n then degree n else 0) + acc) 0 l).
  { clear. induction l as [|m l IH]; [done|]. cbn [foldr]. rewrite fresh_push.
    destruct (String.eqb (node_id m) id), (fresh visited m); cbn [negb andb]; lia. }
  destruct Hin as [->|Hin].
  - rewrite Hf, Hf'. lia.
  - specialize (IH Hin). rewrite fresh_push. destruct (String.eqb (node_id n) id), (fresh visited n); cbn [negb andb]; lia.
Qed.

Lemma edges_left_nil : edges_left [] = edge_count ns.
Proof.
  unfold edges_left, edge_count. induction ns as [|n l IH]; [done|]. cbn [foldr map concat]. by rewrite length_app, IH.
Qed.

Lemma mutex_walk_answers lock start : answers (explore (walk_fuel ns) (fun _ => false) (mutex_follow ns lock) [] [start]).
Proof.
  apply (explore_answers _ _ edges_left); [|rewrite edges_left_nil; unfold walk_fuel; cbn; lia].
  intros visited id next Hv Hn. unfold mutex_follow in Hn. destruct (find_node ns id) as [node|] eqn:Hf.
  - destruct (is_mutex_for lock node).
    + destruct (mutex_is_release node); [done|]. injection Hn as <-. apply edges_left_le.
    + apply bind_ok in Hn as (edges & He & [= <-]). rewrite length_map. by eapply edges_left_visit.
  - injection Hn as <-. apply edges_left_le.
Qed.

Lemma region_walk_answers target map_id : answers (collect_body_region target map_id ns).
Proof.
  apply (explore_answers _ _ edges_left); [|rewrite edges_left_nil; unfold walk_fuel; cbn; lia].
  intros visited id next Hv Hn. unfold region_follow, node_edges in Hn. apply bind_ok in Hn as (ids & Hn & [= <-]).
  eapply Nat.le_trans; [apply Nat.add_le_mono_r, List.filter_length_le|].
  destruct (find_node ns id) as [node|] eqn:Hf.
  - apply bind_ok in Hn as (edges & He & [= <-]). rewrite length_map. by eapply edges_left_visit.
  - injection Hn as <-. apply edges_left_le.
Qed.

(** ** Mutex sections *)

(** A path along the edges of the graph: [walk u l v] leaves the nodes [l], in order. *)
Inductive walk : string -> list string -> string -> Prop :=
| walk_here u : walk u [] u
| walk_edge u w l v edges : node_edges ns u = Ok edges -> In w edges -> walk w l v -> walk u (u :: l) v.

(** C4: mutex sections: when the check passes, every path from the start to a release of a
    lock leaves, before it, a node that acquires the same lock. *)
Theorem mutex_sections_sound start l r release :
  validate_mutex_sections start ns = Ok tt -> walk start l r -> find_node ns r = Some release ->
  kind release = KMutex -> mutex_is_release release = true ->
  exists a acquire, In a l /\ find_node ns a = Some acquire /\ kind acquire = KMutex /\
    mutex_name acquire = mutex_name release /\ mutex_is_release acquire = false.
Proof.
  intros Hok Hwalk Hr Hk Hrel. set (lock := mutex_name release).
  assert (Hlock : In lock (release_locks ns)).
  { apply in_map, filter_In. split; [by apply find_node_In in Hr as [H _]|]. by rewrite bool_decide_eq_true_2, Hrel. }
  apply (for_each_Ok_In _ _ lock) in Hok; [|done]. apply bind_ok in Hok as (V & Hv & _).
  destruct (explore_closed _ _ _ _ _ _ Hv) as (_ & Hst & Hcl).
  assert (Hstart : In start V) by (destruct (Hst start); [by left|done|done]). clear Hv Hst.
  assert (HV : forall id, In id V -> exists next, mutex_follow ns lock [] id = Ok next /\ incl next V).
  { intros id Hid. destruct (Hcl id Hid) as [[]|(seen & next & _ & Hf & Hn)]. exists next. split; [exact Hf|].
    intros x Hx. destruct (Hn x Hx) as [H|H]; [discriminate H|exact H]. }
  clear Hcl. induction Hwalk as [u|u w l v edges He Hw Hwalk IH].
  - destruct (HV u Hstart) as (next & Hf & _). unfold mutex_follow in Hf. rewrite Hr in Hf.
    unfold is_mutex_for in Hf. rewrite bool_decide_eq_true_2, String.eqb_refl, Hrel in Hf by done. done.
  - destruct (HV u Hstart) as (next & Hf & Hn). unfold mutex_follow in Hf. unfold node_edges in He.
    destruct (find_node ns u) as [node|] eqn:Hu; [|injection He as <-; done].
    destruct (is_mutex_for lock node) eqn:Hm.
    + destruct (mutex_is_release node) eqn:Hrl; [done|]. apply andb_prop in Hm as [Hkm%bool_decide_eq_true Hnm%String.eqb_eq].
      exists u, node. split; [by left|]. done.
    + rewrite He in Hf. injection Hf as <-. destruct IH as (a & acquire & Ha & Hacq); [done|by apply Hn|].
      exists a, acquire. split; [by right|done].
Qed.
End walks.

(** ** The bodies of concurrent maps *)

Lemma explore_invariant (P : string -> Prop) skip follow fuel :
  (forall seen x next y, P x -> skip x = false -> follow seen x = Ok next -> In y next -> P y) ->
  forall visited stack visited', (forall x, In x visited -> P x) -> (forall x, In x stack -> P x) ->
    explore fuel skip follow visited stack = Ok visited' -> forall x, In x visited' -> P x.
Proof.
  intros HP. induction fuel as [|fuel IH]; intros visited stack visited' Hv Hs H; [done|]. cbn [explore] in H.
  destruct stack as [|id stack]; [by injection H as <-|].
  destruct (skip id || contains_id visited id) eqn:Hsk.
  - eapply IH; [exact Hv| |exact H]. intros x Hx. apply Hs. by right.
  - apply orb_false_elim in Hsk as [Hsk _]. apply bind_ok in H as (next & Hn & H).
    destruct (follow (id :: visited) id) as [next0|e] eqn:Hf; [|done]. injection Hn as ->.
    assert (Hid : P id) by (apply Hs; by left).
    eapply IH; [| |exact H].
    + intros x [<-|Hx]; [done|by apply Hv].
    + intros x [Hx%in_rev|Hx]%in_app_iff; [by eapply HP|apply Hs; by right].
Qed.

Lemma explore_unskipped skip follow fuel : forall visited stack visited',
  (forall x, In x visited -> skip x = false) -> explore fuel skip follow visited stack = Ok visited' ->
  forall x, In x visited' -> skip x = false.
Proof.
  induction fuel as [|fuel IH]; intros visited stack visited' Hv H; [done|]. cbn [explore] in H.
  destruct stack as [|id stack]; [by injection H as <-|].
  destruct (skip id || contains_id visited id) eqn:Hsk; [by eapply IH|].
  apply orb_false_elim in Hsk as [Hsk _]. apply bind_ok in H as (next & _ & H).
  eapply IH; [|exact H]. intros x [<-|Hx]; [done|by apply Hv].
Qed.

Section bodies.
Context {EX : Externals} (ns : list WorkflowNode).

(** A path that does not leave [map_id]. *)
Definition inside (map_id target id : string) : Prop := exists l, walk ns target l id /\ ~ In map_id l.

Lemma walk_snoc u l v w edges : walk ns u l v -> node_edges ns v = Ok edges -> In w edges -> walk ns u (l ++ [v]) w.
Proof.
  induction 1 as [u|u x l v es He Hx _ IH]; intros Hv Hw.
  - by eapply walk_edge; [..|constructor].
  - eapply walk_edge; [done|done|by apply IH].
Qed.

Lemma region_node_ok map_id region x : validate_region_node ns map_id region x = Ok tt ->
  exists n edges, find_node ns x = Some n /\ is_runnable_entry_kind (kind n) = true /\
    body_edges n = Ok edges /\ forall e, In e edges -> node_ref e = map_id \/ In (node_ref e) region.
Proof.
  unfold validate_region_node. intros Hok. destruct (find_node ns x) as [n|]; [|done]. exists n.
  destruct (is_runnable_entry_kind (kind n)) eqn:Hrun; [|by destruct (kind n)].
  assert (exists edges, body_edges n = Ok edges /\
    for_each (fun e =>
      if negb (String.eqb (node_ref e) map_id) && negb (contains_id region (node_ref e))
      then not_isolatable (A := unit) map_id ("body node '" +:+ x +:+ "' exits to '" +:+ node_ref e +:+ "' outside the map body")
      else Ok tt) edges = Ok tt) as (edges & He & Hall) by (destruct (kind n); try done; by apply bind_ok in Hok).
  exists edges. split; [done|]. split; [done|]. split; [done|]. intros e Hin.
  apply (for_each_Ok_In _ _ e) in Hall; [|done]. cbn beta in Hall.
  destruct (String.eqb_spec (node_ref e) map_id); [by left|]. right. apply contains_id_In.
  by destruct (contains_id region (node_ref e)).
Qed.

Lemma outside_node_ok map_id region other : validate_outside_node map_id region other = Ok tt ->
  node_id other <> map_id -> ~ In (node_id other) region ->
  exists edges refs, body_edges other = Ok edges /\ value_refs other = Ok refs /\
    (forall e, In e edges -> ~ In (node_ref e) region) /\
    (forall r x, In r refs -> source r = SrcNodeOutput x -> ~ In x region).
Proof.
  unfold validate_outside_node. intros Hok Hid Hnr%contains_id_false.
  destruct (String.eqb_spec (node_id other) map_id); [done|]. rewrite Hnr in Hok. cbn [orb] in Hok.
  apply bind_ok in Hok as (edges & He & Hok). apply bind_ok in Hok as ([] & Hedges & Hok).
  apply bind_ok in Hok as (refs & Hrefs & Hok). exists edges, refs. split; [done|]. split; [done|]. split.
  - intros e Hin. apply (for_each_Ok_In _ _ e) in Hedges; [|done]. cbn beta in Hedges. apply contains_id_false.
    by destruct (contains_id region (node_ref e)).
  - intros r x Hin Hs. apply (for_each_Ok_In _ _ r) in Hok; [|done]. cbn in Hok. rewrite Hs in Hok.
    apply contains_id_false. by destruct (contains_id region x).
Qed.

(** C10: the body of a concurrent map is isolated: when the check passes, the nodes that can
    be reached from the target of a map with concurrency above one, without leaving the
    map node, exist, are not terminal, and lead only to each other and back to the map
    node; no other node leads into them or reads their outputs. *)
Theorem map_body_isolated node params :
  validate_map_concurrency_bodies ns = Ok tt -> In node ns -> kind node = KMap ->
  parse_map_parameters node = Ok params -> (1 < from_option id 1 (concurrency params))%Z ->
  node_ref (map_target params) <> node_id node ->
  exists region,
    In (node_ref (map_target params)) region /\ ~ In (node_id node) region /\
    (forall x, In x region -> inside (node_id node) (node_ref (map_target params)) x /\
       exists n edges, find_node ns x = Some n /\ is_runnable_entry_kind (kind n) = true /\
         body_edges n = Ok edges /\ forall e, In e edges -> node_ref e = node_id node \/ In (node_ref e) region) /\
    (forall other, In other ns -> node_id other <> node_id node -> ~ In (node_id other) region ->
       exists edges refs, body_edges other = Ok edges /\ value_refs other = Ok refs /\
         (forall e, In e edges -> ~ In (node_ref e) region) /\
         (forall r x, In r refs -> source r = SrcNodeOutput x -> ~ In x region)).
Proof.
  intros Hok Hin Hk Hp Hc Hne. unfold validate_map_concurrency_bodies in Hok. apply (for_each_Ok_In _ _ node) in Hok; [|done].
  unfold validate_map_body in Hok. rewrite bool_decide_eq_true_2, Hp in Hok by done. cbn [negb lift mbind result_bind] in Hok.
  destruct (Z.leb_spec (from_option id 1%Z (concurrency params)) 1); [lia|].
  apply bind_ok in Hok as (region & Hr & Hok). apply bind_ok in Hok as ([] & Hnodes & Hout).
  assert (Hlift : forall (r : validated unit), lift r = Ok tt -> r = Ok tt) by (by intros [[]|]).
  apply Hlift in Hnodes. apply Hlift in Hout. exists region.
  destruct (explore_closed _ _ _ _ _ _ Hr) as (_ & Hst & _).
  assert (Hmap : forall x, In x region -> String.eqb x (node_id node) = false) by (apply (explore_unskipped _ _ _ [] _ _ (fun x Hx => match Hx with end) Hr)).
  split; [destruct (Hst (node_ref (map_target params))) as [He|]; [by left|by apply String.eqb_eq in He|done]|].
  split; [intros Hx%Hmap; by rewrite String.eqb_refl in Hx|]. split.
  - intros x Hx. split.
    + revert x Hx. eapply (explore_invariant (inside (node_id node) (node_ref (map_target params)))); [| | |exact Hr]; [|done|].
      * intros seen x next y (l & Hw & Hl) Hs Hf Hy. unfold region_follow in Hf.
        apply bind_ok in Hf as (edges & He & [= <-]). apply (proj1 (List.filter_In _ _ _)) in Hy as [Hy _].
        exists (l ++ [x])%list. split; [by eapply walk_snoc|].
        intros [?|[->|[]]]%in_app_iff; [done|]. by rewrite String.eqb_refl in Hs.
      * intros x [<-|[]]. exists []. split; [apply walk_here|by intros []].
    + apply region_node_ok. by apply (for_each_Ok_In _ _ x) in Hnodes.
  - intros other Ho. apply outside_node_ok. by apply (for_each_Ok_In _ _ other) in Hout.
Qed.
End bodies.

(** ** What an accepted workflow satisfies *)

Lemma for_each_Ok_iff {A B} (f : A -> result B unit) l : for_each f l = Ok tt <-> forall x, In x l -> f x = Ok tt.
Proof.
  split; [intros H x; by apply for_each_Ok_In|]. induction l as [|x l IH]; intros H; [done|]. cbn.
  rewrite H by (by left). apply IH. intros y Hy. apply H. by right.
Qed.

Lemma check_ok ok e : check ok e = Ok tt -> ok = true.
Proof. by destruct ok. Qed.

Lemma lift_ok {A} (r : validated A) a : lift r = Ok a -> r = Ok a.
Proof. destruct r; [by intros [= ->]|done]. Qed.

Lemma distinct_ids_NoDup seen ns : distinct_ids seen ns = Ok tt ->
  NoDup (map node_id ns) /\ forall n, In n ns -> ~ In (node_id n) seen.
Proof.
  revert seen. induction ns as [|n ns IH]; intros seen H; [by split; [constructor|]|]. cbn in H.
  destruct (contains_id seen (node_id n)) eqn:Hs; [done|]. apply contains_id_false in Hs.
  apply IH in H as [Hnd Hseen]. split.
  - cbn. apply list.NoDup_cons. split; [|done]. intros (m & Hid & Hm)%list_elem_of_In%in_map_iff.
    apply (Hseen m Hm). rewrite Hid. by left.
  - intros m [<-|Hm] Hin; [done|]. apply (Hseen m Hm). by right.
Qed.

(** The id is that of a node of the workflow to which the role may lead. *)
Definition leads_to (ns : list WorkflowNode) (role : NodeReferenceRole) (id : string) : Prop :=
  exists n, In n ns /\ node_id n = id /\ role_accepts role (kind n) = true.

Lemma validate_node_ref_ok ns node role t : validate_node_ref ns node role t = Ok tt -> leads_to ns role (node_ref t).
Proof.
  unfold validate_node_ref. destruct (find_node ns (node_ref t)) as [n|] eqn:Hn; [|done].
  destruct (role_accepts role (kind n)) eqn:Hr; [|done]. intros _. apply find_node_In in Hn as [Hin Hid]. by exists n.
Qed.

Lemma leads_to_transition ns role id : role <> RNodeOutput -> leads_to ns role id -> leads_to ns RTransition id.
Proof. intros Hr (n & Hin & Hid & Ha). exists n. split; [done|]. split; [done|]. destruct role, (kind n); done. Qed.

Definition accepted_refs (ns : list WorkflowNode) (l : list WorkflowNodeRef) : Prop :=
  forall t, In t l -> leads_to ns RTransition (node_ref t).

Lemma accepted_each {A} ns node role (f : A -> WorkflowNodeRef) l :
  for_each (fun x => validate_node_ref ns node role (f x)) l = Ok tt -> role <> RNodeOutput -> accepted_refs ns (map f l).
Proof.
  intros H Hr t (x & <- & Hx)%in_map_iff. apply (for_each_Ok_In _ _ x) in H; [|done].
  apply (leads_to_transition ns role); [exact Hr|]. exact (validate_node_ref_ok _ _ _ _ H).
Qed.

Lemma accepted_refs_list ns node role l :
  for_each (validate_node_ref ns node role) l = Ok tt -> role <> RNodeOutput -> accepted_refs ns l.
Proof. intros H Hr. rewrite <- (map_id l). by eapply (accepted_each ns node role id l). Qed.

Lemma accepted_one ns node role t : validate_node_ref ns node role t = Ok tt -> role <> RNodeOutput ->
  leads_to ns RTransition (node_ref t).
Proof. intros H Hr. apply (leads_to_transition ns role); [exact Hr|]. exact (validate_node_ref_ok _ _ _ _ H). Qed.

Lemma accepted_nil ns : accepted_refs ns [].
Proof. by intros t []. Qed.

Lemma accepted_app ns l1 l2 : accepted_refs ns l1 -> accepted_refs ns l2 -> accepted_refs ns (l1 ++ l2).
Proof. intros H1 H2 t [Ht|Ht]%in_app_iff; [by apply H1|by apply H2]. Qed.

Lemma accepted_cons ns t l : leads_to ns RTransition (node_ref t) -> accepted_refs ns l -> accepted_refs ns (t :: l).
Proof. by intros H1 H2 x [<-|Hx]; [|apply H2]. Qed.

Create HintDb accepted.
#[local] Hint Resolve accepted_nil accepted_each accepted_refs_list accepted_one accepted_app accepted_cons : accepted.
#[local] Hint Extern 1 (_ <> RNodeOutput) => discriminate : accepted.

Lemma parameter_refs_ok `{Externals} ns node : validate_parameter_node_refs ns node = Ok tt ->
  exists l, parameter_targets node = Ok l /\ accepted_refs ns l.
Proof.
  unfold validate_parameter_node_refs, parameter_targets. intros Hok.
  destruct (kind node); try (exists []; split; [done|apply accepted_nil]).
  all: apply bind_ok in Hok as (params & -> & Hok); cbn [mbind result_bind]; eexists; (split; [reflexivity|]).
  - apply bind_ok in Hok as ([] & H1 & H2). eauto with accepted.
  - apply bind_ok in Hok as ([] & H1 & H2). eauto 6 with accepted.
  - apply bind_ok in Hok as ([] & H1 & H2). eauto with accepted.
  - eauto with accepted.
  - eauto with accepted.
  - apply bind_ok in Hok as ([] & H1 & Hok). apply bind_ok in Hok as ([] & H2 & H3). eauto 6 with accepted.
  - eauto with accepted.
  - eauto with accepted.
Qed.

(** A node of an accepted workflow: its limits are positive, and every reference it holds
    leads to a node it may lead to. *)
Record accepted_node `{Externals} (ns : list WorkflowNode) (node : WorkflowNode) : Prop := {
  an_action : kind node = KAction -> is_Some (action node);
  an_retry : (0 < max_attempts (retry node))%Z;
  an_timeout : forall n, timeout_seconds node = Some n -> (0 < n)%Z;
  an_iterations : forall n, max_iterations node = Some n -> (0 < n)%Z;
  an_visits : reentry_enabled (reentry node) = true -> (0 < max_visits (reentry node))%Z;
  an_transitions : accepted_refs ns (transition_targets (transitions node));
  an_parameters : exists l, parameter_targets node = Ok l /\ accepted_refs ns l;
  an_outputs : exists refs, value_refs node = Ok refs /\
    forall r x, In r refs -> source r = SrcNodeOutput x -> leads_to ns RNodeOutput x;
  an_exhausted : accepted_refs ns (option_list (on_exhausted (reentry node)))
}.

Lemma positive_when_set_Some limit n : positive_when_set limit = true -> limit = Some n -> (0 < n)%Z.
Proof. intros H ->. by apply Z.ltb_lt. Qed.

Lemma validate_node_accepted `{Externals} ns node : validate_node ns node = Ok tt -> accepted_node ns node.
Proof.
  unfold validate_node. intros Hok.
  apply bind_ok in Hok as ([] & Ha%check_ok & Hok). apply bind_ok in Hok as ([] & _ & Hok).
  apply bind_ok in Hok as ([] & Hr%check_ok & Hok). apply bind_ok in Hok as ([] & Ht%check_ok & Hok).
  apply bind_ok in Hok as ([] & Hi%check_ok & Hok). apply bind_ok in Hok as ([] & Hv%check_ok & Hok).
  apply bind_ok in Hok as ([] & _ & Hok). apply bind_ok in Hok as ([] & _ & Hok).
  apply bind_ok in Hok as ([] & Htr & Hok). apply bind_ok in Hok as ([] & Hp & Hok).
  apply bind_ok in Hok as (refs & Hrefs & Hok). apply bind_ok in Hok as ([] & Hout & Hex).
  split.
  - intros Hk. apply orb_prop in Ha as [Ha|Ha%bool_decide_eq_true]; [|done]. by rewrite bool_decide_eq_true_2 in Ha.
  - by apply Z.ltb_lt.
  - intros n. by apply positive_when_set_Some.
  - intros n. by apply positive_when_set_Some.
  - intros He. rewrite He in Hv. by apply Z.ltb_lt.
  - eauto with accepted.
  - by apply parameter_refs_ok.
  - exists refs. split; [done|]. intros r x Hin Hs. apply (for_each_Ok_In _ _ r) in Hout; [|done]. cbn beta in Hout.
    rewrite Hs in Hout. exact (validate_node_ref_ok _ _ _ _ Hout).
  - eauto with accepted.
Qed.

Lemma for_each_answers {A} (f : A -> eval unit) l : (forall x, In x l -> answers (f x)) -> answers (for_each f l).
Proof.
  induction l as [|x l IH]; intros H; [done|]. cbn [for_each]. apply answers_bind; [apply H; by left|].
  intros []. apply IH. intros y Hy. apply H. by right.
Qed.

Lemma mutex_sections_answer `{Externals} start ns : answers (validate_mutex_sections start ns).
Proof.
  apply for_each_answers. intros lock _. apply answers_bind; [apply mutex_walk_answers|done].
Qed.

Lemma map_bodies_answer `{Externals} ns : answers (validate_map_concurrency_bodies ns).
Proof.
  apply for_each_answers. intros node _. unfold validate_map_body. destruct (negb _); [done|].
  apply answers_bind; [apply answers_lift|]. intros params. destruct (_ <=? 1)%Z; [done|].
  apply answers_bind; [apply region_walk_answers|]. intros region.
  apply answers_bind; [apply answers_lift|]. intros _. apply answers_lift.
Qed.

Lemma graph_cycles_answer start ns : answers (validate_graph_cycles start ns).
Proof.
  unfold validate_graph_cycles. apply answers_bind; [|done].
  pose proof (visit_answers ns start (start :: all_targets ns) (S (S (length (all_targets ns))))) as H.
  intros Hv. specialize (H ltac:(intros x Hx; by right) start [] [] ltac:(by left) ltac:(by repeat constructor) ltac:(done)).
  rewrite Hv in H. destruct H as (c & Hc & _); [|done].
  pose proof (List.filter_length_le (pending []) (start :: all_targets ns)) as Hl. unfold remaining. cbn [length] in Hl. lia.
Qed.

(** What [validate_workflow] leaves of its checks when it returns. *)
Lemma validate_workflow_ok `{Externals} expanded start ns : validate_workflow expanded = Ok (start, ns) ->
  parse_nodes expanded = Ok (start, ns) /\ NoDup (map node_id ns) /\
  (exists n, In n ns /\ node_id n = start /\ kind n = KStart) /\ (exists n, In n ns /\ kind n = KEnd) /\
  (forall node, In node ns -> accepted_node ns node) /\
  validate_map_concurrency_bodies ns = Ok tt /\ validate_mutex_sections start ns = Ok tt /\
  validate_graph_cycles start ns = Ok tt.
Proof.
  unfold validate_workflow. intros Hok.
  apply bind_ok in Hok as ([start' ns'] & Hp%lift_ok & Hok).
  apply bind_ok in Hok as ([] & Hd%lift_ok & Hok). apply bind_ok in Hok as ([] & _ & Hok).
  apply bind_ok in Hok as ([] & Hs%lift_ok%check_ok & Hok). apply bind_ok in Hok as ([] & He%lift_ok%check_ok & Hok).
  apply bind_ok in Hok as ([] & Hn%lift_ok & Hok). apply bind_ok in Hok as ([] & Hc & Hok).
  apply bind_ok in Hok as ([] & Hb & Hok). apply bind_ok in Hok as ([] & Hm & [= -> ->]).
  apply distinct_ids_NoDup in Hd as [Hnd _]. split; [done|]. split; [done|]. split; [|split; [|split]].
  - destruct (List.find _ ns) as [n|] eqn:Hf; [|done]. apply List.find_some in Hf as [Hin Hid%String.eqb_eq].
    apply bool_decide_eq_true in Hs. by exists n.
  - apply existsb_exists in He as (n & Hin & Hk%bool_decide_eq_true). by exists n.
  - intros node Hin. apply validate_node_accepted. by apply (for_each_Ok_In _ _ node) in Hn.
  - done.
Qed.

(** C8: validation is total and sound: it returns or gives an error of its own (its walks
    never run out of fuel), and what it returns has distinct node ids, the start it was
    given as a start node, an end node, and at every node positive limits, transitions
    and control-flow targets that lead to existing nodes other than start nodes, and
    output references that lead to nodes that produce outputs. *)
Theorem validate_workflow_sound `{Externals} expanded :
  match validate_workflow expanded with
  | Err e => e <> OutOfFuel
  | Ok (start, ns) =>
      parse_nodes expanded = Ok (start, ns) /\ NoDup (map node_id ns) /\
      (exists n, In n ns /\ node_id n = start /\ kind n = KStart) /\ (exists n, In n ns /\ kind n = KEnd) /\
      forall node, In node ns -> accepted_node ns node
  end.
Proof.
  destruct (validate_workflow expanded) as [[start ns]|e] eqn:Hv.
  - apply validate_workflow_ok in Hv. naive_solver.
  - assert (Ha : answers (validate_workflow expanded)).
    { unfold validate_workflow. apply answers_bind; [apply answers_lift|]. intros [s l].
      repeat (apply answers_bind; [apply answers_lift|]; intros ?).
      apply answers_bind; [apply graph_cycles_answer|]. intros _.
      apply answers_bind; [apply map_bodies_answer|]. intros _.
      apply answers_bind; [apply mutex_sections_answer|]. done. }
    intros ->. by apply Ha.
Qed.

(** ** Where routing leads *)

Section routing.
Context `{Externals} (ns : list WorkflowNode) (node : WorkflowNode) (fuel : nat) (context : Value).

Lemma status_target_listed t status x : status_target t status = Some x -> In x (transition_targets t).
Proof.
  unfold transition_targets. rewrite !in_app_iff. destruct t as [n s f o r bs]. cbn [next on_success on_failure on_timeout on_reject branches].
  unfold status_target, or_node. cbn [next on_success on_failure on_timeout on_reject branches].
  destruct status; try destruct s; intros H'; simplify_eq/=; tauto.
Qed.

Lemma first_branch_listed l id : first_branch fuel l context = Ok (Some id) -> exists b, In b l /\ node_ref (target b) = id.
Proof.
  induction l as [|b l IH]; intros H'; [done|]. cbn [first_branch] in H'. apply bind_ok in H' as (taken & _ & H').
  destruct taken; [injection H' as <-; exists b; split; [by left|done]|].
  destruct (IH H') as (b' & Hin & Hid). exists b'. split; [by right|done].
Qed.

Lemma next_transition_listed status id : next_transition fuel node status context = Ok (Some id) ->
  exists t, In t (transition_targets (transitions node)) /\ node_ref t = id.
Proof.
  intros (chosen & Hc & H')%bind_ok. destruct chosen as [id'|].
  - injection H' as <-. apply first_branch_listed in Hc as (b & Hin & Hid). exists (target b). split; [|done].
    unfold transition_targets. rewrite !in_app_iff. do 5 right. apply in_map.
    eapply Permutation_in; [apply sort_by_key_Permutation|exact Hin].
  - injection H' as H'. destruct (status_target _ _) as [t|] eqn:Ht; [|done]. injection H' as <-.
    exists t. split; [by eapply status_target_listed|done].
Qed.

Lemma evaluate_cases_listed l id : evaluate_cases fuel l context = Ok (Some id) -> exists c, In c l /\ node_ref (case_target c) = id.
Proof.
  induction l as [|c l IH]; intros H'; [done|]. cbn [evaluate_cases] in H'. apply bind_ok in H' as (taken & _ & H').
  destruct taken; [injection H' as <-; exists c; split; [by left|done]|].
  destruct (IH H') as (c' & Hin & Hid). exists c'. split; [by right|done].
Qed.

Lemma pick_bucket_listed l slot cumulative t : pick_bucket l slot cumulative = Some t -> exists b, In b l /\ bucket_target b = t.
Proof.
  revert cumulative. induction l as [|b l IH]; intros cumulative H'; [done|]. cbn [pick_bucket] in H'.
  destruct (slot <? _)%Z; [injection H' as <-; exists b; split; [by left|done]|].
  destruct (IH _ H') as (b' & Hin & Hid). exists b'. split; [by right|done].
Qed.

(** The outcome of a routing node: a target, none, or an error. *)
Definition chosen_target (r : eval (option string)) (l : list WorkflowNodeRef) : Prop :=
  forall id, r = Ok (Some id) -> exists t, In t l /\ node_ref t = id.

Lemma option_target (o : option WorkflowNodeRef) id l : Ok (E := EvalError) (node_ref <$> o) = Ok (Some id) ->
  exists t, In t (l ++ option_list o)%list /\ node_ref t = id.
Proof. destruct o as [t|]; [|done]. intros [= <-]. exists t. split; [|done]. apply in_app_iff. right. by left. Qed.

Lemma evaluate_switch_listed p : chosen_target (evaluate_switch fuel p context) (map case_target (cases p) ++ option_list (switch_default p)).
Proof.
  intros id (chosen & Hc & H')%bind_ok. destruct chosen as [id'|]; [|by apply option_target].
  injection H' as <-. apply evaluate_cases_listed in Hc as (c & Hin & Hid). exists (case_target c).
  split; [|done]. apply in_app_iff. left. by apply in_map.
Qed.

Lemma evaluate_percentage_listed p :
  chosen_target (evaluate_percentage fuel p context) (map bucket_target (buckets p) ++ option_list (percentage_default p)).
Proof.
  intros id (key & _ & H')%bind_ok. cbv zeta in H'. destruct (is_null key || _); [by apply option_target|].
  apply bind_ok in H' as (hashed & _ & H'). destruct (pick_bucket _ _ _) as [t|] eqn:Hp; [|by apply option_target].
  injection H' as <-. apply pick_bucket_listed in Hp as (b & Hin & <-). exists (bucket_target b).
  split; [|done]. apply in_app_iff. left. by apply in_map.
Qed.

(** C9: routing stays inside: from a node of an accepted workflow, the next transition of
    any status and the choices of switch, toggle and percentage nodes, whose parameters
    parse, only ever name nodes of the workflow, and never a start node. *)
Theorem routing_stays_inside expanded start :
  validate_workflow expanded = Ok (start, ns) -> In node ns ->
  let inside id := exists m, In m ns /\ node_id m = id /\ kind m <> KStart in
  (forall status id, next_transition fuel node status context = Ok (Some id) -> inside id) /\
  (kind node = KSwitch -> exists p, parse_switch_parameters node = Ok p /\
     forall id, evaluate_switch fuel p context = Ok (Some id) -> inside id) /\
  (kind node = KToggle -> exists p, parse_toggle_parameters node = Ok p /\
     forall id, evaluate_toggle fuel p context = Ok id -> inside id) /\
  (kind node = KPercentage -> exists p, parse_percentage_parameters node = Ok p /\
     forall id, evaluate_percentage fuel p context = Ok (Some id) -> inside id).
Proof.
  intros (_ & _ & _ & _ & Hacc & _)%validate_workflow_ok Hin inside. destruct (Hacc node Hin) as [_ _ _ _ _ Htr (l & Hl & Hpar) _ _].
  assert (Hlead : forall l', accepted_refs ns l' -> forall id, (exists t, In t l' /\ node_ref t = id) -> inside id).
  { intros l' Hl' id (t & Ht & <-). destruct (Hl' t Ht) as (m & Hm & Hid & Ha). exists m. split; [done|]. split; [done|].
    intros Hk. by rewrite Hk in Ha. }
  unfold parameter_targets in Hl. split; [|split; [|split]].
  - intros status id Hn. apply (Hlead _ Htr). by eapply next_transition_listed.
  - intros Hk. rewrite Hk in Hl. apply bind_ok in Hl as (p & -> & [= <-]). exists p. split; [done|].
    intros id Hid. apply (Hlead _ Hpar). by apply evaluate_switch_listed.
  - intros Hk. rewrite Hk in Hl. apply bind_ok in Hl as (p & -> & [= <-]). exists p. split; [done|].
    intros id (taken & _ & [= <-])%bind_ok. apply (Hlead _ Hpar). destruct taken; eexists; (split; [|reflexivity]); cbn; tauto.
  - intros Hk. rewrite Hk in Hl. apply bind_ok in Hl as (p & -> & [= <-]). exists p. split; [done|].
    intros id Hid. apply (Hlead _ Hpar). by apply evaluate_percentage_listed.
Qed.
End routing.

(** ** A concrete workflow

    A rollout inside a mutex section: the canary runs a map of four concurrent items, both
    buckets release the lock. *)

Definition to (id : string) : WorkflowTransitions := mk_transitions (Some (mk_node_ref id)) None None None None [].

Definition node_object (id : string) : Value := VObject [("$node", VString id)].

Definition deploy_nodes : list WorkflowNode :=
  [bare_node "s" KStart [] (to "lock");
   bare_node "lock" KMutex [("name", VString "m")] (to "p");
   bare_node "p" KPercentage
     [("buckets", VArray [bucket_value 30 "each"; bucket_value 70 "unlock"]); ("key", VString "user-1")] no_transitions;
   bare_node "each" KMap
     [("concurrency", VNumber (PosInt 4)); ("items", VArray []); ("target", node_object "work")] (to "unlock");
   bare_node "work" KWait [] (to "each");
   bare_node "unlock" KMutex [("name", VString "m"); ("release", VBool true)] (to "done");
   bare_node "done" KEnd [] no_transitions].

Definition deploy : validated WorkflowGraph := Ok (mk_graph (Some "s") deploy_nodes [] VNull []).

Example deploy_valid : validate_workflow (H := externals_stub) deploy = Ok ("s", deploy_nodes).
Proof. vm_compute. reflexivity. Qed.

(** Without the acquire the release can be reached first. *)
Example release_without_acquire :
  validate_workflow (H := externals_stub)
    (Ok (mk_graph (Some "s")
       [bare_node "s" KStart [] (to "u"); bare_node "u" KMutex [("release", VBool true)] (to "e");
        bare_node "e" KEnd [] no_transitions] [] VNull []))
  = Err (Failed (MutexReleaseBeforeAcquire "u" "u")).
Proof. vm_compute. reflexivity. Qed.

Definition each_node : WorkflowNode :=
  bare_node "each" KMap
    [("concurrency", VNumber (PosInt 4)); ("items", VArray []); ("target", node_object "work")] (to "unlock").

Lemma map_body_isolated_witness :
  exists region,
    In "work" region /\ ~ In "each" region /\
    (forall x, In x region -> inside (EX := externals_stub) deploy_nodes "each" "work" x /\
       exists n edges, find_node deploy_nodes x = Some n /\ is_runnable_entry_kind (kind n) = true /\
         body_edges (H := externals_stub) n = Ok edges /\
         forall e, In e edges -> node_ref e = "each" \/ In (node_ref e) region) /\
    (forall other, In other deploy_nodes -> node_id other <> "each" -> ~ In (node_id other) region ->
       exists edges refs, body_edges (H := externals_stub) other = Ok edges /\
         value_refs (H := externals_stub) other = Ok refs /\
         (forall e, In e edges -> ~ In (node_ref e) region) /\
         (forall r x, In r refs -> source r = SrcNodeOutput x -> ~ In x region)).
Proof.
  apply (map_body_isolated (EX := externals_stub) deploy_nodes each_node
    (mk_map (ELiteral (VArray [])) (mk_node_ref "work") (Some 4%Z))).
  - by vm_compute.
  - do 3 right. by left.
  - reflexivity.
  - by vm_compute.
  - reflexivity.
  - by vm_compute.
Defined.

Lemma mutex_sections_sound_witness :
  exists a acquire, In a ["s"; "lock"; "p"] /\ find_node deploy_nodes a = Some acquire /\ kind acquire = KMutex /\
    mutex_name acquire = "m" /\ mutex_is_release acquire = false.
Proof.
  apply (mutex_sections_sound (EX := externals_stub) deploy_nodes "s" ["s"; "lock"; "p"] "unlock"
    (bare_node "unlock" KMutex [("name", VString "m"); ("release", VBool true)] (to "done"))); try by vm_compute.
  apply (walk_edge _ "s" "lock" _ _ ["lock"]); [reflexivity|by left|].
  apply (walk_edge _ "lock" "p" _ _ ["p"]); [reflexivity|by left|].
  apply (walk_edge _ "p" "unlock" _ _ ["each"; "unlock"]); [reflexivity|by right; left|]. constructor.
Defined.

Definition rollout_node : WorkflowNode :=
  bare_node "p" KPercentage
    [("buckets", VArray [bucket_value 30 "each"; bucket_value 70 "unlock"]); ("key", VString "user-1")] no_transitions.

Lemma routing_stays_inside_witness :
  let inside id := exists m, In m deploy_nodes /\ node_id m = id /\ kind m <> KStart in
  exists p, parse_percentage_parameters (H := externals_stub) rollout_node = Ok p /\
    forall id, evaluate_percentage (H := externals_stub) 2 p VNull = Ok (Some id) -> inside id.
Proof.
  apply (routing_stays_inside (H := externals_stub) deploy_nodes rollout_node 2 VNull deploy "s");
    [by vm_compute|do 2 right; by left|reflexivity].
Defined.

(** The cycle check follows transitions only: a percentage node that routes back to itself
    is accepted, without any bound on its re-entry. *)
Example routing_cycle_accepted :
  exists ns, validate_workflow (H := externals_stub)
    (Ok (mk_graph (Some "s")
       [bare_node "s" KStart [] (to "p"); rollout [bucket_value 1 "p"]; bare_node "e" KEnd [] no_transitions] [] VNull []))
  = Ok ("s", ns).
Proof. eexists. vm_compute. reflexivity. Qed.

(** The verdict on a cycle depends on where the walk enters it: entered at its condition the
    cycle is refused, although each of its turns passes through the loop; entered at the
    loop, the same two nodes are accepted. *)
Example cycle_verdict_depends_on_entry :
  let cycle := [bare_node "c" KCondition [] (to "g"); bare_node "g" KLoop [] (to "c")] in
  validate_graph_cycles "s" (bare_node "s" KStart [] (to "c") :: cycle) = Err (Failed (RefCycle "c")) /\
  validate_graph_cycles "s" (bare_node "s" KStart [] (to "g") :: cycle) = Ok tt.
Proof. split; vm_compute; reflexivity. Qed.
