(* ===== verification/Comm.v ===== *)
(** * Messages between the services ([runinator-comm/src])

    The commands and events carried by the broker ([lib.rs]), the targets that route
    them ([targeting.rs]) and the keys that identify them while they are undelivered. *)

From stdpp Require Import gmap.
From S2P Require Import Prelude BTree Float64 Values Types TypeCodec Ast Intrinsics Catalog Eval Workflows.

#[local] Open Scope string_scope.

(** ** Targets *)

Inductive ActionTarget : Type :=
| TargetAny
| TargetLabels (selector : btree string)
| TargetReplica (replica_id : Uuid).

Record ConsumerProfile : Type := mk_profile {
  profile_id : string;
  profile_replica_id : option Uuid;
  profile_labels : btree string;
  profile_exclusive : bool
}.

Definition target_labels (selector : list (string * string)) : ActionTarget := TargetLabels (bt_from_list selector).

Definition shared (id : string) : ConsumerProfile := mk_profile id None [] false.

Definition with_replica_id (p : ConsumerProfile) (replica_id : Uuid) : ConsumerProfile :=
  mk_profile (profile_id p) (Some replica_id) (profile_labels p) (profile_exclusive p).

Definition with_labels (p : ConsumerProfile) (labels : btree string) : ConsumerProfile :=
  mk_profile (profile_id p) (profile_replica_id p) labels (profile_exclusive p).

Definition exclusive (p : ConsumerProfile) : ConsumerProfile :=
  mk_profile (profile_id p) (profile_replica_id p) (profile_labels p) true.

Definition label_held (p : ConsumerProfile) (kv : string * string) : bool :=
  match bt_get kv.1 (profile_labels p) with Some held => String.eqb held kv.2 | None => false end.

(** [ActionTarget::matches]. *)
Definition target_matches (target : ActionTarget) (profile : ConsumerProfile) : bool :=
  match target with
  | TargetAny => negb (profile_exclusive profile)
  | TargetLabels selector => forallb (label_held profile) selector
  | TargetReplica replica_id => bool_decide (profile_replica_id profile = Some replica_id)
  end.

(** ** Commands and events *)

Record ActionCommand : Type := mk_action_command {
  command_id : Uuid;
  action_run_id : Uuid;
  action_node_run_id : Uuid;
  action_node_id : string;
  command_action : WorkflowAction;
  attempt : Z;
  command_parameters : Value;
  action_target : ActionTarget;
  action_trace_id : Uuid;
  trace_context : gmap string string
}.

Inductive ControlKind : Type := CtlCancel | CtlPause | CtlResume.

Record ControlCommand : Type := mk_control {
  control_run_id : Uuid;
  control_kind : ControlKind;
  control_node_run_id : option Uuid;
  control_target : ActionTarget
}.

Definition control_new (workflow_run_id : Uuid) (kind : ControlKind) : ControlCommand :=
  mk_control workflow_run_id kind None TargetAny.

Definition control_for_node_run (workflow_run_id node_run_id : Uuid) (kind : ControlKind) : ControlCommand :=
  mk_control workflow_run_id kind (Some node_run_id) TargetAny.

Definition targeting_replica (c : ControlCommand) (replica_id : Uuid) : ControlCommand :=
  mk_control (control_run_id c) (control_kind c) (control_node_run_id c) (TargetReplica replica_id).

Record WakeCommand : Type := mk_wake {
  wake_ready_node_id : Uuid;
  wake_run_id : Uuid;
  wake_node_id : string;
  ready_at : DateTime;
  source_event_id : Uuid;
  wake_trace_id : Uuid
}.

Inductive WsIngressCommand : Type :=
| Drive (ready_node_id workflow_run_id : Uuid) (node : string) (trace_id : Uuid)
| Control (workflow_run_id : Uuid) (kind : ControlKind).

Record NewRunChunk : Type := mk_chunk { chunk_stream : string; chunk_content : string }.

Record NewRunArtifact : Type := mk_artifact {
  artifact_name : string;
  mime_type : string;
  size_bytes : Z;
  artifact_uri : string;
  artifact_metadata : Value
}.

Inductive WorkflowResultEventKind : Type :=
| EventStatus (status : WorkflowStatus) (output_json : option Value) (message : option string)
| EventChunk (chunk : NewRunChunk)
| EventArtifact (artifact : NewRunArtifact).

Record WorkflowResultEvent : Type := mk_result_event {
  event_id : Uuid;
  event_command_id : Uuid;
  event_run_id : Uuid;
  event_node_run_id : Uuid;
  event_node_id : string;
  event_attempt : Z;
  event_kind : WorkflowResultEventKind;
  event_timestamp : DateTime;
  event_trace_id : Uuid
}.

(** ** Keys

    Outside the sources: the text of a [Uuid], and the hash of an action command
    ([DefaultHasher] of its JSON text, in hexadecimal). *)

Class CommExternals := {
  uuid_text : Uuid -> string;
  command_digest : ActionCommand -> string
}.

(** The [Debug] text of a [ControlKind]. *)
Definition control_kind_debug (k : ControlKind) : string :=
  match k with CtlCancel => "Cancel" | CtlPause => "Pause" | CtlResume => "Resume" end.

Definition wake_dedupe_key `{CommExternals} (c : WakeCommand) : string :=
  uuid_text (wake_ready_node_id c) +:+ ":" +:+ uuid_text (source_event_id c).

Definition ingress_dedupe_key `{CommExternals} (c : WsIngressCommand) : string :=
  match c with
  | Drive ready_node_id _ _ _ => "drive:" +:+ uuid_text ready_node_id
  | Control workflow_run_id kind => "control:" +:+ uuid_text workflow_run_id +:+ ":" +:+ control_kind_debug kind
  end.

(** ** Facts *)

Lemma target_matches_shared target id :
  target_matches target (shared id) =
  match target with TargetAny => true | TargetLabels selector => Nat.eqb (length selector) 0 | TargetReplica _ => false end.
Proof. destruct target as [|[|kv l]|r]; [done|done|by destruct kv|done]. Qed.

(** The text before the first colon. *)
Fixpoint before_colon (s : string) : string :=
  match s with
  | EmptyString => EmptyString
  | String c s' => if Ascii.eqb c ":" then EmptyString else String c (before_colon s')
  end.

Lemma before_colon_app s t : before_colon s = s -> before_colon (s +:+ String ":" t) = s.
Proof.
  induction s as [|c s IH]; [done|]. change (String c s +:+ String ":" t) with (String c (s +:+ String ":" t)).
  cbn [before_colon]. destruct (Ascii.eqb c ":"); [done|]. intros [= Hs]. by rewrite IH.
Qed.

Lemma append_inj_l (s t u : string) : s +:+ t = s +:+ u -> t = u.
Proof. induction s as [|c s IH]; [done|]. intros [= H]. by apply IH. Qed.

Section keys.
Context {CE : CommExternals}.

(** [Uuid]'s [Display] prints hexadecimal digits and hyphens, differently for different ids. *)
Hypothesis uuid_text_inj : forall a b, uuid_text a = uuid_text b -> a = b.
Hypothesis uuid_text_no_colon : forall a, before_colon (uuid_text a) = uuid_text a.

Lemma colon_pair_inj a b s t :
  uuid_text a +:+ String ":" s = uuid_text b +:+ String ":" t -> a = b /\ s = t.
Proof.
  intros H. assert (Hab : uuid_text a = uuid_text b).
  { rewrite <- (before_colon_app (uuid_text a) s), H by done. by apply before_colon_app. }
  split; [by apply uuid_text_inj|]. rewrite Hab in H. apply append_inj_l in H. by injection H.
Qed.

Lemma control_kind_debug_inj j k : control_kind_debug j = control_kind_debug k -> j = k.
Proof. by destruct j, k. Qed.

(** C40: dedupe keys identify what they should: two wakes share a key exactly when they are
    for the same ready node and the same source event; two ingress messages exactly
    when both drive the same ready node, or both control the same run in the same way;
    a drive is never taken for a control. *)
Theorem dedupe_keys_identify :
  (forall c d, wake_dedupe_key c = wake_dedupe_key d <->
     wake_ready_node_id c = wake_ready_node_id d /\ source_event_id c = source_event_id d) /\
  (forall c d, ingress_dedupe_key c = ingress_dedupe_key d <->
     match c, d with
     | Drive a _ _ _, Drive b _ _ _ => a = b
     | Control a j, Control b k => a = b /\ j = k
     | _, _ => False
     end).
Proof.
  split; intros c d.
  - unfold wake_dedupe_key. split; [|by intros [-> ->]]. intros [Ha Hs]%colon_pair_inj.
    by apply uuid_text_inj in Hs.
  - destruct c as [a ? ? ?|a j], d as [b ? ? ?|b k]; cbn [ingress_dedupe_key]; split; try done.
    + intros H%append_inj_l. by apply uuid_text_inj.
    + by intros ->.
    + intros H%append_inj_l. apply colon_pair_inj in H as [Ha Hk]. by apply control_kind_debug_inj in Hk.
    + by intros [-> ->].
Qed.
End keys.

(** ** A concrete instance: ids as binary digits *)

Fixpoint positive_text (p : positive) : string :=
  match p with
  | xI p => String "1" (positive_text p)
  | xO p => String "0" (positive_text p)
  | xH => EmptyString
  end.

Definition id_text (z : Z) : string :=
  match z with Z0 => "z" | Zpos p => String "p" (positive_text p) | Zneg p => String "n" (positive_text p) end.

Definition comm_stub : CommExternals := {| uuid_text := id_text; command_digest c := id_text (command_id c) |}.

Lemma id_text_inj a b : id_text a = id_text b -> a = b.
Proof.
  assert (Hp : forall p q, positive_text p = positive_text q -> p = q).
  { induction p as [p IH|p IH|]; intros [q|q|] H; try discriminate H; try done; injection H as H; by rewrite (IH q H). }
  destruct a as [|p|p], b as [|q|q]; intros H; try discriminate H; try done; injection H as H; by rewrite (Hp p q H).
Qed.

Lemma id_text_no_colon a : before_colon (id_text a) = id_text a.
Proof.
  assert (Hp : forall p, before_colon (positive_text p) = positive_text p)
    by (induction p as [p IH|p IH|]; cbn; by rewrite ?IH).
  destruct a as [|p|p]; cbn; by rewrite ?Hp.
Qed.

Lemma dedupe_keys_identify_witness :
  @ingress_dedupe_key comm_stub (Drive 5 1 "a" 9) = @ingress_dedupe_key comm_stub (Drive 5 2 "b" 8) /\
  @ingress_dedupe_key comm_stub (Drive 5 1 "a" 9) <> @ingress_dedupe_key comm_stub (Control 5 CtlPause).
Proof.
  destruct (@dedupe_keys_identify comm_stub id_text_inj id_text_no_colon) as [_ H]. split; [by apply H|].
  intros E%H. exact E.
Defined.
