(* ===== verification/Broker.v ===== *)
(** * The in-memory broker ([runinator-broker/src/in_memory.rs], [types.rs])

    Five competing-consumer channels under one mutex: actions, controls, results, wakes
    and ingress.  A channel is a queue and the deliveries leased to consumers; all but
    the control channel also keep the dedupe keys of what is undelivered.  Every method
    is one critical section, so an execution is a sequence of method calls.  A blocking
    receive is modelled by its attempt: it returns a delivery, or the source waits and
    tries again.

    Outside the sources: [Uuid::new_v4], a stream of ids ([new_v4 n] is the [n]-th one
    and the world counts them), the clocks, and the order in which a [HashMap] is
    enumerated; the last two are arguments of the receives.

    Instants are unbounded here.  In the source [Instant::now() + lease_duration] panics
    when the sum leaves the platform's clock, and [receive_for] computes it after it took
    the delivery off the queue, so a broker built with such a lease duration loses the
    delivery; the theorems are about durations the clock can add. *)

From stdpp Require Import gmap.
From S2P Require Import Prelude BTree Float64 Values Types TypeCodec Ast Intrinsics Catalog Eval Workflows Comm.

#[local] Open Scope string_scope.

(** [std::time::Instant] and durations, in nanoseconds. *)
Abbreviation Instant := Z.

Class IdSource := new_v4 : nat -> Uuid.

(** ** Deliveries *)

Inductive BrokerError : Type :=
| Duplicate (key : string)
| UnknownDelivery (delivery : Uuid).

(** [BrokerMessage], [ResultMessage], [WakeMessage] and [IngressMessage] differ in their payload. *)
Record Message (P : Type) : Type := mk_message {
  msg_command : P;
  msg_dedupe_key : option string;
  msg_enqueued_at : DateTime
}.
Arguments mk_message {P}.
Arguments msg_command {P}.
Arguments msg_dedupe_key {P}.
Arguments msg_enqueued_at {P}.

(** [BrokerDelivery], [ResultDelivery], [WakeDelivery] and [IngressDelivery]. *)
Record Delivery (P : Type) : Type := mk_delivery {
  delivery_id : Uuid;
  command : P;
  dedupe_key : string;
  enqueued_at : DateTime
}.
Arguments mk_delivery {P}.
Arguments delivery_id {P}.
Arguments command {P}.
Arguments dedupe_key {P}.
Arguments enqueued_at {P}.

Record ControlDelivery : Type := mk_control_delivery {
  control_delivery_id : Uuid;
  control_command : ControlCommand;
  control_enqueued_at : DateTime
}.

(** The key of a payload whose message names none, as [publish] computes it and the
    delivery records it.  [command_digest] hashes the JSON text of the command, where the
    entries of its [HashMap] of trace contexts come in enumeration order: two equal
    commands may have different digests, so the digest stands for the text that was
    hashed.  The theorems only use the recorded key. *)
Class Keyable (P : Type) := default_key : P -> string.
#[export] Instance action_key `{CommExternals} : Keyable ActionCommand := command_digest.
#[export] Instance result_key `{CommExternals} : Keyable WorkflowResultEvent := fun e => uuid_text (event_id e).
#[export] Instance wake_key `{CommExternals} : Keyable WakeCommand := wake_dedupe_key.
#[export] Instance ingress_key `{CommExternals} : Keyable WsIngressCommand := ingress_dedupe_key.

Definition dedupe_key_or_hash `{Keyable P} (m : Message P) : string :=
  match msg_dedupe_key m with Some key => key | None => default_key (msg_command m) end.

Definition delivery_of `{Keyable P} (id : Uuid) (m : Message P) : Delivery P :=
  mk_delivery id (msg_command m) (dedupe_key_or_hash m) (msg_enqueued_at m).

(** What the channels ask of a delivery: an id, and the copy with another id. *)
Class Deliverable (D : Type) := {
  id_of : D -> Uuid;
  redeliver : Uuid -> D -> D;
  id_of_redeliver u d : id_of (redeliver u d) = u;
  redeliver_redeliver u w d : redeliver u (redeliver w d) = redeliver u d;
  redeliver_id_of d : redeliver (id_of d) d = d
}.

#[export] Instance delivery_deliverable P : Deliverable (Delivery P).
Proof.
  refine {| id_of := delivery_id; redeliver u d := mk_delivery u (command d) (dedupe_key d) (enqueued_at d) |}; try done.
  by intros [].
Defined.

#[export] Instance control_deliverable : Deliverable ControlDelivery.
Proof.
  refine {| id_of := control_delivery_id;
            redeliver u d := mk_control_delivery u (control_command d) (control_enqueued_at d) |}; try done.
  by intros [].
Defined.

(** ** Lanes: a queue and its leases *)

Record Leased (D : Type) : Type := mk_leased { leased : D; leased_until : Instant }.
Arguments mk_leased {D}.
Arguments leased {D}.
Arguments leased_until {D}.

Record Lane (D : Type) : Type := mk_lane { queue : list D; inflight : gmap Uuid (Leased D) }.
Arguments mk_lane {D}.
Arguments queue {D}.
Arguments inflight {D}.

Section lane.
Context {IDS : IdSource} {D : Type} {DD : Deliverable D}.
Implicit Types (l : Lane D) (d : D) (n : nat).

Definition push_back d l : Lane D := mk_lane (queue l ++ [d]) (inflight l).
Definition push_front d l : Lane D := mk_lane (d :: queue l) (inflight l).

(** [inflight.iter()] enumerates [entries]. *)
Definition expired_ids (entries : list (Uuid * Leased D)) (now : Instant) : list Uuid :=
  omap (fun entry => if (leased_until entry.2 <=? now)%Z then Some entry.1 else None) entries.

(** The step of [reclaim_expired_actions], and of [nack]: take a lease off and put its
    delivery back in front, under a new id. *)
Definition requeue (id : Uuid) (ln : Lane D * nat) : Lane D * nat :=
  match inflight ln.1 !! id with
  | Some lease =>
      (mk_lane (redeliver (new_v4 ln.2) (leased lease) :: queue ln.1) (delete id (inflight ln.1)), S ln.2)
  | None => ln
  end.

Definition reclaim_expired (entries : list (Uuid * Leased D)) (now : Instant) (ln : Lane D * nat) : Lane D * nat :=
  foldl (fun ln id => requeue id ln) ln (expired_ids entries now).

Fixpoint position (p : D -> bool) (ds : list D) : option nat :=
  match ds with
  | [] => None
  | d :: ds => if p d then Some 0 else S <$> position p ds
  end.

(** [VecDeque::remove]. *)
Definition remove_at (i : nat) (ds : list D) : option (D * list D) :=
  match ds !! i with Some d => Some (d, take i ds ++ drop (S i) ds)%list | None => None end.

Definition lease d (until : Instant) (rest : list D) l : Lane D :=
  mk_lane rest (<[id_of d := mk_leased d until]> (inflight l)).

Definition lease_matching (p : D -> bool) (until : Instant) l : option D * Lane D :=
  match (i ← position p (queue l); remove_at i (queue l)) with
  | Some (d, rest) => (Some d, lease d until rest l)
  | None => (None, l)
  end.

Definition lease_head (until : Instant) l : option D * Lane D :=
  match queue l with
  | d :: rest => (Some d, lease d until rest l)
  | [] => (None, l)
  end.

Definition remove_lease (id : Uuid) l : result BrokerError (D * Lane D) :=
  match inflight l !! id with
  | Some leased_entry => Ok (leased leased_entry, mk_lane (queue l) (delete id (inflight l)))
  | None => Err (UnknownDelivery id)
  end.

Definition nack_lane (id : Uuid) (ln : Lane D * nat) : result BrokerError unit * (Lane D * nat) :=
  match inflight ln.1 !! id with
  | Some _ => (Ok tt, requeue id ln)
  | None => (Err (UnknownDelivery id), ln)
  end.
End lane.

(** What one receive reads from its surroundings: the enumeration of the leases, the
    clock when leases are reclaimed, the clock when the lease is taken, and the wall
    clock. *)
Record Surroundings (D : Type) : Type := mk_surroundings {
  entries : list (Uuid * Leased D);
  now : Instant;
  lease_now : Instant;
  utc_now : DateTime
}.
Arguments mk_surroundings {D}.
Arguments entries {D}.
Arguments now {D}.
Arguments lease_now {D}.
Arguments utc_now {D}.

(** ** Channels with dedupe keys *)

Record Channel (P : Type) : Type := mk_channel { lane : Lane (Delivery P); dedupe : gset string }.
Arguments mk_channel {P}.
Arguments lane {P}.
Arguments dedupe {P}.

Section channel.
Context {IDS : IdSource} {P : Type} {K : Keyable P}.
Implicit Types (ch : Channel P).

Definition with_lane (dedupe : gset string) (ln : Lane (Delivery P) * nat) : Channel P * nat :=
  (mk_channel ln.1 dedupe, ln.2).

Definition publish_channel (m : Message P) (chn : Channel P * nat) : result BrokerError unit * (Channel P * nat) :=
  let key := dedupe_key_or_hash m in
  if decide (key ∈ dedupe chn.1) then (Err (Duplicate key), chn)
  else (Ok tt, (mk_channel (push_back (delivery_of (new_v4 chn.2) m) (lane chn.1)) ({[key]} ∪ dedupe chn.1), S chn.2)).

(** One attempt of a receive that scans for a delivery accepted by [p]. *)
Definition receive_matching_channel (p : Delivery P -> bool) (duration : Z) (w : Surroundings (Delivery P))
    (chn : Channel P * nat) : option (Delivery P) * (Channel P * nat) :=
  let ln := reclaim_expired (entries w) (now w) (lane chn.1, chn.2) in
  let r := lease_matching p (lease_now w + duration)%Z ln.1 in
  (r.1, with_lane (dedupe chn.1) (r.2, ln.2)).

(** One attempt of a receive that takes the head. *)
Definition receive_head_channel (duration : Z) (w : Surroundings (Delivery P))
    (chn : Channel P * nat) : option (Delivery P) * (Channel P * nat) :=
  let ln := reclaim_expired (entries w) (now w) (lane chn.1, chn.2) in
  let r := lease_head (lease_now w + duration)%Z ln.1 in
  (r.1, with_lane (dedupe chn.1) (r.2, ln.2)).

Definition ack_channel (id : Uuid) (chn : Channel P * nat) : result BrokerError unit * (Channel P * nat) :=
  match remove_lease id (lane chn.1) with
  | Ok (d, l) => (Ok tt, (mk_channel l (dedupe chn.1 ∖ {[dedupe_key d]}), chn.2))
  | Err e => (Err e, chn)
  end.

Definition nack_channel (id : Uuid) (chn : Channel P * nat) : result BrokerError unit * (Channel P * nat) :=
  let r := nack_lane id (lane chn.1, chn.2) in (r.1, with_lane (dedupe chn.1) r.2).
End channel.

(** ** The control lane: no dedupe keys, but a time to live *)

Definition STALE_CONTROL_TTL_SECONDS : Z := 300.

(** [TimeDelta::num_seconds] of a difference in nanoseconds. *)
Definition num_seconds (nanoseconds : Z) : Z := Z.quot nanoseconds 1000000000.

Definition control_fresh (utc : DateTime) (d : ControlDelivery) : bool :=
  (num_seconds (utc - control_enqueued_at d) <? STALE_CONTROL_TTL_SECONDS)%Z.

Definition drop_stale_control (utc : DateTime) (l : Lane ControlDelivery) : Lane ControlDelivery :=
  mk_lane (List.filter (control_fresh utc) (queue l)) (inflight l).

Definition receive_control_matching `{IdSource} (p : ControlDelivery -> bool) (duration : Z)
    (w : Surroundings ControlDelivery) (ln : Lane ControlDelivery * nat)
    : option ControlDelivery * (Lane ControlDelivery * nat) :=
  let ln := reclaim_expired (entries w) (now w) ln in
  let r := lease_matching p (lease_now w + duration)%Z (drop_stale_control (utc_now w) ln.1) in
  (r.1, (r.2, ln.2)).

Definition ack_control_lane `{IdSource} (id : Uuid) (l : Lane ControlDelivery) : result BrokerError unit * Lane ControlDelivery :=
  match remove_lease id l with Ok (_, l') => (Ok tt, l') | Err e => (Err e, l) end.

(** ** The broker *)

(** [BrokerState], its fields grouped by channel, with the lease duration of the broker and
    the number of ids drawn so far. *)
Record Broker : Type := mk_broker {
  actions : Channel ActionCommand;
  controls : Lane ControlDelivery;
  results : Channel WorkflowResultEvent;
  wakes : Channel WakeCommand;
  ingress : Channel WsIngressCommand;
  lease_duration : Z;
  minted : nat
}.

Definition empty_lane {D} : Lane D := mk_lane [] ∅.
Definition empty_channel {P} : Channel P := mk_channel empty_lane ∅.

Definition with_lease_duration (duration : Z) : Broker :=
  mk_broker empty_channel empty_lane empty_channel empty_channel empty_channel duration 0.

(** [DEFAULT_LEASE_DURATION]: 30 seconds. *)
Definition DEFAULT_LEASE_DURATION : Z := 30000000000.
Definition broker_new : Broker := with_lease_duration DEFAULT_LEASE_DURATION.

Definition set_actions (b : Broker) (c : Channel ActionCommand * nat) : Broker :=
  mk_broker c.1 (controls b) (results b) (wakes b) (ingress b) (lease_duration b) c.2.
Definition set_controls (b : Broker) (c : Lane ControlDelivery * nat) : Broker :=
  mk_broker (actions b) c.1 (results b) (wakes b) (ingress b) (lease_duration b) c.2.
Definition set_results (b : Broker) (c : Channel WorkflowResultEvent * nat) : Broker :=
  mk_broker (actions b) (controls b) c.1 (wakes b) (ingress b) (lease_duration b) c.2.
Definition set_wakes (b : Broker) (c : Channel WakeCommand * nat) : Broker :=
  mk_broker (actions b) (controls b) (results b) c.1 (ingress b) (lease_duration b) c.2.
Definition set_ingress (b : Broker) (c : Channel WsIngressCommand * nat) : Broker :=
  mk_broker (actions b) (controls b) (results b) (wakes b) c.1 (lease_duration b) c.2.

Section methods.
Context {IDS : IdSource} {CE : CommExternals}.
Implicit Types (b : Broker) (id : Uuid).

Definition publish (m : Message ActionCommand) b : result BrokerError unit * Broker :=
  let r := publish_channel m (actions b, minted b) in (r.1, set_actions b r.2).

Definition receive_for (profile : ConsumerProfile) (w : Surroundings (Delivery ActionCommand)) b
    : option (Delivery ActionCommand) * Broker :=
  let r := receive_matching_channel (fun d => target_matches (action_target (command d)) profile)
             (lease_duration b) w (actions b, minted b) in (r.1, set_actions b r.2).

Definition receive (consumer : string) (w : Surroundings (Delivery ActionCommand)) b
    : option (Delivery ActionCommand) * Broker := receive_for (shared consumer) w b.

Definition ack id b : result BrokerError unit * Broker :=
  let r := ack_channel id (actions b, minted b) in (r.1, set_actions b r.2).
Definition nack id b : result BrokerError unit * Broker :=
  let r := nack_channel id (actions b, minted b) in (r.1, set_actions b r.2).

(** The control's time of arrival is the wall clock at its publication. *)
Definition publish_control (c : ControlCommand) (utc : DateTime) b : result BrokerError unit * Broker :=
  (Ok tt, set_controls b (push_back (mk_control_delivery (new_v4 (minted b)) c utc) (controls b), S (minted b))).

Definition receive_control (w : Surroundings ControlDelivery) b : option ControlDelivery * Broker :=
  let r := receive_control_matching (fun _ => true) (lease_duration b) w (controls b, minted b) in
  (r.1, set_controls b r.2).

Definition receive_control_for (profile : ConsumerProfile) (w : Surroundings ControlDelivery) b
    : option ControlDelivery * Broker :=
  let r := receive_control_matching (fun d => target_matches (control_target (control_command d)) profile)
             (lease_duration b) w (controls b, minted b) in (r.1, set_controls b r.2).

Definition ack_control id b : result BrokerError unit * Broker :=
  let r := ack_control_lane id (controls b) in (r.1, set_controls b (r.2, minted b)).
Definition nack_control id b : result BrokerError unit * Broker :=
  let r := nack_lane id (controls b, minted b) in (r.1, set_controls b r.2).

Definition publish_result (m : Message WorkflowResultEvent) b : result BrokerError unit * Broker :=
  let r := publish_channel m (results b, minted b) in (r.1, set_results b r.2).
Definition receive_result (w : Surroundings (Delivery WorkflowResultEvent)) b : option (Delivery WorkflowResultEvent) * Broker :=
  let r := receive_head_channel (lease_duration b) w (results b, minted b) in (r.1, set_results b r.2).
Definition ack_result id b : result BrokerError unit * Broker :=
  let r := ack_channel id (results b, minted b) in (r.1, set_results b r.2).
Definition nack_result id b : result BrokerError unit * Broker :=
  let r := nack_channel id (results b, minted b) in (r.1, set_results b r.2).

Definition publish_wake (m : Message WakeCommand) b : result BrokerError unit * Broker :=
  let r := publish_channel m (wakes b, minted b) in (r.1, set_wakes b r.2).
Definition receive_wake (w : Surroundings (Delivery WakeCommand)) b : option (Delivery WakeCommand) * Broker :=
  let r := receive_head_channel (lease_duration b) w (wakes b, minted b) in (r.1, set_wakes b r.2).
Definition ack_wake id b : result BrokerError unit * Broker :=
  let r := ack_channel id (wakes b, minted b) in (r.1, set_wakes b r.2).
Definition nack_wake id b : result BrokerError unit * Broker :=
  let r := nack_channel id (wakes b, minted b) in (r.1, set_wakes b r.2).

Definition publish_ingress (m : Message WsIngressCommand) b : result BrokerError unit * Broker :=
  let r := publish_channel m (ingress b, minted b) in (r.1, set_ingress b r.2).
Definition receive_ingress (w : Surroundings (Delivery WsIngressCommand)) b : option (Delivery WsIngressCommand) * Broker :=
  let r := receive_head_channel (lease_duration b) w (ingress b, minted b) in (r.1, set_ingress b r.2).
Definition ack_ingress id b : result BrokerError unit * Broker :=
  let r := ack_channel id (ingress b, minted b) in (r.1, set_ingress b r.2).
Definition nack_ingress id b : result BrokerError unit * Broker :=
  let r := nack_channel id (ingress b, minted b) in (r.1, set_ingress b r.2).

(** ** Executions

    One method call.  The enumeration a receive reads is one of the leases of its
    channel; the clocks are unconstrained. *)
Definition enumerates {D} (w : Surroundings D) (l : Lane D) : Prop := entries w ≡ₚ map_to_list (inflight l).

Inductive step b : Broker -> Prop :=
| step_publish m : step b (publish m b).2
| step_receive_for profile w : enumerates w (lane (actions b)) -> step b (receive_for profile w b).2
| step_ack id : step b (ack id b).2
| step_nack id : step b (nack id b).2
| step_publish_control c utc : step b (publish_control c utc b).2
| step_receive_control w : enumerates w (controls b) -> step b (receive_control w b).2
| step_receive_control_for profile w : enumerates w (controls b) -> step b (receive_control_for profile w b).2
| step_ack_control id : step b (ack_control id b).2
| step_nack_control id : step b (nack_control id b).2
| step_publish_result m : step b (publish_result m b).2
| step_receive_result w : enumerates w (lane (results b)) -> step b (receive_result w b).2
| step_ack_result id : step b (ack_result id b).2
| step_nack_result id : step b (nack_result id b).2
| step_publish_wake m : step b (publish_wake m b).2
| step_receive_wake w : enumerates w (lane (wakes b)) -> step b (receive_wake w b).2
| step_ack_wake id : step b (ack_wake id b).2
| step_nack_wake id : step b (nack_wake id b).2
| step_publish_ingress m : step b (publish_ingress m b).2
| step_receive_ingress w : enumerates w (lane (ingress b)) -> step b (receive_ingress w b).2
| step_ack_ingress id : step b (ack_ingress id b).2
| step_nack_ingress id : step b (nack_ingress id b).2.

Definition reachable b : Prop := exists duration, rtc step (with_lease_duration duration) b.
End methods.

(** ** What a lane holds *)

Definition contents {D} (l : Lane D) : list D := queue l ++ map (fun e => leased e.2) (map_to_list (inflight l)).

(** The deliveries without their ids. *)
Definition bodies `{Deliverable D} (l : Lane D) : list D := map (redeliver 0%Z) (contents l).

Section lane_facts.
Context {IDS : IdSource} {D : Type} {DD : Deliverable D}.
Implicit Types (l : Lane D) (d : D) (n : nat).

(** [Uuid::new_v4] does not repeat ids. *)
Hypothesis new_v4_inj : forall i j, new_v4 i = new_v4 j -> i = j.

(** The invariant of a lane: leases are filed under the id of their delivery, every id was
    drawn, and no id is held twice. *)
Record lane_ok (ln : Lane D * nat) : Prop := {
  ok_filed : forall id x, inflight ln.1 !! id = Some x -> id_of (leased x) = id;
  ok_drawn : forall d, In d (contents ln.1) -> exists k, k < ln.2 /\ id_of d = new_v4 k;
  ok_distinct : NoDup (map id_of (contents ln.1))
}.

Definition holds (l : Lane D) (id : Uuid) : Prop := In id (map id_of (contents l)).

(** Ids are only added by drawing them. *)
Definition ids_grow (a b : Lane D * nat) : Prop :=
  a.2 <= b.2 /\ forall id, holds b.1 id -> holds a.1 id \/ exists k, a.2 <= k < b.2 /\ id = new_v4 k.

Lemma ids_grow_refl a : ids_grow a a.
Proof. split; [done|]. by left. Qed.

Lemma ids_grow_trans a b c : ids_grow a b -> ids_grow b c -> ids_grow a c.
Proof.
  intros [Hn Hab] [Hm Hbc]. split; [lia|]. intros id [H|(k & Hk & ->)]%Hbc.
  - destruct (Hab id H) as [|(k & Hk & ->)]; [by left|]. right. exists k. split; [lia|done].
  - right. exists k. split; [lia|done].
Qed.

Lemma contents_remove l id x : inflight l !! id = Some x ->
  leased x :: contents (mk_lane (queue l) (delete id (inflight l))) ≡ₚ contents l.
Proof.
  intros H. unfold contents. cbn. rewrite <- (map_to_list_delete _ _ _ H). cbn. apply Permutation_middle.
Qed.

Lemma contents_lease l d until rest : inflight l !! id_of d = None -> queue l ≡ₚ d :: rest ->
  contents (lease d until rest l) ≡ₚ contents l.
Proof.
  intros Hn Hq. unfold contents, lease. cbn. rewrite map_to_list_insert by done. rewrite Hq. cbn.
  symmetry. apply Permutation_middle.
Qed.

Lemma inflight_contents l id x : inflight l !! id = Some x -> In (leased x) (contents l).
Proof. intros H. apply (Permutation_in _ (contents_remove l id x H)). by left. Qed.

Lemma inflight_holds l n id x : lane_ok (l, n) -> inflight l !! id = Some x -> holds l id.
Proof.
  intros Hok H. rewrite <- (ok_filed _ Hok id x H). apply in_map. by eapply inflight_contents.
Qed.

Lemma not_held_not_leased l n id : lane_ok (l, n) -> ~ holds l id -> inflight l !! id = None.
Proof. intros Hok H. destruct (inflight l !! id) eqn:E; [|done]. destruct H. by eapply inflight_holds. Qed.

Lemma fresh_not_held l n k : lane_ok (l, n) -> n <= k -> ~ holds l (new_v4 k).
Proof.
  intros Hok Hk. unfold holds. rewrite in_map_iff. intros (d & Hd & Hin).
  destruct (ok_drawn _ Hok d Hin) as (j & Hj & Hdj). cbn in Hj. rewrite Hd in Hdj. apply new_v4_inj in Hdj. lia.
Qed.

(** A queued delivery is not leased. *)
Lemma queued_not_leased l n d : lane_ok (l, n) -> In d (queue l) -> inflight l !! id_of d = None.
Proof.
  intros Hok Hd. destruct (inflight l !! id_of d) as [x|] eqn:E; [|done]. exfalso.
  pose proof (ok_filed _ Hok _ _ E) as Hid. pose proof (ok_distinct _ Hok) as Hnd. cbn in Hnd.
  rewrite <- (contents_remove _ _ _ E) in Hnd. cbn in Hnd. apply list.NoDup_cons in Hnd as [Hnin _]. apply Hnin.
  rewrite Hid. apply list_elem_of_In. apply in_map. unfold contents. apply in_app_iff. by left.
Qed.

(** The same contents, or the contents without some, satisfy the invariant. *)
Lemma lane_ok_smaller l l' n extra : lane_ok (l, n) -> extra ++ contents l' ≡ₚ contents l ->
  (forall id x, inflight l' !! id = Some x -> id_of (leased x) = id) -> lane_ok (l', n) /\ ids_grow (l, n) (l', n).
Proof.
  intros Hok Hc Hf. split; [constructor|split]; cbn.
  - exact Hf.
  - intros d Hd. apply (ok_drawn _ Hok). apply (Permutation_in _ Hc). apply in_app_iff. by right.
  - pose proof (ok_distinct _ Hok) as Hnd. cbn in Hnd. rewrite <- Hc, map_app in Hnd. by apply list.NoDup_app in Hnd as (_ & _ & ?).
  - done.
  - intros id Hid. left. unfold holds in *. apply in_map_iff in Hid as (d & <- & Hd). apply in_map.
    apply (Permutation_in _ Hc). apply in_app_iff. by right.
Qed.

(** Drawing an id for a delivery that is added or put back. *)
Lemma lane_ok_draw l l' n d : lane_ok (l, n) -> contents l' ≡ₚ redeliver (new_v4 n) d :: contents l ->
  inflight l' = inflight l -> lane_ok (l', S n) /\ ids_grow (l, n) (l', S n).
Proof.
  intros Hok Hc Hf. split; [constructor|split]; cbn.
  - rewrite Hf. apply (ok_filed _ Hok).
  - intros x Hx. apply (Permutation_in _ Hc) in Hx as [<-|Hx]; [exists n; split; [lia|apply id_of_redeliver]|].
    destruct (ok_drawn _ Hok x Hx) as (k & Hk & ->). cbn in Hk. exists k. split; [lia|done].
  - rewrite Hc. cbn. rewrite id_of_redeliver. apply list.NoDup_cons. split; [|apply (ok_distinct _ Hok)].
    intros Hin%list_elem_of_In. by apply (fresh_not_held l n n Hok).
  - lia.
  - intros id Hid. unfold holds in *. rewrite Hc in Hid. cbn in Hid. rewrite id_of_redeliver in Hid.
    destruct Hid as [<-|]; [right; exists n; split; [lia|done]|by left].
Qed.

Lemma body_redeliver u d : redeliver 0%Z (redeliver u d) = redeliver 0%Z d.
Proof. apply redeliver_redeliver. Qed.

Lemma lane_ok_push_back l n d : lane_ok (l, n) ->
  lane_ok (push_back (redeliver (new_v4 n) d) l, S n) /\
  ids_grow (l, n) (push_back (redeliver (new_v4 n) d) l, S n).
Proof.
  intros Hok. apply (lane_ok_draw l _ n d Hok); [|done]. unfold contents, push_back. cbn.
  rewrite <- app_assoc. symmetry. apply Permutation_middle.
Qed.

Lemma lane_ok_remove l n id x : lane_ok (l, n) -> inflight l !! id = Some x ->
  let l' := mk_lane (queue l) (delete id (inflight l)) in lane_ok (l', n) /\ ids_grow (l, n) (l', n).
Proof.
  intros Hok H. apply (lane_ok_smaller l _ n [leased x] Hok); [by apply contents_remove|].
  cbn. intros j y Hy. apply lookup_delete_Some in Hy as [_ Hy]. by apply (ok_filed _ Hok).
Qed.

(** What every operation on leases and queue does: keep the invariant, add ids only by
    drawing them, and keep the bodies. *)
Record lane_moves (a b : Lane D * nat) : Prop := {
  moves_ok : lane_ok b;
  moves_ids : ids_grow a b;
  moves_bodies : bodies b.1 ≡ₚ bodies a.1
}.

Lemma lane_moves_refl a : lane_ok a -> lane_moves a a.
Proof. intros H. split; [done|apply ids_grow_refl|done]. Qed.

Lemma lane_moves_trans a b c : lane_moves a b -> (lane_ok b -> lane_moves b c) -> lane_moves a c.
Proof.
  intros [Hok Hi Hb] H. destruct (H Hok) as [Hok' Hi' Hb']. split; [done|by eapply ids_grow_trans|by rewrite Hb'].
Qed.

Lemma requeue_moves id ln : lane_ok ln -> lane_moves ln (requeue id ln).
Proof.
  destruct ln as [l n]. intros Hok. unfold requeue. cbn [fst snd].
  destruct (inflight l !! id) as [x|] eqn:E; [|by apply lane_moves_refl].
  destruct (lane_ok_remove l n id x Hok E) as [Hok1 Hi1].
  destruct (lane_ok_draw _ (mk_lane (redeliver (new_v4 n) (leased x) :: queue l) (delete id (inflight l))) n (leased x) Hok1)
    as [Hok2 Hi2]; [done|done|].
  split; [done|by eapply ids_grow_trans|]. unfold bodies. cbn [fst].
  rewrite <- (contents_remove l id x E). cbn. by rewrite body_redeliver.
Qed.

Lemma requeue_lookup id j ln :
  inflight (requeue id ln).1 !! j = if decide (id = j) then None else inflight ln.1 !! j.
Proof.
  unfold requeue. destruct (inflight ln.1 !! id) as [x|] eqn:E; cbn.
  - destruct (decide (id = j)) as [<-|Hn]; [apply lookup_delete_eq|by apply lookup_delete_ne].
  - by destruct (decide (id = j)) as [<-|Hn].
Qed.

Lemma requeue_queue id ln : exists front, queue (requeue id ln).1 = (front ++ queue ln.1)%list.
Proof. unfold requeue. destruct (inflight ln.1 !! id); cbn; [by eexists [_]|by exists []]. Qed.

Lemma requeue_all_moves ids ln : lane_ok ln -> lane_moves ln (foldl (fun ln id => requeue id ln) ln ids).
Proof.
  revert ln. induction ids as [|id ids IH]; intros ln Hok; cbn [foldl]; [by apply lane_moves_refl|].
  eapply lane_moves_trans; [by apply requeue_moves|]. intros Hok'. by apply IH.
Qed.

Lemma requeue_all_lookup ids ln j :
  inflight (foldl (fun ln id => requeue id ln) ln ids).1 !! j = if decide (j ∈ ids) then None else inflight ln.1 !! j.
Proof.
  revert ln. induction ids as [|id ids IH]; intros ln; cbn [foldl].
  - destruct (decide (j ∈ [])) as [H|]; [by apply list.not_elem_of_nil in H|done].
  - rewrite IH, requeue_lookup. destruct (decide (j ∈ ids)), (decide (id = j)), (decide (j ∈ id :: ids)) as [H|H]; subst; try done.
    all: rewrite elem_of_cons in H; naive_solver.
Qed.

Lemma requeue_all_queue ids ln :
  exists front, queue (foldl (fun ln id => requeue id ln) ln ids).1 = (front ++ queue ln.1)%list.
Proof.
  revert ln. induction ids as [|id ids IH]; intros ln; cbn [foldl]; [by exists []|].
  destruct (IH (requeue id ln)) as (f & ->). destruct (requeue_queue id ln) as (g & ->). exists (f ++ g)%list.
  by rewrite app_assoc.
Qed.

Lemma expired_ids_spec (l : Lane D) (ents : list (Uuid * Leased D)) t id : ents ≡ₚ map_to_list (inflight l) ->
  id ∈ expired_ids ents t <-> exists x, inflight l !! id = Some x /\ (leased_until x <= t)%Z.
Proof.
  intros He. unfold expired_ids. rewrite list_elem_of_omap. split.
  - intros ([j x] & Hin & Hx). cbn in Hx. rewrite He in Hin. apply elem_of_map_to_list in Hin.
    destruct (Z.leb_spec (leased_until x) t); [|done]. injection Hx as ->. by exists x.
  - intros (x & Hx & Ht). exists (id, x). split; [by rewrite He; apply elem_of_map_to_list|].
    cbn. by destruct (Z.leb_spec (leased_until x) t); [|lia].
Qed.

(** After reclaiming, the leases are those that have not expired. *)
Lemma reclaim_lookup ents t ln id : ents ≡ₚ map_to_list (inflight ln.1) ->
  inflight (reclaim_expired ents t ln).1 !! id =
  match inflight ln.1 !! id with Some x => if (leased_until x <=? t)%Z then None else Some x | None => None end.
Proof.
  intros He. unfold reclaim_expired. rewrite requeue_all_lookup.
  destruct (decide _) as [H|H]; destruct (inflight ln.1 !! id) as [x|] eqn:E; try done.
  - apply (expired_ids_spec ln.1 ents t id He) in H as (y & Hy & Ht). rewrite E in Hy. injection Hy as <-.
    by destruct (Z.leb_spec (leased_until x) t); [|lia].
  - destruct (Z.leb_spec (leased_until x) t); [|done]. destruct H. apply (expired_ids_spec ln.1 ents t id He). by exists x.
Qed.

Lemma reclaim_moves ents t ln : lane_ok ln -> lane_moves ln (reclaim_expired ents t ln).
Proof. apply requeue_all_moves. Qed.

Lemma requeue_all_queued ids ln id x : id ∈ ids -> inflight ln.1 !! id = Some x ->
  exists u, In (redeliver u (leased x)) (queue (foldl (fun ln id => requeue id ln) ln ids).1).
Proof.
  revert ln. induction ids as [|j ids IH]; intros ln Hin E; [by apply not_elem_of_nil in Hin|]. cbn [foldl].
  destruct (decide (j = id)) as [->|Hne].
  - exists (new_v4 ln.2). destruct (requeue_all_queue ids (requeue id ln)) as (front & ->).
    apply in_app_iff. right. unfold requeue. rewrite E. by left.
  - apply elem_of_cons in Hin as [->|Hin]; [done|]. apply IH; [done|].
    rewrite requeue_lookup. by destruct (decide (j = id)).
Qed.

Lemma requeue_not_held id x ln : lane_ok ln -> inflight ln.1 !! id = Some x -> ~ holds (requeue id ln).1 id.
Proof.
  intros Hok E. unfold requeue, holds. rewrite E. cbn. rewrite id_of_redeliver. intros Hin.
  pose proof (ok_distinct _ Hok) as Hnd. rewrite <- (contents_remove _ _ _ E) in Hnd. cbn in Hnd.
  apply list.NoDup_cons in Hnd as [Hnin _]. rewrite (ok_filed _ Hok _ _ E) in Hnin.
  destruct Hin as [Hn|Hin]; [|apply Hnin, list_elem_of_In; exact Hin].
  destruct ln as [l n]. apply (fresh_not_held l n n Hok); [done|]. cbn in Hn. rewrite Hn. by eapply inflight_holds.
Qed.

(** A drawn id that is not held is never held again. *)
Definition retired_id (ln : Lane D * nat) (id : Uuid) : Prop :=
  (exists k, k < ln.2 /\ id = new_v4 k) /\ ~ holds ln.1 id.

Lemma retired_id_grow a b id : retired_id a id -> ids_grow a b -> retired_id b id.
Proof.
  intros [(k & Hk & ->) Hn] [Hle Hg]. split; [exists k; split; [lia|done]|].
  intros [H|(j & Hj & He)]%Hg; [done|]. apply new_v4_inj in He. lia.
Qed.

Lemma requeue_retires id x ln : lane_ok ln -> inflight ln.1 !! id = Some x -> retired_id (requeue id ln) id.
Proof.
  intros Hok E. split; [|by eapply requeue_not_held].
  destruct (ok_drawn _ Hok _ (inflight_contents _ _ _ E)) as (k & Hk & Hid). exists k.
  rewrite (ok_filed _ Hok _ _ E) in Hid. split; [|done]. unfold requeue. rewrite E. cbn. lia.
Qed.

Lemma requeue_all_retires ids ln id x : lane_ok ln -> id ∈ ids -> inflight ln.1 !! id = Some x ->
  retired_id (foldl (fun ln id => requeue id ln) ln ids) id.
Proof.
  revert ln. induction ids as [|j ids IH]; intros ln Hok Hin E; [by apply not_elem_of_nil in Hin|]. cbn [foldl].
  destruct (requeue_moves j ln Hok) as [Hok' _ _].
  destruct (decide (j = id)) as [->|Hne].
  - destruct (requeue_all_moves ids (requeue id ln) Hok') as [_ Hg _].
    exact (retired_id_grow _ _ _ (requeue_retires id x ln Hok E) Hg).
  - apply elem_of_cons in Hin as [->|Hin]; [done|]. apply IH; [done|done|].
    rewrite requeue_lookup. by destruct (decide (j = id)).
Qed.

Lemma position_spec p (ds : list D) :
  match position p ds with
  | Some i => exists before d after, ds = (before ++ d :: after)%list /\ length before = i /\ p d = true /\
                forall x, In x before -> p x = false
  | None => forall x, In x ds -> p x = false
  end.
Proof.
  induction ds as [|d ds IH]; cbn; [done|]. destruct (p d) eqn:Hd; [by exists [], d, ds|].
  destruct (position p ds) as [i|]; cbn.
  - destruct IH as (before & x & after & -> & <- & Hx & Hb). exists (d :: before), x, after.
    repeat (split; [done|]). intros y [<-|Hy]; [done|by apply Hb].
  - intros x [<-|Hx]; [done|by apply IH].
Qed.

(** The scan takes the first match and leaves the rest in order. *)
Lemma lease_matching_spec p until l :
  match lease_matching p until l with
  | (Some d, l') => exists before after, queue l = (before ++ d :: after)%list /\ p d = true /\
      (forall x, In x before -> p x = false) /\ l' = lease d until (before ++ after) l
  | (None, l') => l' = l /\ forall x, In x (queue l) -> p x = false
  end.
Proof.
  unfold lease_matching. pose proof (position_spec p (queue l)) as Hp.
  destruct (position p (queue l)) as [i|]; [|by cbn].
  destruct Hp as (before & d & after & Hq & <- & Hd & Hb).
  assert (remove_at (length before) (queue l) = Some (d, before ++ after)%list) as Hr.
  { unfold remove_at. rewrite Hq, list_lookup_middle by done. f_equal. f_equal.
    rewrite take_app_length. f_equal. by rewrite (cons_middle d before after), app_assoc, drop_app_length'
      by (rewrite length_app; cbn; lia). }
  cbn. rewrite Hr. by exists before, after.
Qed.

Lemma lease_head_matching until l : lease_head until l = lease_matching (fun _ => true) until l.
Proof. unfold lease_head, lease_matching. destruct (queue l) as [|d rest]; [done|]. cbn. by rewrite drop_0. Qed.

Lemma lease_moves l n d before after until : lane_ok (l, n) -> queue l = (before ++ d :: after)%list ->
  lane_moves (l, n) (lease d until (before ++ after) l, n).
Proof.
  intros Hok Hq.
  assert (Hperm : queue l ≡ₚ d :: (before ++ after)%list) by (rewrite Hq; symmetry; apply Permutation_middle).
  assert (Hnone : inflight l !! id_of d = None).
  { apply (queued_not_leased l n d Hok). rewrite Hq. apply in_app_iff. right. by left. }
  assert (Hc := contents_lease l d until (before ++ after) Hnone Hperm).
  destruct (lane_ok_smaller l (lease d until (before ++ after) l) n [] Hok) as [Hok' Hi]; [done| |].
  - cbn. intros id x [[<- <-]|[_ Hx]]%lookup_insert_Some; [done|by apply (ok_filed _ Hok)].
  - split; [done|done|]. cbn. unfold bodies. by rewrite Hc.
Qed.

Lemma lease_matching_moves p until ln : lane_ok ln ->
  lane_moves ln ((lease_matching p until ln.1).2, ln.2).
Proof.
  destruct ln as [l n]. intros Hok. cbn. pose proof (lease_matching_spec p until l) as H.
  destruct (lease_matching p until l) as [[d|] l']; cbn.
  - destruct H as (before & after & Hq & _ & _ & ->). by apply lease_moves.
  - destruct H as [-> _]. by apply lane_moves_refl.
Qed.
End lane_facts.

Lemma contents_empty {D} : contents (@empty_lane D) = [].
Proof. done. Qed.

Lemma lane_ok_empty {IDS : IdSource} {D} `{Deliverable D} n : lane_ok (@empty_lane D, n).
Proof.
  split; cbn [fst snd]; rewrite ?contents_empty; cbn [map]; [|done|constructor].
  intros id x E. cbn in E. by rewrite lookup_empty in E.
Qed.

(** ** Channels *)

Section channel_facts.
Context {IDS : IdSource} {P : Type} {K : Keyable P}.
Hypothesis new_v4_inj : forall i j, new_v4 i = new_v4 j -> i = j.
Implicit Types (chn : Channel P * nat).

(** The invariant of a channel: its lane's, and the dedupe keys are exactly those of what
    is undelivered, each held once. *)
Record channel_ok chn : Prop := {
  ok_lane : lane_ok (lane chn.1, chn.2);
  ok_keys : NoDup (map dedupe_key (contents (lane chn.1)));
  ok_dedupe : forall key, key ∈ dedupe chn.1 <-> In key (map dedupe_key (contents (lane chn.1)))
}.

(** One method call on a channel: what it accepts, what it settles (acknowledges), and the
    channel afterwards.  Ids may be drawn for other channels in between. *)
Inductive channel_step chn : list (Delivery P) -> list (Delivery P) -> Channel P * nat -> Prop :=
| cs_publish m : (publish_channel m chn).1 = Ok tt ->
    channel_step chn [delivery_of 0%Z m] [] (publish_channel m chn).2
| cs_duplicate m e : (publish_channel m chn).1 = Err e -> channel_step chn [] [] (publish_channel m chn).2
| cs_receive p duration w : enumerates w (lane chn.1) ->
    channel_step chn [] [] (receive_matching_channel p duration w chn).2
| cs_receive_head duration w : enumerates w (lane chn.1) ->
    channel_step chn [] [] (receive_head_channel duration w chn).2
| cs_ack id x : inflight (lane chn.1) !! id = Some x ->
    channel_step chn [] [redeliver 0%Z (leased x)] (ack_channel id chn).2
| cs_ack_unknown id : inflight (lane chn.1) !! id = None -> channel_step chn [] [] (ack_channel id chn).2
| cs_nack id : channel_step chn [] [] (nack_channel id chn).2
| cs_other n : chn.2 <= n -> channel_step chn [] [] (chn.1, n).

(** A sequence of calls, with everything accepted and settled along it. *)
Inductive channel_run : Channel P * nat -> list (Delivery P) -> list (Delivery P) -> Channel P * nat -> Prop :=
| run_done chn : channel_run chn [] [] chn
| run_step chn a s chn' a' s' chn'' :
    channel_step chn a s chn' -> channel_run chn' a' s' chn'' -> channel_run chn (a ++ a') (s ++ s') chn''.

Lemma bodies_keys (l : Lane (Delivery P)) : map dedupe_key (bodies l) = map dedupe_key (contents l).
Proof. unfold bodies. rewrite map_map. by apply map_ext. Qed.

(** Moving deliveries between queue and leases keeps the invariant of the channel. *)
Lemma channel_ok_moves chn l n : channel_ok chn -> lane_moves (lane chn.1, chn.2) (l, n) ->
  channel_ok (mk_channel l (dedupe chn.1), n).
Proof.
  intros [Hl Hk Hd] [Hok _ Hb]. cbn in Hb.
  assert (Hkeys : map dedupe_key (contents l) ≡ₚ map dedupe_key (contents (lane chn.1))).
  { rewrite <- !bodies_keys. by rewrite Hb. }
  split; cbn; [done|by rewrite Hkeys|]. intros key. rewrite Hd. split; apply Permutation_in; by rewrite Hkeys.
Qed.

Lemma receive_moves p duration w chn : channel_ok chn ->
  lane_moves (lane chn.1, chn.2) (lane (receive_matching_channel p duration w chn).2.1, (receive_matching_channel p duration w chn).2.2).
Proof.
  intros Hok. unfold receive_matching_channel. cbn.
  eapply lane_moves_trans; [apply (reclaim_moves new_v4_inj (entries w) (now w)), Hok|].
  intros Hok'. by apply lease_matching_moves.
Qed.

Lemma receive_head_matching duration w chn :
  receive_head_channel duration w chn = receive_matching_channel (fun _ => true) duration w chn.
Proof. unfold receive_head_channel, receive_matching_channel. by rewrite lease_head_matching. Qed.

Lemma nack_moves id chn : channel_ok chn ->
  lane_moves (lane chn.1, chn.2) (lane (nack_channel id chn).2.1, (nack_channel id chn).2.2).
Proof.
  intros Hok. unfold nack_channel, nack_lane. cbn. destruct (inflight (lane chn.1) !! id); cbn.
  - rewrite <- surjective_pairing. apply (requeue_moves new_v4_inj), Hok.
  - apply lane_moves_refl, Hok.
Qed.

Lemma publish_ok m chn : channel_ok chn -> dedupe_key_or_hash m ∉ dedupe chn.1 ->
  let l' := push_back (delivery_of (new_v4 chn.2) m) (lane chn.1) in
  channel_ok (mk_channel l' ({[dedupe_key_or_hash m]} ∪ dedupe chn.1), S chn.2) /\
  ids_grow (lane chn.1, chn.2) (l', S chn.2) /\ bodies l' ≡ₚ delivery_of 0%Z m :: bodies (lane chn.1).
Proof.
  intros [Hl Hk Hd] Hnew.
  destruct (lane_ok_push_back new_v4_inj (lane chn.1) chn.2 (delivery_of 0%Z m) Hl) as [Hok Hi].
  assert (Hc : contents (push_back (delivery_of (new_v4 chn.2) m) (lane chn.1))
               ≡ₚ delivery_of (new_v4 chn.2) m :: contents (lane chn.1)).
  { unfold contents, push_back. cbn. rewrite <- app_assoc. symmetry. apply Permutation_middle. }
  split; [split; cbn; [exact Hok| |]|split; [exact Hi|unfold bodies; by rewrite Hc]].
  - rewrite Hc. cbn. apply list.NoDup_cons. split; [|done]. intros Hin%list_elem_of_In. by apply Hnew, Hd.
  - intros key. rewrite elem_of_union, elem_of_singleton, Hd. split.
    + intros Hx. apply (Permutation_in key (l := map dedupe_key (delivery_of (new_v4 chn.2) m :: contents (lane chn.1))));
        [by rewrite Hc|]. cbn. destruct Hx as [->|Hx]; [by left|by right].
    + intros Hx. assert (In key (map dedupe_key (delivery_of (new_v4 chn.2) m :: contents (lane chn.1)))) as [<-|Hy]
        by (eapply Permutation_in; [|exact Hx]; by rewrite Hc); [by left|by right].
Qed.

Lemma ack_ok id x chn : channel_ok chn -> inflight (lane chn.1) !! id = Some x ->
  let chn' := (ack_channel id chn).2 in
  channel_ok chn' /\ ids_grow (lane chn.1, chn.2) (lane chn'.1, chn'.2) /\
  redeliver 0%Z (leased x) :: bodies (lane chn'.1) ≡ₚ bodies (lane chn.1).
Proof.
  intros [Hl Hk Hd] E. unfold ack_channel, remove_lease. rewrite E. cbn.
  destruct (lane_ok_remove _ _ _ _ Hl E) as [Hok Hi]. pose proof (contents_remove _ _ _ E) as Hc.
  split; [split; cbn; [exact Hok| |]|split; [exact Hi|]].
  - rewrite <- Hc in Hk. cbn in Hk. by apply list.NoDup_cons in Hk as [_ Hk].
  - intros key. rewrite elem_of_difference, elem_of_singleton, Hd. rewrite <- Hc in Hk. cbn in Hk.
    apply list.NoDup_cons in Hk as [Hnin _]. split.
    + intros [Hin Hne]. assert (In key (map dedupe_key (leased x :: contents (mk_lane (queue (lane chn.1)) (delete id (inflight (lane chn.1)))))))
        as [He|?] by (eapply Permutation_in; [|exact Hin]; by rewrite Hc); [by destruct Hne|done].
    + intros Hin. split; [|intros ->; by apply Hnin, list_elem_of_In].
      eapply Permutation_in; [by rewrite <- Hc|]. by right.
  - unfold bodies. by rewrite <- Hc.
Qed.

(** Every call keeps the invariant, adds ids only by drawing them, and accounts for what it
    accepts and settles. *)
Lemma channel_step_sound chn a s chn' : channel_ok chn -> channel_step chn a s chn' ->
  channel_ok chn' /\ ids_grow (lane chn.1, chn.2) (lane chn'.1, chn'.2) /\
  s ++ bodies (lane chn'.1) ≡ₚ a ++ bodies (lane chn.1).
Proof.
  intros Hok Hstep.
  assert (Hmove : forall chn', lane_moves (lane chn.1, chn.2) (lane chn'.1, chn'.2) -> dedupe chn'.1 = dedupe chn.1 ->
    channel_ok chn' /\ ids_grow (lane chn.1, chn.2) (lane chn'.1, chn'.2) /\ bodies (lane chn'.1) ≡ₚ bodies (lane chn.1)).
  { intros [[l dd] n] Hm Hd. cbn in *. subst dd. split; [by apply channel_ok_moves|]. by destruct Hm. }
  destruct Hstep as [m Hp|m e Hp|p duration w _|duration w _|id x E|id E|id|n Hn]; cbn [app].
  - unfold publish_channel in *. destruct (decide _) as [|Hnew]; [done|]. cbn. by apply publish_ok.
  - unfold publish_channel in *. destruct (decide _) as [Hin|Hnew]; [|done]. cbn.
    split; [done|]. split; [apply ids_grow_refl|done].
  - by apply Hmove; [apply receive_moves|].
  - rewrite receive_head_matching. by apply Hmove; [apply receive_moves|].
  - by apply ack_ok.
  - unfold ack_channel, remove_lease. rewrite E. cbn. split; [done|]. split; [apply ids_grow_refl|done].
  - by apply Hmove; [apply nack_moves|].
  - destruct Hok as [[Hf Hdr Hnd] Hk Hd]. split; [split; cbn; [split; cbn; [done| |done]|done|done]|].
    + intros d Hin. destruct (Hdr d Hin) as (k & Hk' & He). cbn in Hk'. exists k. split; [lia|exact He].
    + split; [|done]. split; [done|]. by left.
Qed.

Lemma channel_ok_empty n : channel_ok (empty_channel, n).
Proof.
  split; [apply lane_ok_empty|..]; cbn [fst snd lane dedupe empty_channel]; rewrite ?contents_empty; cbn [map]; [constructor|].
  intros key. split; [|done]. intros H. by apply not_elem_of_empty in H.
Qed.

(** Every run from an empty channel keeps the invariant and accounts for everything. *)
Lemma channel_run_sound n accepted settled chn :
  channel_run (empty_channel, n) accepted settled chn ->
  accepted ≡ₚ (settled ++ bodies (lane chn.1))%list /\ channel_ok chn.
Proof.
  intros Hrun.
  assert (H : forall chn0, channel_run chn0 accepted settled chn -> channel_ok chn0 ->
    (accepted ++ bodies (lane chn0.1))%list ≡ₚ (settled ++ bodies (lane chn.1))%list /\ channel_ok chn).
  { clear Hrun. intros chn0 Hrun. induction Hrun as [chn|chn a s chn' a' s' chn'' Hs _ IH]; intros Hok; [done|].
    destruct (channel_step_sound _ _ _ _ Hok Hs) as (Hok' & _ & Hb). destruct (IH Hok') as [Hb' Hok'']. split; [|done].
    rewrite <- !app_assoc, <- Hb', <- (Permutation_app_swap_app a' s), Hb.
    rewrite !app_assoc. apply Permutation_app_tail, Permutation_app_comm. }
  destruct (H _ Hrun (channel_ok_empty n)) as [Hb Hok]. split; [|done].
  unfold bodies at 1 in Hb. cbn [fst lane empty_channel] in Hb. rewrite contents_empty in Hb. cbn in Hb.
  by rewrite app_nil_r in Hb.
Qed.

(** C1: at-least-once delivery: in every execution of a channel that starts empty,
    everything accepted is either settled (acknowledged once) or still held, queued or
    leased, with its payload, key and time of arrival; nothing else is held, and nothing
    is held twice.  Leases, expiries, negative acknowledgements and redeliveries lose
    and duplicate nothing. *)
Theorem at_least_once n accepted settled chn :
  channel_run (empty_channel, n) accepted settled chn ->
  accepted ≡ₚ (settled ++ bodies (lane chn.1))%list /\ NoDup (map dedupe_key (bodies (lane chn.1))).
Proof.
  intros Hrun. destruct (channel_run_sound _ _ _ _ Hrun) as [Hb Hok]. split; [done|]. rewrite bodies_keys. apply Hok.
Qed.

(** C38: publication is rejected exactly while a delivery with the same key is queued or
    leased, naming the key and changing nothing; otherwise the message goes to the back
    of the queue under a fresh id and its key becomes taken. *)
Theorem publish_dedupes m chn : channel_ok chn ->
  let key := dedupe_key_or_hash m in
  if decide (key ∈ map dedupe_key (contents (lane chn.1))) then
    publish_channel m chn = (Err (Duplicate key), chn)
  else
    exists ch', publish_channel m chn = (Ok tt, (ch', S chn.2)) /\
      queue (lane ch') = (queue (lane chn.1) ++ [delivery_of (new_v4 chn.2) m])%list /\
      inflight (lane ch') = inflight (lane chn.1) /\ ~ holds (lane chn.1) (new_v4 chn.2) /\
      forall m', dedupe_key_or_hash m' = key -> publish_channel m' (ch', S chn.2) = (Err (Duplicate key), (ch', S chn.2)).
Proof.
  intros Hok key. unfold publish_channel. fold key.
  destruct (decide (key ∈ map _ _)) as [Hin|Hnin], (decide (key ∈ dedupe chn.1)) as [Hd|Hd]; try done.
  - destruct Hd. by apply (ok_dedupe _ Hok), list_elem_of_In.
  - destruct Hnin. by apply list_elem_of_In, (ok_dedupe _ Hok).
  - eexists. split; [done|]. repeat (split; [done|]). split; [by apply (fresh_not_held new_v4_inj (lane chn.1) chn.2 chn.2 (ok_lane _ Hok))|].
    intros m' ->. cbn. destruct (decide _) as [|Hn]; [done|]. destruct Hn. set_solver.
Qed.

(** How the lease of [id] ends. *)
Inductive lease_ends chn (id : Uuid) : Channel P * nat -> Prop :=
| ends_ack : lease_ends chn id (ack_channel id chn).2
| ends_nack : lease_ends chn id (nack_channel id chn).2
| ends_expiry p duration w x : inflight (lane chn.1) !! id = Some x -> (leased_until x <= now w)%Z ->
    enumerates w (lane chn.1) -> lease_ends chn id (receive_matching_channel p duration w chn).2.

Lemma lease_ends_retired chn id x chn' : channel_ok chn -> inflight (lane chn.1) !! id = Some x ->
  lease_ends chn id chn' -> channel_ok chn' /\ retired_id (lane chn'.1, chn'.2) id.
Proof.
  intros Hok E [| |p duration w y Ey Ht Hw].
  - destruct (ack_ok id x chn Hok E) as (Hok' & _ & Hb). split; [done|].
    pose proof (ok_lane _ Hok) as Hl. destruct (ok_drawn _ Hl _ (inflight_contents _ _ _ E)) as (k & Hk & Hid).
    rewrite (ok_filed _ Hl _ _ E) in Hid. unfold ack_channel, remove_lease. rewrite E. cbn. split; [by exists k|].
    unfold holds. intros Hin. pose proof (ok_distinct _ Hl) as Hnd. cbn in Hnd.
    rewrite <- (contents_remove _ _ _ E) in Hnd. apply list.NoDup_cons in Hnd as [Hnin _].
    apply Hnin, list_elem_of_In. assert (delivery_id (leased x) = id) as -> by exact (ok_filed _ Hl _ _ E). exact Hin.
  - destruct (channel_step_sound chn [] [] _ Hok (cs_nack chn id)) as (Hok' & _ & _). split; [done|].
    unfold nack_channel, nack_lane. cbn. rewrite E. cbn. rewrite <- surjective_pairing.
    by apply (requeue_retires new_v4_inj id x), E; apply Hok.
  - destruct (channel_step_sound chn [] [] _ Hok (cs_receive chn p duration w Hw)) as (Hok' & _ & _). split; [done|].
    unfold receive_matching_channel. cbn.
    set (ln := reclaim_expired (entries w) (now w) (lane chn.1, chn.2)).
    assert (Hm : lane_moves (lane chn.1, chn.2) ln) by apply (reclaim_moves new_v4_inj), Hok.
    assert (Hr : retired_id ln id).
    { apply (requeue_all_retires new_v4_inj _ _ id x); [apply Hok| |done].
      apply (expired_ids_spec (lane chn.1) (entries w) (now w) id Hw). by exists y. }
    eapply retired_id_grow; [done|exact Hr|]. apply (lease_matching_moves p), Hm.
Qed.

(** C11: a lease ends once: after it was acknowledged, given back, or reclaimed past its
    deadline, its id is unknown for ever; every later [ack] or [nack] of it is answered
    [UnknownDelivery] and changes nothing, whatever happened in between. *)
Theorem ended_leases_unknown chn id x chn' accepted settled chn'' :
  channel_ok chn -> inflight (lane chn.1) !! id = Some x -> lease_ends chn id chn' ->
  channel_run chn' accepted settled chn'' ->
  ack_channel id chn'' = (Err (UnknownDelivery id), chn'') /\
  nack_channel id chn'' = (Err (UnknownDelivery id), chn'').
Proof.
  intros Hok E He Hrun. destruct (lease_ends_retired chn id x chn' Hok E He) as [Hok' Hret].
  assert (Hfin : channel_ok chn'' /\ retired_id (lane chn''.1, chn''.2) id).
  { clear -Hrun Hok' Hret new_v4_inj. induction Hrun as [|chn a s chn' a' s' chn'' Hs _ IH]; [done|].
    destruct (channel_step_sound _ _ _ _ Hok' Hs) as (Hok'' & Hg & _). apply IH; [done|].
    by eapply retired_id_grow. }
  destruct Hfin as [Hok'' [_ Hn]].
  pose proof (not_held_not_leased _ _ _ (ok_lane _ Hok'') Hn) as Hnone. destruct chn'' as [[l dd] n]. cbn in Hnone.
  unfold ack_channel, nack_channel, remove_lease, nack_lane. cbn. by rewrite Hnone.
Qed.

(** C16: a live lease is exclusive: until its deadline has passed, no receive hands out a
    delivery with its key, and the lease stays as it is. *)
Theorem lease_exclusive p duration w chn id x d chn' :
  channel_ok chn -> enumerates w (lane chn.1) -> inflight (lane chn.1) !! id = Some x -> (now w < leased_until x)%Z ->
  receive_matching_channel p duration w chn = (Some d, chn') ->
  dedupe_key d <> dedupe_key (leased x) /\ inflight (lane chn'.1) !! id = Some x.
Proof.
  intros Hok Hw E Ht. unfold receive_matching_channel.
  set (ln := reclaim_expired (entries w) (now w) (lane chn.1, chn.2)). intros [= Hd <-].
  assert (Hm : lane_moves (lane chn.1, chn.2) ln) by apply (reclaim_moves new_v4_inj), Hok.
  assert (E' : inflight ln.1 !! id = Some x).
  { unfold ln. rewrite (reclaim_lookup _ _ (lane chn.1, chn.2) id Hw). cbn. rewrite E.
    by destruct (Z.leb_spec (leased_until x) (now w)); [lia|]. }
  pose proof (lease_matching_spec p (lease_now w + duration)%Z ln.1) as Hs.
  destruct (lease_matching p _ ln.1) as [o l']. cbn in Hd. subst o. cbn [snd].
  destruct Hs as (before & after & Hq & _ & _ & ->).
  assert (Hin : In d (queue ln.1)) by (rewrite Hq; apply in_app_iff; right; by left).
  destruct ln as [l n]. cbn in *. pose proof (moves_ok _ _ Hm) as Hlok.
  pose proof (ok_keys _ (channel_ok_moves _ _ _ Hok Hm)) as Hnd. cbn in Hnd. split.
  - intros Heq. unfold contents in Hnd. rewrite map_app in Hnd. apply list.NoDup_app in Hnd as (_ & Hdis & _).
    apply (Hdis (dedupe_key d)); apply list_elem_of_In; [by apply in_map|]. rewrite Heq. apply in_map, in_map_iff.
    exists (id, x). split; [done|]. apply list_elem_of_In. by apply elem_of_map_to_list.
  - rewrite lookup_insert_ne; [done|]. intros Hid. pose proof (queued_not_leased l n d Hlok Hin) as Hnone.
    change (delivery_id d) with (id_of d) in Hid. rewrite Hid in Hnone. by rewrite Hnone in E'.
Qed.

(** One attempt of a scanning receive. *)
Lemma receive_matching_spec p duration w chn :
  (forall u d, p (redeliver u d) = p d) -> channel_ok chn -> enumerates w (lane chn.1) ->
  match receive_matching_channel p duration w chn with
  | (Some d, chn') => p d = true /\
      inflight (lane chn'.1) !! id_of d = Some (mk_leased d (lease_now w + duration)%Z) /\
      exists before after front, (front ++ queue (lane chn.1) = before ++ d :: after)%list /\
        queue (lane chn'.1) = (before ++ after)%list /\ (forall y, In y before -> p y = false) /\
        ((forall id x, inflight (lane chn.1) !! id = Some x -> (now w < leased_until x)%Z) -> front = [])
  | (None, chn') =>
      (forall d, In d (queue (lane chn.1)) -> p d = false) /\
      (forall id x, inflight (lane chn.1) !! id = Some x -> (leased_until x <= now w)%Z -> p (leased x) = false)
  end.
Proof.
  intros Hp Hok Hw. unfold receive_matching_channel.
  set (ln := reclaim_expired (entries w) (now w) (lane chn.1, chn.2)).
  destruct (requeue_all_queue (expired_ids (entries w) (now w)) (lane chn.1, chn.2)) as (front & Hfront).
  change (queue ln.1 = (front ++ queue (lane chn.1))%list) in Hfront.
  pose proof (lease_matching_spec p (lease_now w + duration)%Z ln.1) as Hs.
  destruct (lease_matching p _ ln.1) as [[d|] l']; cbn [fst snd].
  - destruct Hs as (before & after & Hq & Hd & Hb & ->). split; [done|]. split; [apply lookup_insert_eq|].
    exists before, after, front. rewrite <- Hfront. split; [done|]. split; [done|]. split; [done|].
    intros Hlive. assert (expired_ids (entries w) (now w) = []) as He.
    { destruct (expired_ids (entries w) (now w)) as [|id ids] eqn:He; [done|].
      assert (id ∈ expired_ids (entries w) (now w)) as Hin by (rewrite He; by left).
      apply (expired_ids_spec (lane chn.1) _ _ _ Hw) in Hin as (x & Hx & Ht). specialize (Hlive id x Hx). lia. }
    unfold ln, reclaim_expired in Hfront. rewrite He in Hfront. cbn in Hfront.
    by apply (app_inv_tail (queue (lane chn.1)) front []).
  - destruct Hs as [_ Hn]. split.
    + intros d Hd. apply Hn. rewrite Hfront. apply in_app_iff. by right.
    + intros id x E Ht. destruct (requeue_all_queued (expired_ids (entries w) (now w)) (lane chn.1, chn.2) id x) as (u & Hu).
      * apply (expired_ids_spec (lane chn.1) _ _ _ Hw). by exists x.
      * done.
      * rewrite <- (Hp u). by apply Hn.
Qed.
End channel_facts.

(** ** The broker *)

Section broker_facts.
Context {IDS : IdSource} {CE : CommExternals}.
Hypothesis new_v4_inj : forall i j, new_v4 i = new_v4 j -> i = j.
Implicit Types (b : Broker).

Lemma lane_ok_later {D} `{Deliverable D} (l : Lane D) n m : lane_ok (l, n) -> n <= m -> lane_ok (l, m).
Proof.
  intros [Hf Hd Hn] Hm. split; cbn in *; [done| |done]. intros d Hin. destruct (Hd d Hin) as (k & Hk & He).
  exists k. split; [lia|done].
Qed.

Lemma channel_run_snoc {P} `{Keyable P} (chn chn' chn'' : Channel P * nat) a s a' s' :
  channel_run chn a s chn' -> channel_step chn' a' s' chn'' -> channel_run chn (a ++ a') (s ++ s') chn''.
Proof.
  induction 1 as [chn|chn a0 s0 chn0 a1 s1 chn1 Hs _ IH]; intros H'.
  - rewrite <- (app_nil_r a'), <- (app_nil_r s'). cbn [app].
    rewrite <- (app_nil_l (a' ++ [])), <- (app_nil_l (s' ++ [])). cbn [app]. by eapply run_step; [|constructor].
  - rewrite <- !app_assoc. eapply run_step; [done|]. by apply IH.
Qed.

(** A channel of the broker has been run from empty. *)
Definition has_run {P} `{Keyable P} (c : Channel P) (n : nat) : Prop :=
  exists accepted settled, channel_run (empty_channel, 0) accepted settled (c, n).

Lemma has_run_step {P} `{Keyable P} (c : Channel P) n a s chn : has_run c n -> channel_step (c, n) a s chn ->
  has_run chn.1 chn.2 /\ n <= chn.2.
Proof.
  intros (a0 & s0 & Hr) Hs. split.
  - exists (a0 ++ a)%list, (s0 ++ s)%list. rewrite <- surjective_pairing. by eapply channel_run_snoc.
  - destruct (channel_run_sound new_v4_inj 0 a0 s0 (c, n) Hr) as [_ Hok].
    by destruct (channel_step_sound new_v4_inj _ _ _ _ Hok Hs) as (_ & [Hle _] & _).
Qed.

Lemma has_run_later {P} `{Keyable P} (c : Channel P) n m : has_run c n -> n <= m -> has_run c m.
Proof. intros Hr Hm. by apply (has_run_step c n [] [] (c, m)); [|apply (cs_other (c, n) m)]. Qed.

Lemma publish_step {P} `{Keyable P} (m : Message P) chn : exists a s, channel_step chn a s (publish_channel m chn).2.
Proof.
  destruct (publish_channel m chn).1 as [[]|e] eqn:E; [eexists _, _; by apply cs_publish|eexists _, _; by eapply cs_duplicate].
Qed.

Lemma ack_step {P} `{Keyable P} id (chn : Channel P * nat) : exists a s, channel_step chn a s (ack_channel id chn).2.
Proof.
  destruct (inflight (lane chn.1) !! id) as [x|] eqn:E; [eexists _, _; by eapply cs_ack|eexists _, _; by apply cs_ack_unknown].
Qed.

(** What holds of a broker that was reached from an empty one. *)
Record broker_ok b : Prop := {
  ok_actions : has_run (actions b) (minted b);
  ok_controls : lane_ok (controls b, minted b);
  ok_results : has_run (results b) (minted b);
  ok_wakes : has_run (wakes b) (minted b);
  ok_ingress : has_run (ingress b) (minted b)
}.

Ltac set_channel :=
  let Hs := fresh in
  intros [] (? & ? & Hs);
  match type of Hs with
  | channel_step (?c, ?n) _ _ _ =>
      match goal with H : has_run c n |- _ => destruct (has_run_step c n _ _ _ H Hs) end
  end; split; cbn; first [eassumption | eapply has_run_later; eassumption | eapply lane_ok_later; eassumption].

Lemma set_actions_ok b chn : broker_ok b -> (exists a s, channel_step (actions b, minted b) a s chn) -> broker_ok (set_actions b chn).
Proof. set_channel. Qed.
Lemma set_results_ok b chn : broker_ok b -> (exists a s, channel_step (results b, minted b) a s chn) -> broker_ok (set_results b chn).
Proof. set_channel. Qed.
Lemma set_wakes_ok b chn : broker_ok b -> (exists a s, channel_step (wakes b, minted b) a s chn) -> broker_ok (set_wakes b chn).
Proof. set_channel. Qed.
Lemma set_ingress_ok b chn : broker_ok b -> (exists a s, channel_step (ingress b, minted b) a s chn) -> broker_ok (set_ingress b chn).
Proof. set_channel. Qed.

Lemma set_controls_ok b ln : broker_ok b -> lane_ok ln -> minted b <= ln.2 -> broker_ok (set_controls b ln).
Proof. intros [Ha Hc Hr Hw Hi] Hl Hle. destruct ln. split; cbn; first [done | by eapply has_run_later]. Qed.

(** Dropping stale controls. *)
Lemma drop_stale_ok utc l n : lane_ok (l, n) -> lane_ok (drop_stale_control utc l, n).
Proof.
  intros Hok. apply (lane_ok_smaller l _ n (List.filter (fun d => negb (control_fresh utc d)) (queue l)) Hok);
    [|apply (ok_filed _ Hok)].
  unfold contents, drop_stale_control. cbn. rewrite app_assoc. apply Permutation_app_tail.
  induction (queue l) as [|d q IH]; cbn; [done|]. destruct (control_fresh utc d); cbn; [|by constructor].
  rewrite <- Permutation_middle. by constructor.
Qed.

Lemma receive_control_ok p duration w ln : lane_ok ln ->
  lane_ok (receive_control_matching p duration w ln).2 /\ ln.2 <= (receive_control_matching p duration w ln).2.2.
Proof.
  intros Hok. unfold receive_control_matching. cbn. pose proof (reclaim_moves new_v4_inj (entries w) (now w) ln Hok) as Hm.
  set (ln' := reclaim_expired (entries w) (now w) ln) in *. split; [|apply Hm].
  destruct ln' as [l n]. apply (lease_matching_moves p _ (drop_stale_control (utc_now w) l, n)).
  apply drop_stale_ok, Hm.
Qed.

Lemma step_ok b b' : broker_ok b -> step b b' -> broker_ok b'.
Proof.
  intros Hok [m|profile w Hw|id|id|c utc|w Hw|profile w Hw|id|id|m|w Hw|id|id|m|w Hw|id|id|m|w Hw|id|id];
    first [ apply set_actions_ok | apply set_results_ok | apply set_wakes_ok | apply set_ingress_ok
          | apply set_controls_ok ]; try exact Hok;
    first [ apply publish_step | apply ack_step
          | by eexists _, _; apply cs_receive | by eexists _, _; apply cs_receive_head | by eexists _, _; apply cs_nack
          | idtac ]; pose proof (ok_controls _ Hok) as Hl.
  - exact (proj1 (lane_ok_push_back new_v4_inj _ _ (mk_control_delivery 0%Z c utc) Hl)).
  - cbn. lia.
  - by apply receive_control_ok.
  - by apply (receive_control_ok _ _ _ (controls b, minted b)).
  - by apply receive_control_ok.
  - by apply (receive_control_ok _ _ _ (controls b, minted b)).
  - unfold ack_control_lane, remove_lease. destruct (inflight (controls b) !! id) as [x|] eqn:E; cbn; [|done].
    by eapply lane_ok_remove.
  - done.
  - unfold nack_lane. cbn. destruct (inflight (controls b) !! id); cbn; [|done]. by apply requeue_moves.
  - unfold nack_lane. cbn. destruct (inflight (controls b) !! id); cbn; [|done].
    by apply (requeue_moves new_v4_inj id (controls b, minted b)).
Qed.

Lemma reachable_sound b : reachable b ->
  broker_ok b /\
  channel_ok (actions b, minted b) /\ channel_ok (results b, minted b) /\
  channel_ok (wakes b, minted b) /\ channel_ok (ingress b, minted b).
Proof.
  intros (duration & Hr).
  assert (Hok : broker_ok b).
  { remember (with_lease_duration duration) as b0 eqn:Hb0. assert (Hok0 : broker_ok b0).
    { subst b0. assert (Hrun : forall P (K : Keyable P), has_run (P := P) empty_channel 0) by (intros; exists [], []; constructor).
      split; cbn; try apply Hrun. apply lane_ok_empty. }
    clear Hb0. induction Hr as [b|b b' b'' Hs _ IH]; [done|]. apply IH. by eapply step_ok. }
  split; [done|]. destruct Hok as [(? & ? & Ha) _ (? & ? & Hre) (? & ? & Hw) (? & ? & Hi)].
  repeat split; by eapply channel_run_sound.
Qed.

(** C7: the broker refines its channels: in every reachable state each channel with dedupe
    keys is the result of a run of calls on it alone from empty, so that its keys are
    exactly those of what it holds, each held once, and its leases are filed under
    drawn, distinct ids; the lease invariant also holds of the control channel. *)
Theorem broker_refines_channels b : reachable b ->
  (has_run (actions b) (minted b) /\ has_run (results b) (minted b) /\
   has_run (wakes b) (minted b) /\ has_run (ingress b) (minted b)) /\
  channel_ok (actions b, minted b) /\ channel_ok (results b, minted b) /\
  channel_ok (wakes b, minted b) /\ channel_ok (ingress b, minted b) /\ lane_ok (controls b, minted b).
Proof. intros Hr. destruct (reachable_sound b Hr) as [[] Hok]. tauto. Qed.

(** C15: action routing: a worker only receives actions whose target matches its profile,
    and receives the first of them in queue order, the others keeping theirs: an action
    for another worker at the head holds nobody up.  A receive that finds nothing leaves
    no matching action behind, neither queued nor under an expired lease. *)
Theorem receive_for_routes profile w b :
  channel_ok (actions b, minted b) -> enumerates w (lane (actions b)) ->
  match receive_for profile w b with
  | (Some d, b') => target_matches (action_target (command d)) profile = true /\
      inflight (lane (actions b')) !! delivery_id d = Some (mk_leased d (lease_now w + lease_duration b)%Z) /\
      exists before after front, (front ++ queue (lane (actions b)) = before ++ d :: after)%list /\
        queue (lane (actions b')) = (before ++ after)%list /\
        (forall y, In y before -> target_matches (action_target (command y)) profile = false) /\
        ((forall id x, inflight (lane (actions b)) !! id = Some x -> (now w < leased_until x)%Z) -> front = [])
  | (None, b') =>
      (forall d, In d (queue (lane (actions b))) -> target_matches (action_target (command d)) profile = false) /\
      (forall id x, inflight (lane (actions b)) !! id = Some x -> (leased_until x <= now w)%Z ->
         target_matches (action_target (command (leased x))) profile = false)
  end.
Proof.
  intros Hok Hw.
  pose proof (receive_matching_spec (fun d : Delivery ActionCommand => target_matches (action_target (command d)) profile)
    (lease_duration b) w (actions b, minted b) ltac:(done) Hok Hw) as H.
  unfold receive_for. destruct (receive_matching_channel _ _ _ _) as [[d|] chn']; exact H.
Qed.

Lemma fresh_filter utc (q : list ControlDelivery) :
  Forall (fun d => control_fresh utc d = true) (List.filter (control_fresh utc) q).
Proof. apply List.Forall_forall. intros x Hx. apply (proj1 (List.filter_In _ _ _)) in Hx. apply Hx. Qed.

Lemma control_fresh_iff utc d : control_fresh utc d = true <-> (utc < control_enqueued_at d + 300 * 1000000000)%Z.
Proof. unfold control_fresh, num_seconds, STALE_CONTROL_TTL_SECONDS. rewrite Z.ltb_lt. Z.quot_rem_to_equations. lia. Qed.

Lemma receive_control_spec profile w b :
  lane_ok (controls b, minted b) -> enumerates w (controls b) ->
  let matching d := target_matches (control_target (control_command d)) profile in
  match receive_control_for profile w b with
  | (o, b') =>
      Forall (fun d => control_fresh (utc_now w) d = true) (queue (controls b')) /\
      match o with
      | Some d => matching d = true /\ control_fresh (utc_now w) d = true /\
          inflight (controls b') !! control_delivery_id d = Some (mk_leased d (lease_now w + lease_duration b)%Z)
      | None =>
          (forall d, In d (queue (controls b)) -> control_fresh (utc_now w) d = true -> matching d = false) /\
          (forall id x, inflight (controls b) !! id = Some x -> (leased_until x <= now w)%Z ->
             control_fresh (utc_now w) (leased x) = true -> matching (leased x) = false)
      end
  end.
Proof.
  intros Hok Hw matching. unfold receive_control_for, receive_control_matching. cbn [fst snd].
  set (ln := reclaim_expired (entries w) (now w) (controls b, minted b)).
  destruct (requeue_all_queue (expired_ids (entries w) (now w)) (controls b, minted b)) as (front & Hfront).
  change (queue ln.1 = (front ++ queue (controls b))%list) in Hfront.
  pose proof (lease_matching_spec matching (lease_now w + lease_duration b)%Z (drop_stale_control (utc_now w) ln.1)) as Hs.
  fold matching. destruct (lease_matching matching _ _) as [[d|] l']; cbn [fst snd set_controls controls].
  - destruct Hs as (before & after & Hq & Hd & _ & ->). cbn [queue lease]. cbn in Hq.
    assert (Hf : Forall (fun d => control_fresh (utc_now w) d = true) (before ++ d :: after)).
    { rewrite <- Hq. apply fresh_filter. }
    apply Forall_app in Hf as [Hf1 Hf2]. apply List.Forall_cons_iff in Hf2 as [Hfd Hf2].
    split; [by apply Forall_app|]. split; [done|]. split; [done|]. apply lookup_insert_eq.
  - destruct Hs as [-> Hn]. cbn [queue drop_stale_control] in *.
    split; [apply fresh_filter|]. split.
    + intros d Hd Hfr. apply Hn, filter_In. split; [|done]. rewrite Hfront. apply in_app_iff. by right.
    + intros id x E Ht Hfr. destruct (requeue_all_queued (expired_ids (entries w) (now w)) (controls b, minted b) id x) as (u & Hu).
      * apply (expired_ids_spec (controls b) _ _ _ Hw). by exists x.
      * done.
      * exact (Hn (redeliver u (leased x)) (proj2 (List.filter_In _ _ _) (conj Hu Hfr))).
Qed.

(** C39: control routing: a control handed out matches the profile and was queued less than
    the time to live of 300 seconds ago, and no queued control is older than it afterwards: a control for a
    replica that never returns is dropped, never delivered late.  A receive that finds
    nothing leaves no fresh matching control behind. *)
Theorem receive_control_fresh profile w b :
  lane_ok (controls b, minted b) -> enumerates w (controls b) ->
  let matching d := target_matches (control_target (control_command d)) profile in
  let fresh d := (utc_now w < control_enqueued_at d + 300 * 1000000000)%Z in
  match receive_control_for profile w b with
  | (o, b') =>
      Forall fresh (queue (controls b')) /\
      match o with
      | Some d => matching d = true /\ fresh d /\
          inflight (controls b') !! control_delivery_id d = Some (mk_leased d (lease_now w + lease_duration b)%Z)
      | None =>
          (forall d, In d (queue (controls b)) -> fresh d -> matching d = false) /\
          (forall id x, inflight (controls b) !! id = Some x -> (leased_until x <= now w)%Z ->
             fresh (leased x) -> matching (leased x) = false)
      end
  end.
Proof.
  intros Hok Hw matching fresh. pose proof (receive_control_spec profile w b Hok Hw) as H.
  destruct (receive_control_for profile w b) as [o b']. destruct H as [Hq H]. split.
  - apply (List.Forall_impl _ (fun d => proj1 (control_fresh_iff (utc_now w) d)) Hq).
  - destruct o as [d|].
    + destruct H as (Hm & Hf & Hl). split; [done|]. by apply control_fresh_iff in Hf.
    + destruct H as [Hd Hx]. split; [intros d Hin Hf|intros id x Hin Ht Hf]; [apply Hd|eapply Hx];
        try done; by apply control_fresh_iff.
Qed.
End broker_facts.

(** ** A concrete broker *)

Definition nat_ids : IdSource := Z.of_nat.

Lemma nat_ids_inj i j : @new_v4 nat_ids i = @new_v4 nat_ids j -> i = j.
Proof. apply Nat2Z.inj. Qed.

Section witnesses.
#[local] Existing Instance nat_ids.
#[local] Existing Instance comm_stub.

Definition wake_message : Message WakeCommand := mk_message (mk_wake 1 2 "n" 0 3 4) None 0%Z.

Definition around {D} (l : Lane D) (t : Instant) : Surroundings D := mk_surroundings (map_to_list (inflight l)) t t t.

Definition published_wake : Channel WakeCommand * nat := (publish_channel wake_message (empty_channel, 0)).2.

(** The wake is leased until time 30. *)
Definition leased_wake : Channel WakeCommand * nat :=
  (receive_head_channel 30 (around (lane published_wake.1) 0%Z) published_wake).2.

Definition second_wake : Channel WakeCommand * nat :=
  (publish_channel (mk_message (mk_wake 5 2 "m" 0 6 4) None 0%Z) leased_wake).2.

Lemma leased_wake_run : channel_run (empty_channel, 0) [delivery_of 0%Z wake_message] [] leased_wake.
Proof.
  eapply (run_step _ [_] [] published_wake [] []); [by apply (cs_publish _ wake_message)|].
  eapply (run_step _ [] [] leased_wake [] []);
    [apply (cs_receive_head published_wake 30 (around (lane published_wake.1) 0%Z)); apply Permutation_refl|].
  constructor.
Defined.

Lemma second_wake_ok : channel_ok leased_wake /\ channel_ok second_wake.
Proof.
  destruct (channel_run_sound nat_ids_inj _ _ _ _ leased_wake_run) as [_ Hok]. split; [exact Hok|].
  eapply (channel_step_sound nat_ids_inj); [exact Hok|].
  by apply (cs_publish leased_wake (mk_message (mk_wake 5 2 "m" 0 6 4) None 0%Z)).
Qed.

Lemma at_least_once_witness :
  [delivery_of 0%Z wake_message] ≡ₚ ([] ++ bodies (lane leased_wake.1))%list.
Proof. apply (at_least_once nat_ids_inj 0 _ _ _ leased_wake_run). Defined.

Lemma publish_dedupes_witness : publish_channel wake_message leased_wake = (Err (Duplicate (dedupe_key_or_hash wake_message)), leased_wake).
Proof.
  pose proof (publish_dedupes nat_ids_inj wake_message leased_wake (proj1 second_wake_ok)) as H. cbn zeta in H.
  destruct (decide _) as [_|Hn]; [exact H|]. exfalso. apply Hn. vm_compute. left.
Defined.

Lemma ended_leases_unknown_witness :
  (ack_channel 0%Z leased_wake).1 = Ok tt /\
  ack_channel 0%Z (ack_channel 0%Z leased_wake).2 = (Err (UnknownDelivery 0%Z), (ack_channel 0%Z leased_wake).2).
Proof.
  split; [reflexivity|].
  apply (ended_leases_unknown nat_ids_inj leased_wake 0%Z
    (mk_leased (delivery_of 0%Z wake_message) 30%Z) (ack_channel 0%Z leased_wake).2 [] []).
  - apply second_wake_ok.
  - reflexivity.
  - apply ends_ack.
  - apply run_done.
Defined.

(** At time 20 the other wake is handed out, not the leased one. *)
Lemma lease_exclusive_witness :
  exists d chn', receive_matching_channel (fun _ => true) 30 (around (lane second_wake.1) 20%Z) second_wake = (Some d, chn') /\
    dedupe_key d <> dedupe_key (delivery_of 0%Z wake_message).
Proof.
  eexists _, _. split; [vm_compute; reflexivity|].
  eapply (lease_exclusive nat_ids_inj (fun _ => true) 30 (around (lane second_wake.1) 20%Z) second_wake 0%Z
    (mk_leased (delivery_of 0%Z wake_message) 30%Z)).
  - apply second_wake_ok.
  - apply Permutation_refl.
  - reflexivity.
  - cbn. lia.
  - vm_compute. reflexivity.
Defined.

Definition action_for (id : Uuid) (target : ActionTarget) : Message ActionCommand :=
  mk_message (mk_action_command id 2 3 "n" (mk_action "p" "f" 60 default_object false [] []) 1 VNull target 9 ∅) None 0%Z.

(** An action for replica 7 queued before one for the pool. *)
Definition one_action : Broker := (publish (action_for 10 (TargetReplica 7)) broker_new).2.
Definition two_actions : Broker := (publish (action_for 11 TargetAny) one_action).2.

Lemma two_actions_reachable : reachable two_actions.
Proof.
  exists DEFAULT_LEASE_DURATION.
  eapply rtc_l; [exact (step_publish broker_new (action_for 10 (TargetReplica 7)))|].
  eapply rtc_l; [exact (step_publish one_action (action_for 11 TargetAny))|]. apply rtc_refl.
Defined.

Lemma broker_refines_channels_witness :
  reachable two_actions /\ channel_ok (actions two_actions, minted two_actions).
Proof.
  split; [exact two_actions_reachable|].
  apply (broker_refines_channels nat_ids_inj two_actions two_actions_reachable).
Defined.

Lemma two_actions_ok : channel_ok (actions two_actions, minted two_actions).
Proof. apply (reachable_sound nat_ids_inj two_actions two_actions_reachable). Qed.

Lemma receive_for_routes_witness :
  let w := around (lane (actions two_actions)) 0%Z in
  exists d b', receive_for (shared "server") w two_actions = (Some d, b') /\
    command_id (command d) = 11%Z /\ target_matches (action_target (command d)) (shared "server") = true.
Proof.
  intros w.
  pose proof (receive_for_routes (shared "server") w two_actions two_actions_ok (Permutation_refl _)) as H.
  destruct (receive_for (shared "server") w two_actions) as [[d|] b'] eqn:E; [|vm_compute in E; discriminate E].
  exists d, b'. split; [reflexivity|]. split; [|apply H]. vm_compute in E. by injection E as <- _.
Defined.

(** A control published at time 0 for replica 7; 300 seconds later it is gone. *)
Definition one_control : Broker :=
  (publish_control (targeting_replica (control_new 1 CtlCancel) 7) 0%Z broker_new).2.

Lemma receive_control_fresh_witness :
  let w := mk_surroundings [] 0%Z 0%Z 300000000000%Z in
  exists b', receive_control_for (with_replica_id (shared "late") 7) w one_control = (None, b') /\
    Forall (fun d => (300000000000 < control_enqueued_at d + 300 * 1000000000)%Z) (queue (controls b')).
Proof.
  intros w. assert (Hok : lane_ok (controls one_control, minted one_control)).
  { refine (ok_controls _ (proj1 (reachable_sound nat_ids_inj one_control _))). exists DEFAULT_LEASE_DURATION.
    eapply rtc_l; [exact (step_publish_control broker_new (targeting_replica (control_new 1 CtlCancel) 7) 0%Z)|]. apply rtc_refl. }
  pose proof (receive_control_fresh (with_replica_id (shared "late") 7) w one_control Hok (Permutation_refl _)) as H.
  destruct (receive_control_for _ w one_control) as [[d|] b'] eqn:E; [vm_compute in E; discriminate E|].
  exists b'. split; [reflexivity|]. apply H.
Defined.
End witnesses.
